(** * Cesium3DTilesetTraversal: per-frame tile selection

    A shallow embedding of [Source/Scene/Cesium3DTilesetTraversal.js].

    Conventions of the embedding.
    - A tile object is named by a [TileId]; the fields the traversal only
      reads ([parent], [children], [refine], ...) live in a [Tile] record
      reached through [tree], the fields it writes (and the content flags,
      which the loader and [updateExpiration] change) live in a [TileState]
      record reached through the tileset's [heap].
    - JavaScript numbers are rationals ([Q]) and the traversal computes
      with them exactly; [Rounded] has the rounding of double precision
      and the error metric computed with it.  Frame stamps are integers
      ([Z]).
    - Arrays that are only pushed to ([_selectedTiles], ...) are lists in
      push order.  The scratch stacks are lists whose head is the top; the
      capacity bookkeeping of [ManagedArray] ([trim], the high-water marks)
      and the [console.log] calls have no counterpart.
    - The [while] loops take a [fuel] argument and return [None] when it
      runs out; [executeBaseTraversal_total] bounds the fuel they need.
    - Methods of [Cesium3DTile], [CullingVolume] and [CesiumMath] that the
      file calls but does not define are the fields of [Externals]. *)

From Stdlib Require Import List ZArith QArith Qminmax Qround Qpower Bool Lia Lqa
  Arith.
Import ListNotations.

(** ** Enumerations *)

Inductive Cesium3DTileRefine := ADD | REPLACE.

Inductive Intersect := OUTSIDE | INTERSECTING | INSIDE.

Inductive Cesium3DTileOptimizationHint :=
  NOT_COMPUTED | USE_OPTIMIZATION | SKIP_OPTIMIZATION.

Inductive SceneMode := MORPHING | COLUMBUS_VIEW | SCENE2D | SCENE3D.

Inductive Strategy := BaseTraversal | SkipTraversal | BaseAndSkipTraversal.

Definition refine_eqb (a b : Cesium3DTileRefine) : bool :=
  match a, b with
  | ADD, ADD | REPLACE, REPLACE => true
  | _, _ => false
  end.

Definition intersect_eqb (a b : Intersect) : bool :=
  match a, b with
  | OUTSIDE, OUTSIDE | INTERSECTING, INTERSECTING | INSIDE, INSIDE => true
  | _, _ => false
  end.

Definition hint_eqb (a b : Cesium3DTileOptimizationHint) : bool :=
  match a, b with
  | NOT_COMPUTED, NOT_COMPUTED | USE_OPTIMIZATION, USE_OPTIMIZATION
  | SKIP_OPTIMIZATION, SKIP_OPTIMIZATION => true
  | _, _ => false
  end.

Definition mode_eqb (a b : SceneMode) : bool :=
  match a, b with
  | MORPHING, MORPHING | COLUMBUS_VIEW, COLUMBUS_VIEW
  | SCENE2D, SCENE2D | SCENE3D, SCENE3D => true
  | _, _ => false
  end.

(** ** Constants of modules that are not among the sources

    [CullingVolume.MASK_*] and [CesiumMath.EPSILON7] with the values they
    have in Cesium; the proofs use only that the masks are distinct and
    that the epsilon is positive. *)

Definition MASK_OUTSIDE : Z := 0xffffffff.
Definition MASK_INSIDE : Z := 0.
Definition MASK_INDETERMINATE : Z := 0x7fffffff.
Definition EPSILON7 : Q := 1 # 10000000.

(** ** Numbers *)

(** [a > b] and [a < b] on JavaScript numbers. *)
Definition Qgtb (a b : Q) : bool := negb (Qle_bool a b).
Definition Qltb (a b : Q) : bool := negb (Qle_bool b a).

(** ** Tiles *)

Definition TileId := nat.

Record Tile := mkTile {
  parent : option TileId;
  children : list TileId;
  refine : Cesium3DTileRefine;
  geometricError : Q;
  hasEmptyContent : bool;
  hasTilesetContent : bool;
  _optimChildrenWithinParent : Cesium3DTileOptimizationHint;
  _depth : Z
}.

Record TileState := mkTileState {
  contentAvailable : bool;
  contentUnloaded : bool;
  contentExpired : bool;
  featurePropertiesDirty : bool;
  lastStyleTime : Q;
  _distanceToCamera : Q;
  _centerZDepth : Q;
  _screenSpaceError : Q;
  _visibilityPlaneMask : Z;
  _touchedFrame : Z;
  _visitedFrame : Z;
  _selectedFrame : Z;
  _lastSelectedFrameNumber : Z;
  selected : bool;
  _finalResolution : bool;
  _ancestorWithContentAvailable : option TileId;
  _refines : bool;
  _priority : Q
}.

(** ** Frame state *)

Record OffCenterFrustum := mkOffCenter {
  top : Q; bottom : Q; right : Q; left : Q
}.

Record Frustum := mkFrustum {
  isOrthographicFrustum : bool;          (* frustum instanceof OrthographicFrustum *)
  _offCenterFrustum : option OffCenterFrustum;
  extent : OffCenterFrustum;             (* frustum.top, .bottom, .right, .left *)
  sseDenominator : Q
}.

Record FrameState := mkFrameState {
  frameNumber : Z;
  mode : SceneMode;
  frustum : Frustum;                     (* frameState.camera.frustum *)
  drawingBufferWidth : Q;                (* frameState.context.drawingBufferWidth *)
  drawingBufferHeight : Q
}.

(** ** Collaborators

    What the traversal asks of modules outside this file, for the view of
    the current frame: the tile's culling and distance methods, its
    expiration check, and the fog function of [CesiumMath].  The effect of
    [tile.updateTransform] is part of what the distance and culling
    methods return.  [updateExpiration] maps the tile's content flags
    ([contentAvailable], [contentUnloaded], [contentExpired]) to their
    values after the call. *)

Record Externals := mkExternals {
  distanceToTile : TileId -> Q;
  distanceToTileCenter : TileId -> Q;
  visibility : TileId -> Z -> Z;         (* tile.visibility(frameState, parentMask) *)
  insideViewerRequestVolume : TileId -> bool;
  contentVisibility : TileId -> Intersect;
  updateExpiration : TileId -> bool * bool * bool -> bool * bool * bool;
  fog : Q -> Q -> Q                      (* CesiumMath.fog(distance, density) *)
}.

(** The content cache, seen through the calls made to it. *)
Inductive CacheCall := CacheReset | CacheTouch (tile : TileId).

Record Statistics := mkStatistics {
  visited : Z;
  numberOfTilesCulledWithChildrenUnion : Z
}.

(** ** Tileset *)

Record Tileset := mkTileset {
  debugFreezeFrame : bool;
  _maximumScreenSpaceError : Q;
  _geometricError : Q;
  _root : TileId;
  _skipLevelOfDetail : bool;
  skipLevelOfDetail : bool;
  immediatelyLoadDesiredLevelOfDetail : bool;
  loadSiblings : bool;
  skipLevels : Z;
  skipScreenSpaceErrorFactor : Q;
  dynamicScreenSpaceError : bool;
  _dynamicScreenSpaceErrorComputedDensity : Q;
  dynamicScreenSpaceErrorFactor : Q;
  _desiredTiles : list TileId;
  _selectedTiles : list TileId;
  _requestedTiles : list TileId;
  _selectedTilesToStyle : list TileId;
  _hasMixedContent : bool;
  _cache : list CacheCall;
  _statistics : Statistics;
  heap : TileId -> TileState
}.

(** ** Field assignment *)

Definition set_contentFlags (a u e : bool) (s : TileState) : TileState :=
  mkTileState a u e (featurePropertiesDirty s) (lastStyleTime s)
    (_distanceToCamera s) (_centerZDepth s) (_screenSpaceError s)
    (_visibilityPlaneMask s) (_touchedFrame s) (_visitedFrame s)
    (_selectedFrame s) (_lastSelectedFrameNumber s) (selected s)
    (_finalResolution s) (_ancestorWithContentAvailable s) (_refines s)
    (_priority s).

Definition set_featurePropertiesDirty (v : bool) (s : TileState) : TileState :=
  mkTileState (contentAvailable s) (contentUnloaded s) (contentExpired s)
    v (lastStyleTime s)
    (_distanceToCamera s) (_centerZDepth s) (_screenSpaceError s)
    (_visibilityPlaneMask s) (_touchedFrame s) (_visitedFrame s)
    (_selectedFrame s) (_lastSelectedFrameNumber s) (selected s)
    (_finalResolution s) (_ancestorWithContentAvailable s) (_refines s)
    (_priority s).

Definition set_lastStyleTime (v : Q) (s : TileState) : TileState :=
  mkTileState (contentAvailable s) (contentUnloaded s) (contentExpired s)
    (featurePropertiesDirty s) v
    (_distanceToCamera s) (_centerZDepth s) (_screenSpaceError s)
    (_visibilityPlaneMask s) (_touchedFrame s) (_visitedFrame s)
    (_selectedFrame s) (_lastSelectedFrameNumber s) (selected s)
    (_finalResolution s) (_ancestorWithContentAvailable s) (_refines s)
    (_priority s).

Definition set_distanceToCamera (v : Q) (s : TileState) : TileState :=
  mkTileState (contentAvailable s) (contentUnloaded s) (contentExpired s)
    (featurePropertiesDirty s) (lastStyleTime s)
    v (_centerZDepth s) (_screenSpaceError s)
    (_visibilityPlaneMask s) (_touchedFrame s) (_visitedFrame s)
    (_selectedFrame s) (_lastSelectedFrameNumber s) (selected s)
    (_finalResolution s) (_ancestorWithContentAvailable s) (_refines s)
    (_priority s).

Definition set_centerZDepth (v : Q) (s : TileState) : TileState :=
  mkTileState (contentAvailable s) (contentUnloaded s) (contentExpired s)
    (featurePropertiesDirty s) (lastStyleTime s)
    (_distanceToCamera s) v (_screenSpaceError s)
    (_visibilityPlaneMask s) (_touchedFrame s) (_visitedFrame s)
    (_selectedFrame s) (_lastSelectedFrameNumber s) (selected s)
    (_finalResolution s) (_ancestorWithContentAvailable s) (_refines s)
    (_priority s).

Definition set_screenSpaceError (v : Q) (s : TileState) : TileState :=
  mkTileState (contentAvailable s) (contentUnloaded s) (contentExpired s)
    (featurePropertiesDirty s) (lastStyleTime s)
    (_distanceToCamera s) (_centerZDepth s) v
    (_visibilityPlaneMask s) (_touchedFrame s) (_visitedFrame s)
    (_selectedFrame s) (_lastSelectedFrameNumber s) (selected s)
    (_finalResolution s) (_ancestorWithContentAvailable s) (_refines s)
    (_priority s).

Definition set_visibilityPlaneMask (v : Z) (s : TileState) : TileState :=
  mkTileState (contentAvailable s) (contentUnloaded s) (contentExpired s)
    (featurePropertiesDirty s) (lastStyleTime s)
    (_distanceToCamera s) (_centerZDepth s) (_screenSpaceError s)
    v (_touchedFrame s) (_visitedFrame s)
    (_selectedFrame s) (_lastSelectedFrameNumber s) (selected s)
    (_finalResolution s) (_ancestorWithContentAvailable s) (_refines s)
    (_priority s).

Definition set_touchedFrame (v : Z) (s : TileState) : TileState :=
  mkTileState (contentAvailable s) (contentUnloaded s) (contentExpired s)
    (featurePropertiesDirty s) (lastStyleTime s)
    (_distanceToCamera s) (_centerZDepth s) (_screenSpaceError s)
    (_visibilityPlaneMask s) v (_visitedFrame s)
    (_selectedFrame s) (_lastSelectedFrameNumber s) (selected s)
    (_finalResolution s) (_ancestorWithContentAvailable s) (_refines s)
    (_priority s).

Definition set_visitedFrame (v : Z) (s : TileState) : TileState :=
  mkTileState (contentAvailable s) (contentUnloaded s) (contentExpired s)
    (featurePropertiesDirty s) (lastStyleTime s)
    (_distanceToCamera s) (_centerZDepth s) (_screenSpaceError s)
    (_visibilityPlaneMask s) (_touchedFrame s) v
    (_selectedFrame s) (_lastSelectedFrameNumber s) (selected s)
    (_finalResolution s) (_ancestorWithContentAvailable s) (_refines s)
    (_priority s).

Definition set_lastSelectedFrameNumber (v : Z) (s : TileState) : TileState :=
  mkTileState (contentAvailable s) (contentUnloaded s) (contentExpired s)
    (featurePropertiesDirty s) (lastStyleTime s)
    (_distanceToCamera s) (_centerZDepth s) (_screenSpaceError s)
    (_visibilityPlaneMask s) (_touchedFrame s) (_visitedFrame s)
    (_selectedFrame s) v (selected s)
    (_finalResolution s) (_ancestorWithContentAvailable s) (_refines s)
    (_priority s).

Definition set_selected (v : bool) (s : TileState) : TileState :=
  mkTileState (contentAvailable s) (contentUnloaded s) (contentExpired s)
    (featurePropertiesDirty s) (lastStyleTime s)
    (_distanceToCamera s) (_centerZDepth s) (_screenSpaceError s)
    (_visibilityPlaneMask s) (_touchedFrame s) (_visitedFrame s)
    (_selectedFrame s) (_lastSelectedFrameNumber s) v
    (_finalResolution s) (_ancestorWithContentAvailable s) (_refines s)
    (_priority s).

Definition set_finalResolution (v : bool) (s : TileState) : TileState :=
  mkTileState (contentAvailable s) (contentUnloaded s) (contentExpired s)
    (featurePropertiesDirty s) (lastStyleTime s)
    (_distanceToCamera s) (_centerZDepth s) (_screenSpaceError s)
    (_visibilityPlaneMask s) (_touchedFrame s) (_visitedFrame s)
    (_selectedFrame s) (_lastSelectedFrameNumber s) (selected s)
    v (_ancestorWithContentAvailable s) (_refines s)
    (_priority s).

Definition set_ancestorWithContentAvailable (v : option TileId)
    (s : TileState) : TileState :=
  mkTileState (contentAvailable s) (contentUnloaded s) (contentExpired s)
    (featurePropertiesDirty s) (lastStyleTime s)
    (_distanceToCamera s) (_centerZDepth s) (_screenSpaceError s)
    (_visibilityPlaneMask s) (_touchedFrame s) (_visitedFrame s)
    (_selectedFrame s) (_lastSelectedFrameNumber s) (selected s)
    (_finalResolution s) v (_refines s)
    (_priority s).

Definition set_refines (v : bool) (s : TileState) : TileState :=
  mkTileState (contentAvailable s) (contentUnloaded s) (contentExpired s)
    (featurePropertiesDirty s) (lastStyleTime s)
    (_distanceToCamera s) (_centerZDepth s) (_screenSpaceError s)
    (_visibilityPlaneMask s) (_touchedFrame s) (_visitedFrame s)
    (_selectedFrame s) (_lastSelectedFrameNumber s) (selected s)
    (_finalResolution s) (_ancestorWithContentAvailable s) v
    (_priority s).

Definition set_priority (v : Q) (s : TileState) : TileState :=
  mkTileState (contentAvailable s) (contentUnloaded s) (contentExpired s)
    (featurePropertiesDirty s) (lastStyleTime s)
    (_distanceToCamera s) (_centerZDepth s) (_screenSpaceError s)
    (_visibilityPlaneMask s) (_touchedFrame s) (_visitedFrame s)
    (_selectedFrame s) (_lastSelectedFrameNumber s) (selected s)
    (_finalResolution s) (_ancestorWithContentAvailable s) (_refines s)
    v.

(** The nine tileset fields the traversal assigns, in one constructor. *)
Definition withFrame (ts : Tileset) (skip : bool)
    (desired selectedL requested toStyle : list TileId) (mixed : bool)
    (cache : list CacheCall) (stats : Statistics)
    (h : TileId -> TileState) : Tileset :=
  mkTileset (debugFreezeFrame ts) (_maximumScreenSpaceError ts)
    (_geometricError ts) (_root ts) skip (skipLevelOfDetail ts)
    (immediatelyLoadDesiredLevelOfDetail ts) (loadSiblings ts)
    (skipLevels ts) (skipScreenSpaceErrorFactor ts)
    (dynamicScreenSpaceError ts) (_dynamicScreenSpaceErrorComputedDensity ts)
    (dynamicScreenSpaceErrorFactor ts)
    desired selectedL requested toStyle mixed cache stats h.

Definition set_skipLevelOfDetail (v : bool) (ts : Tileset) : Tileset :=
  withFrame ts v (_desiredTiles ts) (_selectedTiles ts) (_requestedTiles ts)
    (_selectedTilesToStyle ts) (_hasMixedContent ts) (_cache ts)
    (_statistics ts) (heap ts).

Definition set_desiredTiles (v : list TileId) (ts : Tileset) : Tileset :=
  withFrame ts (_skipLevelOfDetail ts) v (_selectedTiles ts)
    (_requestedTiles ts) (_selectedTilesToStyle ts) (_hasMixedContent ts)
    (_cache ts) (_statistics ts) (heap ts).

Definition set_selectedTiles (v : list TileId) (ts : Tileset) : Tileset :=
  withFrame ts (_skipLevelOfDetail ts) (_desiredTiles ts) v
    (_requestedTiles ts) (_selectedTilesToStyle ts) (_hasMixedContent ts)
    (_cache ts) (_statistics ts) (heap ts).

Definition set_requestedTiles (v : list TileId) (ts : Tileset) : Tileset :=
  withFrame ts (_skipLevelOfDetail ts) (_desiredTiles ts) (_selectedTiles ts)
    v (_selectedTilesToStyle ts) (_hasMixedContent ts)
    (_cache ts) (_statistics ts) (heap ts).

Definition set_selectedTilesToStyle (v : list TileId) (ts : Tileset)
    : Tileset :=
  withFrame ts (_skipLevelOfDetail ts) (_desiredTiles ts) (_selectedTiles ts)
    (_requestedTiles ts) v (_hasMixedContent ts)
    (_cache ts) (_statistics ts) (heap ts).

Definition set_hasMixedContent (v : bool) (ts : Tileset) : Tileset :=
  withFrame ts (_skipLevelOfDetail ts) (_desiredTiles ts) (_selectedTiles ts)
    (_requestedTiles ts) (_selectedTilesToStyle ts) v
    (_cache ts) (_statistics ts) (heap ts).

Definition set_cache (v : list CacheCall) (ts : Tileset) : Tileset :=
  withFrame ts (_skipLevelOfDetail ts) (_desiredTiles ts) (_selectedTiles ts)
    (_requestedTiles ts) (_selectedTilesToStyle ts) (_hasMixedContent ts)
    v (_statistics ts) (heap ts).

Definition set_statistics (v : Statistics) (ts : Tileset) : Tileset :=
  withFrame ts (_skipLevelOfDetail ts) (_desiredTiles ts) (_selectedTiles ts)
    (_requestedTiles ts) (_selectedTilesToStyle ts) (_hasMixedContent ts)
    (_cache ts) v (heap ts).

Definition set_heap (v : TileId -> TileState) (ts : Tileset) : Tileset :=
  withFrame ts (_skipLevelOfDetail ts) (_desiredTiles ts) (_selectedTiles ts)
    (_requestedTiles ts) (_selectedTilesToStyle ts) (_hasMixedContent ts)
    (_cache ts) (_statistics ts) v.

(** [tile.f = ...]: the state of one tile replaced, the others kept. *)
Definition assign (tile : TileId) (f : TileState -> TileState)
    (ts : Tileset) : Tileset :=
  set_heap (fun j => if Nat.eqb j tile then f (heap ts tile) else heap ts j) ts.

(** [array.push(x)]. *)
Definition push {A : Type} (l : list A) (x : A) : list A := l ++ [x].

(** ** Outcomes of the skip traversal

    Its sibling loop dereferences [tile.parent] and [siblings[i]], which
    may be [undefined]; the call then ends in a [TypeError]. *)

Inductive Outcome (A : Type) :=
| Returns (a : A)
| TypeError
| NoFuel.

Arguments Returns {A} a.
Arguments TypeError {A}.
Arguments NoFuel {A}.

Definition bind {A B : Type} (m : Outcome A) (k : A -> Outcome B)
    : Outcome B :=
  match m with
  | Returns a => k a
  | TypeError => TypeError
  | NoFuel => NoFuel
  end.

Notation "' p <- m ;; k" := (bind m (fun p => k))
  (at level 61, p pattern, m at next level, right associativity).

(** ** The traversal *)

Section Traversal.

Variable tree : TileId -> Tile.
Variable X : Externals.
Variable frameState : FrameState.

(** [selectSkipTraversal] and [selectBaseAndSkipTraversal] end in a call of
    [traverseAndSelect], which the file defines only inside a comment, and
    the former passes four arguments to the three-parameter
    [executeSkipTraversal].  Their effect on the tileset is left open:
    every result below holds whatever they do. *)
Variable selectSkipTraversal : Tileset -> TileId -> option Tileset.
Variable selectBaseAndSkipTraversal : Tileset -> TileId -> option Tileset.

Definition getScreenSpaceError (ts : Tileset) (gError : Q) (tile : TileId)
    : Q :=
  if Qeq_bool gError 0 then 0
  else
    let fr := frustum frameState in
    let height := drawingBufferHeight frameState in
    if mode_eqb (mode frameState) SCENE2D || isOrthographicFrustum fr then
      let fr' := match _offCenterFrustum fr with
                 | Some o => o
                 | None => extent fr
                 end in
      let width := drawingBufferWidth frameState in
      let pixelSize :=
        Qmax (top fr' - bottom fr') (right fr' - left fr')
        / Qmax width height in
      gError / pixelSize
    else
      let distance := Qmax (_distanceToCamera (heap ts tile)) EPSILON7 in
      let error := (gError * height) / (distance * sseDenominator fr) in
      if dynamicScreenSpaceError ts then
        let density := _dynamicScreenSpaceErrorComputedDensity ts in
        let factor := dynamicScreenSpaceErrorFactor ts in
        let dynamicError := fog X distance density * factor in
        error - dynamicError
      else error.

Definition updateTile (ts : Tileset) (tile : TileId) : bool * Tileset :=
  let parentVisibilityPlaneMask :=
    match parent (tree tile) with
    | Some p => _visibilityPlaneMask (heap ts p)
    | None => MASK_INDETERMINATE
    end in
  let ts := assign tile (set_distanceToCamera (distanceToTile X tile)) ts in
  let ts := assign tile (set_centerZDepth (distanceToTileCenter X tile)) ts in
  let ts := assign tile (set_screenSpaceError
              (getScreenSpaceError ts (geometricError (tree tile)) tile)) ts in
  let visibilityPlaneMask := visibility X tile parentVisibilityPlaneMask in
  let visible := negb (Z.eqb visibilityPlaneMask MASK_OUTSIDE) in
  let visible := visible && insideViewerRequestVolume X tile in
  let ts := assign tile (set_visibilityPlaneMask
              (if visible then visibilityPlaneMask else MASK_OUTSIDE)) ts in
  (visible, ts).

Fixpoint updateChildren_from (cs : list TileId) (anyVisible : bool)
    (ts : Tileset) : bool * Tileset :=
  match cs with
  | [] => (anyVisible, ts)
  | child :: cs' =>
      let '(childVisible, ts) := updateTile ts child in
      updateChildren_from cs' (anyVisible || childVisible) ts
  end.

Definition updateChildren (ts : Tileset) (tile : TileId) : bool * Tileset :=
  updateChildren_from (children (tree tile)) false ts.

Definition countCulledWithChildrenUnion (ts : Tileset) : Tileset :=
  set_statistics
    (mkStatistics (visited (_statistics ts))
       (numberOfTilesCulledWithChildrenUnion (_statistics ts) + 1)) ts.

Definition getVisibility (ts : Tileset) (tile : TileId)
    (maximumScreenSpaceError : Q) : bool * Tileset :=
  if Z.eqb (_visibilityPlaneMask (heap ts tile)) MASK_OUTSIDE then (false, ts)
  else if hasTilesetContent (tree tile) && contentExpired (heap ts tile)
  then (false, ts)
  else if match parent (tree tile) with
          | Some p =>
              refine_eqb (refine (tree p)) ADD
              && Qle_bool
                   (getScreenSpaceError ts (geometricError (tree p)) tile)
                   maximumScreenSpaceError
          | None => false
          end
  then (false, ts)
  else
    let replace := refine_eqb (refine (tree tile)) REPLACE in
    let useOptimization :=
      hint_eqb (_optimChildrenWithinParent (tree tile)) USE_OPTIMIZATION in
    let meetsScreenSpaceError :=
      Qle_bool (_screenSpaceError (heap ts tile)) maximumScreenSpaceError in
    let '(anyChildrenVisible, ts) :=
      if (negb meetsScreenSpaceError || useOptimization)
         && negb (Nat.eqb (length (children (tree tile))) 0)
      then updateChildren ts tile
      else (true, ts) in
    if replace && useOptimization && negb anyChildrenVisible
    then (false, countCulledWithChildrenUnion ts)
    else (true, ts).

Definition updateVisibility (ts : Tileset) (tile : TileId)
    (maximumScreenSpaceError : Q) : bool * Tileset :=
  if Z.eqb (_touchedFrame (heap ts tile)) (frameNumber frameState)
  then (negb (Z.eqb (_visibilityPlaneMask (heap ts tile)) MASK_OUTSIDE), ts)
  else
    let '(visible, ts) := getVisibility ts tile maximumScreenSpaceError in
    let ts := assign tile (fun s =>
                set_visibilityPlaneMask
                  (if visible then _visibilityPlaneMask s else MASK_OUTSIDE) s)
                ts in
    (negb (Z.eqb (_visibilityPlaneMask (heap ts tile)) MASK_OUTSIDE), ts).

Definition selectTile (ts : Tileset) (tile : TileId) : Tileset :=
  if contentAvailable (heap ts tile)
     && (Z.eqb (_visibilityPlaneMask (heap ts tile)) MASK_INSIDE
         || negb (intersect_eqb (contentVisibility X tile) OUTSIDE))
  then
    let ts := set_selectedTiles (push (_selectedTiles ts) tile) ts in
    let ts :=
      if featurePropertiesDirty (heap ts tile) then
        let ts := assign tile (set_featurePropertiesDirty false) ts in
        let ts := assign tile (set_lastStyleTime 0) ts in
        set_selectedTilesToStyle (push (_selectedTilesToStyle ts) tile) ts
      else if negb (Z.eqb (_lastSelectedFrameNumber (heap ts tile))
                      (frameNumber frameState - 1))
      then set_selectedTilesToStyle (push (_selectedTilesToStyle ts) tile) ts
      else ts in
    assign tile (set_lastSelectedFrameNumber (frameNumber frameState)) ts
  else ts.

Definition visitTile (ts : Tileset) (tile : TileId) : Tileset :=
  if Z.eqb (_visitedFrame (heap ts tile)) (frameNumber frameState) then ts
  else
    let ts := assign tile (set_visitedFrame (frameNumber frameState)) ts in
    let ts := set_statistics
                (mkStatistics (visited (_statistics ts) + 1)
                   (numberOfTilesCulledWithChildrenUnion (_statistics ts)))
                ts in
    let ts := assign tile (set_selected false) ts in
    let ts := assign tile (set_finalResolution false) ts in
    let ts := assign tile (set_ancestorWithContentAvailable None) ts in
    let ts := assign tile (fun s =>
                let '(a, u, e) :=
                  updateExpiration X tile
                    (contentAvailable s, contentUnloaded s, contentExpired s)
                in set_contentFlags a u e s) ts in
    match parent (tree tile) with
    | Some p =>
        let replace := refine_eqb (refine (tree p)) REPLACE in
        assign tile (set_ancestorWithContentAvailable
          (if replace && contentAvailable (heap ts p) then Some p
           else _ancestorWithContentAvailable (heap ts p))) ts
    | None => ts
    end.

Definition touch (ts : Tileset) (tile : TileId) : Tileset :=
  if Z.eqb (_touchedFrame (heap ts tile)) (frameNumber frameState) then ts
  else
    let ts := set_cache (push (_cache ts) (CacheTouch tile)) ts in
    assign tile (set_touchedFrame (frameNumber frameState)) ts.

Definition getPriority (ts : Tileset) (tile : TileId) : Q :=
  match parent (tree tile) with
  | Some p =>
      if refine_eqb (refine (tree p)) REPLACE
      then _screenSpaceError (heap ts p)
      else _screenSpaceError (heap ts tile)
  | None => _screenSpaceError (heap ts tile)
  end.

Definition loadTile (ts : Tileset) (tile : TileId) : Tileset :=
  if Z.eqb (_touchedFrame (heap ts tile)) (frameNumber frameState) then ts
  else if contentUnloaded (heap ts tile) || contentExpired (heap ts tile)
  then
    let ts := assign tile (set_priority (getPriority ts tile)) ts in
    set_requestedTiles (push (_requestedTiles ts) tile) ts
  else ts.

(** [loadTile(c); touch(c); c._touchedFrame = frameNumber], the sequence
    the traversals run on a tile they keep alive. *)
Definition loadAndTouch (ts : Tileset) (tile : TileId) : Tileset :=
  let ts := loadTile ts tile in
  let ts := touch ts tile in
  assign tile (set_touchedFrame (frameNumber frameState)) ts.

(** *** Base traversal *)

Fixpoint internalBase_children (maximumScreenSpaceError : Q)
    (cs : list TileId) (stack : list TileId) (ts : Tileset)
    : list TileId * Tileset :=
  match cs with
  | [] => (stack, ts)
  | child :: cs' =>
      let '(_, ts) := updateVisibility ts child maximumScreenSpaceError in
      let ts := loadAndTouch ts child in
      internalBase_children maximumScreenSpaceError cs' (child :: stack) ts
  end.

(** The [while] loop of [executeInternalBaseTraversal]. *)
Fixpoint internalBase_loop (fuel : nat) (maximumScreenSpaceError : Q)
    (stack : list TileId) (allDescendantsLoaded : bool) (ts : Tileset)
    {struct fuel} : option (bool * Tileset) :=
  match stack with
  | [] => Some (allDescendantsLoaded, ts)
  | tile :: stack =>
      match fuel with
      | O => None
      | S fuel =>
          let cs := children (tree tile) in
          let traverse :=
            (hasEmptyContent (tree tile) || hasTilesetContent (tree tile))
            && negb (Nat.eqb (length cs) 0)
            && Qgtb (_screenSpaceError (heap ts tile)) maximumScreenSpaceError in
          let allDescendantsLoaded :=
            if negb traverse && negb (contentAvailable (heap ts tile))
            then false else allDescendantsLoaded in
          let '(stack, ts) :=
            if traverse
            then internalBase_children maximumScreenSpaceError cs stack ts
            else (stack, ts) in
          internalBase_loop fuel maximumScreenSpaceError stack
            allDescendantsLoaded ts
      end
  end.

Definition executeInternalBaseTraversal (fuel : nat) (ts : Tileset)
    (root : TileId) (maximumScreenSpaceError : Q) : option (bool * Tileset) :=
  internalBase_loop fuel maximumScreenSpaceError [root] true ts.

(** The [for] loop over the children of a tile that base traversal
    descends into; [fuel] is handed to the internal traversals. *)
Fixpoint base_children (fuel : nat) (maximumScreenSpaceError : Q)
    (replace add : bool) (cs : list TileId) (refines : bool)
    (stack : list TileId) (ts : Tileset)
    : option (bool * list TileId * Tileset) :=
  match cs with
  | [] => Some (refines, stack, ts)
  | child :: cs' =>
      let '(visible, ts) := updateVisibility ts child maximumScreenSpaceError in
      let ts := if replace || (add && visible)
                then loadAndTouch ts child else ts in
      match
        (if refines && replace then
           if hasEmptyContent (tree child) || hasTilesetContent (tree child)
           then executeInternalBaseTraversal fuel ts child
                  maximumScreenSpaceError
           else Some (contentAvailable (heap ts child), ts)
         else Some (refines, ts))
      with
      | None => None
      | Some (refines, ts) =>
          let stack := if visible then child :: stack else stack in
          base_children fuel maximumScreenSpaceError replace add cs'
            refines stack ts
      end
  end.

(** The [while] loop of [executeBaseTraversal]; [inner] is the fuel of the
    internal traversals it starts. *)
Fixpoint base_loop (inner fuel : nat) (maximumScreenSpaceError : Q)
    (stack leaves : list TileId) (fullyRefined : bool) (ts : Tileset)
    {struct fuel} : option (bool * list TileId * Tileset) :=
  match stack with
  | [] => Some (fullyRefined, leaves, ts)
  | tile :: stack =>
      match fuel with
      | O => None
      | S fuel =>
          let add := refine_eqb (refine (tree tile)) ADD in
          let replace := refine_eqb (refine (tree tile)) REPLACE in
          let ts := visitTile ts tile in
          let cs := children (tree tile) in
          let traverse :=
            negb (Nat.eqb (length cs) 0)
            && Qgtb (_screenSpaceError (heap ts tile)) maximumScreenSpaceError in
          let replacementWithContent :=
            replace && contentAvailable (heap ts tile) in
          let parentRefines :=
            match parent (tree tile) with
            | Some p => _refines (heap ts p)
            | None => true
            end in
          let refines := traverse && parentRefines in
          match
            (if traverse
             then base_children inner maximumScreenSpaceError replace add cs
                    refines stack ts
             else Some (refines, stack, ts))
          with
          | None => None
          | Some (refines, stack, ts) =>
              let ts := assign tile (set_refines refines) ts in
              let '(fullyRefined, leaves) :=
                if negb refines && parentRefines && replacementWithContent
                then (fullyRefined && negb traverse, push leaves tile)
                else (fullyRefined, leaves) in
              let ts :=
                if add && contentAvailable (heap ts tile)
                then set_desiredTiles (push (_desiredTiles ts) tile) ts
                else ts in
              base_loop inner fuel maximumScreenSpaceError stack leaves
                fullyRefined ts
          end
      end
  end.

(** Returns [fullyRefined], the leaves ([baseTraversal.leaves]) and the
    tileset. *)
Definition executeBaseTraversal (fuel : nat) (ts : Tileset) (root : TileId)
    (maximumScreenSpaceError : Q) : option (bool * list TileId * Tileset) :=
  base_loop fuel fuel maximumScreenSpaceError [root] [] true ts.

Definition selectBaseTraversal (fuel : nat) (ts : Tileset) (root : TileId)
    : option Tileset :=
  let maximumScreenSpaceError := _maximumScreenSpaceError ts in
  match executeBaseTraversal fuel ts root maximumScreenSpaceError with
  | None => None
  | Some (_, leaves, ts) =>
      let ts := fold_left selectTile leaves ts in
      let additiveTiles := _desiredTiles ts in
      Some (fold_left selectTile additiveTiles ts)
  end.

(** *** Entry point *)

(** The assignments that open a frame. *)
Definition resetFrame (ts : Tileset) : Tileset :=
  let ts := set_desiredTiles [] ts in
  let ts := set_selectedTiles [] ts in
  let ts := set_requestedTiles [] ts in
  let ts := set_selectedTilesToStyle [] ts in
  let ts := set_hasMixedContent false ts in
  set_cache (push (_cache ts) CacheReset) ts.

(** [updateTile(root) && updateVisibility(root)]. *)
Definition rootVisibility (ts : Tileset) : bool * Tileset :=
  let root := _root ts in
  let maximumScreenSpaceError := _maximumScreenSpaceError ts in
  let '(visible, ts) := updateTile ts root in
  if visible
  then updateVisibility ts root maximumScreenSpaceError
  else (false, ts).

(** The result pairs the tileset with the strategy the call handed the
    tileset to, [None] when it returned before the dispatch. *)
Definition selectTiles (fuel : nat) (ts : Tileset)
    : option (option Strategy * Tileset) :=
  if debugFreezeFrame ts then Some (None, ts)
  else
    let maximumScreenSpaceError := _maximumScreenSpaceError ts in
    let ts := resetFrame ts in
    let root := _root ts in
    let '(rootVisible, ts) := rootVisibility ts in
    if negb rootVisible then Some (None, ts)
    else if Qle_bool (getScreenSpaceError ts (_geometricError ts) root)
              maximumScreenSpaceError
    then Some (None, ts)
    else
      let ts := loadAndTouch ts root in
      let ts := set_skipLevelOfDetail false ts in
      if negb (_skipLevelOfDetail ts) then
        option_map (pair (Some BaseTraversal)) (selectBaseTraversal fuel ts root)
      else if immediatelyLoadDesiredLevelOfDetail ts then
        option_map (pair (Some SkipTraversal)) (selectSkipTraversal ts root)
      else
        option_map (pair (Some BaseAndSkipTraversal))
          (selectBaseAndSkipTraversal ts root).

(** *** Skip traversal *)

Definition reachedSkippingThreshold (ts : Tileset) (tile : TileId) : bool :=
  let ancestor := _ancestorWithContentAvailable (heap ts tile) in
  let skipLevels' := if skipLevelOfDetail ts then skipLevels ts else 0%Z in
  let skipScreenSpaceErrorFactor' :=
    if skipLevelOfDetail ts then skipScreenSpaceErrorFactor ts else 1 in
  negb (immediatelyLoadDesiredLevelOfDetail ts)
  && contentUnloaded (heap ts tile)
  && match ancestor with
     | Some a =>
         negb (Nat.eqb a tile)
         && Qltb (_screenSpaceError (heap ts tile))
              (_screenSpaceError (heap ts a) / skipScreenSpaceErrorFactor')
         && Z.ltb (_depth (tree a) + skipLevels') (_depth (tree tile))
     | None => false
     end.

Fixpoint skip_children (maximumScreenSpaceError : Q) (cs : list TileId)
    (stack : list TileId) (ts : Tileset) : list TileId * Tileset :=
  match cs with
  | [] => (stack, ts)
  | child :: cs' =>
      let '(visible, ts) := updateVisibility ts child maximumScreenSpaceError in
      skip_children maximumScreenSpaceError cs'
        (if visible then child :: stack else stack) ts
  end.

(** [for (i = 0; i < siblingsLength; ++i)] over [siblings], from index [i]
    with [n] rounds to go. *)
Fixpoint skip_siblings (siblings : list TileId) (i n : nat) (ts : Tileset)
    : Outcome Tileset :=
  match n with
  | O => Returns ts
  | S n' =>
      match nth_error siblings i with
      | None => TypeError
      | Some sibling => skip_siblings siblings (S i) n' (loadAndTouch ts sibling)
      end
  end.

(** One round of the [while] loop of [executeInternalSkipTraversal], for
    the [tile] just popped; [stack] is what remained below it. *)
Definition internalSkip_visit (maximumScreenSpaceError : Q) (tile : TileId)
    (stack queue : list TileId) (ts : Tileset)
    : Outcome (list TileId * list TileId * Tileset) :=
  let add := refine_eqb (refine (tree tile)) ADD in
  let replace := refine_eqb (refine (tree tile)) REPLACE in
  let ts := visitTile ts tile in
  let cs := children (tree tile) in
  let traverse :=
    negb (Nat.eqb (length cs) 0)
    && Qgtb (_screenSpaceError (heap ts tile)) maximumScreenSpaceError
    || negb (reachedSkippingThreshold ts tile) in
  let ts :=
    if add then
      let ts := touch ts tile in
      let ts := loadTile ts tile in
      let ts := assign tile (set_touchedFrame (frameNumber frameState)) ts in
      if contentAvailable (heap ts tile)
      then set_desiredTiles (push (_desiredTiles ts) tile) ts
      else ts
    else ts in
  let '(stack, ts) :=
    if traverse then
      let ts := touch ts tile in
      let ts := assign tile (set_touchedFrame (frameNumber frameState)) ts in
      skip_children maximumScreenSpaceError cs stack ts
    else (stack, ts) in
  if negb traverse && replace then
    ' ts <- (if loadSiblings ts then
               match parent (tree tile) with
               | None => TypeError
               | Some p => skip_siblings (children (tree p)) 0 (length cs) ts
               end
             else Returns (loadAndTouch ts tile)) ;;
    Returns (stack, push queue tile,
             set_desiredTiles (push (_desiredTiles ts) tile) ts)
  else Returns (stack, queue, ts).

Fixpoint internalSkip_loop (fuel : nat) (maximumScreenSpaceError : Q)
    (stack queue : list TileId) (ts : Tileset) {struct fuel}
    : Outcome (list TileId * Tileset) :=
  match stack with
  | [] => Returns (queue, ts)
  | tile :: stack =>
      match fuel with
      | O => NoFuel
      | S fuel =>
          ' (stack, queue, ts) <-
            internalSkip_visit maximumScreenSpaceError tile stack queue ts ;;
          internalSkip_loop fuel maximumScreenSpaceError stack queue ts
      end
  end.

(** Returns the [queue] it pushed to and the tileset. *)
Definition executeInternalSkipTraversal (fuel : nat) (ts : Tileset)
    (root : TileId) (maximumScreenSpaceError : Q) (queue : list TileId)
    : Outcome (list TileId * Tileset) :=
  internalSkip_loop fuel maximumScreenSpaceError [root] queue ts.

(** The [for] loop over one level of [executeSkipTraversal]. *)
Fixpoint skip_level (fuel : nat) (maximumScreenSpaceError : Q)
    (level queue2 : list TileId) (ts : Tileset)
    : Outcome (list TileId * Tileset) :=
  match level with
  | [] => Returns (queue2, ts)
  | tile :: level' =>
      ' (queue2, ts) <-
        executeInternalSkipTraversal fuel ts tile maximumScreenSpaceError
          queue2 ;;
      skip_level fuel maximumScreenSpaceError level' queue2 ts
  end.

Fixpoint skip_loop (inner fuel : nat) (maximumScreenSpaceError : Q)
    (queue1 queue2 : list TileId) (ts : Tileset) {struct fuel}
    : Outcome Tileset :=
  match queue1 with
  | [] => Returns ts
  | _ :: _ =>
      match fuel with
      | O => NoFuel
      | S fuel =>
          ' (queue2, ts) <-
            skip_level inner maximumScreenSpaceError queue1 queue2 ts ;;
          skip_loop inner fuel maximumScreenSpaceError queue2 [] ts
      end
  end.

(** [queue1] is [skipTraversal.queue1] as the caller filled it;
    [skipTraversal.queue2] is empty between calls. *)
Definition executeSkipTraversal (fuel : nat) (ts : Tileset)
    (maximumScreenSpaceError : Q) (queue1 : list TileId) : Outcome Tileset :=
  skip_loop fuel fuel maximumScreenSpaceError queue1 [] ts.

End Traversal.

Arguments getScreenSpaceError : simpl never.
Arguments updateTile : simpl never.
Arguments updateChildren : simpl never.
Arguments getVisibility : simpl never.
Arguments updateVisibility : simpl never.
Arguments selectTile : simpl never.
Arguments visitTile : simpl never.
Arguments touch : simpl never.
Arguments getPriority : simpl never.
Arguments loadTile : simpl never.
Arguments loadAndTouch : simpl never.
Arguments executeInternalBaseTraversal : simpl never.
Arguments executeBaseTraversal : simpl never.
Arguments selectBaseTraversal : simpl never.
Arguments resetFrame : simpl never.
Arguments rootVisibility : simpl never.
Arguments selectTiles : simpl never.
Arguments reachedSkippingThreshold : simpl never.
Arguments internalSkip_visit : simpl never.
Arguments assign : simpl never.

(** ** What the specification says of the dispatch

    The strategy the tileset's configuration asks for. *)
Definition configuredStrategy (ts : Tileset) : Strategy :=
  if negb (_skipLevelOfDetail ts) then BaseTraversal
  else if immediatelyLoadDesiredLevelOfDetail ts then SkipTraversal
  else BaseAndSkipTraversal.

(** ** What a call leaves alone

    The fields of the tileset other than [heap] and [_statistics], and the
    fields of a tile other than those the visibility pass assigns. *)

Definition frameOf (ts : Tileset) :=
  (debugFreezeFrame ts, _maximumScreenSpaceError ts, _geometricError ts,
   _root ts, _skipLevelOfDetail ts, skipLevelOfDetail ts,
   immediatelyLoadDesiredLevelOfDetail ts, loadSiblings ts, skipLevels ts,
   skipScreenSpaceErrorFactor ts, dynamicScreenSpaceError ts,
   _dynamicScreenSpaceErrorComputedDensity ts,
   dynamicScreenSpaceErrorFactor ts,
   _desiredTiles ts, _selectedTiles ts, _requestedTiles ts,
   _selectedTilesToStyle ts, _hasMixedContent ts, _cache ts).

Definition persistent (s : TileState) :=
  (contentAvailable s, contentUnloaded s, contentExpired s,
   featurePropertiesDirty s, lastStyleTime s, _touchedFrame s,
   _visitedFrame s, _selectedFrame s, _lastSelectedFrameNumber s,
   selected s, _finalResolution s, _ancestorWithContentAvailable s,
   _refines s, _priority s).

(** [ts'] differs from [ts] by visibility updates only. *)
Definition culled (ts ts' : Tileset) : Prop :=
  frameOf ts' = frameOf ts
  /\ forall t, persistent (heap ts' t) = persistent (heap ts t).

(** ** Well-founded trees

    [rank] bounds the height of every tile: children rank strictly below
    their parent.  [weight] counts the tiles below a tile, with the
    multiplicity of the paths that reach them, down to depth [n]. *)

Definition ranked (tree : TileId -> Tile) (rank : TileId -> nat) : Prop :=
  forall t c, In c (children (tree t)) -> (rank c < rank t)%nat.

Fixpoint weight (tree : TileId -> Tile) (n : nat) (t : TileId) : nat :=
  match n with
  | O => 1
  | S n' => S (list_sum (map (weight tree n') (children (tree t))))
  end.

(** The weight of a tile at its own rank, and of a stack of tiles. *)
Definition subtree (tree : TileId -> Tile) (rank : TileId -> nat)
    (t : TileId) : nat :=
  weight tree (rank t) t.

Definition stackWeight (tree : TileId -> Tile) (rank : TileId -> nat)
    (stack : list TileId) : nat :=
  list_sum (map (subtree tree rank) stack).

(** ** Content that does not expire

    [updateExpiration] finds nothing to expire: the content flags of every
    tile are after [visitTile] what they were before. *)
Definition noExpiry (X : Externals) : Prop :=
  forall t flags, updateExpiration X t flags = flags.

(** The fields of a tile that only the visibility pass and
    [updateExpiration] assign. *)
Definition core (s : TileState) :=
  (contentAvailable s, contentUnloaded s, contentExpired s,
   _distanceToCamera s, _centerZDepth s, _screenSpaceError s,
   _visibilityPlaneMask s).

(** The test of [selectTile]. *)
Definition selectable (X : Externals) (ts : Tileset) (t : TileId) : bool :=
  contentAvailable (heap ts t)
  && (Z.eqb (_visibilityPlaneMask (heap ts t)) MASK_INSIDE
      || negb (intersect_eqb (contentVisibility X t) OUTSIDE)).

(** The tiles requested so far are pairwise distinct and stamped with the
    frame. *)
Definition requestsStamped (fs : FrameState) (ts : Tileset) : Prop :=
  NoDup (_requestedTiles ts)
  /\ forall t, In t (_requestedTiles ts) ->
       _touchedFrame (heap ts t) = frameNumber fs.

(** Every selected tile has content available and passed the test of
    [selectTile]: wholly inside the frustum, or content bounds not
    outside it. *)
Definition selectionSound (X : Externals) (ts : Tileset) : Prop :=
  forall t, In t (_selectedTiles ts) ->
    contentAvailable (heap ts t) = true
    /\ (_visibilityPlaneMask (heap ts t) = MASK_INSIDE
        \/ contentVisibility X t <> OUTSIDE).

(** The screen-space error [updateTile] stores for a tile. *)
Definition viewedError (tree : TileId -> Tile) (X : Externals)
    (fs : FrameState) (ts : Tileset) (t : TileId) : Q :=
  getScreenSpaceError X fs
    (assign t (set_distanceToCamera (distanceToTile X t)) ts)
    (geometricError (tree t)) t.

(** The mask [updateTile] stores for a tile. *)
Definition viewedMask (tree : TileId -> Tile) (X : Externals)
    (ts : Tileset) (t : TileId) : Z :=
  let m := visibility X t
             match parent (tree t) with
             | Some p => _visibilityPlaneMask (heap ts p)
             | None => MASK_INDETERMINATE
             end in
  if negb (Z.eqb m MASK_OUTSIDE) && insideViewerRequestVolume X t
  then m else MASK_OUTSIDE.

(** The configuration of a tileset, which no call assigns. *)
Definition configOf (ts : Tileset) :=
  (debugFreezeFrame ts, _maximumScreenSpaceError ts, _geometricError ts,
   _root ts, skipLevelOfDetail ts, immediatelyLoadDesiredLevelOfDetail ts,
   loadSiblings ts, skipLevels ts, skipScreenSpaceErrorFactor ts,
   dynamicScreenSpaceError ts, _dynamicScreenSpaceErrorComputedDensity ts,
   dynamicScreenSpaceErrorFactor ts).

(** ** A parent that cannot refine

    The state of the base traversal once the root [r] has refused to
    refine to its children [c1] and [c2]: the root is marked as not
    refining and keeps its content, neither child is among the desired
    tiles, and nothing has been selected yet. *)
Definition fellBack (r c1 c2 : TileId) (ts : Tileset) : Prop :=
  _refines (heap ts r) = false
  /\ contentAvailable (heap ts r) = true
  /\ ~ In c1 (_desiredTiles ts) /\ ~ In c2 (_desiredTiles ts)
  /\ _selectedTiles ts = []
  /\ _hasMixedContent ts = false.

(** A tile that carries no renderable content of its own. *)
Definition isProxy (tree : TileId -> Tile) (t : TileId) : bool :=
  hasEmptyContent (tree t) || hasTilesetContent (tree t).

(** ** What a call writes to a tile

    The content flags of a tile, which [updateExpiration] alone assigns. *)
Definition contentFlags (s : TileState) : bool * bool * bool :=
  (contentAvailable s, contentUnloaded s, contentExpired s).

(** The frame stamps of [s'] are those of [s] or the frame number [n]. *)
Definition stampedWithin (n : Z) (s s' : TileState) : Prop :=
  (_touchedFrame s' = _touchedFrame s \/ _touchedFrame s' = n)
  /\ (_visitedFrame s' = _visitedFrame s \/ _visitedFrame s' = n)
  /\ (_lastSelectedFrameNumber s' = _lastSelectedFrameNumber s
      \/ _lastSelectedFrameNumber s' = n).

(** The content flags of [t] in [ts'] are those it has in [ts], or what
    one [updateExpiration] of a visit in frame [n] made of them. *)
Definition flagsWithin (X : Externals) (n : Z) (ts ts' : Tileset)
    (t : TileId) : Prop :=
  contentFlags (heap ts' t) = contentFlags (heap ts t)
  \/ (contentFlags (heap ts' t)
      = updateExpiration X t (contentFlags (heap ts t))
      /\ _visitedFrame (heap ts' t) = n).

(** Since the reset that opened the frame on [ts] the cache has been told
    of the distinct tiles [l], the tiles stamped since. *)
Definition cacheLogged (fs : FrameState) (ts ts' : Tileset)
    (l : list TileId) : Prop :=
  _cache ts' = _cache ts ++ CacheReset :: map CacheTouch l
  /\ NoDup l
  /\ forall t, In t l <->
       _touchedFrame (heap ts t) <> frameNumber fs
       /\ _touchedFrame (heap ts' t) = frameNumber fs.

(** Stamps of the frame are kept from [ts] to [ts']. *)
Definition keepsTouched (fs : FrameState) (ts ts' : Tileset) : Prop :=
  forall t, _touchedFrame (heap ts t) = frameNumber fs ->
    _touchedFrame (heap ts' t) = frameNumber fs.

(** The requests of [ts'] are for tiles that, in [ts], had content
    unloaded or expired and no stamp of the frame. *)
Definition requestsMissing (fs : FrameState) (ts ts' : Tileset) : Prop :=
  forall t, In t (_requestedTiles ts') ->
    contentUnloaded (heap ts t) || contentExpired (heap ts t) = true
    /\ _touchedFrame (heap ts t) <> frameNumber fs.

(** Every tile to style is selected, and every selected tile carries the
    stamp of the frame and clean feature properties. *)
Definition styled (fs : FrameState) (ts : Tileset) : Prop :=
  (forall t, In t (_selectedTilesToStyle ts) -> In t (_selectedTiles ts))
  /\ forall t, In t (_selectedTiles ts) ->
       _lastSelectedFrameNumber (heap ts t) = frameNumber fs
       /\ featurePropertiesDirty (heap ts t) = false.

(** A tile the traversal has settled on: content available, visited and
    touched in this frame. *)
Definition settled (fs : FrameState) (ts : Tileset) (t : TileId) : Prop :=
  contentAvailable (heap ts t) = true
  /\ _visitedFrame (heap ts t) = frameNumber fs
  /\ _touchedFrame (heap ts t) = frameNumber fs.

(** ** Trees

    The tile [k] parent links above [t]. *)
Fixpoint nthParent (tree : TileId -> Tile) (k : nat) (t : TileId)
    : option TileId :=
  match k with
  | O => Some t
  | S k =>
      match parent (tree t) with
      | Some p => nthParent tree k p
      | None => None
      end
  end.

(** [a] lies above [t], one parent link or more. *)
Definition properAncestor (tree : TileId -> Tile) (a t : TileId) : Prop :=
  exists k, nthParent tree (S k) t = Some a.

(** The root has no parent, the children of a tile point back to it, and
    no tile lists a child twice. *)
Definition wellFormed (tree : TileId -> Tile) (root : TileId) : Prop :=
  parent (tree root) = None
  /\ (forall p c, In c (children (tree p)) -> parent (tree c) = Some p)
  /\ forall p, NoDup (children (tree p)).

(** No tile carries the visit stamp of the frame: the frame is new to the
    tileset. *)
Definition unvisited (fs : FrameState) (ts : Tileset) : Prop :=
  forall t, _visitedFrame (heap ts t) <> frameNumber fs.

(** The parent of a tile visited in the frame was visited in the frame,
    and a visited tile below one that does not refine does not refine. *)
Definition refinesDownward (tree : TileId -> Tile) (fs : FrameState)
    (ts : Tileset) : Prop :=
  forall x p,
    _visitedFrame (heap ts x) = frameNumber fs ->
    parent (tree x) = Some p ->
    _visitedFrame (heap ts p) = frameNumber fs
    /\ (_refines (heap ts p) = false -> _refines (heap ts x) = false).

(** A tile waiting on the stack of the base traversal: not visited yet,
    its parent visited. *)
Definition pending (tree : TileId -> Tile) (fs : FrameState) (ts : Tileset)
    (s : TileId) : Prop :=
  _visitedFrame (heap ts s) <> frameNumber fs
  /\ match parent (tree s) with
     | Some p => _visitedFrame (heap ts p) = frameNumber fs
     | None => True
     end.

(** A leaf of the base traversal: a visited REPLACE tile that does not
    refine, under a parent that does. *)
Definition leafOf (tree : TileId -> Tile) (fs : FrameState) (ts : Tileset)
    (l : TileId) : Prop :=
  _visitedFrame (heap ts l) = frameNumber fs
  /\ refine (tree l) = REPLACE
  /\ _refines (heap ts l) = false
  /\ forall p, parent (tree l) = Some p -> _refines (heap ts p) = true.

(** The state of the base traversal between two rounds of its loop. *)
Definition treeWalk (tree : TileId -> Tile) (fs : FrameState)
    (stack leaves : list TileId) (ts : Tileset) : Prop :=
  NoDup stack
  /\ (forall s, In s stack -> pending tree fs ts s)
  /\ refinesDownward tree fs ts
  /\ NoDup leaves
  /\ (forall l, In l leaves -> leafOf tree fs ts l)
  /\ NoDup (_desiredTiles ts)
  /\ forall x, In x (_desiredTiles ts) ->
       _visitedFrame (heap ts x) = frameNumber fs /\ refine (tree x) = ADD.

(** ** The skip traversal

    The test [traverse] of [executeInternalSkipTraversal], on the state
    [visitTile] leaves. *)
Definition skipTraverses (tree : TileId -> Tile) (ts : Tileset) (m : Q)
    (t : TileId) : bool :=
  negb (Nat.eqb (length (children (tree t))) 0)
  && Qgtb (_screenSpaceError (heap ts t)) m
  || negb (reachedSkippingThreshold tree ts t).

(** ** Statistics

    Since [ts] the counter [statistics.visited] grew by the number of the
    distinct tiles [l], the tiles that got the visit stamp of the frame. *)
Definition visitsCounted (fs : FrameState) (ts ts' : Tileset)
    (l : list TileId) : Prop :=
  visited (_statistics ts') = (visited (_statistics ts) + Z.of_nat (length l))%Z
  /\ NoDup l
  /\ forall t, In t l <->
       _visitedFrame (heap ts t) <> frameNumber fs
       /\ _visitedFrame (heap ts' t) = frameNumber fs.

(** Visit stamps of the frame are kept from [ts] to [ts']. *)
Definition keepsVisited (fs : FrameState) (ts ts' : Tileset) : Prop :=
  forall t, _visitedFrame (heap ts t) = frameNumber fs ->
    _visitedFrame (heap ts' t) = frameNumber fs.

(** ** Refinement without holes

    Every tile visited in the frame that refines by REPLACE and is marked
    as refining has content available in each child that carries content
    of its own. *)
Definition refinesWhole (tree : TileId -> Tile) (fs : FrameState)
    (ts : Tileset) : Prop :=
  forall t c,
    _visitedFrame (heap ts t) = frameNumber fs ->
    refine (tree t) = REPLACE ->
    _refines (heap ts t) = true ->
    In c (children (tree t)) ->
    isProxy tree c = false ->
    contentAvailable (heap ts c) = true.

(** ** What a frame has settled

    The children of every tile point back to it. *)
Definition childrenPointBack (tree : TileId -> Tile) : Prop :=
  forall p c, In c (children (tree p)) -> parent (tree c) = Some p.

(** The parent of [y], if it has one, carries the touch stamp of the
    frame. *)
Definition parentTouched (tree : TileId -> Tile) (fs : FrameState)
    (ts : Tileset) (y : TileId) : Prop :=
  match parent (tree y) with
  | Some p => _touchedFrame (heap ts p) = frameNumber fs
  | None => True
  end.

(** A tile the visibility pass of this frame will not assign again: its
    parent is touched, and it is itself touched or was found outside. *)
Definition stable (tree : TileId -> Tile) (fs : FrameState) (ts : Tileset)
    (y : TileId) : Prop :=
  parentTouched tree fs ts y
  /\ (_touchedFrame (heap ts y) = frameNumber fs
      \/ _visibilityPlaneMask (heap ts y) = MASK_OUTSIDE).

(** [ts'] has what is stable in [ts]: the same tiles stable, with the
    same content flags, distance, depth, error and mask, and touched if
    they were. *)
Definition keepsStable (tree : TileId -> Tile) (fs : FrameState)
    (ts ts' : Tileset) : Prop :=
  forall y, stable tree fs ts y ->
    stable tree fs ts' y
    /\ core (heap ts' y) = core (heap ts y)
    /\ (_touchedFrame (heap ts y) = frameNumber fs ->
        _touchedFrame (heap ts' y) = frameNumber fs).

(** Whether the mask of a tile says it is visible. *)
Definition maskVisible (s : TileState) : bool :=
  negb (Z.eqb (_visibilityPlaneMask s) MASK_OUTSIDE).

(** A tile the traversal has reached from its parent: touched, under a
    touched parent. *)
Definition reached (tree : TileId -> Tile) (fs : FrameState) (ts : Tileset)
    (y : TileId) : Prop :=
  _touchedFrame (heap ts y) = frameNumber fs /\ parentTouched tree fs ts y.

(** [ts'] has the requests and the cache calls of [ts], and no more. *)
Definition quiet (ts ts' : Tileset) : Prop :=
  _requestedTiles ts' = _requestedTiles ts /\ _cache ts' = _cache ts.

(** ** Tight content bounds

    The content bounds of a tile lie within the bounds of the tile: when
    [tile.visibility] finds the tile wholly inside the frustum,
    [tile.contentVisibility] does not find its content outside. *)
Definition tightContent (X : Externals) : Prop :=
  forall t parentMask,
    visibility X t parentMask = MASK_INSIDE -> contentVisibility X t <> OUTSIDE.

(** No tile carries the touch stamp of the frame: the call is the first
    of its frame. *)
Definition untouched (fs : FrameState) (ts : Tileset) : Prop :=
  forall t, _touchedFrame (heap ts t) <> frameNumber fs.

(** The mask recorded for [t] claims no more than its content bounds
    allow. *)
Definition maskTight (X : Externals) (ts : Tileset) (t : TileId) : Prop :=
  _visibilityPlaneMask (heap ts t) = MASK_INSIDE ->
  contentVisibility X t <> OUTSIDE.

(** The children of [t] have been through [updateChildren] if the error
    recorded for [t] asks for its refinement. *)
Definition expanded (tree : TileId -> Tile) (X : Externals) (m : Q)
    (ts : Tileset) (t : TileId) : Prop :=
  Qgtb (_screenSpaceError (heap ts t)) m = true ->
  forall c, In c (children (tree t)) -> maskTight X ts c.

(** Every tile touched in the frame lies under a touched parent and, if
    its mask says it is visible, is expanded. *)
Definition walked (tree : TileId -> Tile) (X : Externals) (fs : FrameState)
    (m : Q) (ts : Tileset) : Prop :=
  forall t, _touchedFrame (heap ts t) = frameNumber fs ->
    parentTouched tree fs ts t
    /\ (maskVisible (heap ts t) = true -> expanded tree X m ts t).

(** What holds of a tile on the stack of the base traversal. *)
Definition admitted (X : Externals) (fs : FrameState) (ts : Tileset)
    (t : TileId) : Prop :=
  _touchedFrame (heap ts t) = frameNumber fs
  /\ maskVisible (heap ts t) = true
  /\ maskTight X ts t.

(** [ts'] has the stamps, errors and masks of [ts]. *)
Definition sameView (ts ts' : Tileset) : Prop :=
  forall t,
    _touchedFrame (heap ts' t) = _touchedFrame (heap ts t)
    /\ _screenSpaceError (heap ts' t) = _screenSpaceError (heap ts t)
    /\ _visibilityPlaneMask (heap ts' t) = _visibilityPlaneMask (heap ts t).

(** ** Numbers in double precision

    JavaScript computes in IEEE 754 binary64: every arithmetic operation
    returns the exact result rounded to the nearest number with a
    significand of 53 bits, ties to the even significand.  [binary64] is
    that rounding, on rationals, with the exponent range left unbounded
    (no overflow to [Infinity], no gradual underflow).
    [Rounded.getScreenSpaceError] is [getScreenSpaceError] with the
    rounding of each operation written out. *)

Module Rounded.

(** The nearest integer, ties to the even one. *)
Definition nearestEven (q : Q) : Z :=
  let f := Qfloor q in
  match (q - inject_Z f ?= 1 # 2)%Q with
  | Lt => f
  | Gt => (f + 1)%Z
  | Eq => if Z.even f then f else (f + 1)%Z
  end.

(** The binade of a positive number [q]: the [e] with
    [2 ^ e <= q < 2 ^ (e + 1)]. *)
Definition binade (q : Q) : Z :=
  let k := (Z.log2 (Qnum q) - Z.log2 (Z.pos (Qden q)))%Z in
  if Qle_bool (2 ^ k) q then k else (k - 1)%Z.

(** A positive [q] rounded to a significand of [p] bits. *)
Definition roundPositive (p : Z) (q : Q) : Q :=
  let ulp := (2 ^ (binade q - (p - 1))%Z)%Q in
  Qred (inject_Z (nearestEven (q / ulp)) * ulp).

Definition round (p : Z) (q : Q) : Q :=
  match (q ?= 0)%Q with
  | Eq => 0
  | Gt => roundPositive p q
  | Lt => (- roundPositive p (- q))%Q
  end.

Definition binary64 : Q -> Q := round 53.

Section Traversal.

Variable rnd : Q -> Q.
Variable X : Externals.
Variable frameState : FrameState.

Definition getScreenSpaceError (ts : Tileset) (gError : Q) (tile : TileId)
    : Q :=
  if Qeq_bool gError 0 then 0
  else
    let fr := frustum frameState in
    let height := drawingBufferHeight frameState in
    if mode_eqb (mode frameState) SCENE2D || isOrthographicFrustum fr then
      let fr' := match _offCenterFrustum fr with
                 | Some o => o
                 | None => extent fr
                 end in
      let width := drawingBufferWidth frameState in
      let pixelSize :=
        rnd (Qmax (rnd (top fr' - bottom fr')) (rnd (right fr' - left fr'))
             / Qmax width height) in
      rnd (gError / pixelSize)
    else
      let distance :=
        Qmax (_distanceToCamera (heap ts tile)) (rnd EPSILON7) in
      let error :=
        rnd (rnd (gError * height) / rnd (distance * sseDenominator fr)) in
      if dynamicScreenSpaceError ts then
        let density := _dynamicScreenSpaceErrorComputedDensity ts in
        let factor := dynamicScreenSpaceErrorFactor ts in
        let dynamicError := rnd (fog X distance density * factor) in
        rnd (error - dynamicError)
      else error.

End Traversal.

End Rounded.

(** ** Example tilesets *)

Module Examples.

Definition idle : TileState :=
  mkTileState false true false false 0 0 0 0 MASK_INDETERMINATE
    0 0 0 0 false false None false 0.

Definition loaded : TileState :=
  mkTileState true false false false 0 0 0 0 MASK_INDETERMINATE
    0 0 0 0 false false None false 0.

(** A perspective view, 1000 pixels high, in frame 1. *)
Definition view : FrameState :=
  mkFrameState 1 SCENE3D
    (mkFrustum false None (mkOffCenter 0 0 0 0) 1) 1000 1000.

(** Every tile 500 away and inside the frustum, content bounds
    intersecting it; nothing expires; no fog. *)
Definition inSight : Externals :=
  mkExternals (fun _ => 500) (fun _ => 500) (fun _ _ => MASK_INSIDE)
    (fun _ => true) (fun _ => INTERSECTING) (fun _ f => f) (fun _ _ => 0).

(** As [inSight], with content bounds outside the frustum: bounds that
    are not within those of their tile. *)
Definition contentOutOfSight : Externals :=
  mkExternals (fun _ => 500) (fun _ => 500) (fun _ _ => MASK_INSIDE)
    (fun _ => true) (fun _ => OUTSIDE) (fun _ f => f) (fun _ _ => 0).

Definition noSkip (ts : Tileset) (root : TileId) : option Tileset := Some ts.

Definition tileset (freeze : bool) (maximumSSE gError : Q)
    (skip immediately : bool) (h : TileId -> TileState) : Tileset :=
  mkTileset freeze maximumSSE gError 0%nat skip skip immediately false 0 1
    false 0 0 [] [] [] [] false [] (mkStatistics 0 0) h.

(** Root 0 (geometric error 10) with the single child 1 (geometric
    error 0), both REPLACE. *)
Definition rootAndChild (t : TileId) : Tile :=
  match t with
  | O => mkTile None [1%nat] REPLACE 10 false false NOT_COMPUTED 0
  | _ => mkTile (Some 0%nat) [] REPLACE 0 false false NOT_COMPUTED 1
  end.

Definition rootLoaded (t : TileId) : TileState :=
  match t with
  | O => loaded
  | _ => idle
  end.

(** A tree of tiles without geometric error: root 0 with children 1, 2. *)
Definition flatTree (t : TileId) : Tile :=
  match t with
  | O => mkTile None [1%nat; 2%nat] REPLACE 0 false false NOT_COMPUTED 0
  | _ => mkTile (Some 0%nat) [] REPLACE 0 false false NOT_COMPUTED 1
  end.

(** Tiles 0 and 1 closer to the camera than [EPSILON7], tiles 2 and 3
    at distances 1 and 2. *)
Definition atDistances (t : TileId) : TileState :=
  set_distanceToCamera
    (match t with
     | O => 0
     | 1%nat => 1 # 20000000
     | 2%nat => 1
     | _ => 2
     end) idle.

(** A single ADDITIVE tile without children. *)
Definition additiveLeaf (t : TileId) : Tile :=
  mkTile None [] ADD 10 false false NOT_COMPUTED 0.

(** Rank of the tiles of [rootAndChild] and [flatTree]. *)
Definition rootOnTop (t : TileId) : nat :=
  match t with
  | O => 1
  | _ => 0
  end.

(** Root 0 with a loaded child 1 and an empty child 2, whose only child 3
    is loaded; every tile REPLACE with geometric error 10 but the leaves. *)
Definition throughProxy (t : TileId) : Tile :=
  match t with
  | O => mkTile None [1%nat; 2%nat] REPLACE 10 false false NOT_COMPUTED 0
  | 1%nat => mkTile (Some 0%nat) [] REPLACE 0 false false NOT_COMPUTED 1
  | 2%nat => mkTile (Some 0%nat) [3%nat] REPLACE 10 true false NOT_COMPUTED 1
  | _ => mkTile (Some 2%nat) [] REPLACE 0 false false NOT_COMPUTED 2
  end.

Definition proxyUnloaded (t : TileId) : TileState :=
  match t with
  | 2%nat => idle
  | _ => loaded
  end.

(** Root 0 with children 1 (loaded) and 2 (unloaded), all REPLACE. *)
Definition twoChildren (t : TileId) : Tile :=
  match t with
  | O => mkTile None [1%nat; 2%nat] REPLACE 10 false false NOT_COMPUTED 0
  | _ => mkTile (Some 0%nat) [] REPLACE 0 false false NOT_COMPUTED 1
  end.

Definition secondUnloaded (t : TileId) : TileState :=
  match t with
  | 2%nat => idle
  | _ => loaded
  end.

(** The root of [rootAndChild] loaded, with a screen-space error of 20 on
    record; every other tile idle. *)
Definition rootViewed (t : TileId) : TileState :=
  match t with
  | O => set_screenSpaceError 20 loaded
  | _ => idle
  end.

(** A tileset that skips levels and loads siblings. *)
Definition siblingsTileset (h : TileId -> TileState) : Tileset :=
  mkTileset false 16 10 0%nat true true false true 0 1
    false 0 0 [] [] [] [] false [] (mkStatistics 0 0) h.

(** Root 0 with the single child 1, which has the children 2 and 3; all
    REPLACE. *)
Definition narrowThenWide (t : TileId) : Tile :=
  match t with
  | O => mkTile None [1%nat] REPLACE 10 false false NOT_COMPUTED 0
  | 1%nat =>
      mkTile (Some 0%nat) [2%nat; 3%nat] REPLACE 10 false false NOT_COMPUTED 1
  | _ => mkTile (Some 1%nat) [] REPLACE 0 false false NOT_COMPUTED 2
  end.

(** Tiles 0 and 1 at two neighbouring doubles, 495435.59165685385 and
    495435.5916568539; every other tile at distance 1. *)
Definition neighbours (t : TileId) : TileState :=
  set_distanceToCamera
    (match t with
     | O => 8511518653762391 # 17179869184
     | 1%nat => 1063939831720299 # 2147483648
     | _ => 1
     end) idle.

End Examples.

(** * Properties *)

(** ** The error metric *)

Lemma Qmax_cases (a b : Q) :
  (Qmax a b = a /\ b <= a) \/ (Qmax a b = b /\ a < b).
Proof.
  unfold Qmax, GenericMinMax.gmax.
  destruct (Qcompare_spec a b) as [E | L | G].
  - left. split; [reflexivity | rewrite E; apply Qle_refl].
  - right. split; [reflexivity | exact L].
  - left. split; [reflexivity | apply Qlt_le_weak; exact G].
Qed.

Lemma EPSILON7_pos : 0 < EPSILON7.
Proof. reflexivity. Qed.

Lemma Qmax_EPSILON7_pos (d : Q) : 0 < Qmax d EPSILON7.
Proof.
  destruct (Qmax_cases d EPSILON7) as [[E H] | [E H]]; rewrite E.
  - eapply Qlt_le_trans; [apply EPSILON7_pos | exact H].
  - apply EPSILON7_pos.
Qed.

Lemma Qmax_EPSILON7_le (d1 d2 : Q) :
  d1 <= d2 -> Qmax d1 EPSILON7 <= Qmax d2 EPSILON7.
Proof.
  intros H. apply Q.max_le_compat_r. exact H.
Qed.

(** ** The entry point *)

(** C10.  With [debugFreezeFrame] set, [selectTiles] returns at once and
    the tileset, with its four lists, [_hasMixedContent] and the state of
    every tile, is the one it was given. *)
Theorem selectTiles_freezeFrame
    (tree : TileId -> Tile) (X : Externals) (fs : FrameState)
    (skipT hybridT : Tileset -> TileId -> option Tileset)
    (fuel : nat) (ts : Tileset) :
  debugFreezeFrame ts = true ->
  selectTiles tree X fs skipT hybridT fuel ts = Some (None, ts).
Proof.
  intros H. unfold selectTiles. rewrite H. reflexivity.
Qed.

Lemma selectTiles_freezeFrame_witness :
  selectTiles Examples.rootAndChild Examples.inSight Examples.view
    Examples.noSkip Examples.noSkip 0
    (Examples.tileset true 16 10 false false Examples.rootLoaded)
  = Some (None, Examples.tileset true 16 10 false false Examples.rootLoaded).
Proof.
  apply selectTiles_freezeFrame. reflexivity.
Defined.

(** C1 as stated fails: a tileset with [debugFreezeFrame] set is handed to
    no strategy, whatever the fuel. *)
Lemma selectTiles_no_dispatch_when_frozen :
  let ts := Examples.tileset true 16 10 false false Examples.rootLoaded in
  ~ exists fuel ts',
      selectTiles Examples.rootAndChild Examples.inSight Examples.view
        Examples.noSkip Examples.noSkip fuel ts
      = Some (Some (configuredStrategy ts), ts').
Proof.
  intros ts [fuel [ts' H]]. vm_compute in H. discriminate H.
Qed.

(** The assignment [tileset._skipLevelOfDetail = false] before the
    dispatch: a tileset configured for skip traversal goes to base
    traversal. *)
Lemma selectTiles_overrides_skipLevelOfDetail :
  let ts := Examples.tileset false 16 10 true true Examples.rootLoaded in
  configuredStrategy ts = SkipTraversal
  /\ option_map fst
       (selectTiles Examples.rootAndChild Examples.inSight Examples.view
          Examples.noSkip Examples.noSkip 5 ts)
     = Some (Some BaseTraversal).
Proof.
  split; vm_compute; reflexivity.
Qed.

(** C1, as amended.  [selectTiles] hands the tileset to at most one
    strategy: to none when [debugFreezeFrame] is set, when the root is not
    visible or when the error of not rendering the tileset is within the
    budget; past these guards a tileset whose [_skipLevelOfDetail] is
    false goes to base traversal. *)
Theorem selectTiles_dispatch
    (tree : TileId -> Tile) (X : Externals) (fs : FrameState)
    (skipT hybridT : Tileset -> TileId -> option Tileset)
    (fuel : nat) (ts ts' : Tileset) (d : option Strategy) :
  _skipLevelOfDetail ts = false ->
  selectTiles tree X fs skipT hybridT fuel ts = Some (d, ts') ->
  d = if debugFreezeFrame ts then None
      else
        let '(rootVisible, ts1) := rootVisibility tree X fs (resetFrame ts) in
        if negb rootVisible then None
        else if Qle_bool
                  (getScreenSpaceError X fs ts1 (_geometricError ts1)
                     (_root ts))
                  (_maximumScreenSpaceError ts)
        then None
        else Some BaseTraversal.
Proof.
  intros Hskip. unfold selectTiles.
  destruct (debugFreezeFrame ts); [intros [= <- _]; reflexivity|].
  change (_root (resetFrame ts)) with (_root ts).
  destruct (rootVisibility tree X fs (resetFrame ts)) as [v ts1].
  destruct v; cbn [negb]; [|intros [= <- _]; reflexivity].
  destruct (Qle_bool _ _); [intros [= <- _]; reflexivity|].
  cbn.
  destruct (selectBaseTraversal _ _ _ _ _ _); cbn; [|discriminate].
  intros [= <- _]. reflexivity.
Qed.

Lemma selectTiles_dispatch_witness :
  exists ts',
    selectTiles Examples.rootAndChild Examples.inSight Examples.view
      Examples.noSkip Examples.noSkip 5
      (Examples.tileset false 16 10 false false Examples.rootLoaded)
    = Some (Some BaseTraversal, ts').
Proof.
  destruct (selectTiles Examples.rootAndChild Examples.inSight Examples.view
      Examples.noSkip Examples.noSkip 5
      (Examples.tileset false 16 10 false false Examples.rootLoaded))
    as [[d ts']|] eqn:E.
  - exists ts'.
    apply selectTiles_dispatch in E; [|reflexivity].
    rewrite E. reflexivity.
  - vm_compute in E. discriminate E.
Defined.

(** ** Frame lemmas *)

Lemma culled_refl (ts : Tileset) : culled ts ts.
Proof. split; reflexivity. Qed.

Lemma culled_trans (a b c : Tileset) : culled a b -> culled b c -> culled a c.
Proof.
  intros [F1 P1] [F2 P2]. split.
  - rewrite F2. exact F1.
  - intros t. rewrite P2. apply P1.
Qed.

Lemma culled_requested (ts ts' : Tileset) :
  culled ts ts' -> _requestedTiles ts' = _requestedTiles ts.
Proof. intros [F _]. unfold frameOf in F. congruence. Qed.

Lemma culled_touched (ts ts' : Tileset) (t : TileId) :
  culled ts ts' -> _touchedFrame (heap ts' t) = _touchedFrame (heap ts t).
Proof. intros [_ P]. specialize (P t). unfold persistent in P. congruence. Qed.

Ltac heap_cases :=
  repeat match goal with
  | |- context [Nat.eqb ?a ?b] => destruct (Nat.eqb a b) eqn:?
  end.

Lemma heap_assign (ts : Tileset) (t x : TileId) (f : TileState -> TileState) :
  heap (assign t f ts) x = if Nat.eqb x t then f (heap ts t) else heap ts x.
Proof. reflexivity. Qed.

Lemma heap_assign_same (ts : Tileset) (t : TileId) (f : TileState -> TileState) :
  heap (assign t f ts) t = f (heap ts t).
Proof. rewrite heap_assign, Nat.eqb_refl. reflexivity. Qed.

Lemma heap_assign_other (ts : Tileset) (t x : TileId)
    (f : TileState -> TileState) :
  x <> t -> heap (assign t f ts) x = heap ts x.
Proof.
  intros H. rewrite heap_assign.
  destruct (Nat.eqb x t) eqn:E; [|reflexivity].
  apply Nat.eqb_eq in E. contradiction.
Qed.

Lemma assign_culled (ts : Tileset) (t : TileId) (f : TileState -> TileState) :
  (forall s, persistent (f s) = persistent s) -> culled ts (assign t f ts).
Proof.
  intros Hf. split; [reflexivity|].
  intros x. rewrite heap_assign. destruct (Nat.eqb x t) eqn:E; [|reflexivity].
  apply Nat.eqb_eq in E. subst x. apply Hf.
Qed.

Lemma updateTile_culled tree X fs ts t :
  culled ts (snd (updateTile tree X fs ts t)).
Proof.
  unfold updateTile. cbn [snd].
  repeat (eapply culled_trans; [|apply assign_culled; intros; reflexivity]).
  apply culled_refl.
Qed.

Lemma updateChildren_from_culled tree X fs cs any ts :
  culled ts (snd (updateChildren_from tree X fs cs any ts)).
Proof.
  revert any ts. induction cs as [|c cs IH]; intros any ts; cbn.
  - apply culled_refl.
  - destruct (updateTile tree X fs ts c) as [v ts1] eqn:E.
    pose proof (updateTile_culled tree X fs ts c) as C. rewrite E in C.
    eapply culled_trans; [exact C | apply IH].
Qed.

Lemma countCulled_culled ts : culled ts (countCulledWithChildrenUnion ts).
Proof. split; reflexivity. Qed.

Lemma getVisibility_culled tree X fs ts t m :
  culled ts (snd (getVisibility tree X fs ts t m)).
Proof.
  unfold getVisibility.
  destruct (Z.eqb _ MASK_OUTSIDE); [apply culled_refl|].
  destruct (_ && contentExpired _); [apply culled_refl|].
  destruct (match parent (tree t) with Some _ => _ | None => _ end);
    [apply culled_refl|].
  destruct (_ && negb (Nat.eqb _ 0)).
  - destruct (updateChildren tree X fs ts t) as [any ts1] eqn:E.
    pose proof (updateChildren_from_culled tree X fs (children (tree t))
                  false ts) as C.
    fold (updateChildren tree X fs ts t) in C. rewrite E in C. cbn [snd] in C.
    destruct (_ && negb any); cbn [snd]; [|exact C].
    eapply culled_trans; [exact C | apply countCulled_culled].
  - destruct (_ && negb true); cbn [snd];
      [apply countCulled_culled | apply culled_refl].
Qed.

Lemma updateVisibility_culled tree X fs ts t m :
  culled ts (snd (updateVisibility tree X fs ts t m)).
Proof.
  unfold updateVisibility.
  destruct (Z.eqb _ (frameNumber fs)); [apply culled_refl|].
  destruct (getVisibility tree X fs ts t m) as [v ts1] eqn:E. cbn [snd].
  pose proof (getVisibility_culled tree X fs ts t m) as C. rewrite E in C.
  eapply culled_trans; [exact C|].
  apply assign_culled. intros; reflexivity.
Qed.

(** ** Skip traversal: the additive branch *)

Lemma touch_touched fs ts t :
  _touchedFrame (heap (touch fs ts t) t) = frameNumber fs.
Proof.
  unfold touch. destruct (Z.eqb _ _) eqn:E.
  - apply Z.eqb_eq. exact E.
  - rewrite heap_assign_same. reflexivity.
Qed.

Lemma touch_requested fs ts t :
  _requestedTiles (touch fs ts t) = _requestedTiles ts.
Proof. unfold touch. destruct (Z.eqb _ _); reflexivity. Qed.

Lemma loadTile_touched_noop tree fs ts t :
  _touchedFrame (heap ts t) = frameNumber fs -> loadTile tree fs ts t = ts.
Proof.
  intros H. unfold loadTile. rewrite H, Z.eqb_refl. reflexivity.
Qed.

Lemma visitTile_requested tree X fs ts t :
  _requestedTiles (visitTile tree X fs ts t) = _requestedTiles ts.
Proof.
  unfold visitTile. destruct (Z.eqb _ _); [reflexivity|].
  destruct (parent (tree t)); reflexivity.
Qed.

Lemma skip_children_requested tree X fs m cs stack ts :
  _requestedTiles (snd (skip_children tree X fs m cs stack ts))
  = _requestedTiles ts.
Proof.
  revert stack ts. induction cs as [|c cs IH]; intros stack ts; cbn.
  - reflexivity.
  - destruct (updateVisibility tree X fs ts c m) as [v ts1] eqn:E.
    rewrite IH.
    pose proof (updateVisibility_culled tree X fs ts c m) as C. rewrite E in C.
    apply culled_requested, C.
Qed.

(** C7, what the code does.  [executeInternalSkipTraversal] calls [touch]
    before [loadTile] on an ADDITIVE tile, so [loadTile] finds the tile
    stamped and returns: the round that handles an ADDITIVE tile pushes
    nothing onto [_requestedTiles]. *)
Theorem internalSkip_visit_additive_requests_nothing
    (tree : TileId -> Tile) (X : Externals) (fs : FrameState)
    (m : Q) (tile : TileId) (stack queue stack' queue' : list TileId)
    (ts ts' : Tileset) :
  refine (tree tile) = ADD ->
  internalSkip_visit tree X fs m tile stack queue ts
    = Returns (stack', queue', ts') ->
  _requestedTiles ts' = _requestedTiles ts.
Proof.
  intros Hadd. unfold internalSkip_visit. rewrite Hadd. cbn [refine_eqb].
  rewrite andb_false_r.
  set (ts0 := visitTile tree X fs ts tile).
  set (ts1 := touch fs ts0 tile).
  rewrite (loadTile_touched_noop tree fs ts1 tile (touch_touched fs ts0 tile)).
  set (ts2 := assign tile (set_touchedFrame (frameNumber fs)) ts1).
  set (ts3 := if contentAvailable (heap ts2 tile)
              then set_desiredTiles (push (_desiredTiles ts2) tile) ts2
              else ts2).
  assert (R3 : _requestedTiles ts3 = _requestedTiles ts).
  { subst ts3 ts2 ts1 ts0. destruct (contentAvailable _); unfold assign; cbn;
      rewrite touch_requested; apply visitTile_requested. }
  destruct (_ || negb _).
  - destruct (skip_children _ _ _ _ _ _ _) as [stk ts4] eqn:E.
    intros [= _ _ <-].
    pose proof (skip_children_requested tree X fs m (children (tree tile))
                  stack (assign tile (set_touchedFrame (frameNumber fs))
                           (touch fs ts3 tile))) as R4.
    rewrite E in R4. cbn [snd] in R4. rewrite R4. unfold assign; cbn.
    rewrite touch_requested. exact R3.
  - intros [= _ _ <-]. exact R3.
Qed.

(** C7 at a failing input: an ADDITIVE tile, content unloaded, not yet
    touched in frame 1, alone in the level queue.  After
    [executeInternalSkipTraversal] the tile is stamped and the cache was
    told, and [_requestedTiles] is empty. *)
Lemma executeInternalSkipTraversal_additive_unloaded :
  let ts := Examples.tileset false 16 10 true false (fun _ => Examples.idle) in
  refine (Examples.additiveLeaf 0%nat) = ADD
  /\ contentUnloaded (heap ts 0%nat) = true
  /\ _touchedFrame (heap ts 0%nat) <> frameNumber Examples.view
  /\ exists queue ts',
       executeInternalSkipTraversal Examples.additiveLeaf Examples.inSight
         Examples.view 5 ts 0%nat 16 [] = Returns (queue, ts')
       /\ _touchedFrame (heap ts' 0%nat) = frameNumber Examples.view
       /\ _cache ts' = [CacheTouch 0%nat]
       /\ _requestedTiles ts' = [].
Proof.
  cbv zeta. repeat split; try discriminate.
  eexists. eexists. split; [vm_compute; reflexivity|].
  repeat split.
Qed.

(** ** Invariants of the base traversal

    A property of the tileset that the five operations of the base
    traversal keep is kept by its loops. *)

Section BaseInvariant.

Variable tree : TileId -> Tile.
Variable X : Externals.
Variable fs : FrameState.
Variable P : Tileset -> Prop.

Hypothesis P_visitTile : forall ts t, P ts -> P (visitTile tree X fs ts t).
Hypothesis P_updateVisibility :
  forall ts t m, P ts -> P (snd (updateVisibility tree X fs ts t m)).
Hypothesis P_loadAndTouch : forall ts t, P ts -> P (loadAndTouch tree fs ts t).
Hypothesis P_refines :
  forall ts t v, P ts -> P (assign t (set_refines v) ts).
Hypothesis P_desired :
  forall ts t, P ts -> P (set_desiredTiles (push (_desiredTiles ts) t) ts).

Lemma internalBase_children_inv m cs stack ts :
  P ts -> P (snd (internalBase_children tree X fs m cs stack ts)).
Proof.
  revert stack ts. induction cs as [|c cs IH]; intros stack ts H; cbn.
  - exact H.
  - destruct (updateVisibility tree X fs ts c m) as [v ts1] eqn:E.
    apply IH. apply P_loadAndTouch.
    specialize (P_updateVisibility ts c m H). rewrite E in P_updateVisibility.
    exact P_updateVisibility.
Qed.

Lemma internalBase_loop_inv fuel m stack all ts r ts' :
  P ts ->
  internalBase_loop tree X fs fuel m stack all ts = Some (r, ts') -> P ts'.
Proof.
  revert stack all ts. induction fuel as [|fuel IH]; intros stack all ts H;
    destruct stack as [|t stack]; cbn.
  - intros [= _ <-]. exact H.
  - discriminate.
  - intros [= _ <-]. exact H.
  - destruct (_ && Qgtb _ m).
    + destruct (internalBase_children tree X fs m (children (tree t)) stack ts)
        as [stack1 ts1] eqn:E.
      apply IH.
      pose proof (internalBase_children_inv m (children (tree t)) stack ts H)
        as H1.
      rewrite E in H1. exact H1.
    + apply IH. exact H.
Qed.

Lemma base_children_inv inner m replace add cs refines stack ts r ts' :
  P ts ->
  base_children tree X fs inner m replace add cs refines stack ts = Some (r, ts')
  -> P ts'.
Proof.
  revert refines stack ts. induction cs as [|c cs IH];
    intros refines stack ts H; cbn.
  - intros [= _ <-]. exact H.
  - destruct (updateVisibility tree X fs ts c m) as [v ts1] eqn:E.
    assert (H1 : P ts1).
    { pose proof (P_updateVisibility ts c m H) as H1. rewrite E in H1.
      exact H1. }
    set (ts2 := if replace || add && v then loadAndTouch tree fs ts1 c else ts1).
    assert (H2 : P ts2).
    { subst ts2. destruct (replace || add && v); [apply P_loadAndTouch|];
        exact H1. }
    destruct (refines && replace).
    + destruct (hasEmptyContent (tree c) || hasTilesetContent (tree c)).
      * destruct (executeInternalBaseTraversal tree X fs inner ts2 c m)
          as [[r1 ts3]|] eqn:E3; [|discriminate].
        apply IH. eapply internalBase_loop_inv; [exact H2 | exact E3].
      * apply IH. exact H2.
    + apply IH. exact H2.
Qed.

Lemma base_loop_inv inner fuel m stack leaves fr ts r ts' :
  P ts ->
  base_loop tree X fs inner fuel m stack leaves fr ts = Some (r, ts') -> P ts'.
Proof.
  revert stack leaves fr ts. induction fuel as [|fuel IH];
    intros stack leaves fr ts H; destruct stack as [|t stack]; cbn.
  - intros [= _ <-]. exact H.
  - discriminate.
  - intros [= _ <-]. exact H.
  - set (ts0 := visitTile tree X fs ts t).
    assert (H0 : P ts0) by (apply P_visitTile; exact H).
    match goal with
    | |- match ?scrut with _ => _ end = _ -> _ => destruct scrut as [[[r1 stack1] ts1]|] eqn:E
    end; [|discriminate].
    assert (H1 : P ts1).
    { destruct (negb _ && Qgtb _ m).
      - eapply base_children_inv; [exact H0 | exact E].
      - injection E as _ _ <-. exact H0. }
    destruct (negb r1 && _ && _);
      (destruct (refine_eqb (refine (tree t)) ADD && _);
       apply IH; [apply P_desired|]; apply P_refines; exact H1).
Qed.

End BaseInvariant.

(** ** What each operation assigns *)

Lemma culled_frameOf (ts ts' : Tileset) :
  culled ts ts' -> frameOf ts' = frameOf ts.
Proof. intros [F _]. exact F. Qed.

Lemma culled_selected (ts ts' : Tileset) :
  culled ts ts' -> _selectedTiles ts' = _selectedTiles ts.
Proof. intros [F _]. unfold frameOf in F. congruence. Qed.

Lemma culled_desired (ts ts' : Tileset) :
  culled ts ts' -> _desiredTiles ts' = _desiredTiles ts.
Proof. intros [F _]. unfold frameOf in F. congruence. Qed.

Lemma culled_persistent (ts ts' : Tileset) (t : TileId) :
  culled ts ts' -> persistent (heap ts' t) = persistent (heap ts t).
Proof. intros [_ P]. apply P. Qed.

Lemma culled_contentAvailable (ts ts' : Tileset) (t : TileId) :
  culled ts ts' -> contentAvailable (heap ts' t) = contentAvailable (heap ts t).
Proof. intros [_ P]. specialize (P t). unfold persistent in P. congruence. Qed.

Lemma culled_visited (ts ts' : Tileset) (t : TileId) :
  culled ts ts' -> _visitedFrame (heap ts' t) = _visitedFrame (heap ts t).
Proof. intros [_ P]. specialize (P t). unfold persistent in P. congruence. Qed.

Lemma culled_refines (ts ts' : Tileset) (t : TileId) :
  culled ts ts' -> _refines (heap ts' t) = _refines (heap ts t).
Proof. intros [_ P]. specialize (P t). unfold persistent in P. congruence. Qed.

(** The state of every tile after [visitTile]. *)
Lemma visitTile_heap tree X fs ts t x :
  heap (visitTile tree X fs ts t) x
  = if Nat.eqb x t then
      if Z.eqb (_visitedFrame (heap ts t)) (frameNumber fs) then heap ts t
      else
        let s := heap ts t in
        let '(a, u, e) :=
          updateExpiration X t
            (contentAvailable s, contentUnloaded s, contentExpired s) in
        let s1 := set_contentFlags a u e
                    (set_ancestorWithContentAvailable None
                       (set_finalResolution false
                          (set_selected false
                             (set_visitedFrame (frameNumber fs) s)))) in
        match parent (tree t) with
        | Some p =>
            let sp := if Nat.eqb p t then s1 else heap ts p in
            set_ancestorWithContentAvailable
              (if refine_eqb (refine (tree p)) REPLACE && contentAvailable sp
               then Some p else _ancestorWithContentAvailable sp) s1
        | None => s1
        end
    else heap ts x.
Proof.
  unfold visitTile.
  destruct (Z.eqb (_visitedFrame (heap ts t)) (frameNumber fs)).
  - destruct (Nat.eqb x t) eqn:E; [|reflexivity].
    apply Nat.eqb_eq in E. subst x. reflexivity.
  - destruct (parent (tree t)) as [p|]; unfold assign; cbn;
      rewrite ?Nat.eqb_refl;
      destruct (Nat.eqb x t) eqn:E; try reflexivity;
      destruct (updateExpiration X t _) as [[a u] e]; try reflexivity.
    destruct (Nat.eqb p t); reflexivity.
Qed.

Lemma visitTile_frameOf tree X fs ts t :
  frameOf (visitTile tree X fs ts t) = frameOf ts.
Proof.
  unfold visitTile. destruct (Z.eqb _ _); [reflexivity|].
  destruct (parent (tree t)); reflexivity.
Qed.

(** The state of every tile after [loadAndTouch]: the tile is stamped and
    may have a new priority. *)
Lemma loadAndTouch_heap tree fs ts t x :
  heap (loadAndTouch tree fs ts t) x
  = if Nat.eqb x t then
      set_touchedFrame (frameNumber fs)
        (if Z.eqb (_touchedFrame (heap ts t)) (frameNumber fs) then heap ts t
         else if contentUnloaded (heap ts t) || contentExpired (heap ts t)
         then set_priority (getPriority tree ts t) (heap ts t)
         else heap ts t)
    else heap ts x.
Proof.
  unfold loadAndTouch, loadTile, touch.
  destruct (Z.eqb (_touchedFrame (heap ts t)) (frameNumber fs)) eqn:E.
  - rewrite E. rewrite heap_assign. reflexivity.
  - destruct (contentUnloaded (heap ts t) || contentExpired (heap ts t)).
    + unfold assign; cbn. rewrite ?Nat.eqb_refl. cbn. rewrite E. cbn.
      rewrite ?Nat.eqb_refl. destruct (Nat.eqb x t); reflexivity.
    + rewrite E. unfold assign; cbn. rewrite ?Nat.eqb_refl.
      destruct (Nat.eqb x t); reflexivity.
Qed.

Lemma loadAndTouch_requested tree fs ts t :
  _requestedTiles (loadAndTouch tree fs ts t)
  = if negb (Z.eqb (_touchedFrame (heap ts t)) (frameNumber fs))
       && (contentUnloaded (heap ts t) || contentExpired (heap ts t))
    then push (_requestedTiles ts) t
    else _requestedTiles ts.
Proof.
  unfold loadAndTouch, loadTile, touch.
  destruct (Z.eqb (_touchedFrame (heap ts t)) (frameNumber fs)) eqn:E.
  - rewrite E. reflexivity.
  - destruct (contentUnloaded (heap ts t) || contentExpired (heap ts t)).
    + unfold assign; cbn. rewrite ?Nat.eqb_refl. cbn. rewrite E. reflexivity.
    + rewrite E. reflexivity.
Qed.

Lemma loadAndTouch_selected tree fs ts t :
  _selectedTiles (loadAndTouch tree fs ts t) = _selectedTiles ts.
Proof.
  unfold loadAndTouch, loadTile, touch.
  repeat (match goal with |- context [if ?b then _ else _] => destruct b end;
          try reflexivity).
Qed.

Lemma loadAndTouch_desired tree fs ts t :
  _desiredTiles (loadAndTouch tree fs ts t) = _desiredTiles ts.
Proof.
  unfold loadAndTouch, loadTile, touch.
  repeat (match goal with |- context [if ?b then _ else _] => destruct b end;
          try reflexivity).
Qed.

Lemma loadAndTouch_hasMixedContent tree fs ts t :
  _hasMixedContent (loadAndTouch tree fs ts t) = _hasMixedContent ts.
Proof.
  unfold loadAndTouch, loadTile, touch.
  repeat (match goal with |- context [if ?b then _ else _] => destruct b end;
          try reflexivity).
Qed.

(** The state of every tile after [selectTile]. *)
Lemma selectTile_heap X fs ts t x :
  heap (selectTile X fs ts t) x
  = if Nat.eqb x t then
      if contentAvailable (heap ts t)
         && (Z.eqb (_visibilityPlaneMask (heap ts t)) MASK_INSIDE
             || negb (intersect_eqb (contentVisibility X t) OUTSIDE))
      then
        set_lastSelectedFrameNumber (frameNumber fs)
          (if featurePropertiesDirty (heap ts t)
           then set_lastStyleTime 0
                  (set_featurePropertiesDirty false (heap ts t))
           else heap ts t)
      else heap ts t
    else heap ts x.
Proof.
  unfold selectTile.
  destruct (contentAvailable (heap ts t) && _).
  - cbn. destruct (featurePropertiesDirty (heap ts t)).
    + unfold assign; cbn. rewrite ?Nat.eqb_refl.
      destruct (Nat.eqb x t); reflexivity.
    + destruct (negb _); unfold assign; cbn; destruct (Nat.eqb x t);
        reflexivity.
  - destruct (Nat.eqb x t) eqn:E; [|reflexivity].
    apply Nat.eqb_eq in E. subst x. reflexivity.
Qed.

Lemma selectTile_selected X fs ts t :
  _selectedTiles (selectTile X fs ts t)
  = if contentAvailable (heap ts t)
       && (Z.eqb (_visibilityPlaneMask (heap ts t)) MASK_INSIDE
           || negb (intersect_eqb (contentVisibility X t) OUTSIDE))
    then push (_selectedTiles ts) t
    else _selectedTiles ts.
Proof.
  unfold selectTile.
  destruct (contentAvailable (heap ts t) && _); [|reflexivity].
  cbn. destruct (featurePropertiesDirty (heap ts t)); [reflexivity|].
  destruct (negb _); reflexivity.
Qed.

(** ** The shape of a call *)

Lemma resetFrame_lists ts :
  _desiredTiles (resetFrame ts) = [] /\ _selectedTiles (resetFrame ts) = []
  /\ _requestedTiles (resetFrame ts) = []
  /\ _selectedTilesToStyle (resetFrame ts) = []
  /\ _hasMixedContent (resetFrame ts) = false.
Proof. repeat split. Qed.

Lemma resetFrame_heap ts : heap (resetFrame ts) = heap ts.
Proof. reflexivity. Qed.

Lemma rootVisibility_culled tree X fs ts :
  culled ts (snd (rootVisibility tree X fs ts)).
Proof.
  unfold rootVisibility.
  pose proof (updateTile_culled tree X fs ts (_root ts)) as C.
  destruct (updateTile tree X fs ts (_root ts)) as [v ts1]. cbn [snd] in C.
  destruct v; [|exact C].
  eapply culled_trans; [exact C | apply updateVisibility_culled].
Qed.

(** The three ways a call ends: frozen, at a guard, or through base
    traversal. *)
Lemma selectTiles_cases tree X fs skipT hybridT fuel ts d ts' :
  selectTiles tree X fs skipT hybridT fuel ts = Some (d, ts') ->
  (debugFreezeFrame ts = true /\ d = None /\ ts' = ts)
  \/ (debugFreezeFrame ts = false /\ d = None /\ culled (resetFrame ts) ts')
  \/ (debugFreezeFrame ts = false /\ d = Some BaseTraversal
      /\ exists ts1,
           culled (resetFrame ts) ts1
           /\ selectBaseTraversal tree X fs fuel
                (set_skipLevelOfDetail false
                   (loadAndTouch tree fs ts1 (_root ts))) (_root ts)
              = Some ts').
Proof.
  unfold selectTiles.
  destruct (debugFreezeFrame ts); [intros [= <- <-]; left; auto|].
  pose proof (rootVisibility_culled tree X fs (resetFrame ts)) as C.
  destruct (rootVisibility tree X fs (resetFrame ts)) as [v ts1].
  cbn [snd] in C.
  destruct v; cbn [negb]; [|intros [= <- <-]; right; left; auto].
  destruct (Qle_bool _ _); [intros [= <- <-]; right; left; auto|].
  cbn [_skipLevelOfDetail set_skipLevelOfDetail withFrame negb].
  change (_root (resetFrame ts)) with (_root ts).
  destruct (selectBaseTraversal _ _ _ _ _ _) as [ts2|] eqn:E; [|discriminate].
  intros [= <- <-]. right; right. repeat split. exists ts1. auto.
Qed.

Section SelectBaseInvariant.

Variable tree : TileId -> Tile.
Variable X : Externals.
Variable fs : FrameState.
Variable P : Tileset -> Prop.

Hypothesis P_visitTile : forall ts t, P ts -> P (visitTile tree X fs ts t).
Hypothesis P_updateVisibility :
  forall ts t m, P ts -> P (snd (updateVisibility tree X fs ts t m)).
Hypothesis P_loadAndTouch : forall ts t, P ts -> P (loadAndTouch tree fs ts t).
Hypothesis P_refines :
  forall ts t v, P ts -> P (assign t (set_refines v) ts).
Hypothesis P_desired :
  forall ts t, P ts -> P (set_desiredTiles (push (_desiredTiles ts) t) ts).
Hypothesis P_selectTile : forall ts t, P ts -> P (selectTile X fs ts t).

Lemma fold_selectTile_inv l ts : P ts -> P (fold_left (selectTile X fs) l ts).
Proof.
  revert ts. induction l as [|t l IH]; intros ts H; cbn.
  - exact H.
  - apply IH, P_selectTile, H.
Qed.

Lemma selectBaseTraversal_inv fuel ts root ts' :
  P ts -> selectBaseTraversal tree X fs fuel ts root = Some ts' -> P ts'.
Proof.
  intros H. unfold selectBaseTraversal, executeBaseTraversal.
  destruct (base_loop _ _ _ _ _ _ _ _ _ _) as [[[fr leaves] ts1]|] eqn:E;
    [|discriminate].
  intros [= <-].
  apply fold_selectTile_inv, fold_selectTile_inv.
  eapply (base_loop_inv tree X fs P); eassumption.
Qed.

End SelectBaseInvariant.

(** ** Requests *)

Lemma requestsStamped_culled fs ts ts' :
  culled ts ts' -> requestsStamped fs ts -> requestsStamped fs ts'.
Proof.
  intros C [N S]. unfold requestsStamped.
  rewrite (culled_requested _ _ C). split; [exact N|].
  intros t Ht. rewrite (culled_touched _ _ t C). apply S, Ht.
Qed.

Lemma visitTile_touched tree X fs ts t x :
  _touchedFrame (heap (visitTile tree X fs ts t) x) = _touchedFrame (heap ts x).
Proof.
  rewrite visitTile_heap.
  destruct (Nat.eqb x t) eqn:E; [|reflexivity].
  apply Nat.eqb_eq in E. subst x.
  destruct (Z.eqb _ _); [reflexivity|]. cbn zeta.
  destruct (updateExpiration X t _) as [[a u] e].
  destruct (parent (tree t)); reflexivity.
Qed.

Lemma visitTile_requested' tree X fs ts t :
  _requestedTiles (visitTile tree X fs ts t) = _requestedTiles ts.
Proof.
  pose proof (visitTile_frameOf tree X fs ts t) as F. unfold frameOf in F.
  congruence.
Qed.

Lemma requestsStamped_visitTile tree X fs ts t :
  requestsStamped fs ts -> requestsStamped fs (visitTile tree X fs ts t).
Proof.
  intros [N S]. unfold requestsStamped. rewrite visitTile_requested'.
  split; [exact N|]. intros x Hx. rewrite visitTile_touched. apply S, Hx.
Qed.

Lemma loadAndTouch_touched tree fs ts t x :
  _touchedFrame (heap (loadAndTouch tree fs ts t) x)
  = if Nat.eqb x t then frameNumber fs else _touchedFrame (heap ts x).
Proof.
  rewrite loadAndTouch_heap. destruct (Nat.eqb x t); reflexivity.
Qed.

Lemma requestsStamped_loadAndTouch tree fs ts t :
  requestsStamped fs ts -> requestsStamped fs (loadAndTouch tree fs ts t).
Proof.
  intros [N S]. unfold requestsStamped. rewrite loadAndTouch_requested.
  destruct (Z.eqb (_touchedFrame (heap ts t)) (frameNumber fs)) eqn:E;
    cbn [negb andb].
  - split; [exact N|]. intros x Hx. rewrite loadAndTouch_touched.
    destruct (Nat.eqb x t); [reflexivity | apply S, Hx].
  - destruct (contentUnloaded (heap ts t) || contentExpired (heap ts t)).
    + split.
      * unfold push. apply NoDup_app; [exact N | repeat constructor; intros [] |].
        intros x Hx [<- | []]. apply S in Hx. rewrite Hx, Z.eqb_refl in E.
        discriminate E.
      * intros x Hx. rewrite loadAndTouch_touched.
        destruct (Nat.eqb x t) eqn:Ex; [reflexivity|].
        apply in_app_or in Hx. destruct Hx as [Hx | [<- | []]]; [apply S, Hx|].
        rewrite Nat.eqb_refl in Ex. discriminate Ex.
    + split; [exact N|]. intros x Hx. rewrite loadAndTouch_touched.
      destruct (Nat.eqb x t); [reflexivity | apply S, Hx].
Qed.

Lemma requestsStamped_selectTile X fs ts t :
  requestsStamped fs ts -> requestsStamped fs (selectTile X fs ts t).
Proof.
  intros [N S]. unfold requestsStamped.
  assert (R : _requestedTiles (selectTile X fs ts t) = _requestedTiles ts).
  { unfold selectTile.
    repeat (match goal with |- context [if ?b then _ else _] => destruct b end;
            try reflexivity). }
  rewrite R. split; [exact N|]. intros x Hx. rewrite selectTile_heap.
  destruct (Nat.eqb x t) eqn:E; [|apply S, Hx].
  apply Nat.eqb_eq in E. subst x.
  destruct (contentAvailable _ && _); [|apply S, Hx].
  destruct (featurePropertiesDirty _); cbn; apply S, Hx.
Qed.

Lemma requestsStamped_assign fs ts t f :
  (forall s, _touchedFrame (f s) = _touchedFrame s) ->
  requestsStamped fs ts -> requestsStamped fs (assign t f ts).
Proof.
  intros Hf [N S]. split; [exact N|].
  intros x Hx. change (_requestedTiles (assign t f ts)) with (_requestedTiles ts) in Hx.
  rewrite heap_assign. destruct (Nat.eqb x t) eqn:E; [|apply S, Hx].
  apply Nat.eqb_eq in E. subst x. rewrite Hf. apply S, Hx.
Qed.

(** C6.  A call that is not frozen leaves [_requestedTiles] without
    duplicates, every requested tile stamped with the frame; a frozen call
    requests nothing. *)
Theorem selectTiles_requests_once
    (tree : TileId -> Tile) (X : Externals) (fs : FrameState)
    (skipT hybridT : Tileset -> TileId -> option Tileset)
    (fuel : nat) (ts ts' : Tileset) (d : option Strategy) :
  selectTiles tree X fs skipT hybridT fuel ts = Some (d, ts') ->
  (debugFreezeFrame ts = true /\ _requestedTiles ts' = _requestedTiles ts)
  \/ (debugFreezeFrame ts = false
      /\ NoDup (_requestedTiles ts')
      /\ forall t, In t (_requestedTiles ts') ->
           _touchedFrame (heap ts' t) = frameNumber fs).
Proof.
  intros H. apply selectTiles_cases in H.
  assert (R0 : requestsStamped fs (resetFrame ts)).
  { split; [constructor | intros t []]. }
  destruct H as [(F & _ & ->) | [(F & _ & C) | (F & _ & ts1 & C & H)]].
  - left. auto.
  - right. split; [exact F|]. apply (requestsStamped_culled _ _ _ C R0).
  - right. split; [exact F|].
    apply (selectBaseTraversal_inv tree X fs (requestsStamped fs)) in H;
      [exact H | | | | | | | ].
    + intros; apply requestsStamped_visitTile; assumption.
    + intros s t m Hs.
      exact (requestsStamped_culled _ _ _ (updateVisibility_culled tree X fs s t m) Hs).
    + intros; apply requestsStamped_loadAndTouch; assumption.
    + intros s t v Hs. apply requestsStamped_assign; [reflexivity | exact Hs].
    + intros s t Hs. exact Hs.
    + intros; apply requestsStamped_selectTile; assumption.
    + apply (requestsStamped_loadAndTouch tree fs ts1 (_root ts)
               (requestsStamped_culled _ _ _ C R0)).
Qed.

(** ** Termination on well-founded trees *)

Section Termination.

Variable tree : TileId -> Tile.
Variable rank : TileId -> nat.
Hypothesis tree_ranked : ranked tree rank.

Lemma weight_children n t :
  (rank t <= n)%nat ->
  weight tree n t
  = S (list_sum (map (subtree tree rank) (children (tree t)))).
Proof.
  revert t. induction n as [n IH] using lt_wf_ind. intros t Hn.
  destruct n as [|n].
  - cbn. destruct (children (tree t)) as [|c cs] eqn:E; [reflexivity|].
    exfalso. assert (H : (rank c < rank t)%nat)
      by (apply tree_ranked; rewrite E; left; reflexivity).
    lia.
  - cbn. f_equal. f_equal. apply map_ext_in. intros c Hc.
    pose proof (tree_ranked t c Hc) as Hr. unfold subtree.
    rewrite (IH n) by lia. rewrite (IH (rank c)) by lia. reflexivity.
Qed.

Lemma subtree_children t :
  subtree tree rank t
  = S (stackWeight tree rank (children (tree t))).
Proof. unfold subtree. apply weight_children. lia. Qed.

Lemma stackWeight_cons t stack :
  stackWeight tree rank (t :: stack)
  = (subtree tree rank t + stackWeight tree rank stack)%nat.
Proof. reflexivity. Qed.

Lemma stackWeight_child t c :
  In c (children (tree t)) ->
  (subtree tree rank c < subtree tree rank t)%nat.
Proof.
  intros H. rewrite (subtree_children t).
  induction (children (tree t)) as [|c' cs IH]; [destruct H|].
  rewrite stackWeight_cons. destruct H as [-> | H].
  - lia.
  - specialize (IH H). lia.
Qed.

Variable X : Externals.
Variable fs : FrameState.

Lemma internalBase_children_stack m cs stack ts :
  fst (internalBase_children tree X fs m cs stack ts) = rev cs ++ stack.
Proof.
  revert stack ts. induction cs as [|c cs IH]; intros stack ts; cbn.
  - reflexivity.
  - destruct (updateVisibility tree X fs ts c m) as [v ts1].
    rewrite IH. rewrite <- app_assoc. reflexivity.
Qed.

Lemma stackWeight_app a b :
  stackWeight tree rank (a ++ b)
  = (stackWeight tree rank a + stackWeight tree rank b)%nat.
Proof.
  unfold stackWeight. rewrite map_app, list_sum_app. reflexivity.
Qed.

Lemma stackWeight_rev a :
  stackWeight tree rank (rev a) = stackWeight tree rank a.
Proof.
  induction a as [|x a IH]; [reflexivity|].
  cbn [rev]. rewrite stackWeight_app, IH, !stackWeight_cons.
  change (stackWeight tree rank []) with 0%nat. lia.
Qed.

(** The internal traversal returns when its fuel covers its stack. *)
Lemma internalBase_loop_total fuel m stack all ts :
  (stackWeight tree rank stack <= fuel)%nat ->
  exists r, internalBase_loop tree X fs fuel m stack all ts = Some r.
Proof.
  revert stack all ts. induction fuel as [|fuel IH]; intros stack all ts H;
    destruct stack as [|t stack]; cbn.
  - eexists; reflexivity.
  - rewrite stackWeight_cons, subtree_children in H. lia.
  - eexists; reflexivity.
  - rewrite stackWeight_cons, subtree_children in H.
    destruct (_ && Qgtb _ m).
    + pose proof (internalBase_children_stack m (children (tree t)) stack ts)
        as Hs.
      destruct (internalBase_children tree X fs m (children (tree t)) stack ts)
        as [stack1 ts1]. cbn [fst] in Hs. subst stack1.
      apply IH. rewrite stackWeight_app, stackWeight_rev. lia.
    + apply IH. lia.
Qed.

Lemma executeInternalBaseTraversal_total fuel ts root m :
  (subtree tree rank root <= fuel)%nat ->
  exists r, executeInternalBaseTraversal tree X fs fuel ts root m = Some r.
Proof.
  intros H. apply internalBase_loop_total.
  rewrite stackWeight_cons. unfold stackWeight; cbn. lia.
Qed.

(** The child loop returns when [inner] covers every child; it pushes
    children only. *)
Lemma base_children_total inner m replace add cs refines stack ts :
  (forall c, In c cs -> (subtree tree rank c <= inner)%nat) ->
  exists r stack' ts',
    base_children tree X fs inner m replace add cs refines stack ts
      = Some (r, stack', ts')
    /\ (stackWeight tree rank stack'
        <= stackWeight tree rank cs + stackWeight tree rank stack)%nat
    /\ (forall x, In x stack' -> In x cs \/ In x stack).
Proof.
  revert refines stack ts. induction cs as [|c cs IH];
    intros refines stack ts H; cbn [base_children].
  - exists refines, stack, ts. repeat split; auto.
  - destruct (updateVisibility tree X fs ts c m) as [v ts1].
    set (ts2 := if replace || add && v then loadAndTouch tree fs ts1 c else ts1).
    assert (Hi : exists r ts3,
               (if refines && replace then
                  if hasEmptyContent (tree c) || hasTilesetContent (tree c)
                  then executeInternalBaseTraversal tree X fs inner ts2 c m
                  else Some (contentAvailable (heap ts2 c), ts2)
                else Some (refines, ts2)) = Some (r, ts3)).
    { destruct (refines && replace); [|do 2 eexists; reflexivity].
      destruct (hasEmptyContent (tree c) || hasTilesetContent (tree c));
        [|do 2 eexists; reflexivity].
      destruct (executeInternalBaseTraversal_total inner ts2 c m
                  (H c (or_introl eq_refl))) as [[r ts3] E].
      do 2 eexists; exact E. }
    destruct Hi as (r & ts3 & ->).
    destruct (IH r (if v then c :: stack else stack) ts3) as (r' & stack' & ts' & E & W & S).
    { intros x Hx. apply H. right. exact Hx. }
    exists r', stack', ts'. split; [exact E|]. split.
    + rewrite stackWeight_cons. destruct v; [rewrite stackWeight_cons in W|]; lia.
    + intros x Hx. apply S in Hx. destruct Hx as [Hx | Hx]; [left; right; exact Hx|].
      destruct v; [|right; exact Hx].
      destruct Hx as [<- | Hx]; [left; left; reflexivity | right; exact Hx].
Qed.

(** The base traversal returns when its fuel covers its stack and [inner]
    covers each tile on it. *)
Lemma base_loop_total inner fuel m stack leaves fr ts :
  (stackWeight tree rank stack <= fuel)%nat ->
  (forall t, In t stack -> (subtree tree rank t <= inner)%nat) ->
  exists r, base_loop tree X fs inner fuel m stack leaves fr ts = Some r.
Proof.
  revert stack leaves fr ts. induction fuel as [|fuel IH];
    intros stack leaves fr ts H Hin; destruct stack as [|t stack]; cbn.
  - eexists; reflexivity.
  - rewrite stackWeight_cons, subtree_children in H. lia.
  - eexists; reflexivity.
  - rewrite stackWeight_cons, subtree_children in H.
    set (ts0 := visitTile tree X fs ts t).
    destruct (negb _ && Qgtb _ m).
    + destruct (base_children_total inner m
                  (refine_eqb (refine (tree t)) REPLACE)
                  (refine_eqb (refine (tree t)) ADD)
                  (children (tree t))
                  (true && match parent (tree t) with
                           | Some p => _refines (heap ts0 p)
                           | None => true
                           end) stack ts0)
        as (r & stack' & ts' & E & W & S).
      { intros c Hc. pose proof (stackWeight_child t c Hc) as Hlt.
        specialize (Hin t (or_introl eq_refl)). lia. }
      rewrite E.
      destruct (negb r && _ && _); destruct (_ && contentAvailable _);
        apply IH; try lia;
        intros x Hx; apply S in Hx;
        (destruct Hx as [Hx | Hx];
         [pose proof (stackWeight_child t x Hx);
          specialize (Hin t (or_introl eq_refl)); lia
         | apply Hin; right; exact Hx]).
    + destruct (negb _ && _ && _); destruct (_ && contentAvailable _);
        apply IH; try lia; intros x Hx; apply Hin; right; exact Hx.
Qed.

Lemma executeBaseTraversal_total fuel ts root m :
  (subtree tree rank root <= fuel)%nat ->
  exists r, executeBaseTraversal tree X fs fuel ts root m = Some r.
Proof.
  intros H. apply base_loop_total.
  - rewrite stackWeight_cons. unfold stackWeight; cbn. lia.
  - intros t [<- | []]. exact H.
Qed.

Lemma selectBaseTraversal_total fuel ts root :
  (subtree tree rank root <= fuel)%nat ->
  exists ts', selectBaseTraversal tree X fs fuel ts root = Some ts'.
Proof.
  intros H. unfold selectBaseTraversal.
  destruct (executeBaseTraversal_total fuel ts root
              (_maximumScreenSpaceError ts) H) as [[[fr leaves] ts1] ->].
  eexists; reflexivity.
Qed.

(** [selectTiles] returns on a well-founded tree once the fuel covers the
    root. *)
Lemma selectTiles_total skipT hybridT fuel ts :
  (subtree tree rank (_root ts) <= fuel)%nat ->
  exists d ts', selectTiles tree X fs skipT hybridT fuel ts = Some (d, ts').
Proof.
  intros H. unfold selectTiles.
  destruct (debugFreezeFrame ts); [eauto|].
  destruct (rootVisibility tree X fs (resetFrame ts)) as [v ts1].
  destruct v; cbn [negb]; [|eauto].
  destruct (Qle_bool _ _); [eauto|].
  cbn [_skipLevelOfDetail set_skipLevelOfDetail withFrame negb].
  change (_root (resetFrame ts)) with (_root ts).
  destruct (selectBaseTraversal_total fuel
              (set_skipLevelOfDetail false (loadAndTouch tree fs ts1 (_root ts)))
              (_root ts) H) as [ts' E].
  rewrite E. do 2 eexists; reflexivity.
Qed.

End Termination.

(** ** The committed list *)

Lemma selectTile_contentAvailable X fs ts t x :
  contentAvailable (heap (selectTile X fs ts t) x) = contentAvailable (heap ts x).
Proof.
  rewrite selectTile_heap. destruct (Nat.eqb x t) eqn:E; [|reflexivity].
  apply Nat.eqb_eq in E. subst x.
  destruct (contentAvailable (heap ts t) && _); [|reflexivity].
  destruct (featurePropertiesDirty _); reflexivity.
Qed.

Lemma selectTile_mask X fs ts t x :
  _visibilityPlaneMask (heap (selectTile X fs ts t) x)
  = _visibilityPlaneMask (heap ts x).
Proof.
  rewrite selectTile_heap. destruct (Nat.eqb x t) eqn:E; [|reflexivity].
  apply Nat.eqb_eq in E. subst x.
  destruct (contentAvailable (heap ts t) && _); [|reflexivity].
  destruct (featurePropertiesDirty _); reflexivity.
Qed.

Lemma intersect_eqb_neq (a b : Intersect) :
  negb (intersect_eqb a b) = true -> a <> b.
Proof. destruct a, b; cbn; intros H; discriminate || (intros E; discriminate E). Qed.

Lemma selectionSound_selectTile X fs ts t :
  selectionSound X ts -> selectionSound X (selectTile X fs ts t).
Proof.
  intros H x Hx.
  rewrite selectTile_contentAvailable, selectTile_mask.
  rewrite selectTile_selected in Hx.
  destruct (contentAvailable (heap ts t) && _) eqn:E; [|apply H, Hx].
  apply in_app_or in Hx. destruct Hx as [Hx | [<- | []]]; [apply H, Hx|].
  apply andb_prop in E. destruct E as [Ea Ev]. split; [exact Ea|].
  apply orb_prop in Ev. destruct Ev as [Ev | Ev].
  - left. apply Z.eqb_eq, Ev.
  - right. apply intersect_eqb_neq, Ev.
Qed.

Lemma visitTile_selected tree X fs ts t :
  _selectedTiles (visitTile tree X fs ts t) = _selectedTiles ts.
Proof.
  pose proof (visitTile_frameOf tree X fs ts t) as F. unfold frameOf in F.
  congruence.
Qed.

(** The traversal proper leaves [_selectedTiles] alone. *)
Lemma base_loop_selected tree X fs inner fuel m stack leaves fr ts r ts' :
  base_loop tree X fs inner fuel m stack leaves fr ts = Some (r, ts') ->
  _selectedTiles ts' = _selectedTiles ts.
Proof.
  intros H.
  apply (base_loop_inv tree X fs
           (fun s => _selectedTiles s = _selectedTiles ts)) in H;
    [exact H | | | | | | reflexivity].
  - intros s t Hs. rewrite visitTile_selected. exact Hs.
  - intros s t m' Hs.
    rewrite (culled_selected _ _ (updateVisibility_culled tree X fs s t m')).
    exact Hs.
  - intros s t Hs. rewrite loadAndTouch_selected. exact Hs.
  - intros s t v Hs. exact Hs.
  - intros s t Hs. exact Hs.
Qed.

Lemma selectBaseTraversal_sound tree X fs fuel ts root ts' :
  _selectedTiles ts = [] ->
  selectBaseTraversal tree X fs fuel ts root = Some ts' ->
  selectionSound X ts'.
Proof.
  intros Hs. unfold selectBaseTraversal, executeBaseTraversal.
  destruct (base_loop _ _ _ _ _ _ _ _ _ _) as [[[fr leaves] ts1]|] eqn:E;
    [|discriminate].
  intros [= <-]. apply base_loop_selected in E. rewrite Hs in E.
  assert (H1 : selectionSound X ts1) by (intros t Ht; rewrite E in Ht; destruct Ht).
  apply (fold_selectTile_inv X fs (selectionSound X));
    try (intros; apply selectionSound_selectTile; assumption).
  apply (fold_selectTile_inv X fs (selectionSound X));
    try (intros; apply selectionSound_selectTile; assumption).
  exact H1.
Qed.

(** The test of [selectTile], on the committed list: every tile a call
    places in [_selectedTiles] has content available and either has
    [MASK_INSIDE] on record, in which case its content bounds are not
    tested, or has content bounds that are not outside the frustum. *)
Lemma selectTiles_selection_sound
    (tree : TileId -> Tile) (X : Externals) (fs : FrameState)
    (skipT hybridT : Tileset -> TileId -> option Tileset)
    (fuel : nat) (ts ts' : Tileset) (d : option Strategy) :
  debugFreezeFrame ts = false ->
  selectTiles tree X fs skipT hybridT fuel ts = Some (d, ts') ->
  forall t, In t (_selectedTiles ts') ->
    contentAvailable (heap ts' t) = true
    /\ (_visibilityPlaneMask (heap ts' t) = MASK_INSIDE
        \/ contentVisibility X t <> OUTSIDE).
Proof.
  intros F H. apply selectTiles_cases in H.
  destruct H as [(F' & _) | [(_ & _ & C) | (_ & _ & ts1 & C & H)]].
  - rewrite F in F'. discriminate F'.
  - intros t Ht. rewrite (culled_selected _ _ C) in Ht. destruct Ht.
  - apply selectBaseTraversal_sound in H; [exact H|].
    change (_selectedTiles (loadAndTouch tree fs ts1 (_root ts)) = []).
    rewrite loadAndTouch_selected. apply (culled_selected _ _ C).
Qed.

(** [selectTile] relies on the bounds being tight: told that the content
    of a tile wholly inside the frustum is outside of it, it selects the
    tile without asking. *)
Lemma selectTile_trusts_MASK_INSIDE :
  exists ts',
    selectTiles Examples.rootAndChild Examples.contentOutOfSight Examples.view
      Examples.noSkip Examples.noSkip 5
      (Examples.tileset false 16 10 false false Examples.rootLoaded)
    = Some (Some BaseTraversal, ts')
    /\ In 0%nat (_selectedTiles ts')
    /\ contentVisibility Examples.contentOutOfSight 0%nat = OUTSIDE.
Proof.
  eexists. split; [vm_compute; reflexivity|].
  split; [left; reflexivity | reflexivity].
Qed.

Lemma selectTiles_requests_once_witness :
  exists ts',
    selectTiles Examples.rootAndChild Examples.inSight Examples.view
      Examples.noSkip Examples.noSkip 5
      (Examples.tileset false 16 10 false false Examples.rootLoaded)
    = Some (Some BaseTraversal, ts')
    /\ _requestedTiles ts' = [1%nat]
    /\ NoDup (_requestedTiles ts').
Proof.
  eexists. split; [vm_compute; reflexivity|]. split; [reflexivity|].
  match goal with
  | |- NoDup (_requestedTiles ?r) =>
      assert (E : selectTiles Examples.rootAndChild Examples.inSight
                    Examples.view Examples.noSkip Examples.noSkip 5
                    (Examples.tileset false 16 10 false false
                       Examples.rootLoaded)
                  = Some (Some BaseTraversal, r))
        by (vm_compute; reflexivity)
  end.
  destruct (selectTiles_requests_once _ _ _ _ _ _ _ _ _ E)
    as [[F _] | [_ [N _]]]; [discriminate F | exact N].
Defined.

(** ** Fields the traversal proper leaves alone *)

Lemma visitTile_core tree X fs ts t x :
  noExpiry X ->
  core (heap (visitTile tree X fs ts t) x) = core (heap ts x).
Proof.
  intros HX. rewrite visitTile_heap.
  destruct (Nat.eqb x t) eqn:E; [|reflexivity].
  apply Nat.eqb_eq in E. subst x.
  destruct (Z.eqb _ _); [reflexivity|]. cbn zeta.
  rewrite HX. destruct (parent (tree t)); reflexivity.
Qed.

Lemma visitTile_refines tree X fs ts t x :
  _refines (heap (visitTile tree X fs ts t) x) = _refines (heap ts x).
Proof.
  rewrite visitTile_heap.
  destruct (Nat.eqb x t) eqn:E; [|reflexivity].
  apply Nat.eqb_eq in E. subst x.
  destruct (Z.eqb _ _); [reflexivity|]. cbn zeta.
  destruct (updateExpiration X t _) as [[a u] e].
  destruct (parent (tree t)); reflexivity.
Qed.

Lemma visitTile_visited_other tree X fs ts t x :
  x <> t ->
  _visitedFrame (heap (visitTile tree X fs ts t) x) = _visitedFrame (heap ts x).
Proof.
  intros H. rewrite visitTile_heap.
  destruct (Nat.eqb x t) eqn:E; [|reflexivity].
  apply Nat.eqb_eq in E. contradiction.
Qed.

Lemma loadAndTouch_core tree fs ts t x :
  core (heap (loadAndTouch tree fs ts t) x) = core (heap ts x).
Proof.
  rewrite loadAndTouch_heap. destruct (Nat.eqb x t) eqn:E; [|reflexivity].
  apply Nat.eqb_eq in E. subst x.
  destruct (Z.eqb _ _); [reflexivity|].
  destruct (_ || _); reflexivity.
Qed.

Lemma loadAndTouch_refines tree fs ts t x :
  _refines (heap (loadAndTouch tree fs ts t) x) = _refines (heap ts x).
Proof.
  rewrite loadAndTouch_heap. destruct (Nat.eqb x t) eqn:E; [|reflexivity].
  apply Nat.eqb_eq in E. subst x.
  destruct (Z.eqb _ _); [reflexivity|].
  destruct (_ || _); reflexivity.
Qed.

Lemma loadAndTouch_visited tree fs ts t x :
  _visitedFrame (heap (loadAndTouch tree fs ts t) x) = _visitedFrame (heap ts x).
Proof.
  rewrite loadAndTouch_heap. destruct (Nat.eqb x t) eqn:E; [|reflexivity].
  apply Nat.eqb_eq in E. subst x.
  destruct (Z.eqb _ _); [reflexivity|].
  destruct (_ || _); reflexivity.
Qed.

Lemma selectTile_core X fs ts t x :
  core (heap (selectTile X fs ts t) x) = core (heap ts x).
Proof.
  rewrite selectTile_heap. destruct (Nat.eqb x t) eqn:E; [|reflexivity].
  apply Nat.eqb_eq in E. subst x.
  destruct (contentAvailable (heap ts t) && _); [|reflexivity].
  destruct (featurePropertiesDirty _); reflexivity.
Qed.

Lemma selectTile_visited X fs ts t x :
  _visitedFrame (heap (selectTile X fs ts t) x) = _visitedFrame (heap ts x).
Proof.
  rewrite selectTile_heap. destruct (Nat.eqb x t) eqn:E; [|reflexivity].
  apply Nat.eqb_eq in E. subst x.
  destruct (contentAvailable (heap ts t) && _); [|reflexivity].
  destruct (featurePropertiesDirty _); reflexivity.
Qed.

Lemma selectTile_lists X fs ts t :
  _desiredTiles (selectTile X fs ts t) = _desiredTiles ts
  /\ _requestedTiles (selectTile X fs ts t) = _requestedTiles ts
  /\ _hasMixedContent (selectTile X fs ts t) = _hasMixedContent ts.
Proof.
  unfold selectTile.
  repeat (match goal with |- context [if ?b then _ else _] => destruct b end;
          try (repeat split; reflexivity)).
Qed.

Lemma selectable_core X ts ts' t :
  core (heap ts' t) = core (heap ts t) -> selectable X ts' t = selectable X ts t.
Proof.
  unfold core, selectable. intros [= -> _ _ _ _ _ ->]. reflexivity.
Qed.

(** The two loops that end [selectBaseTraversal]: the tiles of the list
    that pass the test of [selectTile] are appended, in order. *)
Lemma fold_selectTile_selected X fs l ts :
  _selectedTiles (fold_left (selectTile X fs) l ts)
  = _selectedTiles ts ++ filter (selectable X ts) l.
Proof.
  revert ts. induction l as [|t l IH]; intros ts; cbn [fold_left filter].
  - rewrite app_nil_r. reflexivity.
  - rewrite IH, selectTile_selected. fold (selectable X ts t).
    rewrite (filter_ext (selectable X (selectTile X fs ts t)) (selectable X ts))
      by (intros x; apply selectable_core, selectTile_core).
    destruct (selectable X ts t); [|reflexivity].
    unfold push. rewrite <- app_assoc. reflexivity.
Qed.

Lemma fold_selectTile_core X fs l ts x :
  core (heap (fold_left (selectTile X fs) l ts) x) = core (heap ts x).
Proof.
  revert ts. induction l as [|t l IH]; intros ts; cbn [fold_left].
  - reflexivity.
  - rewrite IH. apply selectTile_core.
Qed.

Lemma fold_selectTile_visited X fs l ts x :
  _visitedFrame (heap (fold_left (selectTile X fs) l ts) x)
  = _visitedFrame (heap ts x).
Proof.
  revert ts. induction l as [|t l IH]; intros ts; cbn [fold_left].
  - reflexivity.
  - rewrite IH. apply selectTile_visited.
Qed.

Lemma fold_selectTile_lists X fs l ts :
  _desiredTiles (fold_left (selectTile X fs) l ts) = _desiredTiles ts
  /\ _requestedTiles (fold_left (selectTile X fs) l ts) = _requestedTiles ts
  /\ _hasMixedContent (fold_left (selectTile X fs) l ts) = _hasMixedContent ts.
Proof.
  revert ts. induction l as [|t l IH]; intros ts; cbn [fold_left].
  - repeat split.
  - destruct (IH (selectTile X fs ts t)) as (D & R & M).
    destruct (selectTile_lists X fs ts t) as (D' & R' & M').
    repeat split; congruence.
Qed.

(** What [selectBaseTraversal] commits, from what the traversal left. *)
Lemma selectBaseTraversal_result tree X fs fuel ts root ts' :
  selectBaseTraversal tree X fs fuel ts root = Some ts' ->
  exists fr leaves ts1,
    executeBaseTraversal tree X fs fuel ts root (_maximumScreenSpaceError ts)
      = Some (fr, leaves, ts1)
    /\ _selectedTiles ts'
       = _selectedTiles ts1 ++ filter (selectable X ts1) leaves
         ++ filter (selectable X ts1) (_desiredTiles ts1)
    /\ (forall x, core (heap ts' x) = core (heap ts1 x))
    /\ (forall x, _visitedFrame (heap ts' x) = _visitedFrame (heap ts1 x))
    /\ _requestedTiles ts' = _requestedTiles ts1
    /\ _hasMixedContent ts' = _hasMixedContent ts1.
Proof.
  unfold selectBaseTraversal.
  destruct (executeBaseTraversal _ _ _ _ _ _ _) as [[[fr leaves] ts1]|];
    [|discriminate].
  intros [= <-]. exists fr, leaves, ts1. split; [reflexivity|].
  destruct (fold_selectTile_lists X fs leaves ts1) as (D & R & M).
  destruct (fold_selectTile_lists X fs
              (_desiredTiles (fold_left (selectTile X fs) leaves ts1))
              (fold_left (selectTile X fs) leaves ts1)) as (D' & R' & M').
  repeat split.
  - rewrite !fold_selectTile_selected, D, <- app_assoc. f_equal. f_equal.
    apply filter_ext. intros x. apply selectable_core, fold_selectTile_core.
  - intros x. rewrite !fold_selectTile_core. reflexivity.
  - intros x. rewrite !fold_selectTile_visited. reflexivity.
  - congruence.
  - congruence.
Qed.

(** Past the guards the call is the base traversal. *)
Lemma selectTiles_base tree X fs skipT hybridT fuel ts ts1 :
  debugFreezeFrame ts = false ->
  rootVisibility tree X fs (resetFrame ts) = (true, ts1) ->
  Qle_bool (getScreenSpaceError X fs ts1 (_geometricError ts1) (_root ts))
    (_maximumScreenSpaceError ts) = false ->
  selectTiles tree X fs skipT hybridT fuel ts
  = option_map (pair (Some BaseTraversal))
      (selectBaseTraversal tree X fs fuel
         (set_skipLevelOfDetail false (loadAndTouch tree fs ts1 (_root ts)))
         (_root ts)).
Proof.
  intros F V G. unfold selectTiles. rewrite F, V. cbn [negb].
  change (_root (resetFrame ts)) with (_root ts). rewrite G. reflexivity.
Qed.

Lemma selectTiles_guarded tree X fs skipT hybridT fuel ts ts1 :
  debugFreezeFrame ts = false ->
  rootVisibility tree X fs (resetFrame ts) = (true, ts1) ->
  Qle_bool (getScreenSpaceError X fs ts1 (_geometricError ts1) (_root ts))
    (_maximumScreenSpaceError ts) = true ->
  selectTiles tree X fs skipT hybridT fuel ts = Some (None, ts1).
Proof.
  intros F V G. unfold selectTiles. rewrite F, V. cbn [negb].
  change (_root (resetFrame ts)) with (_root ts). rewrite G. reflexivity.
Qed.

(** ** The visibility pass, tile by tile *)

Lemma getScreenSpaceError_zero X fs ts g t :
  g == 0 -> getScreenSpaceError X fs ts g t = 0.
Proof.
  intros H. unfold getScreenSpaceError.
  rewrite (proj2 (Qeq_bool_iff g 0) H). reflexivity.
Qed.

(** [getScreenSpaceError] reads the tileset's configuration and the
    distance of the tile. *)
Lemma getScreenSpaceError_ext X fs ts ts' g t :
  frameOf ts' = frameOf ts ->
  _distanceToCamera (heap ts' t) = _distanceToCamera (heap ts t) ->
  getScreenSpaceError X fs ts' g t = getScreenSpaceError X fs ts g t.
Proof.
  intros F D. unfold getScreenSpaceError. rewrite D.
  unfold frameOf in F.
  assert (E1 : dynamicScreenSpaceError ts' = dynamicScreenSpaceError ts)
    by congruence.
  assert (E2 : _dynamicScreenSpaceErrorComputedDensity ts'
               = _dynamicScreenSpaceErrorComputedDensity ts) by congruence.
  assert (E3 : dynamicScreenSpaceErrorFactor ts'
               = dynamicScreenSpaceErrorFactor ts) by congruence.
  rewrite E1, E2, E3. reflexivity.
Qed.

Lemma updateTile_heap tree X fs ts t x :
  heap (snd (updateTile tree X fs ts t)) x
  = if Nat.eqb x t then
      set_visibilityPlaneMask (viewedMask tree X ts t)
        (set_screenSpaceError (viewedError tree X fs ts t)
           (set_centerZDepth (distanceToTileCenter X t)
              (set_distanceToCamera (distanceToTile X t) (heap ts t))))
    else heap ts x.
Proof.
  unfold updateTile. cbn [snd]. rewrite !heap_assign.
  destruct (Nat.eqb x t) eqn:E; [|reflexivity].
  rewrite !Nat.eqb_refl. unfold viewedMask, viewedError.
  f_equal. f_equal. apply getScreenSpaceError_ext; [reflexivity|].
  rewrite !heap_assign_same. reflexivity.
Qed.

Lemma updateTile_visible tree X fs ts t :
  fst (updateTile tree X fs ts t)
  = negb (Z.eqb (viewedMask tree X ts t) MASK_OUTSIDE).
Proof.
  unfold updateTile, viewedMask. cbn [fst].
  destruct (negb (Z.eqb _ MASK_OUTSIDE)) eqn:E; cbn [andb];
    [|reflexivity].
  destruct (insideViewerRequestVolume X t); [|reflexivity].
  symmetry. exact E.
Qed.

Section VisibilityInvariant.

Variable tree : TileId -> Tile.
Variable X : Externals.
Variable fs : FrameState.
Variable P : Tileset -> Prop.

Hypothesis P_updateTile : forall ts t, P ts -> P (snd (updateTile tree X fs ts t)).
Hypothesis P_mask :
  forall ts t (f : TileState -> Z),
    P ts -> P (assign t (fun s => set_visibilityPlaneMask (f s) s) ts).
Hypothesis P_count : forall ts, P ts -> P (countCulledWithChildrenUnion ts).

Lemma updateChildren_from_inv cs any ts :
  P ts -> P (snd (updateChildren_from tree X fs cs any ts)).
Proof.
  revert any ts. induction cs as [|c cs IH]; intros any ts H; cbn.
  - exact H.
  - pose proof (P_updateTile ts c H) as H1.
    destruct (updateTile tree X fs ts c) as [v ts1]. apply IH, H1.
Qed.

Lemma getVisibility_inv ts t m :
  P ts -> P (snd (getVisibility tree X fs ts t m)).
Proof.
  intros H. unfold getVisibility.
  destruct (Z.eqb _ MASK_OUTSIDE); [exact H|].
  destruct (_ && contentExpired _); [exact H|].
  destruct (match parent (tree t) with Some _ => _ | None => _ end);
    [exact H|].
  destruct (_ && negb (Nat.eqb _ 0)).
  - pose proof (updateChildren_from_inv (children (tree t)) false ts H) as H1.
    fold (updateChildren tree X fs ts t) in H1.
    destruct (updateChildren tree X fs ts t) as [any ts1]. cbn [snd] in H1.
    destruct (_ && negb any); cbn [snd]; [apply P_count|]; exact H1.
  - destruct (_ && negb true); cbn [snd]; [apply P_count|]; exact H.
Qed.

Lemma updateVisibility_inv ts t m :
  P ts -> P (snd (updateVisibility tree X fs ts t m)).
Proof.
  intros H. unfold updateVisibility.
  destruct (Z.eqb _ (frameNumber fs)); [exact H|].
  pose proof (getVisibility_inv ts t m H) as H1.
  destruct (getVisibility tree X fs ts t m) as [v ts1]. cbn [snd] in *.
  apply (P_mask ts1 t
           (fun s => if v then _visibilityPlaneMask s else MASK_OUTSIDE)), H1.
Qed.

Lemma rootVisibility_inv ts :
  P ts -> P (snd (rootVisibility tree X fs ts)).
Proof.
  intros H. unfold rootVisibility.
  pose proof (P_updateTile ts (_root ts) H) as H1.
  destruct (updateTile tree X fs ts (_root ts)) as [v ts1]. cbn [snd] in H1.
  destruct v; [|exact H1]. apply updateVisibility_inv, H1.
Qed.

End VisibilityInvariant.

(** ** A tileset without geometric error *)

Lemma rootVisibility_flat_root tree X fs ts :
  (forall t, geometricError (tree t) == 0) ->
  _screenSpaceError (heap (snd (rootVisibility tree X fs ts)) (_root ts)) = 0.
Proof.
  intros Hflat.
  assert (U : forall s t,
             _screenSpaceError (heap s (_root ts)) = 0 ->
             _screenSpaceError (heap (snd (updateTile tree X fs s t)) (_root ts))
             = 0).
  { intros s t H. rewrite updateTile_heap.
    destruct (Nat.eqb (_root ts) t); [|exact H].
    cbn. apply getScreenSpaceError_zero, Hflat. }
  unfold rootVisibility.
  assert (H1 : _screenSpaceError
                 (heap (snd (updateTile tree X fs ts (_root ts))) (_root ts))
               = 0).
  { rewrite updateTile_heap, Nat.eqb_refl. cbn.
    apply getScreenSpaceError_zero, Hflat. }
  destruct (updateTile tree X fs ts (_root ts)) as [v ts1]. cbn [snd] in H1.
  destruct v; [|exact H1].
  apply (updateVisibility_inv tree X fs
           (fun s => _screenSpaceError (heap s (_root ts)) = 0)).
  - exact U.
  - intros s t f H. rewrite heap_assign.
    destruct (Nat.eqb (_root ts) t) eqn:E; [|exact H].
    apply Nat.eqb_eq in E. subst t. exact H.
  - intros s H. exact H.
  - exact H1.
Qed.

Lemma Qgtb_zero (m : Q) : 0 < m -> Qgtb 0 m = false.
Proof.
  intros H. unfold Qgtb. apply negb_false_iff, Qle_bool_iff, Qlt_le_weak, H.
Qed.

Lemma intersect_neq_eqb (a b : Intersect) :
  a <> b -> negb (intersect_eqb a b) = true.
Proof. destruct a, b; cbn; intros H; reflexivity || (contradiction H; reflexivity). Qed.

Lemma culled_configOf ts ts' : culled ts ts' -> configOf ts' = configOf ts.
Proof. intros [F _]. unfold frameOf in F. unfold configOf. congruence. Qed.

Lemma loadAndTouch_configOf tree fs ts t :
  configOf (loadAndTouch tree fs ts t) = configOf ts.
Proof.
  unfold loadAndTouch, loadTile, touch.
  repeat (match goal with |- context [if ?b then _ else _] => destruct b end;
          try reflexivity).
Qed.

Lemma configOf_maximumScreenSpaceError ts ts' :
  configOf ts' = configOf ts ->
  _maximumScreenSpaceError ts' = _maximumScreenSpaceError ts.
Proof. unfold configOf. congruence. Qed.

Lemma configOf_geometricError ts ts' :
  configOf ts' = configOf ts -> _geometricError ts' = _geometricError ts.
Proof. unfold configOf. congruence. Qed.

Lemma core_contentAvailable s s' :
  core s' = core s -> contentAvailable s' = contentAvailable s.
Proof. unfold core. congruence. Qed.

Lemma core_screenSpaceError s s' :
  core s' = core s -> _screenSpaceError s' = _screenSpaceError s.
Proof. unfold core. congruence. Qed.

Lemma core_mask s s' :
  core s' = core s -> _visibilityPlaneMask s' = _visibilityPlaneMask s.
Proof. unfold core. congruence. Qed.

Lemma persistent_contentAvailable s s' :
  persistent s' = persistent s -> contentAvailable s' = contentAvailable s.
Proof. unfold persistent. congruence. Qed.

Lemma base_loop_nil tree X fs inner fuel m leaves fr ts :
  base_loop tree X fs inner fuel m [] leaves fr ts = Some (fr, leaves, ts).
Proof. destruct fuel; reflexivity. Qed.

Lemma internalBase_loop_nil tree X fs fuel m all ts :
  internalBase_loop tree X fs fuel m [] all ts = Some (all, ts).
Proof. destruct fuel; reflexivity. Qed.

(** C2, as amended.  In a tileset whose tiles all have geometric error 0
    and available content that does not expire, with a positive budget and
    a root found visible whose content bounds are not outside the frustum,
    a call visits no tile but the root; it selects exactly the root when
    the error of not rendering the tileset, computed from the tileset's
    own geometric error, exceeds the budget, and selects nothing (the call
    returns at that guard) when it does not. *)
Theorem selectTiles_flat_tileset
    (tree : TileId -> Tile) (X : Externals) (fs : FrameState)
    (skipT hybridT : Tileset -> TileId -> option Tileset)
    (fuel : nat) (ts ts1 : Tileset) :
  debugFreezeFrame ts = false ->
  (forall t, geometricError (tree t) == 0) ->
  (forall t, contentAvailable (heap ts t) = true) ->
  0 < _maximumScreenSpaceError ts ->
  noExpiry X ->
  parent (tree (_root ts)) = None ->
  rootVisibility tree X fs (resetFrame ts) = (true, ts1) ->
  contentVisibility X (_root ts) <> OUTSIDE ->
  exists d ts',
    selectTiles tree X fs skipT hybridT (S fuel) ts = Some (d, ts')
    /\ (forall t, t <> _root ts ->
          _visitedFrame (heap ts' t) = _visitedFrame (heap ts t))
    /\ if Qle_bool
            (getScreenSpaceError X fs ts1 (_geometricError ts) (_root ts))
            (_maximumScreenSpaceError ts)
       then d = None /\ _selectedTiles ts' = []
       else d = Some BaseTraversal /\ _selectedTiles ts' = [_root ts].
Proof.
  intros F Hflat Havail Hmax HX Hparent V Hcv.
  pose proof (rootVisibility_culled tree X fs (resetFrame ts)) as C.
  pose proof (rootVisibility_flat_root tree X fs (resetFrame ts) Hflat) as Z0.
  rewrite V in C, Z0. cbn [snd] in C, Z0.
  change (_root (resetFrame ts)) with (_root ts) in Z0.
  pose proof (culled_configOf _ _ C) as Cf.
  change (configOf (resetFrame ts)) with (configOf ts) in Cf.
  rewrite <- (configOf_geometricError _ _ Cf).
  destruct (Qle_bool _ _) eqn:G.
  - exists None, ts1. split; [|split].
    + apply (selectTiles_guarded _ _ _ _ _ _ _ _ F V G).
    + intros t _. rewrite (culled_visited _ _ t C). reflexivity.
    + split; [reflexivity|]. rewrite (culled_selected _ _ C). reflexivity.
  - rewrite (selectTiles_base _ _ _ _ _ _ _ _ F V G).
    set (root := _root ts) in *.
    set (ts2 := set_skipLevelOfDetail false (loadAndTouch tree fs ts1 root)).
    assert (H2 : forall x, heap ts2 x = heap (loadAndTouch tree fs ts1 root) x)
      by reflexivity.
    assert (M2 : _maximumScreenSpaceError ts2 = _maximumScreenSpaceError ts).
    { apply configOf_maximumScreenSpaceError.
      change (configOf ts2) with (configOf (loadAndTouch tree fs ts1 root)).
      rewrite loadAndTouch_configOf. exact Cf. }
    assert (A2 : contentAvailable (heap ts2 root) = true).
    { rewrite H2, (core_contentAvailable _ _ (loadAndTouch_core tree fs ts1 root root)).
      rewrite (culled_contentAvailable _ _ root C). apply Havail. }
    assert (S2 : _screenSpaceError (heap ts2 root) = 0).
    { rewrite H2, (core_screenSpaceError _ _ (loadAndTouch_core tree fs ts1 root root)).
      exact Z0. }
    assert (D2 : _desiredTiles ts2 = []).
    { change (_desiredTiles ts2) with (_desiredTiles (loadAndTouch tree fs ts1 root)).
      rewrite loadAndTouch_desired. apply (culled_desired _ _ C). }
    assert (L2 : _selectedTiles ts2 = []).
    { change (_selectedTiles ts2) with (_selectedTiles (loadAndTouch tree fs ts1 root)).
      rewrite loadAndTouch_selected. apply (culled_selected _ _ C). }
    assert (V2 : forall x, _visitedFrame (heap ts2 x) = _visitedFrame (heap ts x)).
    { intros x. rewrite H2, loadAndTouch_visited, (culled_visited _ _ x C).
      reflexivity. }
    clearbody ts2. clear H2.
    unfold selectBaseTraversal, executeBaseTraversal.
    cbn [base_loop].
    set (ts3 := visitTile tree X fs ts2 root).
    assert (K3 : forall x, core (heap ts3 x) = core (heap ts2 x))
      by (intros x; apply visitTile_core, HX).
    rewrite (core_screenSpaceError _ _ (K3 root)), S2, M2, (Qgtb_zero _ Hmax).
    rewrite andb_false_r. cbn [andb].
    rewrite (core_contentAvailable _ _ (K3 root)), A2.
    assert (D3 : _desiredTiles ts3 = [])
      by (pose proof (visitTile_frameOf tree X fs ts2 root) as E;
          unfold frameOf in E; subst ts3; congruence).
    assert (L3 : _selectedTiles ts3 = [])
      by (subst ts3; rewrite visitTile_selected; exact L2).
    rewrite Hparent.
    set (ts4 := assign root (set_refines false) ts3).
    assert (K4 : forall x, core (heap ts4 x) = core (heap ts3 x)).
    { intros x. subst ts4. rewrite heap_assign.
      destruct (Nat.eqb x root) eqn:E; [|reflexivity].
      apply Nat.eqb_eq in E. subst x. reflexivity. }
    assert (Sel : selectable X ts4 root = true).
    { unfold selectable.
      rewrite (core_contentAvailable _ _ (K4 root)),
              (core_contentAvailable _ _ (K3 root)), A2.
      rewrite (intersect_neq_eqb _ _ Hcv), orb_true_r. reflexivity. }
    assert (V4 : forall x, x <> root ->
                   _visitedFrame (heap ts4 x) = _visitedFrame (heap ts x)).
    { intros x Hx. subst ts4. rewrite heap_assign_other by exact Hx.
      subst ts3. rewrite visitTile_visited_other by exact Hx. apply V2. }
    rewrite (core_contentAvailable _ _ (K4 root)),
            (core_contentAvailable _ _ (K3 root)), A2.
    destruct (refine (tree root)); cbn [refine_eqb andb negb];
      rewrite base_loop_nil; cbn [option_map].
    + (* ADD *)
      eexists. eexists. split; [reflexivity|]. split.
      * intros x Hx. rewrite !fold_selectTile_visited. apply V4, Hx.
      * split; [reflexivity|].
        rewrite !fold_selectTile_selected. cbn [fold_left filter].
        rewrite app_nil_r.
        change (_selectedTiles (set_desiredTiles (push (_desiredTiles ts4) root) ts4))
          with (_selectedTiles ts3).
        change (_desiredTiles (set_desiredTiles (push (_desiredTiles ts4) root) ts4))
          with (push (_desiredTiles ts3) root).
        rewrite L3, D3. cbn [push app filter].
        change (selectable X
                  (set_desiredTiles (push (_desiredTiles ts4) root) ts4) root)
          with (selectable X ts4 root).
        rewrite Sel. reflexivity.
    + (* REPLACE *)
      eexists. eexists. split; [reflexivity|]. split.
      * intros x Hx. rewrite !fold_selectTile_visited. apply V4, Hx.
      * split; [reflexivity|].
        rewrite !fold_selectTile_selected.
        destruct (fold_selectTile_lists X fs (push [] root) ts4) as (D & _ & _).
        rewrite D.
        change (_desiredTiles ts4) with (_desiredTiles ts3).
        change (_selectedTiles ts4) with (_selectedTiles ts3).
        rewrite L3, D3. cbn [push app filter]. rewrite Sel. reflexivity.
Qed.

Lemma selectTiles_flat_tileset_witness :
  exists d ts',
    selectTiles Examples.flatTree Examples.inSight Examples.view
      Examples.noSkip Examples.noSkip 1
      (Examples.tileset false 16 10 false false (fun _ => Examples.loaded))
    = Some (d, ts')
    /\ d = Some BaseTraversal /\ _selectedTiles ts' = [0%nat].
Proof.
  destruct (selectTiles_flat_tileset Examples.flatTree Examples.inSight
              Examples.view Examples.noSkip Examples.noSkip 0
              (Examples.tileset false 16 10 false false
                 (fun _ => Examples.loaded))
              (snd (rootVisibility Examples.flatTree Examples.inSight
                      Examples.view
                      (resetFrame
                         (Examples.tileset false 16 10 false false
                            (fun _ => Examples.loaded))))))
    as (d & ts' & E & _ & R).
  - reflexivity.
  - intros [|t]; reflexivity.
  - reflexivity.
  - reflexivity.
  - intros t flags. reflexivity.
  - reflexivity.
  - vm_compute. reflexivity.
  - discriminate.
  - exists d, ts'. split; [exact E|]. vm_compute in R. exact R.
Defined.

(** C2 as stated fails: every geometric error of this tileset is 0, its
    own included, every tile has content available and the root is found
    visible; the call returns at the guard on the error of not rendering
    the tileset and selects nothing. *)
Lemma selectTiles_flat_tileset_selects_nothing :
  let ts := Examples.tileset false 16 0 false false (fun _ => Examples.loaded) in
  (forall t, geometricError (Examples.flatTree t) == 0)
  /\ (forall t, contentAvailable (heap ts t) = true)
  /\ fst (rootVisibility Examples.flatTree Examples.inSight Examples.view
            (resetFrame ts)) = true
  /\ exists ts',
       selectTiles Examples.flatTree Examples.inSight Examples.view
         Examples.noSkip Examples.noSkip 5 ts = Some (None, ts')
       /\ _selectedTiles ts' = [].
Proof.
  cbv zeta. split; [intros [|t]; reflexivity|].
  split; [reflexivity|]. split; [vm_compute; reflexivity|].
  eexists. split; [vm_compute; reflexivity | reflexivity].
Qed.

(** ** The visibility pass and the tiles it does not reach *)

Lemma updateChildren_from_heap_other tree X fs cs any ts x :
  ~ In x cs ->
  heap (snd (updateChildren_from tree X fs cs any ts)) x = heap ts x.
Proof.
  revert any ts. induction cs as [|c cs IH]; intros any ts H; cbn.
  - reflexivity.
  - pose proof (updateTile_heap tree X fs ts c x) as U.
    destruct (updateTile tree X fs ts c) as [v ts1]. cbn [snd] in U.
    rewrite IH by (intros Hx; apply H; right; exact Hx).
    rewrite U. destruct (Nat.eqb x c) eqn:E; [|reflexivity].
    apply Nat.eqb_eq in E. subst c. exfalso. apply H. left. reflexivity.
Qed.

Lemma getVisibility_heap_other tree X fs ts t m x :
  ~ In x (children (tree t)) ->
  heap (snd (getVisibility tree X fs ts t m)) x = heap ts x.
Proof.
  intros H. unfold getVisibility.
  destruct (Z.eqb _ MASK_OUTSIDE); [reflexivity|].
  destruct (_ && contentExpired _); [reflexivity|].
  destruct (match parent (tree t) with Some _ => _ | None => _ end);
    [reflexivity|].
  destruct (_ && negb (Nat.eqb _ 0)).
  - pose proof (updateChildren_from_heap_other tree X fs (children (tree t))
                  false ts x H) as U.
    fold (updateChildren tree X fs ts t) in U.
    destruct (updateChildren tree X fs ts t) as [any ts1]. cbn [snd] in U.
    destruct (_ && negb any); cbn [snd]; exact U.
  - destruct (_ && negb true); reflexivity.
Qed.

(** A tile that is not a child of [t] keeps its state through
    [updateVisibility] of [t], but for the mask of [t] itself, which is
    kept or set to [MASK_OUTSIDE]. *)
Lemma updateVisibility_heap_other tree X fs ts t m x :
  ~ In x (children (tree t)) ->
  heap (snd (updateVisibility tree X fs ts t m)) x
  = if Nat.eqb x t
    then set_visibilityPlaneMask
           (_visibilityPlaneMask
              (heap (snd (updateVisibility tree X fs ts t m)) t))
           (heap ts t)
    else heap ts x.
Proof.
  intros H. unfold updateVisibility.
  destruct (Z.eqb _ (frameNumber fs)).
  - cbn [snd]. destruct (Nat.eqb x t) eqn:E; [|reflexivity].
    apply Nat.eqb_eq in E. subst x. destruct (heap ts t); reflexivity.
  - pose proof (getVisibility_heap_other tree X fs ts t m x H) as G.
    destruct (getVisibility tree X fs ts t m) as [v ts1]. cbn [snd] in *.
    rewrite !heap_assign, Nat.eqb_refl.
    destruct (Nat.eqb x t) eqn:E; [|exact G].
    apply Nat.eqb_eq in E. subst x. rewrite G. reflexivity.
Qed.

Lemma updateVisibility_mask tree X fs ts t m :
  fst (updateVisibility tree X fs ts t m)
  = negb (Z.eqb (_visibilityPlaneMask
                   (heap (snd (updateVisibility tree X fs ts t m)) t))
            MASK_OUTSIDE).
Proof.
  unfold updateVisibility. destruct (Z.eqb _ (frameNumber fs)); [reflexivity|].
  destruct (getVisibility tree X fs ts t m) as [v ts1]. reflexivity.
Qed.

(** On a tile without children [updateVisibility] keeps the mask or sets
    it to [MASK_OUTSIDE], and assigns nothing else. *)
Lemma updateVisibility_leaf tree X fs ts t m x :
  children (tree t) = [] ->
  heap (snd (updateVisibility tree X fs ts t m)) x
  = if Nat.eqb x t
    then set_visibilityPlaneMask
           (if fst (updateVisibility tree X fs ts t m)
            then _visibilityPlaneMask (heap ts t) else MASK_OUTSIDE)
           (heap ts t)
    else heap ts x.
Proof.
  intros Hc.
  assert (H : ~ In x (children (tree t))) by (rewrite Hc; intros []).
  unfold updateVisibility.
  destruct (Z.eqb _ (frameNumber fs)).
  - cbn [snd fst]. destruct (Nat.eqb x t) eqn:E; [|reflexivity].
    apply Nat.eqb_eq in E. subst x.
    destruct (Z.eqb _ MASK_OUTSIDE) eqn:Em; cbn [negb].
    + apply Z.eqb_eq in Em. rewrite <- Em. destruct (heap ts t); reflexivity.
    + destruct (heap ts t); reflexivity.
  - assert (Ht : ~ In t (children (tree t))) by (rewrite Hc; intros []).
    pose proof (getVisibility_heap_other tree X fs ts t m x H) as G.
    pose proof (getVisibility_heap_other tree X fs ts t m t Ht) as Gt.
    destruct (getVisibility tree X fs ts t m) as [v ts1]. cbn [snd fst] in *.
    rewrite !heap_assign, Nat.eqb_refl.
    destruct (Nat.eqb x t) eqn:E; [|exact G].
    rewrite Gt. cbn.
    destruct v.
    + destruct (Z.eqb _ MASK_OUTSIDE) eqn:Em; cbn [negb]; [|reflexivity].
      apply Z.eqb_eq in Em. rewrite Em. reflexivity.
    + reflexivity.
Qed.

(** A fresh tile found visible although its screen-space error exceeds
    the budget had its children updated. *)
Lemma getVisibility_refining tree X fs ts t m ts' :
  getVisibility tree X fs ts t m = (true, ts') ->
  Qle_bool (_screenSpaceError (heap ts t)) m = false ->
  children (tree t) <> [] ->
  ts' = snd (updateChildren tree X fs ts t).
Proof.
  intros H Hs Hc. unfold getVisibility in H. rewrite Hs in H.
  destruct (Z.eqb _ MASK_OUTSIDE); [discriminate|].
  destruct (_ && contentExpired _); [discriminate|].
  destruct (match parent (tree t) with Some _ => _ | None => _ end);
    [discriminate|].
  cbn [negb orb andb] in H.
  destruct (children (tree t)) as [|c cs] eqn:E; [contradiction Hc; reflexivity|].
  cbn [length Nat.eqb negb] in H.
  destruct (updateChildren tree X fs ts t) as [any ts1].
  destruct (_ && negb any); [discriminate|].
  injection H as <-. reflexivity.
Qed.

Lemma updateVisibility_fresh tree X fs ts t m ts' :
  _touchedFrame (heap ts t) <> frameNumber fs ->
  updateVisibility tree X fs ts t m = (true, ts') ->
  exists ts1,
    getVisibility tree X fs ts t m = (true, ts1)
    /\ ts' = assign t (fun s => set_visibilityPlaneMask
                                  (_visibilityPlaneMask s) s) ts1.
Proof.
  intros Ht H. unfold updateVisibility in H.
  destruct (Z.eqb _ (frameNumber fs)) eqn:E;
    [apply Z.eqb_eq in E; contradiction|].
  destruct (getVisibility tree X fs ts t m) as [v ts1].
  destruct v.
  - exists ts1. split; [reflexivity|]. injection H as _ <-. reflexivity.
  - exfalso. apply (f_equal fst) in H. cbn [fst] in H.
    rewrite heap_assign_same in H. cbn in H. discriminate H.
Qed.

(** ** A root with one unloaded child *)

Lemma executeInternalBaseTraversal_unloaded_leaf tree X fs inner ts c m :
  children (tree c) = [] ->
  contentAvailable (heap ts c) = false ->
  executeInternalBaseTraversal tree X fs (S inner) ts c m = Some (false, ts).
Proof.
  intros Hc Ha. unfold executeInternalBaseTraversal. cbn [internalBase_loop].
  rewrite Hc, Ha. cbn [length Nat.eqb negb andb].
  rewrite andb_false_r. cbn [negb andb]. apply internalBase_loop_nil.
Qed.

Lemma base_children_unloaded_leaf tree X fs inner m add c stack ts :
  children (tree c) = [] ->
  contentAvailable (heap ts c) = false ->
  base_children tree X fs (S inner) m true add [c] true stack ts
  = Some (false,
          (if fst (updateVisibility tree X fs ts c m) then c :: stack
           else stack),
          loadAndTouch tree fs (snd (updateVisibility tree X fs ts c m)) c).
Proof.
  intros Hc Ha. cbn [base_children].
  pose proof (updateVisibility_culled tree X fs ts c m) as C.
  destruct (updateVisibility tree X fs ts c m) as [v ts1]. cbn [fst snd] in *.
  cbn [orb andb].
  assert (A : contentAvailable (heap (loadAndTouch tree fs ts1 c) c) = false).
  { rewrite (core_contentAvailable _ _ (loadAndTouch_core tree fs ts1 c c)),
            (culled_contentAvailable _ _ c C). exact Ha. }
  destruct (hasEmptyContent (tree c) || hasTilesetContent (tree c)).
  - rewrite (executeInternalBaseTraversal_unloaded_leaf tree X fs inner _ c m Hc A).
    reflexivity.
  - rewrite A. reflexivity.
Qed.

Lemma Qgtb_20_16 (s m : Q) : s == 20 -> m == 16 -> Qgtb s m = true.
Proof.
  intros Hs Hm. unfold Qgtb. apply negb_true_iff.
  destruct (Qle_bool s m) eqn:E; [|reflexivity].
  apply Qle_bool_iff in E. lra.
Qed.

Lemma visitTile_desired tree X fs ts t :
  _desiredTiles (visitTile tree X fs ts t) = _desiredTiles ts.
Proof.
  pose proof (visitTile_frameOf tree X fs ts t) as F. unfold frameOf in F.
  congruence.
Qed.

Lemma visitTile_configOf tree X fs ts t :
  configOf (visitTile tree X fs ts t) = configOf ts.
Proof.
  pose proof (visitTile_frameOf tree X fs ts t) as F. unfold frameOf in F.
  unfold configOf. congruence.
Qed.

Lemma core_distanceToCamera s s' :
  core s' = core s -> _distanceToCamera s' = _distanceToCamera s.
Proof. unfold core. congruence. Qed.

Lemma core_contentUnloaded s s' :
  core s' = core s -> contentUnloaded s' = contentUnloaded s.
Proof. unfold core. congruence. Qed.

Lemma core_set_mask v s :
  core (set_visibilityPlaneMask v s)
  = (contentAvailable s, contentUnloaded s, contentExpired s,
     _distanceToCamera s, _centerZDepth s, _screenSpaceError s, v).
Proof. reflexivity. Qed.

(** One round of the loop of [executeBaseTraversal]. *)
Lemma base_loop_cons tree X fs inner fuel m t stack leaves fr ts :
  base_loop tree X fs inner (S fuel) m (t :: stack) leaves fr ts
  = let add := refine_eqb (refine (tree t)) ADD in
    let replace := refine_eqb (refine (tree t)) REPLACE in
    let ts := visitTile tree X fs ts t in
    let cs := children (tree t) in
    let traverse :=
      negb (Nat.eqb (length cs) 0)
      && Qgtb (_screenSpaceError (heap ts t)) m in
    let replacementWithContent := replace && contentAvailable (heap ts t) in
    let parentRefines :=
      match parent (tree t) with
      | Some p => _refines (heap ts p)
      | None => true
      end in
    let refines := traverse && parentRefines in
    match
      (if traverse
       then base_children tree X fs inner m replace add cs refines stack ts
       else Some (refines, stack, ts))
    with
    | None => None
    | Some (refines, stack, ts) =>
        let ts := assign t (set_refines refines) ts in
        let '(fr, leaves) :=
          if negb refines && parentRefines && replacementWithContent
          then (fr && negb traverse, push leaves t)
          else (fr, leaves) in
        let ts :=
          if add && contentAvailable (heap ts t)
          then set_desiredTiles (push (_desiredTiles ts) t) ts
          else ts in
        base_loop tree X fs inner fuel m stack leaves fr ts
    end.
Proof. reflexivity. Qed.

Lemma resetFrame_root ts : _root (resetFrame ts) = _root ts.
Proof. reflexivity. Qed.

Lemma resetFrame_maximumScreenSpaceError ts :
  _maximumScreenSpaceError (resetFrame ts) = _maximumScreenSpaceError ts.
Proof. reflexivity. Qed.

Lemma rootVisibility_eq tree X fs ts :
  rootVisibility tree X fs ts
  = (if fst (updateTile tree X fs ts (_root ts))
     then updateVisibility tree X fs (snd (updateTile tree X fs ts (_root ts)))
            (_root ts) (_maximumScreenSpaceError ts)
     else (false, snd (updateTile tree X fs ts (_root ts)))).
Proof.
  unfold rootVisibility.
  destruct (updateTile tree X fs ts (_root ts)) as [v ts1]. reflexivity.
Qed.

(** C4.  A visible REPLACE root (geometric error 10, content available,
    screen-space error 20 in this view) with one child (geometric error 0,
    no children, content unloaded), budget 16, in a frame that has not
    stamped either tile and in which nothing expires: one call gives the
    child the distance, error and mask of this view, pushes it onto
    [_requestedTiles] and ends with [_selectedTiles] equal to the root
    alone. *)
Theorem selectTiles_unloaded_child
    (tree : TileId -> Tile) (X : Externals) (fs : FrameState)
    (skipT hybridT : Tileset -> TileId -> option Tileset)
    (fuel : nat) (ts ts1 : Tileset) (c : TileId) :
  debugFreezeFrame ts = false ->
  noExpiry X ->
  parent (tree (_root ts)) = None ->
  children (tree (_root ts)) = [c] ->
  refine (tree (_root ts)) = REPLACE ->
  geometricError (tree (_root ts)) == 10 ->
  c <> _root ts ->
  parent (tree c) = Some (_root ts) ->
  children (tree c) = [] ->
  geometricError (tree c) == 0 ->
  contentAvailable (heap ts (_root ts)) = true ->
  contentAvailable (heap ts c) = false ->
  contentUnloaded (heap ts c) = true ->
  _touchedFrame (heap ts (_root ts)) <> frameNumber fs ->
  _touchedFrame (heap ts c) <> frameNumber fs ->
  _maximumScreenSpaceError ts == 16 ->
  rootVisibility tree X fs (resetFrame ts) = (true, ts1) ->
  _screenSpaceError (heap ts1 (_root ts)) == 20 ->
  Qle_bool (getScreenSpaceError X fs ts1 (_geometricError ts) (_root ts))
    (_maximumScreenSpaceError ts) = false ->
  contentVisibility X (_root ts) <> OUTSIDE ->
  exists ts',
    selectTiles tree X fs skipT hybridT (S (S fuel)) ts
      = Some (Some BaseTraversal, ts')
    /\ _selectedTiles ts' = [_root ts]
    /\ In c (_requestedTiles ts')
    /\ _distanceToCamera (heap ts' c) = distanceToTile X c
    /\ _screenSpaceError (heap ts' c) = 0
    /\ (_visibilityPlaneMask (heap ts' c) = MASK_OUTSIDE
        \/ _visibilityPlaneMask (heap ts' c)
           = visibility X c (_visibilityPlaneMask (heap ts' (_root ts)))).
Proof.
  intros F HX Hparent Hkids Hrefine _ Hc Hpc Hleaf Hgc Ar Ac Uc Tr Tc Hm V
    Hsse G Hcv.
  set (root := _root ts) in *.
  set (m := _maximumScreenSpaceError ts) in *.
  pose proof (rootVisibility_culled tree X fs (resetFrame ts)) as C.
  rewrite V in C. cbn [snd] in C.
  pose proof (culled_configOf _ _ C) as Cf.
  change (configOf (resetFrame ts)) with (configOf ts) in Cf.
  (* what the visibility pass left in the root and the child *)
  assert (Hroot_kids : ~ In root (children (tree root)))
    by (rewrite Hkids; intros [E | []]; apply Hc; exact E).
  assert (V1 : _distanceToCamera (heap ts1 c) = distanceToTile X c
               /\ _screenSpaceError (heap ts1 c) = 0
               /\ (_visibilityPlaneMask (heap ts1 c) = MASK_OUTSIDE
                   \/ _visibilityPlaneMask (heap ts1 c)
                      = visibility X c (_visibilityPlaneMask (heap ts1 root)))).
  { pose proof (rootVisibility_eq tree X fs (resetFrame ts)) as Vq.
    rewrite V, resetFrame_root, resetFrame_maximumScreenSpaceError in Vq.
    fold root m in Vq.
    pose proof (updateTile_heap tree X fs (resetFrame ts) root) as U.
    destruct (updateTile tree X fs (resetFrame ts) root) as [v tsa].
    cbn [snd fst] in U, Vq. destruct v; [|discriminate Vq].
    symmetry in Vq. clear V. rename Vq into V.
    assert (Ta : _touchedFrame (heap tsa root) <> frameNumber fs).
    { rewrite U, Nat.eqb_refl. exact Tr. }
    destruct (updateVisibility_fresh tree X fs tsa root m ts1 Ta V)
      as (tsb & Gv & E1).
    pose proof (getVisibility_heap_other tree X fs tsa root m root Hroot_kids)
      as Gr.
    rewrite Gv in Gr. cbn [snd] in Gr.
    assert (R1 : heap ts1 root
                 = set_visibilityPlaneMask (_visibilityPlaneMask (heap tsa root))
                     (heap tsa root)).
    { rewrite E1, heap_assign_same, Gr. reflexivity. }
    assert (Sa : Qle_bool (_screenSpaceError (heap tsa root)) m = false).
    { rewrite R1 in Hsse. cbn in Hsse.
      pose proof (Qgtb_20_16 _ _ Hsse Hm) as Q. unfold Qgtb in Q.
      apply negb_true_iff in Q. exact Q. }
    assert (Nk : children (tree root) <> []) by (rewrite Hkids; discriminate).
    pose proof (getVisibility_refining tree X fs tsa root m tsb Gv Sa Nk) as Eb.
    unfold updateChildren in Eb. rewrite Hkids in Eb.
    cbn [updateChildren_from] in Eb.
    pose proof (updateTile_heap tree X fs tsa c c) as Uc'.
    destruct (updateTile tree X fs tsa c) as [vc tsd]. cbn [snd] in Eb, Uc'.
    subst tsd. rewrite Nat.eqb_refl in Uc'.
    assert (C1 : heap ts1 c = heap tsb c)
      by (rewrite E1; apply heap_assign_other; exact Hc).
    rewrite C1, Uc', R1. cbn.
    split; [reflexivity|]. split.
    - unfold viewedError. apply getScreenSpaceError_zero, Hgc.
    - unfold viewedMask. rewrite Hpc.
      destruct (_ && insideViewerRequestVolume X c); [right | left]; reflexivity. }
  destruct V1 as (Dc & Sc & Mc).
  rewrite <- (configOf_geometricError _ _ Cf) in G.
  rewrite (selectTiles_base _ _ _ _ _ _ _ _ F V G).
  fold root.
  set (ts2 := set_skipLevelOfDetail false (loadAndTouch tree fs ts1 root)).
  assert (H2 : forall x, heap ts2 x = heap (loadAndTouch tree fs ts1 root) x)
    by reflexivity.
  assert (K2 : forall x, core (heap ts2 x) = core (heap ts1 x))
    by (intros x; rewrite H2; apply loadAndTouch_core).
  assert (M2 : _maximumScreenSpaceError ts2 = m).
  { apply configOf_maximumScreenSpaceError.
    change (configOf ts2) with (configOf (loadAndTouch tree fs ts1 root)).
    rewrite loadAndTouch_configOf. exact Cf. }
  assert (D2 : _desiredTiles ts2 = []).
  { change (_desiredTiles ts2)
      with (_desiredTiles (loadAndTouch tree fs ts1 root)).
    rewrite loadAndTouch_desired. apply (culled_desired _ _ C). }
  assert (L2 : _selectedTiles ts2 = []).
  { change (_selectedTiles ts2)
      with (_selectedTiles (loadAndTouch tree fs ts1 root)).
    rewrite loadAndTouch_selected. apply (culled_selected _ _ C). }
  assert (T2 : _touchedFrame (heap ts2 c) <> frameNumber fs).
  { rewrite H2, loadAndTouch_touched.
    destruct (Nat.eqb c root) eqn:E;
      [apply Nat.eqb_eq in E; contradiction|].
    rewrite (culled_touched _ _ c C). exact Tc. }
  assert (P1 : forall x, persistent (heap ts1 x) = persistent (heap ts x))
    by (intros x; apply (culled_persistent _ _ x C)).
  assert (A1r : contentAvailable (heap ts1 root) = true)
    by (rewrite (persistent_contentAvailable _ _ (P1 root)); exact Ar).
  assert (A1c : contentAvailable (heap ts1 c) = false)
    by (rewrite (persistent_contentAvailable _ _ (P1 c)); exact Ac).
  assert (U1c : contentUnloaded (heap ts1 c) = true).
  { specialize (P1 c). unfold persistent in P1. congruence. }
  clearbody ts2. clear H2.
  unfold selectBaseTraversal, executeBaseTraversal. rewrite M2.
  rewrite base_loop_cons. cbv zeta.
  set (ts3 := visitTile tree X fs ts2 root).
  assert (K3 : forall x, core (heap ts3 x) = core (heap ts1 x))
    by (intros x; subst ts3; rewrite (visitTile_core tree X fs ts2 root x HX);
        apply K2).
  assert (T3 : _touchedFrame (heap ts3 c) <> frameNumber fs)
    by (subst ts3; rewrite visitTile_touched; exact T2).
  assert (D3 : _desiredTiles ts3 = [])
    by (subst ts3; rewrite visitTile_desired; exact D2).
  assert (L3 : _selectedTiles ts3 = [])
    by (subst ts3; rewrite visitTile_selected; exact L2).
  clearbody ts3.
  rewrite Hkids, Hparent, Hrefine. cbn [length Nat.eqb negb refine_eqb andb].
  rewrite (Qgtb_20_16 _ _ (eq_ind_r (fun q => q == 20) Hsse
                             (core_screenSpaceError _ _ (K3 root))) Hm).
  rewrite (core_contentAvailable _ _ (K3 root)), A1r.
  assert (A3c : contentAvailable (heap ts3 c) = false)
    by (rewrite (core_contentAvailable _ _ (K3 c)); exact A1c).
  cbn [andb].
  rewrite (base_children_unloaded_leaf tree X fs (S fuel) m false c [] ts3
             Hleaf A3c).
  pose proof (updateVisibility_leaf tree X fs ts3 c m) as UL.
  pose proof (updateVisibility_culled tree X fs ts3 c m) as CL.
  destruct (updateVisibility tree X fs ts3 c m) as [vc ts3a].
  cbn [fst snd] in UL, CL |- *.
  set (ts3b := loadAndTouch tree fs ts3a c).
  set (ts4 := assign root (set_refines false) ts3b).
  cbn [negb andb].
  (* the child after its own update *)
  assert (R3b : In c (_requestedTiles ts3b)).
  { subst ts3b. rewrite loadAndTouch_requested.
    rewrite (culled_touched _ _ c CL).
    destruct (Z.eqb (_touchedFrame (heap ts3 c)) (frameNumber fs)) eqn:E;
      [apply Z.eqb_eq in E; contradiction|].
    assert (Uc3 : contentUnloaded (heap ts3a c) = true).
    { pose proof (culled_persistent _ _ c CL) as P3.
      pose proof (K3 c) as K3c. unfold persistent in P3. unfold core in K3c.
      congruence. }
    rewrite Uc3. cbn. apply in_or_app. right. left. reflexivity. }
  assert (K4r : core (heap ts4 root) = core (heap ts1 root)).
  { subst ts4. rewrite heap_assign_same. subst ts3b.
    transitivity (core (heap (loadAndTouch tree fs ts3a c) root)).
    - destruct (heap (loadAndTouch tree fs ts3a c) root); reflexivity.
    - rewrite loadAndTouch_core, (UL root Hleaf).
      destruct (Nat.eqb root c) eqn:E;
        [apply Nat.eqb_eq in E; symmetry in E; contradiction|].
      apply K3. }
  assert (K4c : _distanceToCamera (heap ts4 c) = distanceToTile X c
                /\ _screenSpaceError (heap ts4 c) = 0
                /\ contentAvailable (heap ts4 c) = false
                /\ (_visibilityPlaneMask (heap ts4 c) = MASK_OUTSIDE
                    \/ _visibilityPlaneMask (heap ts4 c)
                       = _visibilityPlaneMask (heap ts1 c))).
  { assert (E4 : core (heap ts4 c)
                 = core (set_visibilityPlaneMask
                           (if vc then _visibilityPlaneMask (heap ts3 c)
                            else MASK_OUTSIDE) (heap ts3 c))).
    { subst ts4. rewrite heap_assign_other by exact Hc. subst ts3b.
      rewrite loadAndTouch_core, (UL c Hleaf), Nat.eqb_refl. reflexivity. }
    pose proof (core_distanceToCamera _ _ E4
                : _distanceToCamera (heap ts4 c)
                  = _distanceToCamera (heap ts3 c)) as Hd.
    pose proof (core_screenSpaceError _ _ E4
                : _screenSpaceError (heap ts4 c)
                  = _screenSpaceError (heap ts3 c)) as Hs.
    pose proof (core_contentAvailable _ _ E4
                : contentAvailable (heap ts4 c)
                  = contentAvailable (heap ts3 c)) as Ha.
    pose proof (core_mask _ _ E4
                : _visibilityPlaneMask (heap ts4 c)
                  = if vc then _visibilityPlaneMask (heap ts3 c)
                    else MASK_OUTSIDE) as Hk.
    rewrite Hd, Hs, Ha, Hk.
    rewrite (core_distanceToCamera _ _ (K3 c)),
            (core_screenSpaceError _ _ (K3 c)),
            (core_mask _ _ (K3 c)).
    repeat split; try assumption.
    destruct vc; [right | left]; reflexivity. }
  assert (F4 : _refines (heap ts4 root) = false)
    by (subst ts4; rewrite heap_assign_same; reflexivity).
  assert (D4 : _desiredTiles ts4 = []).
  { subst ts4 ts3b.
    change (_desiredTiles (loadAndTouch tree fs ts3a c) = []).
    rewrite loadAndTouch_desired, (culled_desired _ _ CL). exact D3. }
  assert (L4 : _selectedTiles ts4 = []).
  { subst ts4 ts3b.
    change (_selectedTiles (loadAndTouch tree fs ts3a c) = []).
    rewrite loadAndTouch_selected, (culled_selected _ _ CL). exact L3. }
  assert (R4 : In c (_requestedTiles ts4)) by exact R3b.
  clearbody ts4. clear UL CL R3b ts3b.
  (* the state the traversal ends in *)
  assert (End : forall fr, exists tsF,
            base_loop tree X fs (S (S fuel)) (S fuel) m
              (if vc then [c] else []) (push [] root) fr ts4
            = Some (fr, push [] root, tsF)
            /\ (forall x, core (heap tsF x) = core (heap ts4 x))
            /\ _desiredTiles tsF = [] /\ _selectedTiles tsF = []
            /\ _requestedTiles tsF = _requestedTiles ts4).
  { intros fr. destruct vc.
    - rewrite base_loop_cons. cbv zeta. rewrite Hleaf.
      cbn [length Nat.eqb negb andb].
      assert (Av : contentAvailable (heap (visitTile tree X fs ts4 c) c) = false).
      { rewrite (core_contentAvailable _ _ (visitTile_core tree X fs ts4 c c HX)).
        apply K4c. }
      rewrite Av, !andb_false_r.
      rewrite heap_assign_same.
      change (contentAvailable (set_refines false (heap (visitTile tree X fs ts4 c) c)))
        with (contentAvailable (heap (visitTile tree X fs ts4 c) c)).
      rewrite Av, andb_false_r, base_loop_nil.
      eexists. split; [reflexivity|]. repeat split.
      + intros x. rewrite heap_assign.
        destruct (Nat.eqb x c) eqn:E.
        * apply Nat.eqb_eq in E. subst x.
          rewrite <- (visitTile_core tree X fs ts4 c c HX).
          destruct (heap (visitTile tree X fs ts4 c) c); reflexivity.
        * apply visitTile_core, HX.
      + change (_desiredTiles (visitTile tree X fs ts4 c) = []).
        rewrite visitTile_desired. exact D4.
      + change (_selectedTiles (visitTile tree X fs ts4 c) = []).
        rewrite visitTile_selected. exact L4.
      + change (_requestedTiles (visitTile tree X fs ts4 c) = _requestedTiles ts4).
        apply visitTile_requested.
    - rewrite base_loop_nil. exists ts4. repeat split; assumption. }
  cbn [negb andb].
  destruct (End false) as (tsF & EF & KF & DF & LF & RF).
  rewrite EF. cbn [option_map].
  eexists. split; [reflexivity|].
  destruct (fold_selectTile_lists X fs (push [] root) tsF) as (Df & Rf & _).
  destruct (fold_selectTile_lists X fs
              (_desiredTiles (fold_left (selectTile X fs) (push [] root) tsF))
              (fold_left (selectTile X fs) (push [] root) tsF)) as (_ & Rf' & _).
  assert (KE : forall x,
            core (heap (fold_left (selectTile X fs)
                          (_desiredTiles
                             (fold_left (selectTile X fs) (push [] root) tsF))
                          (fold_left (selectTile X fs) (push [] root) tsF)) x)
            = core (heap ts4 x)).
  { intros x. rewrite !fold_selectTile_core. apply KF. }
  split; [|split; [|split; [|split]]].
  - rewrite !fold_selectTile_selected, Df, DF, LF. cbn [push app filter].
    assert (Sel : selectable X tsF root = true).
    { unfold selectable.
      rewrite (core_contentAvailable _ _ (KF root)),
              (core_contentAvailable _ _ K4r), A1r.
      rewrite (intersect_neq_eqb _ _ Hcv), orb_true_r. reflexivity. }
    rewrite Sel. reflexivity.
  - rewrite Rf', Rf, RF. exact R4.
  - rewrite (core_distanceToCamera _ _ (KE c)). apply K4c.
  - rewrite (core_screenSpaceError _ _ (KE c)). apply K4c.
  - rewrite (core_mask _ _ (KE c)), (core_mask _ _ (KE root)),
            (core_mask _ _ K4r).
    destruct K4c as (_ & _ & _ & [Ko | Kv]); [left; exact Ko|].
    rewrite Kv. exact Mc.
Qed.

Lemma selectTiles_unloaded_child_witness :
  exists ts',
    selectTiles Examples.rootAndChild Examples.inSight Examples.view
      Examples.noSkip Examples.noSkip 2
      (Examples.tileset false 16 10 false false Examples.rootLoaded)
    = Some (Some BaseTraversal, ts')
    /\ _selectedTiles ts' = [0%nat]
    /\ In 1%nat (_requestedTiles ts').
Proof.
  destruct (selectTiles_unloaded_child Examples.rootAndChild Examples.inSight
              Examples.view Examples.noSkip Examples.noSkip 0
              (Examples.tileset false 16 10 false false Examples.rootLoaded)
              (snd (rootVisibility Examples.rootAndChild Examples.inSight
                      Examples.view
                      (resetFrame
                         (Examples.tileset false 16 10 false false
                            Examples.rootLoaded))))
              1%nat)
    as (ts' & E & S & R & _).
  - reflexivity.
  - intros t flags. reflexivity.
  - reflexivity.
  - reflexivity.
  - reflexivity.
  - reflexivity.
  - discriminate.
  - reflexivity.
  - reflexivity.
  - reflexivity.
  - reflexivity.
  - reflexivity.
  - reflexivity.
  - discriminate.
  - discriminate.
  - reflexivity.
  - vm_compute. reflexivity.
  - vm_compute. reflexivity.
  - vm_compute. reflexivity.
  - discriminate.
  - exists ts'. auto.
Defined.

(** ** A REPLACE parent whose children are not all loaded *)

Lemma updateVisibility_contentAvailable tree X fs ts t m x :
  contentAvailable (heap (snd (updateVisibility tree X fs ts t m)) x)
  = contentAvailable (heap ts x).
Proof. apply culled_contentAvailable, updateVisibility_culled. Qed.

Lemma loadAndTouch_contentAvailable tree fs ts t x :
  contentAvailable (heap (loadAndTouch tree fs ts t) x)
  = contentAvailable (heap ts x).
Proof. apply core_contentAvailable, loadAndTouch_core. Qed.

Lemma executeInternalBaseTraversal_contentAvailable
    tree X fs fuel ts root m r ts' x :
  executeInternalBaseTraversal tree X fs fuel ts root m = Some (r, ts') ->
  contentAvailable (heap ts' x) = contentAvailable (heap ts x).
Proof.
  intros H. unfold executeInternalBaseTraversal in H.
  apply (internalBase_loop_inv tree X fs
           (fun s => contentAvailable (heap s x) = contentAvailable (heap ts x)))
    in H; [exact H | | | reflexivity].
  - intros s t m' Hs. rewrite updateVisibility_contentAvailable. exact Hs.
  - intros s t Hs. rewrite loadAndTouch_contentAvailable. exact Hs.
Qed.

(** Once [refines] is false the child loop leaves it false. *)
Lemma base_children_false tree X fs inner m add cs stack ts r stack' ts' :
  base_children tree X fs inner m true add cs false stack ts
    = Some (r, stack', ts') ->
  r = false.
Proof.
  revert stack ts. induction cs as [|c cs IH]; intros stack ts;
    cbn [base_children].
  - intros [= <- _ _]. reflexivity.
  - destruct (updateVisibility tree X fs ts c m) as [v ts1].
    cbn [andb orb]. apply IH.
Qed.

(** A child that has content of its own, not yet available, keeps a
    REPLACE parent from refining. *)
Lemma base_children_blocked tree X fs inner m add cs u :
  In u cs -> isProxy tree u = false ->
  forall refines stack ts r stack' ts',
    contentAvailable (heap ts u) = false ->
    base_children tree X fs inner m true add cs refines stack ts
      = Some (r, stack', ts') ->
    r = false.
Proof.
  intros Hu Hp. induction cs as [|c cs IH]; [destruct Hu|].
  intros refines stack ts r stack' ts' Ha. cbn [base_children].
  pose proof (updateVisibility_contentAvailable tree X fs ts c m u) as A1.
  destruct (updateVisibility tree X fs ts c m) as [v ts1]. cbn [snd] in A1.
  cbn [orb].
  pose proof (loadAndTouch_contentAvailable tree fs ts1 c u) as A2.
  set (ts2 := loadAndTouch tree fs ts1 c) in *.
  assert (Ha2 : contentAvailable (heap ts2 u) = false) by congruence.
  clearbody ts2.
  destruct refines; cbn [andb].
  - fold (isProxy tree c).
    destruct (isProxy tree c) eqn:Ep.
    + destruct (executeInternalBaseTraversal tree X fs inner ts2 c m)
        as [[r1 ts3]|] eqn:Ei; [|discriminate].
      destruct Hu as [-> | Hu]; [rewrite Hp in Ep; discriminate Ep|].
      apply (IH Hu).
      rewrite (executeInternalBaseTraversal_contentAvailable
                 tree X fs inner ts2 c m r1 ts3 u Ei).
      exact Ha2.
    + destruct Hu as [-> | Hu].
      * rewrite Ha2. apply base_children_false.
      * apply (IH Hu). exact Ha2.
  - apply base_children_false.
Qed.

(** The child loop pushes children only. *)
Lemma base_children_stack tree X fs inner m replace add cs :
  forall refines stack ts r stack' ts',
    base_children tree X fs inner m replace add cs refines stack ts
      = Some (r, stack', ts') ->
    forall x, In x stack' -> In x cs \/ In x stack.
Proof.
  induction cs as [|c cs IH]; intros refines stack ts r stack' ts';
    cbn [base_children].
  - intros [= _ <- _] x Hx. right. exact Hx.
  - destruct (updateVisibility tree X fs ts c m) as [v ts1].
    match goal with
    | |- match ?scrut with _ => _ end = _ -> _ =>
        destruct scrut as [[r1 ts3]|]; [|discriminate]
    end.
    intros H x Hx. apply (IH _ _ _ _ _ _ H) in Hx.
    destruct Hx as [Hx | Hx]; [left; right; exact Hx|].
    destruct v; [|right; exact Hx].
    destruct Hx as [<- | Hx]; [left; left; reflexivity | right; exact Hx].
Qed.

Section FellBack.

Variable tree : TileId -> Tile.
Variable X : Externals.
Variable fs : FrameState.
Variables r c1 c2 : TileId.

Hypothesis X_noExpiry : noExpiry X.

Lemma fellBack_visitTile ts t :
  fellBack r c1 c2 ts -> fellBack r c1 c2 (visitTile tree X fs ts t).
Proof.
  intros (R & A & D1 & D2 & S & M). unfold fellBack.
  rewrite visitTile_refines, visitTile_desired, visitTile_selected.
  rewrite (core_contentAvailable _ _ (visitTile_core tree X fs ts t r X_noExpiry)).
  repeat split; try assumption.
  pose proof (visitTile_frameOf tree X fs ts t) as F. unfold frameOf in F.
  congruence.
Qed.

Lemma fellBack_culled ts ts' :
  culled ts ts' -> fellBack r c1 c2 ts -> fellBack r c1 c2 ts'.
Proof.
  intros C (R & A & D1 & D2 & S & M). unfold fellBack.
  rewrite (culled_refines _ _ r C), (culled_contentAvailable _ _ r C),
          (culled_desired _ _ C), (culled_selected _ _ C).
  repeat split; try assumption.
  pose proof (culled_frameOf _ _ C) as F. unfold frameOf in F. congruence.
Qed.

Lemma fellBack_loadAndTouch ts t :
  fellBack r c1 c2 ts -> fellBack r c1 c2 (loadAndTouch tree fs ts t).
Proof.
  intros (R & A & D1 & D2 & S & M). unfold fellBack.
  rewrite loadAndTouch_refines, loadAndTouch_contentAvailable,
          loadAndTouch_desired, loadAndTouch_selected,
          loadAndTouch_hasMixedContent.
  repeat split; assumption.
Qed.

Lemma fellBack_refines ts t v :
  t <> r ->
  fellBack r c1 c2 ts -> fellBack r c1 c2 (assign t (set_refines v) ts).
Proof.
  intros Ht (R & A & D1 & D2 & S & M). unfold fellBack.
  rewrite heap_assign_other by (intros E; apply Ht; symmetry; exact E).
  repeat split; assumption.
Qed.

Lemma fellBack_desired ts t :
  t <> c1 -> t <> c2 ->
  fellBack r c1 c2 ts ->
  fellBack r c1 c2 (set_desiredTiles (push (_desiredTiles ts) t) ts).
Proof.
  intros H1 H2 (R & A & D1 & D2 & S & M). unfold fellBack.
  repeat split; try assumption.
  - intros H. apply in_app_or in H. destruct H as [H | [H | []]];
      [apply D1, H | apply H1; exact H].
  - intros H. apply in_app_or in H. destruct H as [H | [H | []]];
      [apply D2, H | apply H2; exact H].
Qed.

Hypothesis r_rootless : forall t, ~ In r (children (tree t)).
Hypothesis c1_parent : parent (tree c1) = Some r.
Hypothesis c2_parent : parent (tree c2) = Some r.
Hypothesis c1_replace : refine (tree c1) = REPLACE.
Hypothesis c2_replace : refine (tree c2) = REPLACE.

(** After the root fell back the rest of the traversal keeps it among the
    leaves and its children out of them. *)
Lemma base_loop_fellBack inner fuel m :
  forall stack leaves fr ts fr' leaves' ts',
    ~ In r stack -> In r leaves -> ~ In c1 leaves -> ~ In c2 leaves ->
    fellBack r c1 c2 ts ->
    base_loop tree X fs inner fuel m stack leaves fr ts
      = Some (fr', leaves', ts') ->
    In r leaves' /\ ~ In c1 leaves' /\ ~ In c2 leaves'
    /\ fellBack r c1 c2 ts'.
Proof.
  induction fuel as [|fuel IH];
    intros stack leaves fr ts fr' leaves' ts' Hs Hr H1 H2 Hf;
    destruct stack as [|t stack].
  - cbn. intros [= _ <- <-]. auto.
  - discriminate.
  - cbn. intros [= _ <- <-]. auto.
  - rewrite base_loop_cons. cbv zeta.
    assert (Ht : t <> r) by (intros E; apply Hs; left; exact E).
    assert (Hs' : ~ In r stack) by (intros E; apply Hs; right; exact E).
    pose proof (fellBack_visitTile ts t Hf) as Hv.
    set (tsv := visitTile tree X fs ts t) in *. clearbody tsv.
    set (traverse := negb (Nat.eqb (length (children (tree t))) 0)
                     && Qgtb (_screenSpaceError (heap tsv t)) m).
    set (parentRefines := match parent (tree t) with
                          | Some p => _refines (heap tsv p)
                          | None => true
                          end).
    destruct (if traverse
              then base_children tree X fs inner m
                     (refine_eqb (refine (tree t)) REPLACE)
                     (refine_eqb (refine (tree t)) ADD)
                     (children (tree t)) (traverse && parentRefines) stack tsv
              else Some (traverse && parentRefines, stack, tsv))
      as [[[r1 stack1] ts1]|] eqn:E; [|discriminate].
    assert (Hf1 : fellBack r c1 c2 ts1 /\ ~ In r stack1).
    { destruct traverse.
      - split.
        + apply (base_children_inv tree X fs (fellBack r c1 c2)) in E;
            [exact E | | | exact Hv].
          * intros s x m' Hx.
            exact (fellBack_culled _ _ (updateVisibility_culled tree X fs s x m') Hx).
          * intros s x Hx. apply fellBack_loadAndTouch, Hx.
        + intros Hin. apply (base_children_stack _ _ _ _ _ _ _ _ _ _ _ _ _ _ E) in Hin.
          destruct Hin as [Hin | Hin]; [exact (r_rootless t Hin) | exact (Hs' Hin)].
      - injection E as _ <- <-. auto. }
    destruct Hf1 as [Hf1 Hs1].
    pose proof (fellBack_refines ts1 t r1 Ht Hf1) as Hf2.
    set (ts2 := assign t (set_refines r1) ts1) in *. clearbody ts2.
    (* the children of the root are not leaves *)
    assert (Hleaf : forall c, parent (tree c) = Some r ->
              c = t ->
              negb r1 && parentRefines
              && (refine_eqb (refine (tree t)) REPLACE
                  && contentAvailable (heap tsv t)) = false).
    { intros c Hc ->. subst parentRefines. rewrite Hc.
      destruct Hv as (R & _). rewrite R, andb_false_r. reflexivity. }
    destruct (negb r1 && parentRefines
              && (refine_eqb (refine (tree t)) REPLACE
                  && contentAvailable (heap tsv t))) eqn:El.
    + (* [t] becomes a leaf *)
      assert (N1 : t <> c1)
        by (intros <-; specialize (Hleaf t c1_parent eq_refl); discriminate).
      assert (N2 : t <> c2)
        by (intros <-; specialize (Hleaf t c2_parent eq_refl); discriminate).
      assert (G : forall ts3, fellBack r c1 c2 ts3 ->
                base_loop tree X fs inner fuel m stack1 (push leaves t)
                  (fr && negb traverse) ts3 = Some (fr', leaves', ts') ->
                In r leaves' /\ ~ In c1 leaves' /\ ~ In c2 leaves'
                /\ fellBack r c1 c2 ts').
      { intros ts3 H3. apply IH; try assumption.
        - apply in_or_app. left. exact Hr.
        - intros H. apply in_app_or in H. destruct H as [H | [H | []]];
            [exact (H1 H) | exact (N1 H)].
        - intros H. apply in_app_or in H. destruct H as [H | [H | []]];
            [exact (H2 H) | exact (N2 H)]. }
      destruct (refine_eqb (refine (tree t)) ADD && contentAvailable (heap ts2 t)).
      * apply G. apply fellBack_desired; assumption.
      * apply G. exact Hf2.
    + assert (G : forall ts3, fellBack r c1 c2 ts3 ->
                base_loop tree X fs inner fuel m stack1 leaves fr ts3
                  = Some (fr', leaves', ts') ->
                In r leaves' /\ ~ In c1 leaves' /\ ~ In c2 leaves'
                /\ fellBack r c1 c2 ts').
      { intros ts3 H3. apply IH; assumption. }
      destruct (refine_eqb (refine (tree t)) ADD) eqn:Ea; cbn [andb].
      * assert (N1 : t <> c1)
          by (intros ->; rewrite c1_replace in Ea; discriminate Ea).
        assert (N2 : t <> c2)
          by (intros ->; rewrite c2_replace in Ea; discriminate Ea).
        destruct (contentAvailable (heap ts2 t)).
        -- apply G. apply fellBack_desired; assumption.
        -- apply G. exact Hf2.
      * apply G. exact Hf2.
Qed.

End FellBack.

Lemma base_loop_O_cons tree X fs inner m t stack leaves fr ts :
  base_loop tree X fs inner 0 m (t :: stack) leaves fr ts = None.
Proof. reflexivity. Qed.

Lemma visitTile_hasMixedContent tree X fs ts t :
  _hasMixedContent (visitTile tree X fs ts t) = _hasMixedContent ts.
Proof.
  pose proof (visitTile_frameOf tree X fs ts t) as F. unfold frameOf in F.
  congruence.
Qed.

Lemma culled_hasMixedContent ts ts' :
  culled ts ts' -> _hasMixedContent ts' = _hasMixedContent ts.
Proof. intros [F _]. unfold frameOf in F. congruence. Qed.

(** A REPLACE root above its budget, with content available and two
    REPLACE children of which one has content of its own that is not
    available, is selected in place of its children: on a well-founded
    tree, with the root found visible and past the guards, the call
    returns with the root in [_selectedTiles], neither child in it, and
    [_hasMixedContent] false. *)
Theorem selectTiles_root_falls_back
    (tree : TileId -> Tile) (X : Externals) (fs : FrameState)
    (skipT hybridT : Tileset -> TileId -> option Tileset)
    (rank : TileId -> nat) (fuel : nat) (ts ts1 : Tileset)
    (c1 c2 u : TileId) :
  ranked tree rank ->
  (subtree tree rank (_root ts) <= fuel)%nat ->
  debugFreezeFrame ts = false ->
  noExpiry X ->
  parent (tree (_root ts)) = None ->
  (forall t, ~ In (_root ts) (children (tree t))) ->
  children (tree (_root ts)) = [c1; c2] ->
  refine (tree (_root ts)) = REPLACE ->
  refine (tree c1) = REPLACE -> refine (tree c2) = REPLACE ->
  parent (tree c1) = Some (_root ts) -> parent (tree c2) = Some (_root ts) ->
  contentAvailable (heap ts (_root ts)) = true ->
  u = c1 \/ u = c2 ->
  isProxy tree u = false ->
  contentAvailable (heap ts u) = false ->
  rootVisibility tree X fs (resetFrame ts) = (true, ts1) ->
  Qgtb (_screenSpaceError (heap ts1 (_root ts))) (_maximumScreenSpaceError ts)
    = true ->
  Qle_bool (getScreenSpaceError X fs ts1 (_geometricError ts) (_root ts))
    (_maximumScreenSpaceError ts) = false ->
  contentVisibility X (_root ts) <> OUTSIDE ->
  exists ts',
    selectTiles tree X fs skipT hybridT fuel ts = Some (Some BaseTraversal, ts')
    /\ In (_root ts) (_selectedTiles ts')
    /\ ~ In c1 (_selectedTiles ts') /\ ~ In c2 (_selectedTiles ts')
    /\ _hasMixedContent ts' = false.
Proof.
  intros Hrank Hfuel F HX Hparent Hrootless Hkids Hrefine Hr1 Hr2 Hp1 Hp2 Ar
    Hu Hproxy Au V Hsse G Hcv.
  set (root := _root ts) in *.
  set (m := _maximumScreenSpaceError ts) in *.
  pose proof (rootVisibility_culled tree X fs (resetFrame ts)) as C.
  rewrite V in C. cbn [snd] in C.
  pose proof (culled_configOf _ _ C) as Cf.
  change (configOf (resetFrame ts)) with (configOf ts) in Cf.
  rewrite <- (configOf_geometricError _ _ Cf) in G.
  destruct (selectTiles_total tree rank Hrank X fs skipT hybridT fuel ts Hfuel)
    as (d & ts' & E).
  pose proof E as E'.
  rewrite (selectTiles_base _ _ _ _ _ _ _ _ F V G) in E'. fold root in E'.
  set (ts2 := set_skipLevelOfDetail false (loadAndTouch tree fs ts1 root)) in E'.
  assert (H2 : forall x, heap ts2 x = heap (loadAndTouch tree fs ts1 root) x)
    by reflexivity.
  assert (K2 : forall x, core (heap ts2 x) = core (heap ts1 x))
    by (intros x; rewrite H2; apply loadAndTouch_core).
  assert (A1 : forall x, contentAvailable (heap ts1 x) = contentAvailable (heap ts x))
    by (intros x; apply (culled_contentAvailable _ _ x C)).
  assert (M2 : _maximumScreenSpaceError ts2 = m).
  { apply configOf_maximumScreenSpaceError.
    change (configOf ts2) with (configOf (loadAndTouch tree fs ts1 root)).
    rewrite loadAndTouch_configOf. exact Cf. }
  assert (D2 : _desiredTiles ts2 = []).
  { change (_desiredTiles ts2)
      with (_desiredTiles (loadAndTouch tree fs ts1 root)).
    rewrite loadAndTouch_desired. apply (culled_desired _ _ C). }
  assert (L2 : _selectedTiles ts2 = []).
  { change (_selectedTiles ts2)
      with (_selectedTiles (loadAndTouch tree fs ts1 root)).
    rewrite loadAndTouch_selected. apply (culled_selected _ _ C). }
  assert (X2 : _hasMixedContent ts2 = false).
  { change (_hasMixedContent ts2)
      with (_hasMixedContent (loadAndTouch tree fs ts1 root)).
    rewrite loadAndTouch_hasMixedContent. apply (culled_hasMixedContent _ _ C). }
  clearbody ts2. clear H2.
  destruct (selectBaseTraversal tree X fs fuel ts2 root) as [ts''|] eqn:Eb;
    [|discriminate E'].
  cbn [option_map] in E'. injection E' as <- <-.
  exists ts''. split; [exact E|].
  destruct (selectBaseTraversal_result _ _ _ _ _ _ _ Eb)
    as (fr & leaves & tsB & Ex & Sel & _ & _ & _ & Mix).
  unfold executeBaseTraversal in Ex. rewrite M2 in Ex.
  destruct fuel as [|f]; [rewrite base_loop_O_cons in Ex; discriminate Ex|].
  rewrite base_loop_cons in Ex. cbv zeta in Ex.
  set (ts3 := visitTile tree X fs ts2 root) in Ex.
  assert (K3 : forall x, core (heap ts3 x) = core (heap ts1 x))
    by (intros x; subst ts3; rewrite (visitTile_core tree X fs ts2 root x HX);
        apply K2).
  assert (D3 : _desiredTiles ts3 = [])
    by (subst ts3; rewrite visitTile_desired; exact D2).
  assert (L3 : _selectedTiles ts3 = [])
    by (subst ts3; rewrite visitTile_selected; exact L2).
  assert (X3 : _hasMixedContent ts3 = false)
    by (subst ts3; rewrite visitTile_hasMixedContent; exact X2).
  clearbody ts3.
  rewrite Hkids, Hparent, Hrefine in Ex.
  rewrite (core_screenSpaceError _ _ (K3 root)), Hsse in Ex.
  rewrite (core_contentAvailable _ _ (K3 root)), A1, Ar in Ex.
  cbn [length Nat.eqb negb refine_eqb andb] in Ex.
  destruct (base_children tree X fs (S f) m true false [c1; c2] true [] ts3)
    as [[[r1 stack1] ts4]|] eqn:Ec; [|discriminate Ex].
  assert (R1 : r1 = false).
  { apply (base_children_blocked tree X fs (S f) m false [c1; c2] u) in Ec;
      [exact Ec | | exact Hproxy |].
    - destruct Hu as [-> | ->]; [left | right; left]; reflexivity.
    - rewrite (core_contentAvailable _ _ (K3 u)), A1. exact Au. }
  subst r1. cbn [negb andb] in Ex.
  assert (N1 : c1 <> root).
  { intros E1. apply (Hrootless root). rewrite Hkids, <- E1. left. reflexivity. }
  assert (N2 : c2 <> root).
  { intros E2. apply (Hrootless root). rewrite Hkids, <- E2.
    right. left. reflexivity. }
  assert (P4 : contentAvailable (heap ts4 root) = true
               /\ _desiredTiles ts4 = [] /\ _selectedTiles ts4 = []
               /\ _hasMixedContent ts4 = false).
  { apply (base_children_inv tree X fs
             (fun s => contentAvailable (heap s root) = true
                       /\ _desiredTiles s = [] /\ _selectedTiles s = []
                       /\ _hasMixedContent s = false)) in Ec; [exact Ec | | |].
    - intros s t m' (Ha & Hd & Hs & Hm).
      pose proof (updateVisibility_culled tree X fs s t m') as Cs.
      rewrite (culled_contentAvailable _ _ root Cs), (culled_desired _ _ Cs),
              (culled_selected _ _ Cs), (culled_hasMixedContent _ _ Cs).
      auto.
    - intros s t (Ha & Hd & Hs & Hm).
      rewrite loadAndTouch_contentAvailable, loadAndTouch_desired,
              loadAndTouch_selected, loadAndTouch_hasMixedContent.
      auto.
    - rewrite (core_contentAvailable _ _ (K3 root)), A1. auto. }
  destruct P4 as (A4 & D4 & L4 & X4).
  apply (base_loop_fellBack tree X fs root c1 c2 HX Hrootless Hp1 Hp2 Hr1 Hr2)
    in Ex.
  - destruct Ex as (Lr & Lc1 & Lc2 & (_ & AB & DB1 & DB2 & LB & XB)).
    rewrite Sel, LB. cbn [app]. repeat split.
    + apply in_or_app. left. apply filter_In. split; [exact Lr|].
      unfold selectable. rewrite AB, (intersect_neq_eqb _ _ Hcv), orb_true_r.
      reflexivity.
    + intros H. apply in_app_or in H.
      destruct H as [H | H]; apply filter_In in H; destruct H as [H _];
        [exact (Lc1 H) | exact (DB1 H)].
    + intros H. apply in_app_or in H.
      destruct H as [H | H]; apply filter_In in H; destruct H as [H _];
        [exact (Lc2 H) | exact (DB2 H)].
    + rewrite Mix. exact XB.
  - intros H. apply (base_children_stack _ _ _ _ _ _ _ _ _ _ _ _ _ _ Ec) in H.
    destruct H as [H | []]. apply (Hrootless root). rewrite Hkids. exact H.
  - left. reflexivity.
  - intros [H | []]. apply N1. symmetry. exact H.
  - intros [H | []]. apply N2. symmetry. exact H.
  - unfold fellBack. rewrite heap_assign_same.
    change (_desiredTiles (assign root (set_refines false) ts4))
      with (_desiredTiles ts4).
    change (_selectedTiles (assign root (set_refines false) ts4))
      with (_selectedTiles ts4).
    change (_hasMixedContent (assign root (set_refines false) ts4))
      with (_hasMixedContent ts4).
    rewrite D4, L4, X4.
    repeat split; try reflexivity; try (intros []).
    exact A4.
Qed.

Lemma selectTiles_root_falls_back_witness :
  exists ts',
    selectTiles Examples.twoChildren Examples.inSight Examples.view
      Examples.noSkip Examples.noSkip 3
      (Examples.tileset false 16 10 false false Examples.secondUnloaded)
    = Some (Some BaseTraversal, ts')
    /\ In 0%nat (_selectedTiles ts')
    /\ ~ In 1%nat (_selectedTiles ts') /\ ~ In 2%nat (_selectedTiles ts')
    /\ _hasMixedContent ts' = false.
Proof.
  apply (selectTiles_root_falls_back Examples.twoChildren Examples.inSight
           Examples.view Examples.noSkip Examples.noSkip Examples.rootOnTop 3
           (Examples.tileset false 16 10 false false Examples.secondUnloaded)
           (snd (rootVisibility Examples.twoChildren Examples.inSight
                   Examples.view
                   (resetFrame
                      (Examples.tileset false 16 10 false false
                         Examples.secondUnloaded))))
           1%nat 2%nat 2%nat).
  - intros [|t] c; cbn; [|intros []].
    intros [<- | [<- | []]]; cbn; lia.
  - vm_compute. lia.
  - reflexivity.
  - intros t flags. reflexivity.
  - reflexivity.
  - intros [|t]; cbn; [|intros []].
    intros [H | [H | []]]; discriminate H.
  - reflexivity.
  - reflexivity.
  - reflexivity.
  - reflexivity.
  - reflexivity.
  - reflexivity.
  - reflexivity.
  - right. reflexivity.
  - reflexivity.
  - reflexivity.
  - vm_compute. reflexivity.
  - vm_compute. reflexivity.
  - vm_compute. reflexivity.
  - discriminate.
Defined.

(** ** The error metric at every distance *)

(** [a / (D * s)] does not grow with [D], for [a] not negative and
    positive [D] and [s]. *)
Lemma Qdiv_le_denominator (a s D1 D2 : Q) :
  0 <= a -> 0 < s -> 0 < D1 -> D1 <= D2 -> a / (D2 * s) <= a / (D1 * s).
Proof.
  intros Ha Hs H1 H12.
  assert (H2 : 0 < D2) by (eapply Qlt_le_trans; eassumption).
  assert (P1 : 0 < D1 * s) by (apply Qmult_lt_0_compat; assumption).
  assert (P2 : 0 < D2 * s) by (apply Qmult_lt_0_compat; assumption).
  apply Qle_shift_div_r; [exact P2|].
  assert (Q0 : 0 <= a / (D1 * s)).
  { apply Qle_shift_div_l; [exact P1|]. rewrite Qmult_0_l. exact Ha. }
  apply Qle_trans with ((D1 * s) * (a / (D1 * s))).
  - rewrite Qmult_div_r; [apply Qle_refl|].
    intros Z. rewrite Z in P1. discriminate P1.
  - rewrite (Qmult_comm (a / (D1 * s)) (D2 * s)).
    apply Qmult_le_compat_r; [|exact Q0].
    apply Qmult_le_compat_r; [exact H12 | apply Qlt_le_weak; exact Hs].
Qed.

(** In the perspective branch the screen-space error never grows with the
    distance to the camera, at any distance and for any geometric error
    that is not negative: the floor [EPSILON7] and the shortcut for a
    geometric error of 0 only make it constant. *)
Theorem getScreenSpaceError_antitone
    (X : Externals) (fs : FrameState) (ts : Tileset) (g : Q)
    (t1 t2 : TileId) :
  mode fs <> SCENE2D ->
  isOrthographicFrustum (frustum fs) = false ->
  0 <= g -> 0 <= drawingBufferHeight fs -> 0 < sseDenominator (frustum fs) ->
  (dynamicScreenSpaceError ts = true ->
     0 <= dynamicScreenSpaceErrorFactor ts /\
     forall a b, a <= b ->
       fog X a (_dynamicScreenSpaceErrorComputedDensity ts)
       <= fog X b (_dynamicScreenSpaceErrorComputedDensity ts)) ->
  _distanceToCamera (heap ts t1) <= _distanceToCamera (heap ts t2) ->
  getScreenSpaceError X fs ts g t2 <= getScreenSpaceError X fs ts g t1.
Proof.
  intros Hmode Hortho Hg Hh Hs Hfog H12.
  unfold getScreenSpaceError.
  destruct (Qeq_bool g 0); [apply Qle_refl|].
  rewrite Hortho.
  assert (Em : mode_eqb (mode fs) SCENE2D = false)
    by (destruct (mode fs); try reflexivity; contradiction Hmode; reflexivity).
  rewrite Em. cbn [orb].
  set (D1 := Qmax (_distanceToCamera (heap ts t1)) EPSILON7).
  set (D2 := Qmax (_distanceToCamera (heap ts t2)) EPSILON7).
  assert (HD1 : 0 < D1) by apply Qmax_EPSILON7_pos.
  assert (HD : D1 <= D2) by (apply Qmax_EPSILON7_le; assumption).
  assert (Herr : g * drawingBufferHeight fs / (D2 * sseDenominator (frustum fs))
                 <= g * drawingBufferHeight fs / (D1 * sseDenominator (frustum fs))).
  { apply Qdiv_le_denominator; try assumption.
    apply Qmult_le_0_compat; assumption. }
  destruct (dynamicScreenSpaceError ts) eqn:Edyn; [|exact Herr].
  destruct (Hfog eq_refl) as [Hfac Hmono].
  assert (Hf : fog X D1 (_dynamicScreenSpaceErrorComputedDensity ts)
                 * dynamicScreenSpaceErrorFactor ts
               <= fog X D2 (_dynamicScreenSpaceErrorComputedDensity ts)
                 * dynamicScreenSpaceErrorFactor ts).
  { apply Qmult_le_compat_r; [|exact Hfac]. apply Hmono. exact HD. }
  lra.
Qed.

(** Tiles 0 and 1, both below the floor. *)
Lemma getScreenSpaceError_antitone_witness :
  getScreenSpaceError Examples.inSight Examples.view
    (Examples.tileset false 16 10 false false Examples.atDistances) 10 1%nat
  <= getScreenSpaceError Examples.inSight Examples.view
       (Examples.tileset false 16 10 false false Examples.atDistances) 10 0%nat.
Proof.
  apply getScreenSpaceError_antitone.
  - discriminate.
  - reflexivity.
  - discriminate.
  - discriminate.
  - reflexivity.
  - discriminate.
  - discriminate.
Defined.

(** ** Calls that return *)

(** On a tree whose tiles are ranked below their parents the call returns
    once the fuel covers the weight of the root: the loops of the base
    traversal and of the internal traversals it starts all come to an
    end. *)
Theorem selectTiles_terminates
    (tree : TileId -> Tile) (X : Externals) (fs : FrameState)
    (skipT hybridT : Tileset -> TileId -> option Tileset)
    (rank : TileId -> nat) (fuel : nat) (ts : Tileset) :
  ranked tree rank ->
  (subtree tree rank (_root ts) <= fuel)%nat ->
  exists d ts', selectTiles tree X fs skipT hybridT fuel ts = Some (d, ts').
Proof.
  intros R F.
  exact (selectTiles_total tree rank R X fs skipT hybridT fuel ts F).
Qed.

Lemma selectTiles_terminates_witness :
  exists d ts',
    selectTiles Examples.twoChildren Examples.inSight Examples.view
      Examples.noSkip Examples.noSkip 3
      (Examples.tileset false 16 10 false false Examples.secondUnloaded)
    = Some (d, ts').
Proof.
  apply (selectTiles_terminates Examples.twoChildren Examples.inSight
           Examples.view Examples.noSkip Examples.noSkip Examples.rootOnTop).
  - intros [|t] c; cbn; [|intros []].
    intros [<- | [<- | []]]; cbn; lia.
  - vm_compute. lia.
Defined.

(** A call that is not frozen and hands the tileset to no traversal (the
    root is culled, or the error of the tileset is within the budget)
    leaves the four lists empty and [_hasMixedContent] false, has told the
    cache of the reset and of nothing else, and has stamped, visited and
    selected no tile. *)
Theorem selectTiles_undispatched
    (tree : TileId -> Tile) (X : Externals) (fs : FrameState)
    (skipT hybridT : Tileset -> TileId -> option Tileset)
    (fuel : nat) (ts ts' : Tileset) :
  debugFreezeFrame ts = false ->
  selectTiles tree X fs skipT hybridT fuel ts = Some (None, ts') ->
  _selectedTiles ts' = [] /\ _requestedTiles ts' = []
  /\ _desiredTiles ts' = [] /\ _selectedTilesToStyle ts' = []
  /\ _hasMixedContent ts' = false
  /\ _cache ts' = _cache ts ++ [CacheReset]
  /\ forall t, persistent (heap ts' t) = persistent (heap ts t).
Proof.
  intros F H. apply selectTiles_cases in H.
  destruct H as [(F' & _) | [(_ & _ & [Fr Pe]) | (_ & D & _)]].
  - rewrite F in F'. discriminate F'.
  - unfold frameOf in Fr. injection Fr as _ _ _ _ _ _ _ _ _ _ _ _ _ D S R T M C.
    rewrite D, S, R, T, M, C. repeat split; try reflexivity.
    intros t. rewrite Pe. reflexivity.
  - discriminate D.
Qed.

Lemma selectTiles_undispatched_witness :
  exists ts',
    selectTiles Examples.flatTree Examples.inSight Examples.view
      Examples.noSkip Examples.noSkip 5
      (Examples.tileset false 16 0 false false (fun _ => Examples.loaded))
    = Some (None, ts')
    /\ _selectedTiles ts' = [] /\ _requestedTiles ts' = [].
Proof.
  eexists.
  match goal with
  | |- ?e = Some (None, ?x) /\ _ =>
      assert (E : e = Some (None, x)) by (vm_compute; reflexivity)
  end.
  split; [exact E|].
  destruct (selectTiles_undispatched Examples.flatTree Examples.inSight
              Examples.view Examples.noSkip Examples.noSkip 5
              (Examples.tileset false 16 0 false false
                 (fun _ => Examples.loaded)) _ eq_refl E)
    as (S & R & _).
  split; assumption.
Defined.

(** ** Invariants of a call

    A property of the tileset that the visibility pass, the operations of
    the base traversal and [selectTile] keep holds after a call that is
    not frozen, if it holds once the frame is opened. *)

Section SelectTilesInvariant.

Variable tree : TileId -> Tile.
Variable X : Externals.
Variable fs : FrameState.
Variable P : Tileset -> Prop.

Hypothesis P_culled : forall ts ts', culled ts ts' -> P ts -> P ts'.
Hypothesis P_visitTile : forall ts t, P ts -> P (visitTile tree X fs ts t).
Hypothesis P_loadAndTouch : forall ts t, P ts -> P (loadAndTouch tree fs ts t).
Hypothesis P_refines :
  forall ts t v, P ts -> P (assign t (set_refines v) ts).
Hypothesis P_desired :
  forall ts t, P ts -> P (set_desiredTiles (push (_desiredTiles ts) t) ts).
Hypothesis P_selectTile : forall ts t, P ts -> P (selectTile X fs ts t).
Hypothesis P_dispatch : forall ts, P ts -> P (set_skipLevelOfDetail false ts).

Lemma selectTiles_inv skipT hybridT fuel ts d ts' :
  debugFreezeFrame ts = false ->
  selectTiles tree X fs skipT hybridT fuel ts = Some (d, ts') ->
  P (resetFrame ts) -> P ts'.
Proof.
  intros F H H0. apply selectTiles_cases in H.
  destruct H as [(F' & _) | [(_ & _ & C) | (_ & _ & ts1 & C & H)]].
  - rewrite F in F'. discriminate F'.
  - exact (P_culled _ _ C H0).
  - apply (selectBaseTraversal_inv tree X fs P) in H; try assumption.
    + intros s t m Hs.
      exact (P_culled _ _ (updateVisibility_culled tree X fs s t m) Hs).
    + apply P_dispatch, P_loadAndTouch, (P_culled _ _ C H0).
Qed.

End SelectTilesInvariant.

Lemma selectTiles_frozen tree X fs skipT hybridT fuel ts d ts' :
  debugFreezeFrame ts = true ->
  selectTiles tree X fs skipT hybridT fuel ts = Some (d, ts') -> ts' = ts.
Proof.
  intros F H. apply selectTiles_cases in H.
  destruct H as [(_ & _ & E) | [(F' & _) | (F' & _)]];
    [exact E | rewrite F in F'; discriminate F' ..].
Qed.

(** ** Frame stamps *)

Lemma stampedWithin_refl n s : stampedWithin n s s.
Proof. repeat split; left; reflexivity. Qed.

Lemma stampedWithin_trans n a b c :
  stampedWithin n a b -> stampedWithin n b c -> stampedWithin n a c.
Proof.
  intros (A1 & A2 & A3) (B1 & B2 & B3). repeat split.
  - destruct B1 as [B | B]; [rewrite B; exact A1 | right; exact B].
  - destruct B2 as [B | B]; [rewrite B; exact A2 | right; exact B].
  - destruct B3 as [B | B]; [rewrite B; exact A3 | right; exact B].
Qed.

Lemma culled_stamps n ts ts' x :
  culled ts ts' -> stampedWithin n (heap ts x) (heap ts' x).
Proof.
  intros [_ Pe]. specialize (Pe x). unfold persistent in Pe.
  injection Pe as _ _ _ _ _ T V _ L _ _ _ _ _.
  repeat split; left; assumption.
Qed.

Lemma visitTile_stamps tree X fs ts t x :
  stampedWithin (frameNumber fs) (heap ts x) (heap (visitTile tree X fs ts t) x).
Proof.
  rewrite visitTile_heap.
  destruct (Nat.eqb x t) eqn:E; [|apply stampedWithin_refl].
  apply Nat.eqb_eq in E. subst x.
  destruct (Z.eqb _ _); [apply stampedWithin_refl|]. cbn zeta.
  destruct (updateExpiration X t _) as [[a u] e].
  destruct (parent (tree t)); repeat split; cbn; auto.
Qed.

Lemma loadAndTouch_stamps tree fs ts t x :
  stampedWithin (frameNumber fs) (heap ts x) (heap (loadAndTouch tree fs ts t) x).
Proof.
  rewrite loadAndTouch_heap.
  destruct (Nat.eqb x t) eqn:E; [|apply stampedWithin_refl].
  apply Nat.eqb_eq in E. subst x.
  destruct (Z.eqb _ _); [repeat split; cbn; auto|].
  destruct (_ || _); repeat split; cbn; auto.
Qed.

Lemma selectTile_stamps X fs ts t x :
  stampedWithin (frameNumber fs) (heap ts x) (heap (selectTile X fs ts t) x).
Proof.
  rewrite selectTile_heap.
  destruct (Nat.eqb x t) eqn:E; [|apply stampedWithin_refl].
  apply Nat.eqb_eq in E. subst x.
  destruct (contentAvailable (heap ts t) && _); [|apply stampedWithin_refl].
  destruct (featurePropertiesDirty _); repeat split; cbn; auto.
Qed.

(** Whatever a call writes to the stamps [_touchedFrame], [_visitedFrame]
    and [_lastSelectedFrameNumber] of a tile is the number of the frame. *)
Theorem selectTiles_stamps
    (tree : TileId -> Tile) (X : Externals) (fs : FrameState)
    (skipT hybridT : Tileset -> TileId -> option Tileset)
    (fuel : nat) (ts ts' : Tileset) (d : option Strategy) :
  selectTiles tree X fs skipT hybridT fuel ts = Some (d, ts') ->
  forall t, stampedWithin (frameNumber fs) (heap ts t) (heap ts' t).
Proof.
  intros H. destruct (debugFreezeFrame ts) eqn:F.
  - rewrite (selectTiles_frozen _ _ _ _ _ _ _ _ _ F H).
    intros t. apply stampedWithin_refl.
  - set (P := fun s => forall t,
                stampedWithin (frameNumber fs) (heap ts t) (heap s t)).
    change (P ts').
    apply (selectTiles_inv tree X fs P) with (skipT := skipT)
      (hybridT := hybridT) (fuel := fuel) (ts := ts) (d := d);
      subst P; cbv beta; [| | | | | | | exact F | exact H |].
    + intros s s' C Hs t.
      exact (stampedWithin_trans _ _ _ _ (Hs t) (culled_stamps _ _ _ t C)).
    + intros s x Hs t.
      exact (stampedWithin_trans _ _ _ _ (Hs t) (visitTile_stamps tree X fs s x t)).
    + intros s x Hs t.
      exact (stampedWithin_trans _ _ _ _ (Hs t) (loadAndTouch_stamps tree fs s x t)).
    + intros s x v Hs t. rewrite heap_assign.
      destruct (Nat.eqb t x) eqn:E; [|apply Hs].
      apply Nat.eqb_eq in E. subst x. exact (Hs t).
    + intros s x Hs. exact Hs.
    + intros s x Hs t.
      exact (stampedWithin_trans _ _ _ _ (Hs t) (selectTile_stamps X fs s x t)).
    + intros s Hs. exact Hs.
    + intros t. apply stampedWithin_refl.
Qed.

Lemma selectTiles_stamps_witness :
  exists ts',
    selectTiles Examples.rootAndChild Examples.inSight Examples.view
      Examples.noSkip Examples.noSkip 5
      (Examples.tileset false 16 10 false false Examples.rootLoaded)
    = Some (Some BaseTraversal, ts')
    /\ stampedWithin 1 (Examples.rootLoaded 0%nat) (heap ts' 0%nat).
Proof.
  eexists.
  match goal with
  | |- ?e = Some (?d, ?x) /\ _ =>
      assert (E : e = Some (d, x)) by (vm_compute; reflexivity)
  end.
  split; [exact E|].
  exact (selectTiles_stamps Examples.rootAndChild Examples.inSight
           Examples.view Examples.noSkip Examples.noSkip 5
           (Examples.tileset false 16 10 false false Examples.rootLoaded)
           _ _ E 0%nat).
Defined.

(** ** Content flags *)

Lemma flagsWithin_step X n ts s s' t :
  flagsWithin X n ts s t ->
  contentFlags (heap s' t) = contentFlags (heap s t) ->
  _visitedFrame (heap s' t) = _visitedFrame (heap s t) ->
  flagsWithin X n ts s' t.
Proof.
  unfold flagsWithin. intros H -> ->. exact H.
Qed.

Lemma core_contentFlags s s' : core s = core s' -> contentFlags s = contentFlags s'.
Proof.
  unfold core, contentFlags. intros [= -> -> -> _ _ _ _]. reflexivity.
Qed.

Lemma culled_contentFlags ts ts' t :
  culled ts ts' -> contentFlags (heap ts' t) = contentFlags (heap ts t).
Proof.
  intros [_ Pe]. specialize (Pe t). unfold persistent in Pe.
  unfold contentFlags. injection Pe as -> -> -> _ _ _ _ _ _ _ _ _ _ _.
  reflexivity.
Qed.

Lemma flagsWithin_visitTile tree X fs ts s t x :
  flagsWithin X (frameNumber fs) ts s x ->
  flagsWithin X (frameNumber fs) ts (visitTile tree X fs s t) x.
Proof.
  intros H. unfold flagsWithin. rewrite visitTile_heap.
  destruct (Nat.eqb x t) eqn:E; [|exact H].
  apply Nat.eqb_eq in E. subst x.
  destruct (Z.eqb (_visitedFrame (heap s t)) (frameNumber fs)) eqn:V;
    [exact H|].
  destruct H as [H | [_ H]];
    [|rewrite H, Z.eqb_refl in V; discriminate V].
  right. cbn zeta.
  change (contentAvailable (heap s t), contentUnloaded (heap s t),
          contentExpired (heap s t)) with (contentFlags (heap s t)).
  rewrite H.
  destruct (updateExpiration X t (contentFlags (heap ts t))) as [[a u] e].
  destruct (parent (tree t)); split; reflexivity.
Qed.

(** A call neither loads nor unloads content: the content flags of a tile
    are after the call what they were before, or what the one
    [updateExpiration] of its visit in this frame made of them. *)
Theorem selectTiles_contentFlags
    (tree : TileId -> Tile) (X : Externals) (fs : FrameState)
    (skipT hybridT : Tileset -> TileId -> option Tileset)
    (fuel : nat) (ts ts' : Tileset) (d : option Strategy) :
  selectTiles tree X fs skipT hybridT fuel ts = Some (d, ts') ->
  forall t, flagsWithin X (frameNumber fs) ts ts' t.
Proof.
  intros H. destruct (debugFreezeFrame ts) eqn:F.
  - rewrite (selectTiles_frozen _ _ _ _ _ _ _ _ _ F H).
    intros t. left. reflexivity.
  - set (P := fun s => forall t, flagsWithin X (frameNumber fs) ts s t).
    change (P ts').
    apply (selectTiles_inv tree X fs P) with (skipT := skipT)
      (hybridT := hybridT) (fuel := fuel) (ts := ts) (d := d);
      subst P; cbv beta; [| | | | | | | exact F | exact H |].
    + intros s s' C Hs t. apply (flagsWithin_step _ _ _ s); [apply Hs | |].
      * apply culled_contentFlags, C.
      * apply culled_visited, C.
    + intros s x Hs t. apply flagsWithin_visitTile, Hs.
    + intros s x Hs t. apply (flagsWithin_step _ _ _ s); [apply Hs | |].
      * apply core_contentFlags, loadAndTouch_core.
      * apply loadAndTouch_visited.
    + intros s x v Hs t. apply (flagsWithin_step _ _ _ s); [apply Hs | |];
        rewrite heap_assign; destruct (Nat.eqb t x) eqn:E; try reflexivity;
        apply Nat.eqb_eq in E; subst x; reflexivity.
    + intros s x Hs. exact Hs.
    + intros s x Hs t. apply (flagsWithin_step _ _ _ s); [apply Hs | |].
      * apply core_contentFlags, selectTile_core.
      * apply selectTile_visited.
    + intros s Hs. exact Hs.
    + intros t. left. reflexivity.
Qed.

Lemma selectTiles_contentFlags_witness :
  exists ts',
    selectTiles Examples.rootAndChild Examples.inSight Examples.view
      Examples.noSkip Examples.noSkip 5
      (Examples.tileset false 16 10 false false Examples.rootLoaded)
    = Some (Some BaseTraversal, ts')
    /\ flagsWithin Examples.inSight 1
         (Examples.tileset false 16 10 false false Examples.rootLoaded)
         ts' 1%nat.
Proof.
  eexists.
  match goal with
  | |- ?e = Some (?d, ?x) /\ _ =>
      assert (E : e = Some (d, x)) by (vm_compute; reflexivity)
  end.
  split; [exact E|].
  exact (selectTiles_contentFlags Examples.rootAndChild Examples.inSight
           Examples.view Examples.noSkip Examples.noSkip 5
           (Examples.tileset false 16 10 false false Examples.rootLoaded)
           _ _ E 1%nat).
Defined.

(** ** What is requested *)

Lemma keepsTouched_step fs ts s s' :
  keepsTouched fs ts s ->
  (forall t, _touchedFrame (heap s t) = frameNumber fs ->
     _touchedFrame (heap s' t) = frameNumber fs) ->
  keepsTouched fs ts s'.
Proof. intros H Hs t Ht. apply Hs, H, Ht. Qed.

Lemma selectTile_touched X fs ts t x :
  _touchedFrame (heap (selectTile X fs ts t) x) = _touchedFrame (heap ts x).
Proof.
  rewrite selectTile_heap. destruct (Nat.eqb x t) eqn:E; [|reflexivity].
  apply Nat.eqb_eq in E. subst x.
  destruct (contentAvailable (heap ts t) && _); [|reflexivity].
  destruct (featurePropertiesDirty _); reflexivity.
Qed.

Lemma assign_refines_touched ts t v x :
  _touchedFrame (heap (assign t (set_refines v) ts) x)
  = _touchedFrame (heap ts x).
Proof.
  rewrite heap_assign. destruct (Nat.eqb x t) eqn:E; [|reflexivity].
  apply Nat.eqb_eq in E. subst x. reflexivity.
Qed.

Lemma keepsTouched_culled fs ts s s' :
  culled s s' -> keepsTouched fs ts s -> keepsTouched fs ts s'.
Proof.
  intros C H. apply (keepsTouched_step _ _ _ _ H).
  intros t. rewrite (culled_touched _ _ t C). auto.
Qed.

Lemma keepsTouched_visitTile tree X fs ts s x :
  keepsTouched fs ts s -> keepsTouched fs ts (visitTile tree X fs s x).
Proof.
  intros H. apply (keepsTouched_step _ _ _ _ H).
  intros t. rewrite visitTile_touched. auto.
Qed.

Lemma keepsTouched_loadAndTouch tree fs ts s x :
  keepsTouched fs ts s -> keepsTouched fs ts (loadAndTouch tree fs s x).
Proof.
  intros H. apply (keepsTouched_step _ _ _ _ H).
  intros t. rewrite loadAndTouch_touched. destruct (Nat.eqb t x); auto.
Qed.

Lemma keepsTouched_refines fs ts s x v :
  keepsTouched fs ts s -> keepsTouched fs ts (assign x (set_refines v) s).
Proof.
  intros H. apply (keepsTouched_step _ _ _ _ H).
  intros t. rewrite assign_refines_touched. auto.
Qed.

Lemma keepsTouched_selectTile X fs ts s x :
  keepsTouched fs ts s -> keepsTouched fs ts (selectTile X fs s x).
Proof.
  intros H. apply (keepsTouched_step _ _ _ _ H).
  intros t. rewrite selectTile_touched. auto.
Qed.

Lemma visitTile_contentFlags tree X fs ts t x :
  noExpiry X ->
  contentFlags (heap (visitTile tree X fs ts t) x) = contentFlags (heap ts x).
Proof. intros HX. apply core_contentFlags, visitTile_core, HX. Qed.

(** With content that does not expire, a call that is not frozen requests
    only tiles whose content was unloaded or expired when it began and
    that no earlier call of the frame had touched. *)
Theorem selectTiles_requests_missing
    (tree : TileId -> Tile) (X : Externals) (fs : FrameState)
    (skipT hybridT : Tileset -> TileId -> option Tileset)
    (fuel : nat) (ts ts' : Tileset) (d : option Strategy) :
  noExpiry X ->
  debugFreezeFrame ts = false ->
  selectTiles tree X fs skipT hybridT fuel ts = Some (d, ts') ->
  requestsMissing fs ts ts'.
Proof.
  intros HX F H.
  set (P := fun s =>
              (forall t, contentFlags (heap s t) = contentFlags (heap ts t))
              /\ keepsTouched fs ts s /\ requestsMissing fs ts s).
  assert (G : P ts'); [|exact (proj2 (proj2 G))].
  apply (selectTiles_inv tree X fs P) with (skipT := skipT)
    (hybridT := hybridT) (fuel := fuel) (ts := ts) (d := d);
    subst P; cbv beta; [| | | | | | | exact F | exact H |].
  - intros s s' C (Hf & Hk & Hr). split; [|split].
    + intros t. rewrite (culled_contentFlags _ _ t C). apply Hf.
    + apply (keepsTouched_culled _ _ _ _ C Hk).
    + intros t Ht. rewrite (culled_requested _ _ C) in Ht. apply Hr, Ht.
  - intros s x (Hf & Hk & Hr). split; [|split].
    + intros t. rewrite visitTile_contentFlags by exact HX. apply Hf.
    + apply keepsTouched_visitTile, Hk.
    + intros t Ht. rewrite visitTile_requested' in Ht. apply Hr, Ht.
  - intros s x (Hf & Hk & Hr). split; [|split].
    + intros t. rewrite (core_contentFlags _ _ (loadAndTouch_core tree fs s x t)).
      apply Hf.
    + apply keepsTouched_loadAndTouch, Hk.
    + intros t Ht. rewrite loadAndTouch_requested in Ht.
      destruct (Z.eqb (_touchedFrame (heap s x)) (frameNumber fs)) eqn:E;
        cbn [negb andb] in Ht; [apply Hr, Ht|].
      destruct (contentUnloaded (heap s x) || contentExpired (heap s x)) eqn:U;
        [|apply Hr, Ht].
      apply in_app_or in Ht. destruct Ht as [Ht | [<- | []]]; [apply Hr, Ht|].
      split.
      * specialize (Hf x). unfold contentFlags in Hf.
        injection Hf as _ <- <-. exact U.
      * intros T. apply Hk in T. rewrite T, Z.eqb_refl in E. discriminate E.
  - intros s x v (Hf & Hk & Hr). split; [|split].
    + intros t. rewrite <- Hf, heap_assign.
      destruct (Nat.eqb t x) eqn:E; [|reflexivity].
      apply Nat.eqb_eq in E. subst x. reflexivity.
    + apply keepsTouched_refines, Hk.
    + exact Hr.
  - intros s x Hs. exact Hs.
  - intros s x (Hf & Hk & Hr). split; [|split].
    + intros t. rewrite (core_contentFlags _ _ (selectTile_core X fs s x t)).
      apply Hf.
    + apply keepsTouched_selectTile, Hk.
    + intros t Ht.
      rewrite (proj1 (proj2 (selectTile_lists X fs s x))) in Ht. apply Hr, Ht.
  - intros s Hs. exact Hs.
  - split; [intros t; reflexivity|].
    split; [intros t Ht; exact Ht | intros t []].
Qed.

Lemma selectTiles_requests_missing_witness :
  exists ts',
    selectTiles Examples.rootAndChild Examples.inSight Examples.view
      Examples.noSkip Examples.noSkip 5
      (Examples.tileset false 16 10 false false Examples.rootLoaded)
    = Some (Some BaseTraversal, ts')
    /\ _requestedTiles ts' = [1%nat]
    /\ requestsMissing Examples.view
         (Examples.tileset false 16 10 false false Examples.rootLoaded) ts'.
Proof.
  eexists.
  match goal with
  | |- ?e = Some (?d, ?x) /\ _ =>
      assert (E : e = Some (d, x)) by (vm_compute; reflexivity)
  end.
  split; [exact E|]. split; [reflexivity|].
  eapply (selectTiles_requests_missing Examples.rootAndChild Examples.inSight
            Examples.view Examples.noSkip Examples.noSkip 5
            (Examples.tileset false 16 10 false false Examples.rootLoaded)).
  - intros t flags. reflexivity.
  - reflexivity.
  - exact E.
Defined.

(** ** What the cache is told *)

Lemma loadAndTouch_cache tree fs ts t :
  _cache (loadAndTouch tree fs ts t)
  = if Z.eqb (_touchedFrame (heap ts t)) (frameNumber fs)
    then _cache ts
    else push (_cache ts) (CacheTouch t).
Proof.
  unfold loadAndTouch, loadTile, touch.
  destruct (Z.eqb (_touchedFrame (heap ts t)) (frameNumber fs)) eqn:E.
  - rewrite E. reflexivity.
  - destruct (contentUnloaded (heap ts t) || contentExpired (heap ts t)).
    + unfold assign; cbn. rewrite ?Nat.eqb_refl. cbn. rewrite E. reflexivity.
    + rewrite E. reflexivity.
Qed.

Lemma culled_cache ts ts' : culled ts ts' -> _cache ts' = _cache ts.
Proof. intros [F _]. unfold frameOf in F. congruence. Qed.

Lemma visitTile_cache tree X fs ts t :
  _cache (visitTile tree X fs ts t) = _cache ts.
Proof.
  pose proof (visitTile_frameOf tree X fs ts t) as F. unfold frameOf in F.
  congruence.
Qed.

Lemma selectTile_cache X fs ts t : _cache (selectTile X fs ts t) = _cache ts.
Proof.
  unfold selectTile.
  repeat (match goal with |- context [if ?b then _ else _] => destruct b end;
          try reflexivity).
Qed.

Lemma cacheLogged_step fs ts s s' l :
  cacheLogged fs ts s l ->
  _cache s' = _cache s ->
  (forall t, _touchedFrame (heap s' t) = _touchedFrame (heap s t)) ->
  cacheLogged fs ts s' l.
Proof.
  intros (C & N & I) Ec Et. unfold cacheLogged. rewrite Ec.
  split; [exact C|]. split; [exact N|].
  intros t. rewrite Et. apply I.
Qed.

Lemma cacheLogged_loadAndTouch tree fs ts s x l :
  keepsTouched fs ts s -> cacheLogged fs ts s l ->
  exists l', cacheLogged fs ts (loadAndTouch tree fs s x) l'.
Proof.
  intros Hk (C & N & I).
  destruct (Z.eqb (_touchedFrame (heap s x)) (frameNumber fs)) eqn:E.
  - exists l. unfold cacheLogged. rewrite loadAndTouch_cache, E.
    split; [exact C|]. split; [exact N|].
    intros t. rewrite loadAndTouch_touched.
    destruct (Nat.eqb t x) eqn:Et; [|apply I].
    apply Nat.eqb_eq in Et. subst x. apply Z.eqb_eq in E.
    specialize (I t). rewrite E in I. exact I.
  - assert (Hx : ~ In x l).
    { intros Hin. apply I in Hin. destruct Hin as [_ T].
      rewrite T, Z.eqb_refl in E. discriminate E. }
    exists (l ++ [x]). unfold cacheLogged. rewrite loadAndTouch_cache, E.
    split; [|split].
    + unfold push. rewrite C, map_app, <- app_assoc. reflexivity.
    + apply NoDup_app; [exact N | repeat constructor; intros [] |].
      intros t Ht [<- | []]. exact (Hx Ht).
    + intros t. rewrite loadAndTouch_touched. split.
      * intros Ht. apply in_app_or in Ht. destruct Ht as [Ht | [<- | []]].
        -- apply I in Ht. destruct Ht as [T0 T1]. split; [exact T0|].
           destruct (Nat.eqb t x); [reflexivity | exact T1].
        -- rewrite Nat.eqb_refl. split; [|reflexivity].
           intros T. apply Hk in T. rewrite T, Z.eqb_refl in E.
           discriminate E.
      * intros [T0 T1]. apply in_or_app.
        destruct (Nat.eqb t x) eqn:Et.
        -- right. left. symmetry. apply Nat.eqb_eq, Et.
        -- left. apply I. split; assumption.
Qed.

(** A call that is not frozen tells the cache of the reset and then of
    each tile it stamps for the first time in the frame, once: the tiles
    touched after the reset are pairwise distinct, and they are the tiles
    whose [_touchedFrame] the call brought to the frame number. *)
Theorem selectTiles_touches_once
    (tree : TileId -> Tile) (X : Externals) (fs : FrameState)
    (skipT hybridT : Tileset -> TileId -> option Tileset)
    (fuel : nat) (ts ts' : Tileset) (d : option Strategy) :
  debugFreezeFrame ts = false ->
  selectTiles tree X fs skipT hybridT fuel ts = Some (d, ts') ->
  exists l, cacheLogged fs ts ts' l.
Proof.
  intros F H.
  set (P := fun s => keepsTouched fs ts s /\ exists l, cacheLogged fs ts s l).
  assert (G : P ts'); [|exact (proj2 G)].
  apply (selectTiles_inv tree X fs P) with (skipT := skipT)
    (hybridT := hybridT) (fuel := fuel) (ts := ts) (d := d);
    subst P; cbv beta; [| | | | | | | exact F | exact H |].
  - intros s s' C (Hk & l & Hl). split; [apply (keepsTouched_culled _ _ _ _ C Hk)|].
    exists l. apply (cacheLogged_step _ _ _ _ _ Hl (culled_cache _ _ C)).
    intros t. apply (culled_touched _ _ t C).
  - intros s x (Hk & l & Hl). split; [apply keepsTouched_visitTile, Hk|].
    exists l. apply (cacheLogged_step _ _ _ _ _ Hl (visitTile_cache tree X fs s x)).
    intros t. apply visitTile_touched.
  - intros s x (Hk & l & Hl). split; [apply keepsTouched_loadAndTouch, Hk|].
    apply (cacheLogged_loadAndTouch tree fs ts s x l Hk Hl).
  - intros s x v (Hk & l & Hl). split; [apply keepsTouched_refines, Hk|].
    exists l.
    apply (cacheLogged_step fs ts s (assign x (set_refines v) s) l Hl eq_refl).
    intros t. apply assign_refines_touched.
  - intros s x Hs. exact Hs.
  - intros s x (Hk & l & Hl). split; [apply keepsTouched_selectTile, Hk|].
    exists l. apply (cacheLogged_step _ _ _ _ _ Hl (selectTile_cache X fs s x)).
    intros t. apply selectTile_touched.
  - intros s Hs. exact Hs.
  - split; [intros t Ht; exact Ht|].
    exists []. split; [reflexivity|]. split; [constructor|].
    intros t. split; [intros [] | intros [A B]; exact (A B)].
Qed.

Lemma selectTiles_touches_once_witness :
  exists ts',
    selectTiles Examples.rootAndChild Examples.inSight Examples.view
      Examples.noSkip Examples.noSkip 5
      (Examples.tileset false 16 10 false false Examples.rootLoaded)
    = Some (Some BaseTraversal, ts')
    /\ _cache ts' = [CacheReset; CacheTouch 0%nat; CacheTouch 1%nat]
    /\ exists l,
         cacheLogged Examples.view
           (Examples.tileset false 16 10 false false Examples.rootLoaded)
           ts' l.
Proof.
  eexists.
  match goal with
  | |- ?e = Some (?d, ?x) /\ _ =>
      assert (E : e = Some (d, x)) by (vm_compute; reflexivity)
  end.
  split; [exact E|]. split; [reflexivity|].
  exact (selectTiles_touches_once Examples.rootAndChild Examples.inSight
           Examples.view Examples.noSkip Examples.noSkip 5
           (Examples.tileset false 16 10 false false Examples.rootLoaded)
           _ _ eq_refl E).
Defined.

(** ** Styling *)

Lemma selectTile_toStyle X fs ts t :
  _selectedTilesToStyle (selectTile X fs ts t)
  = if selectable X ts t
       && (featurePropertiesDirty (heap ts t)
           || negb (Z.eqb (_lastSelectedFrameNumber (heap ts t))
                      (frameNumber fs - 1)))
    then push (_selectedTilesToStyle ts) t
    else _selectedTilesToStyle ts.
Proof.
  unfold selectTile, selectable.
  destruct (contentAvailable (heap ts t) && _); [|reflexivity].
  cbn. destruct (featurePropertiesDirty (heap ts t)); [reflexivity|].
  cbn. destruct (negb _); reflexivity.
Qed.

Lemma styled_step fs s s' :
  styled fs s ->
  _selectedTiles s' = _selectedTiles s ->
  _selectedTilesToStyle s' = _selectedTilesToStyle s ->
  (forall t, _lastSelectedFrameNumber (heap s' t)
             = _lastSelectedFrameNumber (heap s t)) ->
  (forall t, featurePropertiesDirty (heap s' t)
             = featurePropertiesDirty (heap s t)) ->
  styled fs s'.
Proof.
  intros [A B] Es Et El Ed. unfold styled. rewrite Es, Et.
  split; [exact A|]. intros t Ht. rewrite El, Ed. apply B, Ht.
Qed.

Lemma culled_toStyle ts ts' :
  culled ts ts' -> _selectedTilesToStyle ts' = _selectedTilesToStyle ts.
Proof. intros [F _]. unfold frameOf in F. congruence. Qed.

Lemma styled_culled fs s s' : culled s s' -> styled fs s -> styled fs s'.
Proof.
  intros C H.
  apply (styled_step _ _ _ H (culled_selected _ _ C) (culled_toStyle _ _ C));
    intros t; pose proof (culled_persistent _ _ t C) as Pe;
    unfold persistent in Pe; congruence.
Qed.

Lemma styled_visitTile tree X fs s x :
  styled fs s -> styled fs (visitTile tree X fs s x).
Proof.
  intros H.
  pose proof (visitTile_frameOf tree X fs s x) as F. unfold frameOf in F.
  apply (styled_step _ _ _ H); [congruence | congruence | |];
    intros t; rewrite visitTile_heap;
    (destruct (Nat.eqb t x) eqn:E; [|reflexivity]);
    apply Nat.eqb_eq in E; subst x;
    (destruct (Z.eqb _ _); [reflexivity|]); cbn zeta;
    destruct (updateExpiration X t _) as [[a u] e];
    destruct (parent (tree t)); reflexivity.
Qed.

Lemma loadAndTouch_toStyle tree fs ts t :
  _selectedTilesToStyle (loadAndTouch tree fs ts t) = _selectedTilesToStyle ts.
Proof.
  unfold loadAndTouch, loadTile, touch.
  repeat (match goal with |- context [if ?b then _ else _] => destruct b end;
          try reflexivity).
Qed.

Lemma styled_loadAndTouch tree fs s x :
  styled fs s -> styled fs (loadAndTouch tree fs s x).
Proof.
  intros H.
  apply (styled_step _ _ _ H (loadAndTouch_selected tree fs s x)
           (loadAndTouch_toStyle tree fs s x));
    intros t; rewrite loadAndTouch_heap;
    (destruct (Nat.eqb t x) eqn:E; [|reflexivity]);
    apply Nat.eqb_eq in E; subst x;
    (destruct (Z.eqb _ _); [reflexivity|]);
    destruct (_ || _); reflexivity.
Qed.

Lemma styled_refines fs s x v :
  styled fs s -> styled fs (assign x (set_refines v) s).
Proof.
  intros H.
  apply (styled_step fs s (assign x (set_refines v) s) H eq_refl eq_refl);
    intros t; rewrite heap_assign;
    (destruct (Nat.eqb t x) eqn:E; [|reflexivity]);
    apply Nat.eqb_eq in E; subst x; reflexivity.
Qed.

Lemma styled_selectTile X fs s x :
  styled fs s -> styled fs (selectTile X fs s x).
Proof.
  intros [A B]. unfold styled.
  rewrite selectTile_selected, selectTile_toStyle.
  fold (selectable X s x).
  destruct (selectable X s x) eqn:S; cbn [andb].
  - split.
    + intros t Ht. unfold push in *. apply in_or_app.
      destruct (_ || _); [|left; apply A, Ht].
      apply in_app_or in Ht. destruct Ht as [Ht | Ht];
        [left; apply A, Ht | right; exact Ht].
    + intros t Ht. rewrite selectTile_heap. fold (selectable X s x).
      rewrite S. destruct (Nat.eqb t x) eqn:E.
      * apply Nat.eqb_eq in E. subst x.
        destruct (featurePropertiesDirty (heap s t)) eqn:D; cbn; auto.
      * apply in_app_or in Ht. destruct Ht as [Ht | [<- | []]];
          [apply B, Ht | rewrite Nat.eqb_refl in E; discriminate E].
  - split; [exact A|]. intros t Ht. rewrite selectTile_heap.
    fold (selectable X s x). rewrite S.
    destruct (Nat.eqb t x) eqn:E; [apply Nat.eqb_eq in E; subst x|];
      apply B, Ht.
Qed.

(** After a call that is not frozen every tile of [_selectedTilesToStyle]
    is among the selected tiles, and every selected tile carries the frame
    number in [_lastSelectedFrameNumber] and has [featurePropertiesDirty]
    cleared. *)
Theorem selectTiles_styled
    (tree : TileId -> Tile) (X : Externals) (fs : FrameState)
    (skipT hybridT : Tileset -> TileId -> option Tileset)
    (fuel : nat) (ts ts' : Tileset) (d : option Strategy) :
  debugFreezeFrame ts = false ->
  selectTiles tree X fs skipT hybridT fuel ts = Some (d, ts') ->
  styled fs ts'.
Proof.
  intros F H.
  apply (selectTiles_inv tree X fs (styled fs)) with (skipT := skipT)
    (hybridT := hybridT) (fuel := fuel) (ts := ts) (d := d);
    [| | | | | | | exact F | exact H |].
  - intros s s' C Hs. exact (styled_culled _ _ _ C Hs).
  - intros s x Hs. apply styled_visitTile, Hs.
  - intros s x Hs. apply styled_loadAndTouch, Hs.
  - intros s x v Hs. apply styled_refines, Hs.
  - intros s x Hs. exact Hs.
  - intros s x Hs. apply styled_selectTile, Hs.
  - intros s Hs. exact Hs.
  - split; intros t [].
Qed.

Lemma selectTiles_styled_witness :
  exists ts',
    selectTiles Examples.rootAndChild Examples.inSight Examples.view
      Examples.noSkip Examples.noSkip 5
      (Examples.tileset false 16 10 false false Examples.rootLoaded)
    = Some (Some BaseTraversal, ts')
    /\ _selectedTiles ts' = [0%nat]
    /\ styled Examples.view ts'.
Proof.
  eexists.
  match goal with
  | |- ?e = Some (?d, ?x) /\ _ =>
      assert (E : e = Some (d, x)) by (vm_compute; reflexivity)
  end.
  split; [exact E|]. split; [reflexivity|].
  exact (selectTiles_styled Examples.rootAndChild Examples.inSight
           Examples.view Examples.noSkip Examples.noSkip 5
           (Examples.tileset false 16 10 false false Examples.rootLoaded)
           _ _ eq_refl E).
Defined.

(** ** Selected tiles were visited and touched *)

Lemma settled_step fs s s' t :
  settled fs s t ->
  contentAvailable (heap s' t) = contentAvailable (heap s t) ->
  _visitedFrame (heap s' t) = _visitedFrame (heap s t) ->
  (_touchedFrame (heap s t) = frameNumber fs ->
   _touchedFrame (heap s' t) = frameNumber fs) ->
  settled fs s' t.
Proof.
  intros (A & V & T) Ea Ev Et. unfold settled. rewrite Ea, Ev. auto.
Qed.

Lemma settled_culled fs s s' t : culled s s' -> settled fs s t -> settled fs s' t.
Proof.
  intros C H. apply (settled_step _ _ _ _ H).
  - apply culled_contentAvailable, C.
  - apply culled_visited, C.
  - rewrite (culled_touched _ _ t C). auto.
Qed.

Lemma settled_visitTile tree X fs s x t :
  settled fs s t -> settled fs (visitTile tree X fs s x) t.
Proof.
  intros H.
  assert (E : heap (visitTile tree X fs s x) t = heap s t).
  { rewrite visitTile_heap. destruct (Nat.eqb t x) eqn:E; [|reflexivity].
    apply Nat.eqb_eq in E. subst x.
    destruct H as (_ & V & _). rewrite V, Z.eqb_refl. reflexivity. }
  unfold settled. rewrite E. exact H.
Qed.

Lemma settled_loadAndTouch tree fs s x t :
  settled fs s t -> settled fs (loadAndTouch tree fs s x) t.
Proof.
  intros H. apply (settled_step _ _ _ _ H).
  - apply loadAndTouch_contentAvailable.
  - apply loadAndTouch_visited.
  - rewrite loadAndTouch_touched. destruct (Nat.eqb t x); auto.
Qed.

Lemma settled_refines fs s x v t :
  settled fs s t -> settled fs (assign x (set_refines v) s) t.
Proof.
  intros H.
  apply (settled_step _ _ _ _ H); rewrite heap_assign;
    destruct (Nat.eqb t x) eqn:E; try reflexivity; try (intros T; exact T);
    apply Nat.eqb_eq in E; subst x; try reflexivity; intros T; exact T.
Qed.

Lemma settled_selectTile X fs s x t :
  settled fs s t -> settled fs (selectTile X fs s x) t.
Proof.
  intros H. apply (settled_step _ _ _ _ H).
  - apply selectTile_contentAvailable.
  - apply selectTile_visited.
  - rewrite selectTile_touched. auto.
Qed.

Lemma visitTile_visited tree X fs ts t :
  _visitedFrame (heap (visitTile tree X fs ts t) t) = frameNumber fs.
Proof.
  rewrite visitTile_heap, Nat.eqb_refl.
  destruct (Z.eqb _ _) eqn:E; [apply Z.eqb_eq, E|]. cbn zeta.
  destruct (updateExpiration X t _) as [[a u] e].
  destruct (parent (tree t)); reflexivity.
Qed.

Lemma refine_eqb_total (r : Cesium3DTileRefine) :
  refine_eqb r REPLACE || refine_eqb r ADD = true.
Proof. destruct r; reflexivity. Qed.

Section Settled.

Variable tree : TileId -> Tile.
Variable X : Externals.
Variable fs : FrameState.

(** A stamp of the frame stays through the child loop. *)
Lemma base_children_keeps_touched inner m replace add cs refines stack ts r ts' x :
  base_children tree X fs inner m replace add cs refines stack ts = Some (r, ts')
  -> _touchedFrame (heap ts x) = frameNumber fs
  -> _touchedFrame (heap ts' x) = frameNumber fs.
Proof.
  intros H T.
  apply (base_children_inv tree X fs
           (fun s => _touchedFrame (heap s x) = frameNumber fs)) in H;
    [exact H | | | exact T].
  - intros s t m' Hs.
    rewrite (culled_touched _ _ x (updateVisibility_culled tree X fs s t m')).
    exact Hs.
  - intros s t Hs. rewrite loadAndTouch_touched.
    destruct (Nat.eqb x t); [reflexivity | exact Hs].
Qed.

(** The children the loop pushes are touched. *)
Lemma base_children_touched inner m replace add cs :
  replace || add = true ->
  forall refines stack ts r stack' ts',
    base_children tree X fs inner m replace add cs refines stack ts
      = Some (r, stack', ts') ->
    (forall x, In x stack -> _touchedFrame (heap ts x) = frameNumber fs) ->
    forall x, In x stack' -> _touchedFrame (heap ts' x) = frameNumber fs.
Proof.
  intros Hra. induction cs as [|c cs IH];
    intros refines stack ts r stack' ts'; cbn [base_children].
  - intros [= _ <- <-] Hs. exact Hs.
  - pose proof (updateVisibility_culled tree X fs ts c m) as C.
    destruct (updateVisibility tree X fs ts c m) as [v ts1]. cbn [snd] in C.
    set (ts2 := if replace || add && v
                then loadAndTouch tree fs ts1 c else ts1).
    assert (K2 : forall x, _touchedFrame (heap ts x) = frameNumber fs ->
                   _touchedFrame (heap ts2 x) = frameNumber fs).
    { intros x Hx. rewrite <- (culled_touched _ _ x C) in Hx. subst ts2.
      destruct (replace || add && v); [|exact Hx].
      rewrite loadAndTouch_touched. destruct (Nat.eqb x c); auto. }
    assert (Kc : v = true -> _touchedFrame (heap ts2 c) = frameNumber fs).
    { intros ->. subst ts2. rewrite andb_true_r, Hra.
      rewrite loadAndTouch_touched, Nat.eqb_refl. reflexivity. }
    clearbody ts2.
    match goal with
    | |- match ?scrut with _ => _ end = _ -> _ =>
        destruct scrut as [[r1 ts3]|] eqn:E3; [|discriminate]
    end.
    assert (K3 : forall x, _touchedFrame (heap ts2 x) = frameNumber fs ->
                   _touchedFrame (heap ts3 x) = frameNumber fs).
    { intros x Hx. destruct (refines && replace).
      - destruct (hasEmptyContent (tree c) || hasTilesetContent (tree c)).
        + unfold executeInternalBaseTraversal in E3.
          apply (internalBase_loop_inv tree X fs
                   (fun s => _touchedFrame (heap s x) = frameNumber fs))
            in E3; [exact E3 | | | exact Hx].
          * intros s t m' Hs.
            rewrite (culled_touched _ _ x
                       (updateVisibility_culled tree X fs s t m')).
            exact Hs.
          * intros s t Hs. rewrite loadAndTouch_touched.
            destruct (Nat.eqb x t); [reflexivity | exact Hs].
        + injection E3 as _ <-. exact Hx.
      - injection E3 as _ <-. exact Hx. }
    intros H Hs. apply (IH _ _ _ _ _ _ H).
    intros x Hx. destruct v.
    + destruct Hx as [<- | Hx]; [apply K3, Kc; reflexivity|].
      apply K3, K2, Hs, Hx.
    + apply K3, K2, Hs, Hx.
Qed.

(** The leaves and the desired tiles of the base traversal are settled. *)
Lemma base_loop_settled inner fuel m :
  forall stack leaves fr ts fr' leaves' ts',
    base_loop tree X fs inner fuel m stack leaves fr ts
      = Some (fr', leaves', ts') ->
    (forall x, In x stack -> _touchedFrame (heap ts x) = frameNumber fs) ->
    (forall x, In x leaves -> settled fs ts x) ->
    (forall x, In x (_desiredTiles ts) -> settled fs ts x) ->
    (forall x, In x leaves' -> settled fs ts' x)
    /\ (forall x, In x (_desiredTiles ts') -> settled fs ts' x).
Proof.
  induction fuel as [|fuel IH];
    intros stack leaves fr ts fr' leaves' ts'; destruct stack as [|t stack].
  - cbn. intros [= _ <- <-]. auto.
  - discriminate.
  - cbn. intros [= _ <- <-]. auto.
  - rewrite base_loop_cons. cbv zeta. intros H Hs Hl Hd.
    assert (Tt : _touchedFrame (heap (visitTile tree X fs ts t) t)
                 = frameNumber fs)
      by (rewrite visitTile_touched; apply Hs; left; reflexivity).
    assert (Vt := visitTile_visited tree X fs ts t).
    assert (Hs0 : forall x, In x stack ->
              _touchedFrame (heap (visitTile tree X fs ts t) x) = frameNumber fs)
      by (intros x Hx; rewrite visitTile_touched; apply Hs; right; exact Hx).
    assert (Hl0 : forall x, In x leaves ->
              settled fs (visitTile tree X fs ts t) x)
      by (intros x Hx; apply settled_visitTile, Hl, Hx).
    assert (Hd0 : forall x, In x (_desiredTiles (visitTile tree X fs ts t)) ->
              settled fs (visitTile tree X fs ts t) x).
    { intros x Hx. rewrite visitTile_desired in Hx.
      apply settled_visitTile, Hd, Hx. }
    set (tsv := visitTile tree X fs ts t) in *. clearbody tsv.
    clear Hs Hl Hd.
    set (traverse := negb (Nat.eqb (length (children (tree t))) 0)
                     && Qgtb (_screenSpaceError (heap tsv t)) m) in *.
    set (parentRefines := match parent (tree t) with
                          | Some p => _refines (heap tsv p)
                          | None => true
                          end) in *.
    destruct (if traverse
              then base_children tree X fs inner m
                     (refine_eqb (refine (tree t)) REPLACE)
                     (refine_eqb (refine (tree t)) ADD)
                     (children (tree t)) (traverse && parentRefines) stack tsv
              else Some (traverse && parentRefines, stack, tsv))
      as [[[r1 stack1] ts1]|] eqn:E; [|discriminate].
    (* what the child loop keeps *)
    assert (K : (forall x, settled fs tsv x -> settled fs ts1 x)
                /\ (forall x, _touchedFrame (heap tsv x) = frameNumber fs ->
                      _touchedFrame (heap ts1 x) = frameNumber fs)
                /\ (forall x, In x stack1 ->
                      _touchedFrame (heap ts1 x) = frameNumber fs)
                /\ _desiredTiles ts1 = _desiredTiles tsv
                /\ _visitedFrame (heap ts1 t) = frameNumber fs).
    { destruct traverse.
      - split; [|split; [|split; [|split]]].
        + intros x Hx.
          apply (base_children_inv tree X fs (fun s => settled fs s x)) in E;
            [exact E | | | exact Hx].
          * intros s y m' Hy.
            exact (settled_culled _ _ _ _
                     (updateVisibility_culled tree X fs s y m') Hy).
          * intros s y Hy. apply settled_loadAndTouch, Hy.
        + intros x Hx.
          exact (base_children_keeps_touched _ _ _ _ _ _ _ _ _ _ _ E Hx).
        + exact (base_children_touched _ _ _ _ _
                   (refine_eqb_total (refine (tree t))) _ _ _ _ _ _ E Hs0).
        + apply (base_children_inv tree X fs
                   (fun s => _desiredTiles s = _desiredTiles tsv)) in E;
            [exact E | | | reflexivity].
          * intros s y m' Hy.
            rewrite (culled_desired _ _
                       (updateVisibility_culled tree X fs s y m')).
            exact Hy.
          * intros s y Hy. rewrite loadAndTouch_desired. exact Hy.
        + apply (base_children_inv tree X fs
                   (fun s => _visitedFrame (heap s t) = frameNumber fs)) in E;
            [exact E | | | exact Vt].
          * intros s y m' Hy.
            rewrite (culled_visited _ _ t
                       (updateVisibility_culled tree X fs s y m')).
            exact Hy.
          * intros s y Hy. rewrite loadAndTouch_visited. exact Hy.
      - injection E as _ <- <-. auto. }
    destruct K as (Ks & Kt & Kst & Kd & Kv).
    set (ts2 := assign t (set_refines r1) ts1) in *.
    assert (S2 : forall x, settled fs ts1 x -> settled fs ts2 x)
      by (intros x Hx; apply settled_refines, Hx).
    assert (T2 : forall x, _touchedFrame (heap ts1 x) = frameNumber fs ->
                   _touchedFrame (heap ts2 x) = frameNumber fs)
      by (intros x Hx; subst ts2; rewrite assign_refines_touched; exact Hx).
    assert (A2 : forall x, contentAvailable (heap ts2 x)
                           = contentAvailable (heap ts1 x)).
    { intros x. subst ts2. rewrite heap_assign.
      destruct (Nat.eqb x t) eqn:Ex; [|reflexivity].
      apply Nat.eqb_eq in Ex. subst x. reflexivity. }
    assert (V2 : _visitedFrame (heap ts2 t) = frameNumber fs).
    { subst ts2. rewrite heap_assign_same. exact Kv. }
    assert (D2 : _desiredTiles ts2 = _desiredTiles tsv) by exact Kd.
    clearbody ts2.
    (* the tile, should it become a leaf *)
    assert (Leaf : (refine_eqb (refine (tree t)) REPLACE
                    && contentAvailable (heap tsv t)) = true ->
                   settled fs ts2 t).
    { intros Hc. apply andb_prop in Hc. destruct Hc as [_ Hc].
      apply S2, Ks. repeat split; assumption. }
    assert (G : forall leaves1 fr1,
              (forall x, In x leaves1 -> settled fs ts2 x) ->
              base_loop tree X fs inner fuel m stack1 leaves1 fr1
                (if refine_eqb (refine (tree t)) ADD
                    && contentAvailable (heap ts2 t)
                 then set_desiredTiles (push (_desiredTiles ts2) t) ts2
                 else ts2)
                = Some (fr', leaves', ts') ->
              (forall x, In x leaves' -> settled fs ts' x)
              /\ (forall x, In x (_desiredTiles ts') -> settled fs ts' x)).
    { intros leaves1 fr1 Hl1 H1.
      destruct (refine_eqb (refine (tree t)) ADD
                && contentAvailable (heap ts2 t)) eqn:Ea.
      - apply (IH _ _ _ _ _ _ _ H1).
        + intros x Hx. apply T2, Kst, Hx.
        + exact Hl1.
        + intros x Hx. cbn in Hx. unfold push in Hx.
          apply in_app_or in Hx. destruct Hx as [Hx | [<- | []]].
          * rewrite D2 in Hx. apply S2, Ks, Hd0, Hx.
          * apply andb_prop in Ea. destruct Ea as [_ Ea].
            repeat split; [exact Ea | exact V2 | apply T2, Kt, Tt].
      - apply (IH _ _ _ _ _ _ _ H1).
        + intros x Hx. apply T2, Kst, Hx.
        + exact Hl1.
        + intros x Hx. rewrite D2 in Hx. apply S2, Ks, Hd0, Hx. }
    destruct (negb r1 && parentRefines
              && (refine_eqb (refine (tree t)) REPLACE
                  && contentAvailable (heap tsv t))) eqn:El.
    + apply (G _ _) in H; [exact H|].
      intros x Hx. unfold push in Hx. apply in_app_or in Hx.
      destruct Hx as [Hx | [<- | []]]; [apply S2, Ks, Hl0, Hx|].
      apply Leaf. apply andb_prop in El. apply El.
    + apply (G _ _) in H; [exact H|].
      intros x Hx. apply S2, Ks, Hl0, Hx.
Qed.

End Settled.

(** Every tile a call selects has content available and was visited and
    touched in this frame: its [_visitedFrame] and [_touchedFrame] carry
    the frame number. *)
Theorem selectTiles_selected_settled
    (tree : TileId -> Tile) (X : Externals) (fs : FrameState)
    (skipT hybridT : Tileset -> TileId -> option Tileset)
    (fuel : nat) (ts ts' : Tileset) (d : option Strategy) :
  debugFreezeFrame ts = false ->
  selectTiles tree X fs skipT hybridT fuel ts = Some (d, ts') ->
  forall t, In t (_selectedTiles ts') -> settled fs ts' t.
Proof.
  intros F H. apply selectTiles_cases in H.
  destruct H as [(F' & _) | [(_ & _ & C) | (_ & _ & ts1 & C & H)]].
  - rewrite F in F'. discriminate F'.
  - intros t Ht. rewrite (culled_selected _ _ C) in Ht. destruct Ht.
  - set (ts2 := set_skipLevelOfDetail false
                  (loadAndTouch tree fs ts1 (_root ts))) in *.
    assert (T2 : _touchedFrame (heap ts2 (_root ts)) = frameNumber fs).
    { subst ts2. change (_touchedFrame
                           (heap (loadAndTouch tree fs ts1 (_root ts)) (_root ts))
                         = frameNumber fs).
      rewrite loadAndTouch_touched, Nat.eqb_refl. reflexivity. }
    assert (D2 : _desiredTiles ts2 = []).
    { subst ts2. change (_desiredTiles (loadAndTouch tree fs ts1 (_root ts)) = []).
      rewrite loadAndTouch_desired. apply (culled_desired _ _ C). }
    assert (S2 : _selectedTiles ts2 = []).
    { subst ts2. change (_selectedTiles (loadAndTouch tree fs ts1 (_root ts)) = []).
      rewrite loadAndTouch_selected. apply (culled_selected _ _ C). }
    clearbody ts2.
    unfold selectBaseTraversal, executeBaseTraversal in H.
    destruct (base_loop _ _ _ _ _ _ _ _ _ _) as [[[fr leaves] ts3]|] eqn:E;
      [|discriminate].
    injection H as <-.
    pose proof (base_loop_selected _ _ _ _ _ _ _ _ _ _ _ _ E) as S3.
    rewrite S2 in S3.
    apply base_loop_settled in E.
    + destruct E as [Hl Hd]. intros t Ht.
      rewrite !fold_selectTile_selected, S3 in Ht. cbn [app] in Ht.
      destruct (fold_selectTile_lists X fs leaves ts3) as (D & _).
      rewrite D in Ht.
      assert (St : settled fs ts3 t).
      { apply in_app_or in Ht. destruct Ht as [Ht | Ht];
          apply filter_In in Ht; destruct Ht as [Ht _];
          [apply Hl, Ht | apply Hd, Ht]. }
      apply (fold_selectTile_inv X fs (fun s => settled fs s t));
        [intros; apply settled_selectTile; assumption|].
      apply (fold_selectTile_inv X fs (fun s => settled fs s t));
        [intros; apply settled_selectTile; assumption|].
      exact St.
    + intros x [<- | []]. exact T2.
    + intros x [].
    + rewrite D2. intros x [].
Qed.

Lemma selectTiles_selected_settled_witness :
  exists ts',
    selectTiles Examples.rootAndChild Examples.inSight Examples.view
      Examples.noSkip Examples.noSkip 5
      (Examples.tileset false 16 10 false false Examples.rootLoaded)
    = Some (Some BaseTraversal, ts')
    /\ settled Examples.view ts' 0%nat.
Proof.
  eexists.
  match goal with
  | |- ?e = Some (?d, ?x) /\ _ =>
      assert (E : e = Some (d, x)) by (vm_compute; reflexivity)
  end.
  split; [exact E|].
  apply (selectTiles_selected_settled Examples.rootAndChild Examples.inSight
           Examples.view Examples.noSkip Examples.noSkip 5
           (Examples.tileset false 16 10 false false Examples.rootLoaded)
           _ _ eq_refl E).
  left. reflexivity.
Defined.

(** ** REPLACE leaves do not overlap *)

Lemma assign_refines_visited ts t v x :
  _visitedFrame (heap (assign t (set_refines v) ts) x)
  = _visitedFrame (heap ts x).
Proof.
  rewrite heap_assign. destruct (Nat.eqb x t) eqn:E; [|reflexivity].
  apply Nat.eqb_eq in E. subst x. reflexivity.
Qed.

Lemma assign_refines_refines ts t v x :
  _refines (heap (assign t (set_refines v) ts) x)
  = if Nat.eqb x t then v else _refines (heap ts x).
Proof.
  rewrite heap_assign. destruct (Nat.eqb x t); reflexivity.
Qed.

Lemma visitTile_visited_eq tree X fs ts t x :
  _visitedFrame (heap (visitTile tree X fs ts t) x)
  = if Nat.eqb x t then frameNumber fs else _visitedFrame (heap ts x).
Proof.
  destruct (Nat.eqb x t) eqn:E.
  - apply Nat.eqb_eq in E. subst x. apply visitTile_visited.
  - apply visitTile_visited_other. intros ->. rewrite Nat.eqb_refl in E.
    discriminate E.
Qed.

Section TreeWalk.

Variable tree : TileId -> Tile.
Variable X : Externals.
Variable fs : FrameState.

Lemma base_children_visited inner m replace add cs refines stack ts r ts' x :
  base_children tree X fs inner m replace add cs refines stack ts = Some (r, ts')
  -> _visitedFrame (heap ts' x) = _visitedFrame (heap ts x).
Proof.
  intros H.
  apply (base_children_inv tree X fs
           (fun s => _visitedFrame (heap s x) = _visitedFrame (heap ts x))) in H;
    [exact H | | | reflexivity].
  - intros s t m' Hs.
    rewrite (culled_visited _ _ x (updateVisibility_culled tree X fs s t m')).
    exact Hs.
  - intros s t Hs. rewrite loadAndTouch_visited. exact Hs.
Qed.

Lemma base_children_refines inner m replace add cs refines stack ts r ts' x :
  base_children tree X fs inner m replace add cs refines stack ts = Some (r, ts')
  -> _refines (heap ts' x) = _refines (heap ts x).
Proof.
  intros H.
  apply (base_children_inv tree X fs
           (fun s => _refines (heap s x) = _refines (heap ts x))) in H;
    [exact H | | | reflexivity].
  - intros s t m' Hs.
    rewrite (culled_refines _ _ x (updateVisibility_culled tree X fs s t m')).
    exact Hs.
  - intros s t Hs. rewrite loadAndTouch_refines. exact Hs.
Qed.

Lemma base_children_desired inner m replace add cs refines stack ts r ts' :
  base_children tree X fs inner m replace add cs refines stack ts = Some (r, ts')
  -> _desiredTiles ts' = _desiredTiles ts.
Proof.
  intros H.
  apply (base_children_inv tree X fs
           (fun s => _desiredTiles s = _desiredTiles ts)) in H;
    [exact H | | | reflexivity].
  - intros s t m' Hs.
    rewrite (culled_desired _ _ (updateVisibility_culled tree X fs s t m')).
    exact Hs.
  - intros s t Hs. rewrite loadAndTouch_desired. exact Hs.
Qed.

(** Whatever the refinement, [refines] once false stays false. *)
Lemma base_children_stays_false inner m replace add cs :
  forall stack ts r stack' ts',
    base_children tree X fs inner m replace add cs false stack ts
      = Some (r, stack', ts') ->
    r = false.
Proof.
  induction cs as [|c cs IH]; intros stack ts r stack' ts';
    cbn [base_children].
  - intros [= <- _ _]. reflexivity.
  - destruct (updateVisibility tree X fs ts c m) as [v ts1].
    cbn [andb]. apply IH.
Qed.

(** Distinct children that are not on the stack leave it without
    duplicates. *)
Lemma base_children_NoDup inner m replace add cs :
  forall refines stack ts r stack' ts',
    base_children tree X fs inner m replace add cs refines stack ts
      = Some (r, stack', ts') ->
    NoDup cs -> NoDup stack -> (forall c, In c cs -> ~ In c stack) ->
    NoDup stack'.
Proof.
  induction cs as [|c cs IH]; intros refines stack ts r stack' ts';
    cbn [base_children].
  - intros [= _ <- _] _ N _. exact N.
  - destruct (updateVisibility tree X fs ts c m) as [v ts1].
    match goal with
    | |- match ?scrut with _ => _ end = _ -> _ =>
        destruct scrut as [[r1 ts3]|]; [|discriminate]
    end.
    intros H Nc Ns Hd. apply NoDup_cons_iff in Nc. destruct Nc as [Hc Nc].
    apply (IH _ _ _ _ _ _ H Nc).
    + destruct v; [|exact Ns]. constructor; [|exact Ns].
      apply Hd. left. reflexivity.
    + intros c' Hc'. destruct v.
      * intros [<- | Hin]; [exact (Hc Hc')|].
        exact (Hd c' (or_intror Hc') Hin).
      * exact (Hd c' (or_intror Hc')).
Qed.

Hypothesis tree_children :
  forall p c, In c (children (tree p)) -> parent (tree c) = Some p.
Hypothesis tree_NoDup : forall p, NoDup (children (tree p)).

(** One round of the loop keeps [treeWalk]. *)
Lemma treeWalk_step t stack leaves ts r1 stack1 leaves1 ts3 :
  treeWalk tree fs (t :: stack) leaves ts ->
  NoDup stack1 ->
  (forall s, In s stack1 -> In s (children (tree t)) \/ In s stack) ->
  (forall x, _visitedFrame (heap ts3 x)
             = if Nat.eqb x t then frameNumber fs
               else _visitedFrame (heap ts x)) ->
  (forall x, _refines (heap ts3 x)
             = if Nat.eqb x t then r1 else _refines (heap ts x)) ->
  (forall p, parent (tree t) = Some p -> _refines (heap ts p) = false ->
     r1 = false) ->
  (_desiredTiles ts3 = _desiredTiles ts
   \/ (_desiredTiles ts3 = _desiredTiles ts ++ [t]
       /\ refine (tree t) = ADD)) ->
  (leaves1 = leaves
   \/ (leaves1 = leaves ++ [t] /\ refine (tree t) = REPLACE /\ r1 = false
       /\ forall p, parent (tree t) = Some p ->
            _refines (heap ts p) = true)) ->
  treeWalk tree fs stack1 leaves1 ts3.
Proof.
  intros (Ns & Hp & Hd & Nl & Hl & Nd & Hde) Ns1 Hs1 Gv Gr Ff Gd Gl.
  apply NoDup_cons_iff in Ns. destruct Ns as [Hts Ns].
  destruct (Hp t (or_introl eq_refl)) as [Vt Pt].
  assert (A : forall x, _visitedFrame (heap ts x) = frameNumber fs -> x <> t)
    by (intros x Vx ->; exact (Vt Vx)).
  assert (B : forall x p, _visitedFrame (heap ts x) = frameNumber fs ->
                parent (tree x) = Some p -> p <> t).
  { intros x p Vx Px. apply A. apply (Hd x p Vx Px). }
  assert (Pp : forall p, parent (tree t) = Some p ->
                 _visitedFrame (heap ts p) = frameNumber fs /\ p <> t).
  { intros p Hp'. rewrite Hp' in Pt. split; [exact Pt | apply A, Pt]. }
  assert (Neq : forall x, x <> t -> Nat.eqb x t = false)
    by (intros x Hx; apply Nat.eqb_neq, Hx).
  assert (Mono : forall x, _visitedFrame (heap ts x) = frameNumber fs ->
                   _visitedFrame (heap ts3 x) = frameNumber fs).
  { intros x Vx. rewrite Gv. destruct (Nat.eqb x t); [reflexivity | exact Vx]. }
  assert (Vt3 : _visitedFrame (heap ts3 t) = frameNumber fs)
    by (rewrite Gv, Nat.eqb_refl; reflexivity).
  unfold treeWalk. split; [exact Ns1|]. split; [|split; [|split; [|split; [|split]]]].
  - (* the stack *)
    intros s Hs. destruct (Hs1 s Hs) as [Hc | Hin].
    + pose proof (tree_children t s Hc) as Ps.
      assert (Hst : s <> t).
      { intros ->. destruct (Pp t Ps) as [_ N]. exact (N eq_refl). }
      split.
      * rewrite Gv, (Neq s Hst). intros Vs. exact (B s t Vs Ps eq_refl).
      * rewrite Ps. exact Vt3.
    + destruct (Hp s (or_intror Hin)) as [Vs Ps].
      assert (Hst : s <> t) by (intros ->; exact (Hts Hin)).
      split.
      * rewrite Gv, (Neq s Hst). exact Vs.
      * destruct (parent (tree s)) as [p|]; [apply Mono, Ps | exact I].
  - (* refinement goes downward *)
    intros x p Vx Px. destruct (Nat.eq_dec x t) as [-> | Hxt].
    + destruct (Pp p Px) as [Vp Hpt]. split; [apply Mono, Vp|].
      rewrite !Gr, Nat.eqb_refl, (Neq p Hpt). apply (Ff p Px).
    + rewrite Gv, (Neq x Hxt) in Vx.
      destruct (Hd x p Vx Px) as [Vp Imp].
      split; [apply Mono, Vp|].
      rewrite !Gr, (Neq x Hxt), (Neq p (A p Vp)). exact Imp.
  - (* the leaves are distinct *)
    destruct Gl as [-> | (-> & _)]; [exact Nl|].
    apply NoDup_app; [exact Nl | repeat constructor; intros [] |].
    intros x Hx [<- | []]. destruct (Hl _ Hx) as [Vx _]. exact (Vt Vx).
  - (* the leaves are leaves *)
    assert (Old : forall l, In l leaves -> leafOf tree fs ts3 l).
    { intros l Hin. destruct (Hl l Hin) as (Vl & Rl & Fl & Pl).
      split; [apply Mono, Vl|]. split; [exact Rl|]. split.
      - rewrite Gr, (Neq l (A l Vl)). exact Fl.
      - intros p Hp'. rewrite Gr, (Neq p (B l p Vl Hp')). apply Pl, Hp'. }
    destruct Gl as [-> | (-> & Rt & Fr & Pr)]; [exact Old|].
    intros l Hin. apply in_app_or in Hin.
    destruct Hin as [Hin | [<- | []]]; [apply Old, Hin|].
    split; [exact Vt3|]. split; [exact Rt|]. split.
    + rewrite Gr, Nat.eqb_refl. exact Fr.
    + intros p Hp'. destruct (Pp p Hp') as [_ Hpt].
      rewrite Gr, (Neq p Hpt). apply Pr, Hp'.
  - (* the desired tiles are distinct *)
    destruct Gd as [-> | (-> & _)]; [exact Nd|].
    apply NoDup_app; [exact Nd | repeat constructor; intros [] |].
    intros x Hx [<- | []]. destruct (Hde _ Hx) as [Vx _]. exact (Vt Vx).
  - (* the desired tiles are ADD *)
    intros x Hx.
    destruct Gd as [E | (E & At)]; rewrite E in Hx.
    + destruct (Hde x Hx) as [Vx Ax]. split; [apply Mono, Vx | exact Ax].
    + apply in_app_or in Hx. destruct Hx as [Hx | [<- | []]].
      * destruct (Hde x Hx) as [Vx Ax]. split; [apply Mono, Vx | exact Ax].
      * split; [exact Vt3 | exact At].
Qed.

Lemma refine_eqb_ADD r : refine_eqb r ADD = true -> r = ADD.
Proof. destruct r; [reflexivity | discriminate]. Qed.

Lemma refine_eqb_REPLACE r : refine_eqb r REPLACE = true -> r = REPLACE.
Proof. destruct r; [discriminate | reflexivity]. Qed.

(** The loop of the base traversal keeps [treeWalk]. *)
Lemma base_loop_treeWalk inner fuel m :
  forall stack leaves fr ts fr' leaves' ts',
    base_loop tree X fs inner fuel m stack leaves fr ts
      = Some (fr', leaves', ts') ->
    treeWalk tree fs stack leaves ts ->
    treeWalk tree fs [] leaves' ts'.
Proof.
  induction fuel as [|fuel IH];
    intros stack leaves fr ts fr' leaves' ts'; destruct stack as [|t stack].
  - cbn. intros [= _ <- <-]. auto.
  - discriminate.
  - cbn. intros [= _ <- <-]. auto.
  - rewrite base_loop_cons. cbv zeta. intros H W.
    assert (W0 := W).
    destruct W0 as (Ns & Hp & _).
    apply NoDup_cons_iff in Ns. destruct Ns as [Hts Ns].
    destruct (Hp t (or_introl eq_refl)) as [Vt Pt].
    (* what the visit does *)
    assert (Vv := visitTile_visited_eq tree X fs ts t).
    assert (Vr := visitTile_refines tree X fs ts t).
    assert (Vd := visitTile_desired tree X fs ts t).
    set (tsv := visitTile tree X fs ts t) in *. clearbody tsv.
    set (traverse := negb (Nat.eqb (length (children (tree t))) 0)
                     && Qgtb (_screenSpaceError (heap tsv t)) m) in *.
    set (parentRefines := match parent (tree t) with
                          | Some p => _refines (heap tsv p)
                          | None => true
                          end) in *.
    assert (PR : forall p, parent (tree t) = Some p ->
                   parentRefines = _refines (heap ts p)).
    { intros p Hp'. subst parentRefines. rewrite Hp'. apply Vr. }
    clearbody parentRefines.
    destruct (if traverse
              then base_children tree X fs inner m
                     (refine_eqb (refine (tree t)) REPLACE)
                     (refine_eqb (refine (tree t)) ADD)
                     (children (tree t)) (traverse && parentRefines) stack tsv
              else Some (traverse && parentRefines, stack, tsv))
      as [[[r1 stack1] ts1]|] eqn:E; [|discriminate].
    assert (K : (forall x, _visitedFrame (heap ts1 x)
                           = _visitedFrame (heap tsv x))
                /\ (forall x, _refines (heap ts1 x) = _refines (heap tsv x))
                /\ _desiredTiles ts1 = _desiredTiles tsv
                /\ NoDup stack1
                /\ (forall s, In s stack1 ->
                      In s (children (tree t)) \/ In s stack)
                /\ (parentRefines = false -> r1 = false)).
    { destruct traverse.
      - split; [|split; [|split; [|split; [|split]]]].
        + intros x. exact (base_children_visited _ _ _ _ _ _ _ _ _ _ x E).
        + intros x. exact (base_children_refines _ _ _ _ _ _ _ _ _ _ x E).
        + exact (base_children_desired _ _ _ _ _ _ _ _ _ _ E).
        + apply (base_children_NoDup _ _ _ _ _ _ _ _ _ _ _ E (tree_NoDup t) Ns).
          intros c Hc Hin. destruct (Hp c (or_intror Hin)) as [_ Pc].
          rewrite (tree_children t c Hc) in Pc. exact (Vt Pc).
        + exact (base_children_stack _ _ _ _ _ _ _ _ _ _ _ _ _ _ E).
        + intros ->. cbn [andb] in E.
          exact (base_children_stays_false _ _ _ _ _ _ _ _ _ _ E).
      - injection E as <- <- <-. cbn [andb].
        repeat split; auto. }
    destruct K as (Kv & Kr & Kd & Ks & Kin & Kf).
    set (ts2 := assign t (set_refines r1) ts1) in *.
    assert (V2 : forall x, _visitedFrame (heap ts2 x)
                           = if Nat.eqb x t then frameNumber fs
                             else _visitedFrame (heap ts x)).
    { intros x. subst ts2. rewrite assign_refines_visited, Kv. apply Vv. }
    assert (R2 : forall x, _refines (heap ts2 x)
                           = if Nat.eqb x t then r1 else _refines (heap ts x)).
    { intros x. subst ts2. rewrite assign_refines_refines, Kr, Vr.
      reflexivity. }
    assert (D2 : _desiredTiles ts2 = _desiredTiles ts).
    { subst ts2. change (_desiredTiles ts1 = _desiredTiles ts).
      rewrite Kd. exact Vd. }
    clearbody ts2.
    assert (Ff : forall p, parent (tree t) = Some p ->
                   _refines (heap ts p) = false -> r1 = false).
    { intros p Hp' Hr. apply Kf. rewrite (PR p Hp'). exact Hr. }
    assert (G : forall leaves1 fr1,
              (leaves1 = leaves
               \/ (leaves1 = leaves ++ [t] /\ refine (tree t) = REPLACE
                   /\ r1 = false
                   /\ forall p, parent (tree t) = Some p ->
                        _refines (heap ts p) = true)) ->
              base_loop tree X fs inner fuel m stack1 leaves1 fr1
                (if refine_eqb (refine (tree t)) ADD
                    && contentAvailable (heap ts2 t)
                 then set_desiredTiles (push (_desiredTiles ts2) t) ts2
                 else ts2)
                = Some (fr', leaves', ts') ->
              treeWalk tree fs [] leaves' ts').
    { intros leaves1 fr1 Gl H1. apply (IH _ _ _ _ _ _ _ H1).
      destruct (refine_eqb (refine (tree t)) ADD
                && contentAvailable (heap ts2 t)) eqn:Ea.
      - apply (treeWalk_step t stack leaves ts r1); try assumption.
        right. split; [cbn; unfold push; rewrite D2; reflexivity|].
        apply andb_prop in Ea. apply refine_eqb_ADD, Ea.
      - apply (treeWalk_step t stack leaves ts r1); try assumption.
        left. exact D2. }
    destruct (negb r1 && parentRefines
              && (refine_eqb (refine (tree t)) REPLACE
                  && contentAvailable (heap tsv t))) eqn:El.
    + apply (G _ _) in H; [exact H|]. right.
      apply andb_prop in El. destruct El as [El1 El2].
      apply andb_prop in El1. destruct El1 as [Er Epr].
      apply andb_prop in El2. destruct El2 as [Erep _].
      split; [reflexivity|]. split; [apply refine_eqb_REPLACE, Erep|].
      split; [destruct r1; [discriminate Er | reflexivity]|].
      intros p Hp'. rewrite <- (PR p Hp'). exact Epr.
    + apply (G _ _) in H; [exact H|]. left. reflexivity.
Qed.

End TreeWalk.

(** Below a visited tile that does not refine no visited tile refines. *)
Lemma refinesDownward_nthParent tree fs ts k :
  refinesDownward tree fs ts ->
  forall t a,
    _visitedFrame (heap ts t) = frameNumber fs ->
    nthParent tree k t = Some a ->
    _refines (heap ts a) = false ->
    _refines (heap ts t) = false.
Proof.
  intros Hd. induction k as [|k IH]; intros t a Vt Ha Fa; cbn in Ha.
  - injection Ha as <-. exact Fa.
  - destruct (parent (tree t)) as [p|] eqn:Ep; [|discriminate].
    destruct (Hd t p Vt Ep) as [Vp Imp].
    apply Imp. apply (IH p a Vp Ha Fa).
Qed.

Lemma treeWalk_leaves_apart tree fs leaves ts a t :
  treeWalk tree fs [] leaves ts ->
  In a leaves -> In t leaves -> ~ properAncestor tree a t.
Proof.
  intros (_ & _ & Hd & _ & Hl & _) Ha Ht [k Hk].
  destruct (Hl a Ha) as (_ & _ & Fa & _).
  destruct (Hl t Ht) as (Vt & _ & _ & Pt).
  cbn in Hk. destruct (parent (tree t)) as [p|] eqn:Ep; [|discriminate].
  destruct (Hd t p Vt Ep) as [Vp _].
  pose proof (refinesDownward_nthParent tree fs ts k Hd p a Vp Hk Fa) as Fp.
  rewrite (Pt p eq_refl) in Fp. discriminate Fp.
Qed.

(** What a call that goes through the base traversal selects, from the
    state the traversal ends in. *)
Lemma selectTiles_treeWalk tree X fs skipT hybridT fuel ts ts' d :
  wellFormed tree (_root ts) ->
  unvisited fs ts ->
  debugFreezeFrame ts = false ->
  selectTiles tree X fs skipT hybridT fuel ts = Some (d, ts') ->
  exists leaves ts3,
    treeWalk tree fs [] leaves ts3
    /\ _selectedTiles ts'
       = filter (selectable X ts3) leaves
         ++ filter (selectable X ts3) (_desiredTiles ts3).
Proof.
  intros (Hroot & Hch & Hnd) Hu F H. apply selectTiles_cases in H.
  destruct H as [(F' & _) | [(_ & _ & C) | (_ & _ & ts1 & C & H)]].
  - rewrite F in F'. discriminate F'.
  - exists [], (resetFrame ts). split.
    + unfold treeWalk.
      split; [constructor|]. split; [intros s []|].
      split; [intros x p Vx; destruct (Hu x Vx)|].
      split; [constructor|]. split; [intros l []|].
      split; [constructor | intros x []].
    + rewrite (culled_selected _ _ C). reflexivity.
  - set (ts2 := set_skipLevelOfDetail false
                  (loadAndTouch tree fs ts1 (_root ts))) in *.
    assert (V2 : forall x, _visitedFrame (heap ts2 x)
                           = _visitedFrame (heap ts x)).
    { intros x. subst ts2.
      change (_visitedFrame (heap (loadAndTouch tree fs ts1 (_root ts)) x)
              = _visitedFrame (heap ts x)).
      rewrite loadAndTouch_visited. apply (culled_visited _ _ x C). }
    assert (D2 : _desiredTiles ts2 = []).
    { subst ts2. change (_desiredTiles (loadAndTouch tree fs ts1 (_root ts)) = []).
      rewrite loadAndTouch_desired. apply (culled_desired _ _ C). }
    assert (S2 : _selectedTiles ts2 = []).
    { subst ts2. change (_selectedTiles (loadAndTouch tree fs ts1 (_root ts)) = []).
      rewrite loadAndTouch_selected. apply (culled_selected _ _ C). }
    clearbody ts2.
    pose proof (selectBaseTraversal_result _ _ _ _ _ _ _ H)
      as (fr & leaves & ts3 & E & Sel & _).
    unfold executeBaseTraversal in E.
    pose proof (base_loop_selected _ _ _ _ _ _ _ _ _ _ _ _ E) as S3.
    rewrite S2 in S3. rewrite S3 in Sel. cbn [app] in Sel.
    exists leaves, ts3. split; [|exact Sel].
    apply (base_loop_treeWalk tree X fs Hch Hnd _ _ _ _ _ _ _ _ _ _ E).
    unfold treeWalk. rewrite D2.
    split; [repeat constructor; intros []|].
    split.
    { intros s [<- | []]. split.
      - rewrite V2. apply Hu.
      - rewrite Hroot. exact I. }
    split.
    { intros x p Vx. rewrite V2 in Vx. destruct (Hu x Vx). }
    split; [constructor|]. split; [intros l []|].
    split; [constructor | intros x []].
Qed.

(** On a well-formed tree, in a frame that is new to the tileset, no two
    REPLACE tiles a call selects lie on one path from the root: a
    selected REPLACE tile has no selected REPLACE tile above it. *)
Theorem selectTiles_replace_apart
    (tree : TileId -> Tile) (X : Externals) (fs : FrameState)
    (skipT hybridT : Tileset -> TileId -> option Tileset)
    (fuel : nat) (ts ts' : Tileset) (d : option Strategy) (a t : TileId) :
  wellFormed tree (_root ts) ->
  unvisited fs ts ->
  debugFreezeFrame ts = false ->
  selectTiles tree X fs skipT hybridT fuel ts = Some (d, ts') ->
  In a (_selectedTiles ts') -> In t (_selectedTiles ts') ->
  refine (tree a) = REPLACE -> refine (tree t) = REPLACE ->
  ~ properAncestor tree a t.
Proof.
  intros Hw Hu F H Ha Ht Ra Rt.
  destruct (selectTiles_treeWalk _ _ _ _ _ _ _ _ _ Hw Hu F H)
    as (leaves & ts3 & W & Sel).
  assert (L : forall x, In x (_selectedTiles ts') ->
                refine (tree x) = REPLACE -> In x leaves).
  { intros x Hx Rx. rewrite Sel in Hx. apply in_app_or in Hx.
    destruct Hx as [Hx | Hx]; apply filter_In in Hx; destruct Hx as [Hx _];
      [exact Hx|].
    destruct W as (_ & _ & _ & _ & _ & _ & Hde).
    destruct (Hde x Hx) as [_ Ax]. rewrite Ax in Rx. discriminate Rx. }
  exact (treeWalk_leaves_apart tree fs leaves ts3 a t W (L a Ha Ra) (L t Ht Rt)).
Qed.

(** On a well-formed tree, in a frame that is new to the tileset, a call
    selects no tile twice. *)
Theorem selectTiles_selects_once
    (tree : TileId -> Tile) (X : Externals) (fs : FrameState)
    (skipT hybridT : Tileset -> TileId -> option Tileset)
    (fuel : nat) (ts ts' : Tileset) (d : option Strategy) :
  wellFormed tree (_root ts) ->
  unvisited fs ts ->
  debugFreezeFrame ts = false ->
  selectTiles tree X fs skipT hybridT fuel ts = Some (d, ts') ->
  NoDup (_selectedTiles ts').
Proof.
  intros Hw Hu F H.
  destruct (selectTiles_treeWalk _ _ _ _ _ _ _ _ _ Hw Hu F H)
    as (leaves & ts3 & W & Sel).
  destruct W as (_ & _ & _ & Nl & Hl & Nd & Hde).
  rewrite Sel. apply NoDup_app.
  - apply NoDup_filter, Nl.
  - apply NoDup_filter, Nd.
  - intros x Hx Hy. apply filter_In in Hx. apply filter_In in Hy.
    destruct (Hl x (proj1 Hx)) as (_ & Rx & _).
    destruct (Hde x (proj1 Hy)) as [_ Ax].
    rewrite Ax in Rx. discriminate Rx.
Qed.

Lemma selectTiles_replace_apart_witness :
  exists ts',
    selectTiles Examples.twoChildren Examples.inSight Examples.view
      Examples.noSkip Examples.noSkip 3
      (Examples.tileset false 16 10 false false (fun _ => Examples.loaded))
    = Some (Some BaseTraversal, ts')
    /\ _selectedTiles ts' = [2%nat; 1%nat]
    /\ ~ properAncestor Examples.twoChildren 2%nat 1%nat.
Proof.
  eexists.
  match goal with
  | |- ?e = Some (?d, ?x) /\ _ =>
      assert (E : e = Some (d, x)) by (vm_compute; reflexivity)
  end.
  split; [exact E|]. split; [reflexivity|].
  eapply (selectTiles_replace_apart Examples.twoChildren Examples.inSight
            Examples.view Examples.noSkip Examples.noSkip 3
            (Examples.tileset false 16 10 false false
               (fun _ => Examples.loaded))).
  - split; [reflexivity|]. split.
    + intros [|p] c; cbn; [|intros []].
      intros [<- | [<- | []]]; reflexivity.
    + intros [|p]; cbn; [|constructor].
      repeat constructor; cbn; intros H;
        repeat (destruct H as [H | H]; [discriminate H|]); exact H.
  - intros t. discriminate.
  - reflexivity.
  - exact E.
  - left. reflexivity.
  - right. left. reflexivity.
  - reflexivity.
  - reflexivity.
Defined.

Lemma selectTiles_selects_once_witness :
  exists ts',
    selectTiles Examples.twoChildren Examples.inSight Examples.view
      Examples.noSkip Examples.noSkip 3
      (Examples.tileset false 16 10 false false (fun _ => Examples.loaded))
    = Some (Some BaseTraversal, ts')
    /\ NoDup (_selectedTiles ts').
Proof.
  eexists.
  match goal with
  | |- ?e = Some (?d, ?x) /\ _ =>
      assert (E : e = Some (d, x)) by (vm_compute; reflexivity)
  end.
  split; [exact E|].
  eapply (selectTiles_selects_once Examples.twoChildren Examples.inSight
            Examples.view Examples.noSkip Examples.noSkip 3
            (Examples.tileset false 16 10 false false
               (fun _ => Examples.loaded))).
  - split; [reflexivity|]. split.
    + intros [|p] c; cbn; [|intros []].
      intros [<- | [<- | []]]; reflexivity.
    + intros [|p]; cbn; [|constructor].
      repeat constructor; cbn; intros H;
        repeat (destruct H as [H | H]; [discriminate H|]); exact H.
  - intros t. discriminate.
  - reflexivity.
  - exact E.
Defined.

(** ** The skip traversal at a tile that stops it *)

Lemma visitTile_noop tree X fs ts t :
  _visitedFrame (heap ts t) = frameNumber fs -> visitTile tree X fs ts t = ts.
Proof.
  intros V. unfold visitTile. rewrite V, Z.eqb_refl. reflexivity.
Qed.

Lemma loadAndTouch_ancestor tree fs ts t x :
  _ancestorWithContentAvailable (heap (loadAndTouch tree fs ts t) x)
  = _ancestorWithContentAvailable (heap ts x).
Proof.
  rewrite loadAndTouch_heap. destruct (Nat.eqb x t) eqn:E; [|reflexivity].
  apply Nat.eqb_eq in E. subst x.
  destruct (Z.eqb _ _); [reflexivity|].
  destruct (_ || _); reflexivity.
Qed.

(** The skipping threshold looks at the configuration and at fields that
    [loadAndTouch] leaves alone. *)
Lemma reachedSkippingThreshold_loadAndTouch tree fs ts x t :
  reachedSkippingThreshold tree (loadAndTouch tree fs ts x) t
  = reachedSkippingThreshold tree ts t.
Proof.
  pose proof (loadAndTouch_configOf tree fs ts x) as C. unfold configOf in C.
  assert (E1 : skipLevelOfDetail (loadAndTouch tree fs ts x)
               = skipLevelOfDetail ts) by congruence.
  assert (E2 : immediatelyLoadDesiredLevelOfDetail (loadAndTouch tree fs ts x)
               = immediatelyLoadDesiredLevelOfDetail ts) by congruence.
  assert (E3 : skipLevels (loadAndTouch tree fs ts x) = skipLevels ts)
    by congruence.
  assert (E4 : skipScreenSpaceErrorFactor (loadAndTouch tree fs ts x)
               = skipScreenSpaceErrorFactor ts) by congruence.
  clear C. unfold reachedSkippingThreshold. rewrite E1, E2, E3, E4.
  rewrite loadAndTouch_ancestor.
  rewrite (core_contentUnloaded _ _ (loadAndTouch_core tree fs ts x t)).
  rewrite (core_screenSpaceError _ _ (loadAndTouch_core tree fs ts x t)).
  destruct (_ancestorWithContentAvailable (heap ts t)) as [a|]; [|reflexivity].
  rewrite (core_screenSpaceError _ _ (loadAndTouch_core tree fs ts x a)).
  reflexivity.
Qed.

Lemma skipTraverses_loadAndTouch tree fs ts x m t :
  skipTraverses tree (loadAndTouch tree fs ts x) m t = skipTraverses tree ts m t.
Proof.
  unfold skipTraverses.
  rewrite reachedSkippingThreshold_loadAndTouch.
  rewrite (core_screenSpaceError _ _ (loadAndTouch_core tree fs ts x t)).
  reflexivity.
Qed.

Lemma visitTile_loadSiblings tree X fs ts t :
  loadSiblings (visitTile tree X fs ts t) = loadSiblings ts.
Proof.
  pose proof (visitTile_configOf tree X fs ts t) as C. unfold configOf in C.
  congruence.
Qed.

Lemma loadAndTouch_loadSiblings tree fs ts t :
  loadSiblings (loadAndTouch tree fs ts t) = loadSiblings ts.
Proof.
  pose proof (loadAndTouch_configOf tree fs ts t) as C. unfold configOf in C.
  congruence.
Qed.

(** A REPLACE tile that does not traverse, without [loadSiblings]: it is
    loaded and touched, and pushed onto [_desiredTiles] and the queue. *)
Lemma internalSkip_visit_stops tree X fs m t stack queue ts :
  refine (tree t) = REPLACE ->
  loadSiblings ts = false ->
  skipTraverses tree (visitTile tree X fs ts t) m t = false ->
  internalSkip_visit tree X fs m t stack queue ts
  = Returns (stack, push queue t,
             set_desiredTiles
               (push (_desiredTiles
                        (loadAndTouch tree fs (visitTile tree X fs ts t) t)) t)
               (loadAndTouch tree fs (visitTile tree X fs ts t) t)).
Proof.
  intros Hr Hl Ht. unfold internalSkip_visit. rewrite Hr. cbn [refine_eqb].
  cbv zeta. unfold skipTraverses in Ht. rewrite Ht. cbn [negb andb].
  rewrite visitTile_loadSiblings, Hl. reflexivity.
Qed.

(** The state such a round leaves stops the traversal at the tile again. *)
Lemma internalSkip_visit_stops_again tree X fs m t ts :
  skipTraverses tree (visitTile tree X fs ts t) m t = false ->
  let ts1 := loadAndTouch tree fs (visitTile tree X fs ts t) t in
  let ts2 := set_desiredTiles (push (_desiredTiles ts1) t) ts1 in
  skipTraverses tree (visitTile tree X fs ts2 t) m t = false.
Proof.
  intros Ht ts1 ts2.
  assert (V : _visitedFrame (heap ts2 t) = frameNumber fs).
  { subst ts2 ts1.
    change (_visitedFrame
              (heap (loadAndTouch tree fs (visitTile tree X fs ts t) t) t)
            = frameNumber fs).
    rewrite loadAndTouch_visited. apply visitTile_visited. }
  rewrite (visitTile_noop _ _ _ _ _ V).
  change (skipTraverses tree ts2 m t) with (skipTraverses tree ts1 m t).
  subst ts1. rewrite skipTraverses_loadAndTouch. exact Ht.
Qed.

Lemma internalSkip_loop_nil tree X fs fuel m queue ts :
  internalSkip_loop tree X fs fuel m [] queue ts = Returns (queue, ts).
Proof. destruct fuel; reflexivity. Qed.

Lemma skip_loop_requeues tree X fs m t inner fuel :
  refine (tree t) = REPLACE ->
  forall ts,
    loadSiblings ts = false ->
    skipTraverses tree (visitTile tree X fs ts t) m t = false ->
    skip_loop tree X fs inner fuel m [t] [] ts = NoFuel.
Proof.
  intros Hr. induction fuel as [|fuel IH]; intros ts Hl Ht; [reflexivity|].
  cbn [skip_loop skip_level]. unfold executeInternalSkipTraversal.
  destruct inner as [|inner]; [reflexivity|].
  cbn [internalSkip_loop].
  rewrite (internalSkip_visit_stops _ _ _ _ _ _ _ _ Hr Hl Ht).
  cbn [bind]. rewrite internalSkip_loop_nil. cbn [bind].
  unfold push. cbn [app].
  apply IH.
  - change (loadSiblings
              (loadAndTouch tree fs (visitTile tree X fs ts t) t) = false).
    rewrite loadAndTouch_loadSiblings, visitTile_loadSiblings. exact Hl.
  - exact (internalSkip_visit_stops_again tree X fs m t ts Ht).
Qed.

(** [executeSkipTraversal] does not return when its queue holds a REPLACE
    tile at which the traversal stops (the tile has reached the skipping
    threshold and has no children or an error within the budget): each
    level pushes the tile onto the queue of the next, whatever the number
    of rounds allowed. *)
Theorem executeSkipTraversal_requeues
    (tree : TileId -> Tile) (X : Externals) (fs : FrameState)
    (m : Q) (t : TileId) (ts : Tileset) (fuel : nat) :
  refine (tree t) = REPLACE ->
  loadSiblings ts = false ->
  skipTraverses tree (visitTile tree X fs ts t) m t = false ->
  executeSkipTraversal tree X fs fuel ts m [t] = NoFuel.
Proof.
  intros Hr Hl Ht. unfold executeSkipTraversal.
  apply skip_loop_requeues; assumption.
Qed.

Lemma executeSkipTraversal_requeues_witness :
  executeSkipTraversal Examples.rootAndChild Examples.inSight Examples.view
    7 (Examples.tileset false 16 10 true false Examples.rootViewed) 16
    [1%nat]
  = NoFuel.
Proof.
  apply executeSkipTraversal_requeues.
  - reflexivity.
  - reflexivity.
  - vm_compute. reflexivity.
Defined.

(** ** Loading siblings *)

Lemma skipn_nth_error {A : Type} (l : list A) (i : nat) (x : A) :
  nth_error l i = Some x -> skipn i l = x :: skipn (S i) l.
Proof.
  revert i. induction l as [|y l IH]; intros [|i] H; cbn in *;
    try discriminate.
  - injection H as ->. reflexivity.
  - apply IH, H.
Qed.

(** The loop over the siblings runs [n] rounds from index [i]: it loads
    and touches the [n] entries from [i] on, and throws when they run
    out. *)
Lemma skip_siblings_spec tree fs siblings n :
  forall i ts,
    (i <= length siblings)%nat ->
    skip_siblings tree fs siblings i n ts
    = if Nat.leb (i + n) (length siblings)
      then Returns (fold_left (loadAndTouch tree fs)
                      (firstn n (skipn i siblings)) ts)
      else TypeError.
Proof.
  induction n as [|n IH]; intros i ts Hi; cbn [skip_siblings].
  - rewrite Nat.add_0_r. rewrite (proj2 (Nat.leb_le _ _) Hi). reflexivity.
  - destruct (nth_error siblings i) as [x|] eqn:E.
    + assert (Hlt : (i < length siblings)%nat)
        by (apply nth_error_Some; rewrite E; discriminate).
      rewrite IH by lia.
      replace (S i + n)%nat with (i + S n)%nat by lia.
      rewrite (skipn_nth_error _ _ _ E). reflexivity.
    + apply nth_error_None in E.
      destruct (Nat.leb (i + S n) (length siblings)) eqn:L; [|reflexivity].
      apply Nat.leb_le in L. lia.
Qed.

(** With [loadSiblings], a REPLACE tile at which the traversal stops has
    the first [children.length] children of its parent loaded and
    touched, [children] being its own children: none when it is a leaf,
    itself included, and a [TypeError] when it has more children than its
    parent. *)
Theorem internalSkip_visit_loadSiblings
    (tree : TileId -> Tile) (X : Externals) (fs : FrameState)
    (m : Q) (t p : TileId) (stack queue : list TileId) (ts : Tileset) :
  refine (tree t) = REPLACE ->
  loadSiblings ts = true ->
  parent (tree t) = Some p ->
  skipTraverses tree (visitTile tree X fs ts t) m t = false ->
  internalSkip_visit tree X fs m t stack queue ts
  = if Nat.leb (length (children (tree t))) (length (children (tree p)))
    then
      let ts1 := fold_left (loadAndTouch tree fs)
                   (firstn (length (children (tree t))) (children (tree p)))
                   (visitTile tree X fs ts t) in
      Returns (stack, push queue t,
               set_desiredTiles (push (_desiredTiles ts1) t) ts1)
    else TypeError.
Proof.
  intros Hr Hl Hp Ht. unfold internalSkip_visit. rewrite Hr. cbn [refine_eqb].
  cbv zeta. unfold skipTraverses in Ht. rewrite Ht. cbn [negb andb].
  rewrite visitTile_loadSiblings, Hl, Hp.
  rewrite skip_siblings_spec by lia. cbn [Nat.add skipn].
  destruct (Nat.leb _ _); reflexivity.
Qed.

Lemma internalSkip_visit_loadSiblings_witness :
  internalSkip_visit Examples.narrowThenWide Examples.inSight Examples.view
    16 1%nat [] [] (Examples.siblingsTileset Examples.rootViewed)
  = TypeError.
Proof.
  rewrite (internalSkip_visit_loadSiblings Examples.narrowThenWide
             Examples.inSight Examples.view 16 1%nat 0%nat [] []
             (Examples.siblingsTileset Examples.rootViewed)).
  - reflexivity.
  - reflexivity.
  - reflexivity.
  - reflexivity.
  - vm_compute. reflexivity.
Defined.

(** ** Invariants of a call that reach the statistics

    As [selectTiles_inv], for properties that the visibility pass keeps
    assignment by assignment. *)

Section SelectTilesInvariantFull.

Variable tree : TileId -> Tile.
Variable X : Externals.
Variable fs : FrameState.
Variable P : Tileset -> Prop.

Hypothesis P_updateTile :
  forall ts t, P ts -> P (snd (updateTile tree X fs ts t)).
Hypothesis P_mask :
  forall ts t (f : TileState -> Z),
    P ts -> P (assign t (fun s => set_visibilityPlaneMask (f s) s) ts).
Hypothesis P_count : forall ts, P ts -> P (countCulledWithChildrenUnion ts).
Hypothesis P_visitTile : forall ts t, P ts -> P (visitTile tree X fs ts t).
Hypothesis P_loadAndTouch : forall ts t, P ts -> P (loadAndTouch tree fs ts t).
Hypothesis P_refines :
  forall ts t v, P ts -> P (assign t (set_refines v) ts).
Hypothesis P_desired :
  forall ts t, P ts -> P (set_desiredTiles (push (_desiredTiles ts) t) ts).
Hypothesis P_selectTile : forall ts t, P ts -> P (selectTile X fs ts t).
Hypothesis P_dispatch : forall ts, P ts -> P (set_skipLevelOfDetail false ts).

Lemma selectTiles_inv_full skipT hybridT fuel ts d ts' :
  debugFreezeFrame ts = false ->
  selectTiles tree X fs skipT hybridT fuel ts = Some (d, ts') ->
  P (resetFrame ts) -> P ts'.
Proof.
  intros F H H0. revert H. unfold selectTiles. rewrite F.
  pose proof (rootVisibility_inv tree X fs P P_updateTile P_mask P_count
                (resetFrame ts) H0) as H1.
  destruct (rootVisibility tree X fs (resetFrame ts)) as [v ts1].
  cbn [snd] in H1.
  destruct v; cbn [negb]; [|intros [= _ <-]; exact H1].
  destruct (Qle_bool _ _); [intros [= _ <-]; exact H1|].
  cbn [_skipLevelOfDetail set_skipLevelOfDetail withFrame negb].
  destruct (selectBaseTraversal _ _ _ _ _ _) as [ts2|] eqn:E; [|discriminate].
  intros [= _ <-].
  apply (selectBaseTraversal_inv tree X fs P) in E; try assumption.
  - intros s t m Hs.
    apply (updateVisibility_inv tree X fs P P_updateTile P_mask P_count), Hs.
  - apply P_dispatch, P_loadAndTouch, H1.
Qed.

End SelectTilesInvariantFull.

(** ** Statistics *)

Lemma visitTile_statistics tree X fs ts t :
  visited (_statistics (visitTile tree X fs ts t))
  = if Z.eqb (_visitedFrame (heap ts t)) (frameNumber fs)
    then visited (_statistics ts)
    else (visited (_statistics ts) + 1)%Z.
Proof.
  unfold visitTile. destruct (Z.eqb _ _); [reflexivity|].
  destruct (parent (tree t)); reflexivity.
Qed.

Lemma loadAndTouch_statistics tree fs ts t :
  _statistics (loadAndTouch tree fs ts t) = _statistics ts.
Proof.
  unfold loadAndTouch, loadTile, touch.
  repeat (match goal with |- context [if ?b then _ else _] => destruct b end;
          try reflexivity).
Qed.

Lemma selectTile_statistics X fs ts t :
  _statistics (selectTile X fs ts t) = _statistics ts.
Proof.
  unfold selectTile.
  repeat (match goal with |- context [if ?b then _ else _] => destruct b end;
          try reflexivity).
Qed.

Lemma updateTile_statistics tree X fs ts t :
  _statistics (snd (updateTile tree X fs ts t)) = _statistics ts.
Proof. reflexivity. Qed.

(** What a step that visits nothing keeps. *)
Lemma visitsCounted_step fs ts s s' :
  keepsVisited fs ts s /\ (exists l, visitsCounted fs ts s l) ->
  visited (_statistics s') = visited (_statistics s) ->
  (forall t, _visitedFrame (heap s' t) = _visitedFrame (heap s t)) ->
  keepsVisited fs ts s' /\ exists l, visitsCounted fs ts s' l.
Proof.
  intros (Hk & l & C & N & I) Es Ev. split.
  - intros t Ht. rewrite Ev. apply Hk, Ht.
  - exists l. unfold visitsCounted. rewrite Es. split; [exact C|].
    split; [exact N|]. intros t. rewrite Ev. apply I.
Qed.

Lemma visitsCounted_visitTile tree X fs ts s x :
  keepsVisited fs ts s /\ (exists l, visitsCounted fs ts s l) ->
  keepsVisited fs ts (visitTile tree X fs s x)
  /\ exists l, visitsCounted fs ts (visitTile tree X fs s x) l.
Proof.
  intros (Hk & l & C & N & I).
  destruct (Z.eqb (_visitedFrame (heap s x)) (frameNumber fs)) eqn:E.
  - apply Z.eqb_eq in E. rewrite (visitTile_noop _ _ _ _ _ E).
    split; [exact Hk|]. exists l. split; [exact C|]. split; [exact N | exact I].
  - assert (Hx : ~ In x l).
    { intros Hin. apply I in Hin. destruct Hin as [_ V].
      rewrite V, Z.eqb_refl in E. discriminate E. }
    split.
    + intros t Ht. rewrite visitTile_visited_eq.
      destruct (Nat.eqb t x); [reflexivity | apply Hk, Ht].
    + exists (l ++ [x]). unfold visitsCounted.
      rewrite visitTile_statistics, E.
      split; [|split].
      * rewrite C, length_app. cbn [length]. lia.
      * apply NoDup_app; [exact N | repeat constructor; intros [] |].
        intros t Ht [<- | []]. exact (Hx Ht).
      * intros t. rewrite visitTile_visited_eq. split.
        -- intros Ht. apply in_app_or in Ht. destruct Ht as [Ht | [<- | []]].
           ++ apply I in Ht. destruct Ht as [V0 V1]. split; [exact V0|].
              destruct (Nat.eqb t x); [reflexivity | exact V1].
           ++ rewrite Nat.eqb_refl. split; [|reflexivity].
              intros V. apply Hk in V. rewrite V, Z.eqb_refl in E.
              discriminate E.
        -- intros [V0 V1]. apply in_or_app.
           destruct (Nat.eqb t x) eqn:Et.
           ++ right. left. symmetry. apply Nat.eqb_eq, Et.
           ++ left. apply I. split; assumption.
Qed.

(** A call adds to [statistics.visited] the number of tiles it visits for
    the first time in the frame: the counter grows by the length of a
    list without duplicates that holds exactly the tiles whose
    [_visitedFrame] the call brought to the frame number. *)
Theorem selectTiles_counts_visits
    (tree : TileId -> Tile) (X : Externals) (fs : FrameState)
    (skipT hybridT : Tileset -> TileId -> option Tileset)
    (fuel : nat) (ts ts' : Tileset) (d : option Strategy) :
  selectTiles tree X fs skipT hybridT fuel ts = Some (d, ts') ->
  exists l, visitsCounted fs ts ts' l.
Proof.
  intros H.
  assert (H0 : keepsVisited fs ts ts /\ exists l, visitsCounted fs ts ts l).
  { split; [intros t Ht; exact Ht|]. exists []. split; [cbn; lia|].
    split; [constructor|].
    intros t. split; [intros [] | intros [A B]; exact (A B)]. }
  destruct (debugFreezeFrame ts) eqn:F.
  - rewrite (selectTiles_frozen _ _ _ _ _ _ _ _ _ F H). exact (proj2 H0).
  - set (P := fun s => keepsVisited fs ts s
                       /\ exists l, visitsCounted fs ts s l).
    assert (G : P ts'); [|exact (proj2 G)].
    apply (selectTiles_inv_full tree X fs P) with (skipT := skipT)
      (hybridT := hybridT) (fuel := fuel) (ts := ts) (d := d);
      subst P; cbv beta; [| | | | | | | | | exact F | exact H |].
    + intros s t Hs. apply (visitsCounted_step _ _ _ _ Hs).
      * reflexivity.
      * intros x. apply culled_visited, updateTile_culled.
    + intros s t f Hs. apply (visitsCounted_step _ _ _ _ Hs).
      * reflexivity.
      * intros x. rewrite heap_assign.
        destruct (Nat.eqb x t) eqn:E; [|reflexivity].
        apply Nat.eqb_eq in E. subst x. reflexivity.
    + intros s Hs. apply (visitsCounted_step _ _ _ _ Hs); reflexivity.
    + intros s t Hs. apply visitsCounted_visitTile, Hs.
    + intros s t Hs. apply (visitsCounted_step _ _ _ _ Hs).
      * rewrite loadAndTouch_statistics. reflexivity.
      * intros x. apply loadAndTouch_visited.
    + intros s t v Hs. apply (visitsCounted_step _ _ _ _ Hs).
      * reflexivity.
      * intros x. apply assign_refines_visited.
    + intros s t Hs. apply (visitsCounted_step _ _ _ _ Hs); reflexivity.
    + intros s t Hs. apply (visitsCounted_step _ _ _ _ Hs).
      * rewrite selectTile_statistics. reflexivity.
      * intros x. apply selectTile_visited.
    + intros s Hs. apply (visitsCounted_step _ _ _ _ Hs); reflexivity.
    + apply (visitsCounted_step _ _ _ _ H0); reflexivity.
Qed.

Lemma selectTiles_counts_visits_witness :
  exists ts',
    selectTiles Examples.twoChildren Examples.inSight Examples.view
      Examples.noSkip Examples.noSkip 3
      (Examples.tileset false 16 10 false false (fun _ => Examples.loaded))
    = Some (Some BaseTraversal, ts')
    /\ visited (_statistics ts') = 3%Z
    /\ exists l,
         visitsCounted Examples.view
           (Examples.tileset false 16 10 false false
              (fun _ => Examples.loaded)) ts' l.
Proof.
  eexists.
  match goal with
  | |- ?e = Some (?d, ?x) /\ _ =>
      assert (E : e = Some (d, x)) by (vm_compute; reflexivity)
  end.
  split; [exact E|]. split; [reflexivity|].
  exact (selectTiles_counts_visits Examples.twoChildren Examples.inSight
           Examples.view Examples.noSkip Examples.noSkip 3
           (Examples.tileset false 16 10 false false
              (fun _ => Examples.loaded)) _ _ E).
Defined.

(** ** Refinement without holes *)

Lemma selectTile_refines X fs ts t x :
  _refines (heap (selectTile X fs ts t) x) = _refines (heap ts x).
Proof.
  rewrite selectTile_heap. destruct (Nat.eqb x t) eqn:E; [|reflexivity].
  apply Nat.eqb_eq in E. subst x.
  destruct (contentAvailable (heap ts t) && _); [|reflexivity].
  destruct (featurePropertiesDirty _); reflexivity.
Qed.

Lemma refinesWhole_step tree fs s s' :
  refinesWhole tree fs s ->
  (forall x, _visitedFrame (heap s' x) = _visitedFrame (heap s x)) ->
  (forall x, _refines (heap s' x) = _refines (heap s x)) ->
  (forall x, contentAvailable (heap s' x) = contentAvailable (heap s x)) ->
  refinesWhole tree fs s'.
Proof.
  intros H Ev Er Ea t c. rewrite Ev, Er, Ea. apply H.
Qed.

Section RefinesWhole.

Variable tree : TileId -> Tile.
Variable X : Externals.
Variable fs : FrameState.
Hypothesis X_noExpiry : noExpiry X.

Lemma base_children_contentAvailable
    inner m replace add cs refines stack ts r ts' x :
  base_children tree X fs inner m replace add cs refines stack ts = Some (r, ts')
  -> contentAvailable (heap ts' x) = contentAvailable (heap ts x).
Proof.
  intros H.
  apply (base_children_inv tree X fs
           (fun s => contentAvailable (heap s x) = contentAvailable (heap ts x)))
    in H; [exact H | | | reflexivity].
  - intros s t m' Hs. rewrite updateVisibility_contentAvailable. exact Hs.
  - intros s t Hs. rewrite loadAndTouch_contentAvailable. exact Hs.
Qed.

(** A REPLACE tile left refining by the child loop has content available
    in every child that carries content of its own. *)
Lemma base_children_whole inner m add cs refines stack ts stack' ts' c :
  base_children tree X fs inner m true add cs refines stack ts
    = Some (true, stack', ts') ->
  In c cs -> isProxy tree c = false ->
  contentAvailable (heap ts' c) = true.
Proof.
  intros H Hc Hp.
  rewrite (base_children_contentAvailable _ _ _ _ _ _ _ _ _ _ c H).
  destruct (contentAvailable (heap ts c)) eqn:A; [reflexivity|].
  pose proof (base_children_blocked tree X fs inner m add cs c Hc Hp
                refines stack ts true stack' ts' A H) as F.
  discriminate F.
Qed.

Lemma base_loop_whole inner fuel m :
  forall stack leaves fr ts fr' leaves' ts',
    base_loop tree X fs inner fuel m stack leaves fr ts
      = Some (fr', leaves', ts') ->
    refinesWhole tree fs ts -> refinesWhole tree fs ts'.
Proof.
  induction fuel as [|fuel IH];
    intros stack leaves fr ts fr' leaves' ts'; destruct stack as [|t stack].
  - cbn. intros [= _ _ <-]. auto.
  - discriminate.
  - cbn. intros [= _ _ <-]. auto.
  - rewrite base_loop_cons. cbv zeta. intros H W.
    assert (Vv := visitTile_visited_eq tree X fs ts t).
    assert (Vr := visitTile_refines tree X fs ts t).
    assert (Va : forall x, contentAvailable (heap (visitTile tree X fs ts t) x)
                           = contentAvailable (heap ts x)).
    { intros x. apply core_contentAvailable, visitTile_core, X_noExpiry. }
    set (tsv := visitTile tree X fs ts t) in *. clearbody tsv.
    set (traverse := negb (Nat.eqb (length (children (tree t))) 0)
                     && Qgtb (_screenSpaceError (heap tsv t)) m) in *.
    set (parentRefines := match parent (tree t) with
                          | Some p => _refines (heap tsv p)
                          | None => true
                          end) in *.
    clearbody parentRefines.
    destruct (if traverse
              then base_children tree X fs inner m
                     (refine_eqb (refine (tree t)) REPLACE)
                     (refine_eqb (refine (tree t)) ADD)
                     (children (tree t)) (traverse && parentRefines) stack tsv
              else Some (traverse && parentRefines, stack, tsv))
      as [[[r1 stack1] ts1]|] eqn:E; [|discriminate].
    assert (K : (forall x, _visitedFrame (heap ts1 x)
                           = _visitedFrame (heap tsv x))
                /\ (forall x, _refines (heap ts1 x) = _refines (heap tsv x))
                /\ (forall x, contentAvailable (heap ts1 x)
                              = contentAvailable (heap tsv x))
                /\ (r1 = true -> refine (tree t) = REPLACE ->
                    forall c, In c (children (tree t)) ->
                      isProxy tree c = false ->
                      contentAvailable (heap ts1 c) = true)).
    { destruct traverse.
      - split; [|split; [|split]].
        + intros x. exact (base_children_visited _ _ _ _ _ _ _ _ _ _ _ _ _ x E).
        + intros x. exact (base_children_refines _ _ _ _ _ _ _ _ _ _ _ _ _ x E).
        + intros x.
          exact (base_children_contentAvailable _ _ _ _ _ _ _ _ _ _ x E).
        + intros -> Hr c Hc Hp. rewrite Hr in E. cbn [refine_eqb] in E.
          exact (base_children_whole _ _ _ _ _ _ _ _ _ c E Hc Hp).
      - injection E as <- <- <-. cbn [andb].
        repeat split; auto. discriminate. }
    destruct K as (Kv & Kr & Ka & Kw).
    assert (W3 : forall ts3,
              (forall x, heap ts3 x
                         = heap (assign t (set_refines r1) ts1) x) ->
              refinesWhole tree fs ts3).
    { intros ts3 E3 t' c. rewrite !E3, !heap_assign.
      destruct (Nat.eqb t' t) eqn:Et.
      - apply Nat.eqb_eq in Et. subst t'. cbn [_refines set_refines].
        intros _ Hr -> Hc Hp.
        assert (A : contentAvailable (heap ts1 c) = true)
          by (apply Kw; auto).
        destruct (Nat.eqb c t) eqn:Ec; [|exact A].
        apply Nat.eqb_eq in Ec. subst c. exact A.
      - intros Vt' Rt' Ft' Hc Hp. rewrite Kv, Vv, Et in Vt'.
        rewrite Kr, Vr in Ft'.
        pose proof (W t' c Vt' Rt' Ft' Hc Hp) as A.
        rewrite <- Va, <- Ka in A.
        destruct (Nat.eqb c t) eqn:Ec; [|exact A].
        apply Nat.eqb_eq in Ec. subst c. exact A. }
    assert (G : forall leaves1 fr1,
              base_loop tree X fs inner fuel m stack1 leaves1 fr1
                (if refine_eqb (refine (tree t)) ADD
                    && contentAvailable
                         (heap (assign t (set_refines r1) ts1) t)
                 then set_desiredTiles
                        (push (_desiredTiles (assign t (set_refines r1) ts1)) t)
                        (assign t (set_refines r1) ts1)
                 else assign t (set_refines r1) ts1)
                = Some (fr', leaves', ts') ->
              refinesWhole tree fs ts').
    { intros leaves1 fr1 H1. apply (IH _ _ _ _ _ _ _ H1).
      apply W3. intros x.
      destruct (refine_eqb (refine (tree t)) ADD
                && contentAvailable (heap (assign t (set_refines r1) ts1) t));
        reflexivity. }
    destruct (negb r1 && parentRefines && _); exact (G _ _ H).
Qed.

End RefinesWhole.

(** With content that does not expire, in a frame that has not visited
    any tile yet, a call leaves no REPLACE tile refining over a hole:
    every tile it visited that refines by REPLACE and is marked as
    refining has content available in each child that carries content of
    its own. *)
Theorem selectTiles_refines_whole
    (tree : TileId -> Tile) (X : Externals) (fs : FrameState)
    (skipT hybridT : Tileset -> TileId -> option Tileset)
    (fuel : nat) (ts ts' : Tileset) (d : option Strategy) :
  noExpiry X ->
  unvisited fs ts ->
  debugFreezeFrame ts = false ->
  selectTiles tree X fs skipT hybridT fuel ts = Some (d, ts') ->
  refinesWhole tree fs ts'.
Proof.
  intros HX Hu F H. apply selectTiles_cases in H.
  destruct H as [(F' & _) | [(_ & _ & C) | (_ & _ & ts1 & C & H)]].
  - rewrite F in F'. discriminate F'.
  - intros t c Vt. rewrite (culled_visited _ _ t C) in Vt.
    destruct (Hu t Vt).
  - set (ts2 := set_skipLevelOfDetail false
                  (loadAndTouch tree fs ts1 (_root ts))) in *.
    assert (W2 : refinesWhole tree fs ts2).
    { intros t c Vt. subst ts2.
      change (_visitedFrame (heap (loadAndTouch tree fs ts1 (_root ts)) t)
              = frameNumber fs) in Vt.
      rewrite loadAndTouch_visited, (culled_visited _ _ t C) in Vt.
      destruct (Hu t Vt). }
    clearbody ts2.
    unfold selectBaseTraversal, executeBaseTraversal in H.
    destruct (base_loop _ _ _ _ _ _ _ _ _ _) as [[[fr leaves] ts3]|] eqn:E;
      [|discriminate].
    injection H as <-.
    apply (base_loop_whole tree X fs HX) in E; [|exact W2].
    apply (fold_selectTile_inv X fs (refinesWhole tree fs)).
    + intros s x Hs. apply (refinesWhole_step _ _ _ _ Hs); intros y.
      * apply selectTile_visited.
      * apply selectTile_refines.
      * apply selectTile_contentAvailable.
    + apply (fold_selectTile_inv X fs (refinesWhole tree fs)); [|exact E].
      intros s x Hs. apply (refinesWhole_step _ _ _ _ Hs); intros y.
      * apply selectTile_visited.
      * apply selectTile_refines.
      * apply selectTile_contentAvailable.
Qed.

Lemma selectTiles_refines_whole_witness :
  exists ts',
    selectTiles Examples.twoChildren Examples.inSight Examples.view
      Examples.noSkip Examples.noSkip 3
      (Examples.tileset false 16 10 false false (fun _ => Examples.loaded))
    = Some (Some BaseTraversal, ts')
    /\ _refines (heap ts' 0%nat) = true
    /\ refinesWhole Examples.twoChildren Examples.view ts'.
Proof.
  eexists.
  match goal with
  | |- ?e = Some (?d, ?x) /\ _ =>
      assert (E : e = Some (d, x)) by (vm_compute; reflexivity)
  end.
  split; [exact E|]. split; [reflexivity|].
  eapply (selectTiles_refines_whole Examples.twoChildren Examples.inSight
            Examples.view Examples.noSkip Examples.noSkip 3
            (Examples.tileset false 16 10 false false
               (fun _ => Examples.loaded))).
  - intros t flags. reflexivity.
  - intros t. discriminate.
  - reflexivity.
  - exact E.
Defined.

(** ** What a frame has settled *)

Lemma keepsStable_refl tree fs ts : keepsStable tree fs ts ts.
Proof. intros y Hy. auto. Qed.

Lemma keepsStable_trans tree fs a b c :
  keepsStable tree fs a b -> keepsStable tree fs b c ->
  keepsStable tree fs a c.
Proof.
  intros Hab Hbc y Hy.
  destruct (Hab y Hy) as (Sb & Cb & Tb).
  destruct (Hbc y Sb) as (Sc & Cc & Tc).
  split; [exact Sc|]. split; [congruence | auto].
Qed.

(** A step that assigns no [core] field and keeps the touch stamps of the
    frame keeps what is stable. *)
Lemma keepsStable_same tree fs s s' :
  (forall y, core (heap s' y) = core (heap s y)) ->
  keepsTouched fs s s' ->
  keepsStable tree fs s s'.
Proof.
  intros Hc Ht y [Hp Hs]. split; [split|split].
  - unfold parentTouched in *.
    destruct (parent (tree y)); [apply Ht, Hp | exact I].
  - destruct Hs as [T | M]; [left; apply Ht, T|].
    right. rewrite (core_mask _ _ (Hc y)). exact M.
  - apply Hc.
  - apply Ht.
Qed.

Lemma keepsTouched_refl fs ts : keepsTouched fs ts ts.
Proof. intros t Ht. exact Ht. Qed.

Lemma keepsStable_visitTile tree X fs s t :
  noExpiry X -> keepsStable tree fs s (visitTile tree X fs s t).
Proof.
  intros HX. apply keepsStable_same.
  - intros y. apply visitTile_core, HX.
  - apply keepsTouched_visitTile, keepsTouched_refl.
Qed.

Lemma keepsStable_loadAndTouch tree fs s t :
  keepsStable tree fs s (loadAndTouch tree fs s t).
Proof.
  apply keepsStable_same.
  - intros y. apply loadAndTouch_core.
  - apply keepsTouched_loadAndTouch, keepsTouched_refl.
Qed.

Lemma keepsStable_refines tree fs s t v :
  keepsStable tree fs s (assign t (set_refines v) s).
Proof.
  apply keepsStable_same.
  - intros y. rewrite heap_assign. destruct (Nat.eqb y t) eqn:E; [|reflexivity].
    apply Nat.eqb_eq in E. subst y. reflexivity.
  - apply keepsTouched_refines, keepsTouched_refl.
Qed.

Lemma keepsStable_selectTile tree X fs s t :
  keepsStable tree fs s (selectTile X fs s t).
Proof.
  apply keepsStable_same.
  - intros y. apply selectTile_core.
  - apply keepsTouched_selectTile, keepsTouched_refl.
Qed.

(** The visibility pass leaves a stable tile as it is. *)
Lemma updateVisibility_stable_heap tree X fs s x m y :
  childrenPointBack tree -> stable tree fs s y ->
  heap (snd (updateVisibility tree X fs s x m)) y = heap s y.
Proof.
  intros Hc [Hp Hs].
  destruct (Z.eqb (_touchedFrame (heap s x)) (frameNumber fs)) eqn:Tx.
  - unfold updateVisibility. rewrite Tx. reflexivity.
  - assert (Hy : ~ In y (children (tree x))).
    { intros Hin. unfold parentTouched in Hp. rewrite (Hc x y Hin) in Hp.
      rewrite Hp, Z.eqb_refl in Tx. discriminate Tx. }
    rewrite (updateVisibility_heap_other tree X fs s x m y Hy).
    destruct (Nat.eqb y x) eqn:E; [|reflexivity].
    apply Nat.eqb_eq in E. subst y.
    destruct Hs as [T | M]; [rewrite T, Z.eqb_refl in Tx; discriminate Tx|].
    assert (M' : _visibilityPlaneMask
                   (heap (snd (updateVisibility tree X fs s x m)) x)
                 = MASK_OUTSIDE).
    { unfold updateVisibility. rewrite Tx. unfold getVisibility. rewrite M.
      cbn. rewrite heap_assign_same. reflexivity. }
    rewrite M'. rewrite <- M. destruct (heap s x); reflexivity.
Qed.

Lemma keepsStable_updateVisibility tree X fs s x m :
  childrenPointBack tree ->
  keepsStable tree fs s (snd (updateVisibility tree X fs s x m)).
Proof.
  intros Hc y Hy.
  pose proof (updateVisibility_stable_heap tree X fs s x m y Hc Hy) as E.
  pose proof (updateVisibility_culled tree X fs s x m) as C.
  split; [split|split].
  - destruct Hy as [Hp _]. unfold parentTouched in *.
    destruct (parent (tree y)) as [p|]; [|exact I].
    rewrite (culled_touched _ _ p C). exact Hp.
  - rewrite E. apply Hy.
  - rewrite E. reflexivity.
  - rewrite E. auto.
Qed.

(** On a stable tile [updateVisibility] reads the mask. *)
Lemma updateVisibility_stable_fst tree X fs s c m :
  stable tree fs s c ->
  fst (updateVisibility tree X fs s c m) = maskVisible (heap s c).
Proof.
  intros [_ Hs]. unfold updateVisibility, maskVisible.
  destruct (Z.eqb (_touchedFrame (heap s c)) (frameNumber fs)) eqn:Tc;
    [reflexivity|].
  destruct Hs as [T | M]; [rewrite T, Z.eqb_refl in Tc; discriminate Tc|].
  unfold getVisibility. rewrite M. cbn. rewrite heap_assign_same.
  reflexivity.
Qed.

Section StableFrame.

Variable tree : TileId -> Tile.
Variable X : Externals.
Variable fs : FrameState.
Hypothesis X_noExpiry : noExpiry X.
Hypothesis tree_children : childrenPointBack tree.

Lemma internalBase_children_keepsStable m cs stack s :
  keepsStable tree fs s (snd (internalBase_children tree X fs m cs stack s)).
Proof.
  apply (internalBase_children_inv tree X fs (keepsStable tree fs s)).
  - intros a t m' Ha.
    exact (keepsStable_trans _ _ _ _ _ Ha
             (keepsStable_updateVisibility tree X fs a t m' tree_children)).
  - intros a t Ha.
    exact (keepsStable_trans _ _ _ _ _ Ha (keepsStable_loadAndTouch tree fs a t)).
  - apply keepsStable_refl.
Qed.

Lemma internalBase_loop_keepsStable fuel m stack all s r s' :
  internalBase_loop tree X fs fuel m stack all s = Some (r, s') ->
  keepsStable tree fs s s'.
Proof.
  intros H.
  apply (internalBase_loop_inv tree X fs (keepsStable tree fs s)) in H;
    [exact H | | | apply keepsStable_refl].
  - intros a t m' Ha.
    exact (keepsStable_trans _ _ _ _ _ Ha
             (keepsStable_updateVisibility tree X fs a t m' tree_children)).
  - intros a t Ha.
    exact (keepsStable_trans _ _ _ _ _ Ha (keepsStable_loadAndTouch tree fs a t)).
Qed.

Lemma base_children_keepsStable inner m replace add cs refines stack s r s' :
  base_children tree X fs inner m replace add cs refines stack s = Some (r, s')
  -> keepsStable tree fs s s'.
Proof.
  intros H.
  apply (base_children_inv tree X fs (keepsStable tree fs s)) in H;
    [exact H | | | apply keepsStable_refl].
  - intros a t m' Ha.
    exact (keepsStable_trans _ _ _ _ _ Ha
             (keepsStable_updateVisibility tree X fs a t m' tree_children)).
  - intros a t Ha.
    exact (keepsStable_trans _ _ _ _ _ Ha (keepsStable_loadAndTouch tree fs a t)).
Qed.

Lemma base_loop_keepsStable inner fuel m stack leaves fr s r s' :
  base_loop tree X fs inner fuel m stack leaves fr s = Some (r, s') ->
  keepsStable tree fs s s'.
Proof.
  intros H.
  apply (base_loop_inv tree X fs (keepsStable tree fs s)) in H;
    [exact H | | | | | | apply keepsStable_refl].
  - intros a t Ha.
    exact (keepsStable_trans _ _ _ _ _ Ha
             (keepsStable_visitTile tree X fs a t X_noExpiry)).
  - intros a t m' Ha.
    exact (keepsStable_trans _ _ _ _ _ Ha
             (keepsStable_updateVisibility tree X fs a t m' tree_children)).
  - intros a t Ha.
    exact (keepsStable_trans _ _ _ _ _ Ha (keepsStable_loadAndTouch tree fs a t)).
  - intros a t v Ha.
    exact (keepsStable_trans _ _ _ _ _ Ha (keepsStable_refines tree fs a t v)).
  - intros a t Ha. exact Ha.
Qed.

Lemma fold_selectTile_keepsStable l s :
  keepsStable tree fs s (fold_left (selectTile X fs) l s).
Proof.
  apply (fold_selectTile_inv X fs (keepsStable tree fs s)).
  - intros a t Ha.
    exact (keepsStable_trans _ _ _ _ _ Ha (keepsStable_selectTile tree X fs a t)).
  - apply keepsStable_refl.
Qed.

(** Touch stamps through the loops. *)
Lemma internalBase_children_keepsTouched m cs stack s :
  keepsTouched fs s (snd (internalBase_children tree X fs m cs stack s)).
Proof.
  apply (internalBase_children_inv tree X fs (keepsTouched fs s)).
  - intros a t m' Ha.
    exact (keepsTouched_culled _ _ _ _
             (updateVisibility_culled tree X fs a t m') Ha).
  - intros a t Ha. apply keepsTouched_loadAndTouch, Ha.
  - apply keepsTouched_refl.
Qed.

Lemma internalBase_loop_keepsTouched fuel m stack all s r s' :
  internalBase_loop tree X fs fuel m stack all s = Some (r, s') ->
  keepsTouched fs s s'.
Proof.
  intros H.
  apply (internalBase_loop_inv tree X fs (keepsTouched fs s)) in H;
    [exact H | | | apply keepsTouched_refl].
  - intros a t m' Ha.
    exact (keepsTouched_culled _ _ _ _
             (updateVisibility_culled tree X fs a t m') Ha).
  - intros a t Ha. apply keepsTouched_loadAndTouch, Ha.
Qed.

Lemma base_children_keepsTouched inner m replace add cs refines stack s r s' :
  base_children tree X fs inner m replace add cs refines stack s = Some (r, s')
  -> keepsTouched fs s s'.
Proof.
  intros H.
  apply (base_children_inv tree X fs (keepsTouched fs s)) in H;
    [exact H | | | apply keepsTouched_refl].
  - intros a t m' Ha.
    exact (keepsTouched_culled _ _ _ _
             (updateVisibility_culled tree X fs a t m') Ha).
  - intros a t Ha. apply keepsTouched_loadAndTouch, Ha.
Qed.

End StableFrame.

Lemma parentTouched_keeps tree fs s s' y :
  keepsTouched fs s s' -> parentTouched tree fs s y ->
  parentTouched tree fs s' y.
Proof.
  intros K H. unfold parentTouched in *.
  destruct (parent (tree y)); [apply K, H | exact I].
Qed.

(** ** A second call in the same frame *)

Lemma reached_stable tree fs s y : reached tree fs s y -> stable tree fs s y.
Proof. intros [T P]. split; [exact P | left; exact T]. Qed.

Lemma reached_keeps tree fs s s' y :
  keepsTouched fs s s' -> reached tree fs s y -> reached tree fs s' y.
Proof.
  intros K [T P]. split; [apply K, T | exact (parentTouched_keeps _ _ _ _ _ K P)].
Qed.

Lemma keepsTouched_trans fs a b c :
  keepsTouched fs a b -> keepsTouched fs b c -> keepsTouched fs a c.
Proof. intros Hab Hbc t Ht. apply Hbc, Hab, Ht. Qed.

Lemma quiet_refl ts : quiet ts ts.
Proof. split; reflexivity. Qed.

Lemma quiet_trans a b c : quiet a b -> quiet b c -> quiet a c.
Proof. intros [R1 C1] [R2 C2]. split; congruence. Qed.

Lemma quiet_culled ts ts' : culled ts ts' -> quiet ts ts'.
Proof.
  intros C. split; [apply culled_requested, C | apply culled_cache, C].
Qed.

Lemma quiet_visitTile tree X fs ts t : quiet ts (visitTile tree X fs ts t).
Proof. split; [apply visitTile_requested' | apply visitTile_cache]. Qed.

(** [loadTile] and [touch] do nothing on a tile that is touched. *)
Lemma quiet_loadAndTouch tree fs ts t :
  _touchedFrame (heap ts t) = frameNumber fs ->
  quiet ts (loadAndTouch tree fs ts t).
Proof.
  intros T. split.
  - rewrite loadAndTouch_requested, T, Z.eqb_refl. reflexivity.
  - rewrite loadAndTouch_cache, T, Z.eqb_refl. reflexivity.
Qed.

Lemma internalBase_children_quiet tree X fs m cs :
  forall stack s,
    (forall c, In c cs -> _touchedFrame (heap s c) = frameNumber fs) ->
    quiet s (snd (internalBase_children tree X fs m cs stack s)).
Proof.
  induction cs as [|c cs IH]; intros stack s Hc; cbn.
  - apply quiet_refl.
  - pose proof (updateVisibility_culled tree X fs s c m) as C.
    destruct (updateVisibility tree X fs s c m) as [v s1]. cbn [snd] in C.
    assert (T1 : _touchedFrame (heap s1 c) = frameNumber fs).
    { rewrite (culled_touched _ _ c C). apply Hc. left. reflexivity. }
    apply (quiet_trans _ _ _ (quiet_culled _ _ C)).
    apply (quiet_trans _ _ _ (quiet_loadAndTouch tree fs s1 c T1)).
    apply IH. intros c' Hc'. rewrite loadAndTouch_touched.
    destruct (Nat.eqb c' c); [reflexivity|].
    rewrite (culled_touched _ _ c' C). apply Hc. right. exact Hc'.
Qed.

Section Replay.

Variable tree : TileId -> Tile.
Variable X : Externals.
Variable fs : FrameState.
Hypothesis X_noExpiry : noExpiry X.
Hypothesis tree_children : childrenPointBack tree.

(** After [updateVisibility] and the [loadTile]/[touch] that follows a
    visible result, a child of a touched parent is stable, and its mask
    tells what [updateVisibility] returned. *)
Lemma updateVisibility_reaches s c m b :
  parentTouched tree fs s c ->
  (fst (updateVisibility tree X fs s c m) = true -> b = true) ->
  stable tree fs
    (if b then loadAndTouch tree fs (snd (updateVisibility tree X fs s c m)) c
     else snd (updateVisibility tree X fs s c m)) c
  /\ maskVisible
       (heap (if b
              then loadAndTouch tree fs
                     (snd (updateVisibility tree X fs s c m)) c
              else snd (updateVisibility tree X fs s c m)) c)
     = fst (updateVisibility tree X fs s c m)
  /\ (b = true ->
      reached tree fs
        (loadAndTouch tree fs (snd (updateVisibility tree X fs s c m)) c) c).
Proof.
  intros Hp Hb.
  pose proof (updateVisibility_mask tree X fs s c m) as Hm.
  pose proof (updateVisibility_culled tree X fs s c m) as C.
  set (s1 := snd (updateVisibility tree X fs s c m)) in *.
  assert (Hp1 : parentTouched tree fs s1 c).
  { apply (parentTouched_keeps tree fs s s1 c); [|exact Hp].
    apply (keepsTouched_culled _ _ _ _ C), keepsTouched_refl. }
  assert (R : reached tree fs (loadAndTouch tree fs s1 c) c).
  { split.
    - rewrite loadAndTouch_touched, Nat.eqb_refl. reflexivity.
    - apply (parentTouched_keeps tree fs s1 _ c); [|exact Hp1].
      apply keepsTouched_loadAndTouch, keepsTouched_refl. }
  split; [|split; [|intros _; exact R]].
  - destruct b; [apply reached_stable, R|].
    split; [exact Hp1|]. right.
    destruct (fst (updateVisibility tree X fs s c m)) eqn:V;
      [specialize (Hb eq_refl); discriminate Hb|].
    symmetry in Hm. apply negb_false_iff, Z.eqb_eq in Hm. exact Hm.
  - rewrite Hm. unfold maskVisible. destruct b; [|reflexivity].
    rewrite (core_mask _ _ (loadAndTouch_core tree fs s1 c c)). reflexivity.
Qed.

Lemma internalBase_children_reached m cs :
  forall stack s,
    (forall c, In c cs -> parentTouched tree fs s c) ->
    (forall x, In x stack -> reached tree fs s x) ->
    forall x,
      In x (fst (internalBase_children tree X fs m cs stack s)) ->
      reached tree fs (snd (internalBase_children tree X fs m cs stack s)) x.
Proof.
  induction cs as [|c cs IH]; intros stack s Hp Hs x; cbn.
  - apply Hs.
  - pose proof (updateVisibility_culled tree X fs s c m) as C.
    destruct (updateVisibility tree X fs s c m) as [v s1]. cbn [snd] in C.
    assert (K : keepsTouched fs s (loadAndTouch tree fs s1 c)).
    { apply keepsTouched_loadAndTouch.
      apply (keepsTouched_culled _ _ _ _ C), keepsTouched_refl. }
    apply IH.
    + intros c' Hc'.
      apply (parentTouched_keeps _ _ _ _ _ K), Hp. right. exact Hc'.
    + intros y [<- | Hy].
      * split.
        -- rewrite loadAndTouch_touched, Nat.eqb_refl. reflexivity.
        -- apply (parentTouched_keeps _ _ _ _ _ K), Hp. left. reflexivity.
      * apply (reached_keeps _ _ _ _ _ K), Hs, Hy.
Qed.

(** The internal traversal takes the same course in a state that has
    what the first run left stable. *)
Lemma internalBase_loop_replay fuel m :
  forall stack all s1 r s1e s2,
    internalBase_loop tree X fs fuel m stack all s1 = Some (r, s1e) ->
    (forall x, In x stack -> reached tree fs s1 x) ->
    keepsStable tree fs s1e s2 ->
    exists s2e,
      internalBase_loop tree X fs fuel m stack all s2 = Some (r, s2e)
      /\ quiet s2 s2e.
Proof.
  induction fuel as [|fuel IH]; intros stack all s1 r s1e s2 H Hs K;
    destruct stack as [|x stack].
  - cbn in *. injection H as <- _. eexists; split; [reflexivity|].
    apply quiet_refl.
  - discriminate.
  - cbn in *. injection H as <- _. eexists; split; [reflexivity|].
    apply quiet_refl.
  - pose proof (internalBase_loop_keepsStable tree X fs tree_children
                  _ _ _ _ _ _ _ H) as Fr.
    assert (Cx : core (heap s2 x) = core (heap s1 x)).
    { destruct (keepsStable_trans _ _ _ _ _ Fr K x
                  (reached_stable _ _ _ _ (Hs x (or_introl eq_refl))))
        as (_ & Cx & _).
      exact Cx. }
    cbn [internalBase_loop] in H |- *.
    rewrite (core_screenSpaceError _ _ Cx), (core_contentAvailable _ _ Cx).
    set (traverse := (hasEmptyContent (tree x) || hasTilesetContent (tree x))
                     && negb (Nat.eqb (length (children (tree x))) 0)
                     && Qgtb (_screenSpaceError (heap s1 x)) m) in *.
    destruct traverse.
    + pose proof (internalBase_children_stack tree X fs m (children (tree x))
                    stack s1) as St1.
      pose proof (internalBase_children_stack tree X fs m (children (tree x))
                    stack s2) as St2.
      pose proof (internalBase_children_reached m (children (tree x))
                    stack s1) as Re1.
      pose proof (internalBase_children_keepsStable tree X fs tree_children
                    m (children (tree x)) stack s2) as Fr2.
      destruct (internalBase_children tree X fs m (children (tree x)) stack s1)
        as [stack1 s1'].
      destruct (internalBase_children tree X fs m (children (tree x)) stack s2)
        as [stack2 s2'] eqn:E2.
      pose proof (internalBase_children_quiet tree X fs m (children (tree x))
                    stack s2) as Q2.
      rewrite E2 in Q2.
      cbn [fst snd] in *. subst stack1 stack2.
      assert (Re1' : forall y, In y (rev (children (tree x)) ++ stack) ->
                       reached tree fs s1' y).
      { apply Re1.
        - intros c Hc. unfold parentTouched. rewrite (tree_children x c Hc).
          apply (Hs x (or_introl eq_refl)).
        - intros y Hy. apply Hs. right. exact Hy. }
      pose proof (internalBase_loop_keepsStable tree X fs tree_children
                    _ _ _ _ _ _ _ H) as Fr'.
      destruct (IH _ _ _ _ _ s2' H Re1'
                  (keepsStable_trans _ _ _ _ _ K Fr2)) as (s2e & E2e & Q2e).
      exists s2e. split; [exact E2e|].
      refine (quiet_trans _ _ _ (Q2 _) Q2e).
      intros c Hc.
      assert (Hin : In c (rev (children (tree x)) ++ stack))
        by (apply in_or_app; left; apply in_rev in Hc; exact Hc).
      destruct (keepsStable_trans _ _ _ _ _ Fr' K c
                  (reached_stable _ _ _ _ (Re1' c Hin))) as (_ & _ & T).
      apply T, (Re1' c Hin).
    + apply (IH _ _ _ _ _ _ H).
      * intros y Hy. apply Hs. right. exact Hy.
      * exact K.
Qed.

(** The child loop takes the same course. *)
Lemma base_children_replay inner m replace add cs :
  replace || add = true ->
  forall refines stack s1 r stack' s1e s2,
    base_children tree X fs inner m replace add cs refines stack s1
      = Some (r, stack', s1e) ->
    (forall c, In c cs -> parentTouched tree fs s1 c) ->
    keepsStable tree fs s1e s2 ->
    exists s2e,
      base_children tree X fs inner m replace add cs refines stack s2
        = Some (r, stack', s2e)
      /\ quiet s2 s2e.
Proof.
  intros Hra. induction cs as [|c cs IH];
    intros refines stack s1 r stack' s1e s2 H Hp K.
  - cbn in *. injection H as <- <- _. eexists; split; [reflexivity|].
    apply quiet_refl.
  - cbn [base_children] in H |- *.
    pose proof (updateVisibility_reaches s1 c m
                  (replace || add && fst (updateVisibility tree X fs s1 c m))
                  (Hp c (or_introl eq_refl))) as R.
    pose proof (updateVisibility_culled tree X fs s1 c m) as C1.
    destruct (updateVisibility tree X fs s1 c m) as [v s1a].
    cbn [fst snd] in R, C1.
    assert (Hb : v = true -> replace || add && v = true)
      by (intros ->; rewrite andb_true_r; exact Hra).
    destruct (R Hb) as (Sc & Mc & Rc). clear R.
    set (s1b := if replace || add && v
                then loadAndTouch tree fs s1a c else s1a) in *.
    assert (T1b : keepsTouched fs s1 s1b).
    { subst s1b. destruct (replace || add && v).
      - apply keepsTouched_loadAndTouch.
        apply (keepsTouched_culled _ _ _ _ C1), keepsTouched_refl.
      - apply (keepsTouched_culled _ _ _ _ C1), keepsTouched_refl. }
    (* the second run, up to the inner traversal *)
    pose proof (keepsStable_updateVisibility tree X fs s2 c m tree_children)
      as F2a.
    pose proof (updateVisibility_culled tree X fs s2 c m) as C2.
    assert (V2 : keepsStable tree fs s1b s2 ->
                 fst (updateVisibility tree X fs s2 c m) = v).
    { intros Kb. destruct (Kb c Sc) as (Sc2 & Cc2 & _).
      rewrite (updateVisibility_stable_fst tree X fs s2 c m Sc2).
      unfold maskVisible in *. rewrite (core_mask _ _ Cc2). exact Mc. }
    destruct (updateVisibility tree X fs s2 c m) as [v2 s2a].
    cbn [fst snd] in F2a, V2, C2.
    assert (Q2b : keepsStable tree fs s1b s2 ->
                  quiet s2 (if replace || add && v
                            then loadAndTouch tree fs s2a c else s2a)).
    { intros Kb. apply (quiet_trans _ _ _ (quiet_culled _ _ C2)).
      destruct (Kb c Sc) as (_ & _ & T).
      destruct (replace || add && v) eqn:Eb; [|apply quiet_refl].
      apply quiet_loadAndTouch. rewrite (culled_touched _ _ c C2).
      apply T, (Rc eq_refl). }
    assert (F2b : forall b : bool,
              keepsStable tree fs s2
                (if b then loadAndTouch tree fs s2a c else s2a)).
    { intros [|]; [|exact F2a].
      exact (keepsStable_trans _ _ _ _ _ F2a
               (keepsStable_loadAndTouch tree fs s2a c)). }
    (* the rest of the loop *)
    assert (Tail : forall r1 s1c s2c,
              base_children tree X fs inner m replace add cs r1
                (if v then c :: stack else stack) s1c
                = Some (r, stack', s1e) ->
              keepsTouched fs s1b s1c ->
              keepsStable tree fs s1e s2c ->
              quiet s2 s2c ->
              exists s2e,
                base_children tree X fs inner m replace add cs r1
                  (if v then c :: stack else stack) s2c
                  = Some (r, stack', s2e)
                /\ quiet s2 s2e).
    { intros r1 s1c s2c H1 T1c K1 Q1.
      destruct (IH _ _ _ _ _ _ s2c H1) as (s2e & E2e & Q2e); [|exact K1|].
      - intros c' Hc'.
        apply (parentTouched_keeps _ _ _ _ _
                 (keepsTouched_trans _ _ _ _ T1b T1c)), Hp.
        right. exact Hc'.
      - exists s2e. split; [exact E2e | exact (quiet_trans _ _ _ Q1 Q2e)]. }
    destruct (refines && replace) eqn:Err.
    + destruct (hasEmptyContent (tree c) || hasTilesetContent (tree c)) eqn:Ep.
      * (* the internal traversal *)
        destruct (executeInternalBaseTraversal tree X fs inner s1b c m)
          as [[r1 s1c]|] eqn:E3; [|discriminate H].
        unfold executeInternalBaseTraversal in E3.
        pose proof (internalBase_loop_keepsStable tree X fs tree_children
                      _ _ _ _ _ _ _ E3) as F3.
        pose proof (internalBase_loop_keepsTouched tree X fs
                      _ _ _ _ _ _ _ E3) as T3.
        pose proof (base_children_keepsStable tree X fs tree_children
                      _ _ _ _ _ _ _ _ _ _ H) as F4.
        assert (Kb : keepsStable tree fs s1b s2)
          by exact (keepsStable_trans _ _ _ _ _ F3
                      (keepsStable_trans _ _ _ _ _ F4 K)).
        rewrite (V2 Kb) in *.
        fold s1b in Rc.
        assert (Rep : replace = true)
          by (apply andb_prop in Err; apply Err).
        assert (Eb : replace || add && v = true) by (rewrite Rep; reflexivity).
        assert (Rc' : reached tree fs s1b c).
        { subst s1b. rewrite Eb in *. apply Rc. reflexivity. }
        destruct (internalBase_loop_replay inner m [c] true s1b r1 s1c
                    (if replace || add && v
                     then loadAndTouch tree fs s2a c else s2a) E3)
          as (s2c & E2c & Q2c).
        { intros y [<- | []]. exact Rc'. }
        { exact (keepsStable_trans _ _ _ _ _ F4
                   (keepsStable_trans _ _ _ _ _ K (F2b _))). }
        unfold executeInternalBaseTraversal. rewrite E2c.
        apply (Tail _ _ _ H T3).
        -- exact (keepsStable_trans _ _ _ _ _ K
                    (keepsStable_trans _ _ _ _ _ (F2b _)
                       (internalBase_loop_keepsStable tree X fs tree_children
                          _ _ _ _ _ _ _ E2c))).
        -- exact (quiet_trans _ _ _ (Q2b Kb) Q2c).
      * (* the content of the child *)
        pose proof (base_children_keepsStable tree X fs tree_children
                      _ _ _ _ _ _ _ _ _ _ H) as F4.
        assert (Kb : keepsStable tree fs s1b s2)
          by exact (keepsStable_trans _ _ _ _ _ F4 K).
        rewrite (V2 Kb) in *.
        assert (Ec : contentAvailable
                       (heap (if replace || add && v
                              then loadAndTouch tree fs s2a c else s2a) c)
                     = contentAvailable (heap s1b c)).
        { destruct (keepsStable_trans _ _ _ _ _ Kb (F2b (replace || add && v))
                      c Sc) as (_ & Cc & _).
          exact (core_contentAvailable _ _ Cc). }
        rewrite Ec.
        apply (Tail _ _ _ H (keepsTouched_refl fs s1b)).
        -- exact (keepsStable_trans _ _ _ _ _ K (F2b _)).
        -- exact (Q2b Kb).
    + pose proof (base_children_keepsStable tree X fs tree_children
                    _ _ _ _ _ _ _ _ _ _ H) as F4.
      assert (Kb : keepsStable tree fs s1b s2)
        by exact (keepsStable_trans _ _ _ _ _ F4 K).
      rewrite (V2 Kb) in *.
      apply (Tail _ _ _ H (keepsTouched_refl fs s1b)).
      * exact (keepsStable_trans _ _ _ _ _ K (F2b _)).
      * exact (Q2b Kb).
Qed.

(** The loop of the base traversal takes the same course, and leaves the
    same leaves and desired tiles. *)
Lemma base_loop_replay inner fuel m :
  forall stack leaves fr s1 fr' leaves' s1e s2,
    base_loop tree X fs inner fuel m stack leaves fr s1
      = Some (fr', leaves', s1e) ->
    (forall t, In t stack -> reached tree fs s1 t) ->
    (forall x, In x leaves -> reached tree fs s1 x) ->
    (forall x, In x (_desiredTiles s1) -> reached tree fs s1 x) ->
    (forall t p, In t stack -> parent (tree t) = Some p ->
       _refines (heap s2 p) = _refines (heap s1 p)) ->
    _desiredTiles s2 = _desiredTiles s1 ->
    keepsStable tree fs s1e s2 ->
    (forall x, In x leaves' -> reached tree fs s1e x)
    /\ (forall x, In x (_desiredTiles s1e) -> reached tree fs s1e x)
    /\ exists s2e,
         base_loop tree X fs inner fuel m stack leaves fr s2
           = Some (fr', leaves', s2e)
         /\ _desiredTiles s2e = _desiredTiles s1e
         /\ quiet s2 s2e.
Proof.
  induction fuel as [|fuel IH];
    intros stack leaves fr s1 fr' leaves' s1e s2 H Hs Hl Hd Lk Ds K;
    destruct stack as [|t stack].
  - cbn in *. injection H as <- <- <-.
    split; [exact Hl|]. split; [exact Hd|]. eexists; split; [reflexivity|].
    split; [exact Ds | apply quiet_refl].
  - discriminate.
  - cbn in *. injection H as <- <- <-.
    split; [exact Hl|]. split; [exact Hd|]. eexists; split; [reflexivity|].
    split; [exact Ds | apply quiet_refl].
  - pose proof (base_loop_keepsStable tree X fs X_noExpiry tree_children
                  _ _ _ _ _ _ _ _ _ H) as Fr.
    rewrite base_loop_cons in H |- *. cbv zeta in H |- *.
    pose proof (Hs t (or_introl eq_refl)) as Rt.
    (* the first run *)
    assert (Tv1 : keepsTouched fs s1 (visitTile tree X fs s1 t))
      by (apply keepsTouched_visitTile, keepsTouched_refl).
    assert (Cv1 : forall y, core (heap (visitTile tree X fs s1 t) y)
                            = core (heap s1 y))
      by (intros y; apply visitTile_core, X_noExpiry).
    assert (Rv1 := visitTile_refines tree X fs s1 t).
    assert (Dv1 := visitTile_desired tree X fs s1 t).
    set (tsv1 := visitTile tree X fs s1 t) in *. clearbody tsv1.
    (* the second run *)
    assert (Fv2 : keepsStable tree fs s2 (visitTile tree X fs s2 t))
      by (apply keepsStable_visitTile, X_noExpiry).
    assert (Cv2 : forall y, core (heap (visitTile tree X fs s2 t) y)
                            = core (heap s2 y))
      by (intros y; apply visitTile_core, X_noExpiry).
    assert (Rv2 := visitTile_refines tree X fs s2 t).
    assert (Dv2 := visitTile_desired tree X fs s2 t).
    assert (Qv2 := quiet_visitTile tree X fs s2 t).
    set (tsv2 := visitTile tree X fs s2 t) in *. clearbody tsv2.
    assert (Ct : core (heap tsv2 t) = core (heap tsv1 t)).
    { destruct (keepsStable_trans _ _ _ _ _ Fr K t (reached_stable _ _ _ _ Rt))
        as (_ & Ct & _).
      rewrite Cv1, Cv2. exact Ct. }
    assert (Pr : match parent (tree t) with
                 | Some p => _refines (heap tsv2 p)
                 | None => true
                 end
                 = match parent (tree t) with
                   | Some p => _refines (heap tsv1 p)
                   | None => true
                   end).
    { destruct (parent (tree t)) as [p|] eqn:Ep; [|reflexivity].
      rewrite Rv1, Rv2. apply (Lk t p (or_introl eq_refl) Ep). }
    rewrite Pr, (core_screenSpaceError _ _ Ct), (core_contentAvailable _ _ Ct).
    set (traverse := negb (Nat.eqb (length (children (tree t))) 0)
                     && Qgtb (_screenSpaceError (heap tsv1 t)) m) in *.
    set (parentRefines := match parent (tree t) with
                          | Some p => _refines (heap tsv1 p)
                          | None => true
                          end) in *.
    clearbody parentRefines.
    destruct (if traverse
              then base_children tree X fs inner m
                     (refine_eqb (refine (tree t)) REPLACE)
                     (refine_eqb (refine (tree t)) ADD)
                     (children (tree t)) (traverse && parentRefines) stack tsv1
              else Some (traverse && parentRefines, stack, tsv1))
      as [[[r1 stack1] s1c]|] eqn:E; [|discriminate].
    (* what the child loop of the first run keeps *)
    assert (K1 : keepsStable tree fs tsv1 s1c
                 /\ keepsTouched fs tsv1 s1c
                 /\ (forall y, _refines (heap s1c y) = _refines (heap tsv1 y))
                 /\ _desiredTiles s1c = _desiredTiles tsv1
                 /\ (forall x, In x stack1 ->
                       reached tree fs s1c x
                       /\ (In x (children (tree t)) \/ In x stack))).
    { destruct traverse.
      - split; [exact (base_children_keepsStable tree X fs tree_children
                         _ _ _ _ _ _ _ _ _ _ E)|].
        split; [exact (base_children_keepsTouched tree X fs
                         _ _ _ _ _ _ _ _ _ _ E)|].
        split; [intros y;
                exact (base_children_refines tree X fs
                         _ _ _ _ _ _ _ _ _ _ y E)|].
        split; [exact (base_children_desired tree X fs
                         _ _ _ _ _ _ _ _ _ _ E)|].
        intros x Hx.
        pose proof (base_children_stack tree X fs _ _ _ _ _ _ _ _ _ _ _ E x Hx)
          as Hin.
        split; [|exact Hin]. split.
        + apply (base_children_touched tree X fs _ _ _ _ _
                   (refine_eqb_total (refine (tree t))) _ _ _ _ _ _ E);
            [|exact Hx].
          intros y Hy. apply Tv1. apply (Hs y (or_intror Hy)).
        + destruct Hin as [Hc | Hin].
          * unfold parentTouched. rewrite (tree_children t x Hc).
            apply (base_children_keepsTouched tree X fs
                     _ _ _ _ _ _ _ _ _ _ E), Tv1, Rt.
          * apply (parentTouched_keeps _ _ _ _ _
                     (keepsTouched_trans _ _ _ _ Tv1
                        (base_children_keepsTouched tree X fs
                           _ _ _ _ _ _ _ _ _ _ E))).
            apply (Hs x (or_intror Hin)).
      - injection E as _ <- <-.
        split; [apply keepsStable_refl|]. split; [apply keepsTouched_refl|].
        split; [reflexivity|]. split; [reflexivity|].
        intros x Hx. split; [|right; exact Hx].
        apply (reached_keeps _ _ _ _ _ Tv1), Hs. right. exact Hx. }
    destruct K1 as (F1c & T1c & R1c & D1c & S1c).
    (* the end of the round, first run *)
    set (s1d := assign t (set_refines r1) s1c) in *.
    assert (F1d : keepsStable tree fs s1c s1d)
      by apply keepsStable_refines.
    assert (T1cd : keepsTouched fs s1c s1d)
      by (apply keepsTouched_refines, keepsTouched_refl).
    assert (T1d : keepsTouched fs s1 s1d).
    { apply (keepsTouched_trans _ _ _ _ Tv1).
      apply (keepsTouched_trans _ _ _ _ T1c).
      apply keepsTouched_refines, keepsTouched_refl. }
    assert (R1d : forall y, _refines (heap s1d y)
                            = if Nat.eqb y t then r1 else _refines (heap s1 y)).
    { intros y. subst s1d. rewrite assign_refines_refines, R1c, Rv1.
      reflexivity. }
    assert (D1d : _desiredTiles s1d = _desiredTiles s1)
      by (change (_desiredTiles s1c = _desiredTiles s1); congruence).
    clearbody s1d.
    (* the rest of the first run *)
    set (L := negb r1 && parentRefines
              && (refine_eqb (refine (tree t)) REPLACE
                  && contentAvailable (heap tsv1 t))) in *.
    set (A1 := refine_eqb (refine (tree t)) ADD
               && contentAvailable (heap s1d t)) in *.
    set (s1f := if A1
                then set_desiredTiles (push (_desiredTiles s1d) t) s1d
                else s1d) in *.
    assert (Rest1 : base_loop tree X fs inner fuel m stack1
                      (if L then push leaves t else leaves)
                      (if L then fr && negb traverse else fr) s1f
                    = Some (fr', leaves', s1e))
      by (destruct L; exact H).
    clear H.
    assert (F1f : keepsStable tree fs s1d s1f).
    { subst s1f. destruct A1; [|apply keepsStable_refl].
      apply keepsStable_same; [reflexivity | intros y Hy; exact Hy]. }
    assert (T1f : keepsTouched fs s1 s1f).
    { apply (keepsTouched_trans _ _ _ _ T1d). subst s1f.
      destruct A1; intros y Hy; exact Hy. }
    assert (R1f : forall y, _refines (heap s1f y)
                            = if Nat.eqb y t then r1 else _refines (heap s1 y)).
    { intros y. rewrite <- R1d. subst s1f. destruct A1; reflexivity. }
    pose proof (base_loop_keepsStable tree X fs X_noExpiry tree_children
                  _ _ _ _ _ _ _ _ _ Rest1) as F1e.
    assert (Kd : keepsStable tree fs s1d s2)
      by exact (keepsStable_trans _ _ _ _ _ F1f
                  (keepsStable_trans _ _ _ _ _ F1e K)).
    (* the second run *)
    assert (Step2 : exists s2c,
              (if traverse
               then base_children tree X fs inner m
                      (refine_eqb (refine (tree t)) REPLACE)
                      (refine_eqb (refine (tree t)) ADD)
                      (children (tree t)) (traverse && parentRefines)
                      stack tsv2
               else Some (traverse && parentRefines, stack, tsv2))
              = Some (r1, stack1, s2c)
              /\ keepsStable tree fs tsv2 s2c
              /\ (forall y, _refines (heap s2c y) = _refines (heap tsv2 y))
              /\ _desiredTiles s2c = _desiredTiles tsv2
              /\ quiet tsv2 s2c).
    { destruct traverse.
      - destruct (base_children_replay inner m _ _ (children (tree t))
                    (refine_eqb_total (refine (tree t)))
                    _ _ _ _ _ _ tsv2 E) as (s2c & E2 & Q2).
        + intros c Hc. unfold parentTouched. rewrite (tree_children t c Hc).
          apply Tv1, Rt.
        + exact (keepsStable_trans _ _ _ _ _ F1d
                   (keepsStable_trans _ _ _ _ _ Kd Fv2)).
        + exists s2c. split; [exact E2|].
          split; [exact (base_children_keepsStable tree X fs tree_children
                           _ _ _ _ _ _ _ _ _ _ E2)|].
          split; [intros y;
                  exact (base_children_refines tree X fs
                           _ _ _ _ _ _ _ _ _ _ y E2)|].
          split; [exact (base_children_desired tree X fs
                           _ _ _ _ _ _ _ _ _ _ E2)|].
          exact Q2.
      - injection E as <- <- _. exists tsv2.
        split; [reflexivity|]. split; [apply keepsStable_refl|].
        split; [reflexivity|]. split; [reflexivity | apply quiet_refl]. }
    destruct Step2 as (s2c & E2 & F2c & R2c & D2c & Q2c).
    rewrite E2. clear E2.
    set (s2d := assign t (set_refines r1) s2c).
    assert (F2d : keepsStable tree fs s2 s2d).
    { apply (keepsStable_trans _ _ _ _ _ Fv2).
      apply (keepsStable_trans _ _ _ _ _ F2c).
      apply keepsStable_refines. }
    assert (R2d : forall y, _refines (heap s2d y)
                            = if Nat.eqb y t then r1 else _refines (heap s2 y)).
    { intros y. subst s2d. rewrite assign_refines_refines, R2c, Rv2.
      reflexivity. }
    assert (D2d : _desiredTiles s2d = _desiredTiles s1d).
    { change (_desiredTiles s2c = _desiredTiles s1d). congruence. }
    assert (Rtd : reached tree fs s1d t)
      by exact (reached_keeps _ _ _ _ _ T1d Rt).
    assert (A2 : refine_eqb (refine (tree t)) ADD
                 && contentAvailable (heap s2d t) = A1).
    { subst A1.
      destruct (keepsStable_trans _ _ _ _ _ Kd F2d t
                  (reached_stable _ _ _ _ Rtd)) as (_ & Cd & _).
      rewrite (core_contentAvailable _ _ Cd). reflexivity. }
    rewrite A2. rewrite D2d.
    set (s2f := if A1
                then set_desiredTiles (push (_desiredTiles s1d) t) s2d
                else s2d).
    assert (F2f : keepsStable tree fs s2 s2f).
    { apply (keepsStable_trans _ _ _ _ _ F2d). subst s2f.
      destruct A1; [|apply keepsStable_refl].
      apply keepsStable_same; [reflexivity | intros y Hy; exact Hy]. }
    assert (R2f : forall y, _refines (heap s2f y)
                            = if Nat.eqb y t then r1 else _refines (heap s2 y)).
    { intros y. rewrite <- R2d. subst s2f. destruct A1; reflexivity. }
    assert (D2f : _desiredTiles s2f = _desiredTiles s1f).
    { subst s2f s1f. destruct A1; [reflexivity | exact D2d]. }
    assert (Q2f : quiet s2 s2f).
    { apply (quiet_trans _ _ _ Qv2), (quiet_trans _ _ _ Q2c).
      subst s2f s2d. destruct A1; split; reflexivity. }
    assert (Goal2 :
              (forall x, In x leaves' -> reached tree fs s1e x)
              /\ (forall x, In x (_desiredTiles s1e) -> reached tree fs s1e x)
              /\ exists s2e,
                   base_loop tree X fs inner fuel m stack1
                     (if L then push leaves t else leaves)
                     (if L then fr && negb traverse else fr) s2f
                   = Some (fr', leaves', s2e)
                   /\ _desiredTiles s2e = _desiredTiles s1e
                   /\ quiet s2 s2e).
    { assert (G : (forall x, In x leaves' -> reached tree fs s1e x)
              /\ (forall x, In x (_desiredTiles s1e) -> reached tree fs s1e x)
              /\ exists s2e,
                   base_loop tree X fs inner fuel m stack1
                     (if L then push leaves t else leaves)
                     (if L then fr && negb traverse else fr) s2f
                   = Some (fr', leaves', s2e)
                   /\ _desiredTiles s2e = _desiredTiles s1e
                   /\ quiet s2f s2e);
        [|destruct G as (G1 & G2 & s2e & G3 & G4 & G5);
          split; [exact G1|]; split; [exact G2|]; exists s2e;
          split; [exact G3|]; split; [exact G4|];
          exact (quiet_trans _ _ _ Q2f G5)].
      apply (IH _ _ _ _ _ _ _ _ Rest1).
      - intros x Hx. destruct (S1c x Hx) as [Rx _].
        apply (reached_keeps tree fs s1c s1f x); [|exact Rx].
        intros y Hy. apply T1cd in Hy.
        subst s1f. destruct A1; exact Hy.
      - intros x Hx. apply (reached_keeps _ _ _ _ _ T1f).
        destruct L; [|apply Hl, Hx].
        unfold push in Hx. apply in_app_or in Hx.
        destruct Hx as [Hx | [<- | []]]; [apply Hl, Hx | exact Rt].
      - intros x Hx. apply (reached_keeps _ _ _ _ _ T1f).
        subst s1f. destruct A1; [|rewrite D1d in Hx; apply Hd, Hx].
        cbn in Hx. unfold push in Hx. rewrite D1d in Hx.
        apply in_app_or in Hx.
        destruct Hx as [Hx | [<- | []]]; [apply Hd, Hx | exact Rt].
      - intros x p Hx Hp. rewrite R1f, R2f.
        destruct (Nat.eqb p t) eqn:Ept; [reflexivity|].
        destruct (S1c x Hx) as [_ [Hc | Hin]].
        + rewrite (tree_children t x Hc) in Hp. injection Hp as <-.
          rewrite Nat.eqb_refl in Ept. discriminate Ept.
        + apply (Lk x p (or_intror Hin) Hp).
      - exact D2f.
      - exact (keepsStable_trans _ _ _ _ _ K F2f). }
    subst s2f s2d. clear Rest1 F1e. subst L.
    destruct (negb r1 && parentRefines
              && (refine_eqb (refine (tree t)) REPLACE
                  && contentAvailable (heap tsv1 t))); exact Goal2.
Qed.

End Replay.

(** *** The root, seen twice *)

Lemma getScreenSpaceError_config X fs ts ts' g t :
  configOf ts' = configOf ts ->
  _distanceToCamera (heap ts' t) = _distanceToCamera (heap ts t) ->
  getScreenSpaceError X fs ts' g t = getScreenSpaceError X fs ts g t.
Proof.
  intros F D. unfold getScreenSpaceError. rewrite D.
  unfold configOf in F.
  assert (E1 : dynamicScreenSpaceError ts' = dynamicScreenSpaceError ts)
    by congruence.
  assert (E2 : _dynamicScreenSpaceErrorComputedDensity ts'
               = _dynamicScreenSpaceErrorComputedDensity ts) by congruence.
  assert (E3 : dynamicScreenSpaceErrorFactor ts'
               = dynamicScreenSpaceErrorFactor ts) by congruence.
  rewrite E1, E2, E3. reflexivity.
Qed.

Lemma viewedError_config tree X fs ts ts' t :
  configOf ts' = configOf ts ->
  viewedError tree X fs ts' t = viewedError tree X fs ts t.
Proof.
  intros F. unfold viewedError. apply getScreenSpaceError_config.
  - exact F.
  - rewrite !heap_assign_same. reflexivity.
Qed.

Lemma viewedMask_parent tree X ts ts' t :
  match parent (tree t) with
  | Some p => _visibilityPlaneMask (heap ts' p) = _visibilityPlaneMask (heap ts p)
  | None => True
  end ->
  viewedMask tree X ts' t = viewedMask tree X ts t.
Proof.
  unfold viewedMask. destruct (parent (tree t)); [intros ->|]; reflexivity.
Qed.

(** What [updateTile] leaves on the tile. *)
Lemma updateTile_core tree X fs ts t :
  core (heap (snd (updateTile tree X fs ts t)) t)
  = (contentAvailable (heap ts t), contentUnloaded (heap ts t),
     contentExpired (heap ts t), distanceToTile X t, distanceToTileCenter X t,
     viewedError tree X fs ts t, viewedMask tree X ts t).
Proof. rewrite updateTile_heap, Nat.eqb_refl. reflexivity. Qed.

Lemma updateTile_twice_core tree X fs ts ts' t :
  configOf ts' = configOf ts ->
  contentFlags (heap ts' t) = contentFlags (heap ts t) ->
  viewedMask tree X ts' t = viewedMask tree X ts t ->
  core (heap (snd (updateTile tree X fs ts' t)) t)
  = core (heap (snd (updateTile tree X fs ts t)) t).
Proof.
  intros F Fl M. rewrite !updateTile_core, M, (viewedError_config _ _ _ _ _ _ F).
  unfold contentFlags in Fl. injection Fl as -> -> ->. reflexivity.
Qed.

(** Whether a child is found visible depends on the mask of its parent. *)
Lemma updateChildren_from_fst_ext tree X fs r cs :
  (forall c, In c cs -> parent (tree c) = Some r) ->
  ~ In r cs ->
  forall any a b,
    _visibilityPlaneMask (heap a r) = _visibilityPlaneMask (heap b r) ->
    fst (updateChildren_from tree X fs cs any a)
    = fst (updateChildren_from tree X fs cs any b).
Proof.
  induction cs as [|c cs IH]; intros Hp Hr any a b M; cbn.
  - reflexivity.
  - pose proof (updateTile_visible tree X fs a c) as Va.
    pose proof (updateTile_visible tree X fs b c) as Vb.
    pose proof (updateTile_heap tree X fs a c r) as Ha.
    pose proof (updateTile_heap tree X fs b c r) as Hb.
    assert (Erc : Nat.eqb r c = false).
    { apply Nat.eqb_neq. intros ->. apply Hr. left. reflexivity. }
    rewrite Erc in Ha, Hb.
    assert (Vm : viewedMask tree X a c = viewedMask tree X b c).
    { apply viewedMask_parent. rewrite (Hp c (or_introl eq_refl)). exact M. }
    destruct (updateTile tree X fs a c) as [va a1].
    destruct (updateTile tree X fs b c) as [vb b1].
    cbn [fst snd] in *.
    assert (Ev : vb = va) by congruence. rewrite Ev.
    apply IH.
    + intros c' Hc'. apply Hp. right. exact Hc'.
    + intros Hin. apply Hr. right. exact Hin.
    + rewrite Ha, Hb. exact M.
Qed.

(** Whether a parentless tile is found visible depends on the
    configuration and on its own [core] fields. *)
Lemma getVisibility_fst_root tree X fs r m a b :
  childrenPointBack tree ->
  parent (tree r) = None ->
  core (heap a r) = core (heap b r) ->
  fst (getVisibility tree X fs a r m) = fst (getVisibility tree X fs b r m).
Proof.
  intros Hc Hr C.
  assert (Nr : ~ In r (children (tree r))).
  { intros Hin. rewrite (Hc r r Hin) in Hr. discriminate Hr. }
  unfold getVisibility. rewrite Hr.
  assert (Em : _visibilityPlaneMask (heap a r) = _visibilityPlaneMask (heap b r))
    by (unfold core in C; congruence).
  assert (Ee : contentExpired (heap a r) = contentExpired (heap b r))
    by (unfold core in C; congruence).
  assert (Es : _screenSpaceError (heap a r) = _screenSpaceError (heap b r))
    by (unfold core in C; congruence).
  rewrite Em, Ee, Es.
  destruct (Z.eqb _ MASK_OUTSIDE); [reflexivity|].
  destruct (_ && contentExpired _); [reflexivity|].
  destruct (_ && negb (Nat.eqb _ 0)).
  - pose proof (updateChildren_from_fst_ext tree X fs r (children (tree r))
                  (fun c Hin => Hc r c Hin) Nr false a b Em) as U.
    fold (updateChildren tree X fs a r) in U.
    fold (updateChildren tree X fs b r) in U.
    destruct (updateChildren tree X fs a r) as [anya a1].
    destruct (updateChildren tree X fs b r) as [anyb b1].
    cbn [fst] in U. subst anyb.
    destruct (_ && negb anya); reflexivity.
  - destruct (_ && negb true); reflexivity.
Qed.

(** [updateVisibility] on a tile that is not its own child assigns the
    mask, and nothing else, to the tile. *)
Lemma updateVisibility_own tree X fs s t m :
  ~ In t (children (tree t)) ->
  heap (snd (updateVisibility tree X fs s t m)) t
  = set_visibilityPlaneMask
      (_visibilityPlaneMask (heap (snd (updateVisibility tree X fs s t m)) t))
      (heap s t).
Proof.
  intros Ht. rewrite (updateVisibility_heap_other tree X fs s t m t Ht) at 1.
  rewrite Nat.eqb_refl. reflexivity.
Qed.

(** A tile found visible keeps its mask. *)
Lemma updateVisibility_visible_core tree X fs s t m :
  ~ In t (children (tree t)) ->
  fst (updateVisibility tree X fs s t m) = true ->
  core (heap (snd (updateVisibility tree X fs s t m)) t) = core (heap s t).
Proof.
  intros Ht V. unfold updateVisibility in *.
  destruct (Z.eqb (_touchedFrame (heap s t)) (frameNumber fs));
    [reflexivity|].
  pose proof (getVisibility_heap_other tree X fs s t m t Ht) as G.
  destruct (getVisibility tree X fs s t m) as [v s1]. cbn [fst snd] in *.
  rewrite heap_assign_same in *. rewrite G in *.
  destruct v; [destruct (heap s t); reflexivity|].
  cbn in V. discriminate V.
Qed.

(** Whether [updateVisibility] finds a parentless tile visible depends
    on its stamp, the configuration and its own [core] fields. *)
Lemma updateVisibility_fst_root tree X fs r m a b :
  childrenPointBack tree ->
  parent (tree r) = None ->
  core (heap a r) = core (heap b r) ->
  _touchedFrame (heap a r) = _touchedFrame (heap b r) ->
  fst (updateVisibility tree X fs a r m)
  = fst (updateVisibility tree X fs b r m).
Proof.
  intros Hc Hr C T.
  assert (Nr : ~ In r (children (tree r))).
  { intros Hin. rewrite (Hc r r Hin) in Hr. discriminate Hr. }
  unfold updateVisibility. rewrite T.
  destruct (Z.eqb (_touchedFrame (heap b r)) (frameNumber fs)).
  - cbn [fst]. rewrite (core_mask _ _ C). reflexivity.
  - pose proof (getVisibility_fst_root tree X fs r m a b Hc Hr C) as V.
    pose proof (getVisibility_heap_other tree X fs a r m r Nr) as Ga.
    pose proof (getVisibility_heap_other tree X fs b r m r Nr) as Gb.
    destruct (getVisibility tree X fs a r m) as [va a1].
    destruct (getVisibility tree X fs b r m) as [vb b1].
    cbn [fst snd] in *. subst vb. rewrite !heap_assign_same.
    rewrite Ga, Gb. destruct va; [|reflexivity].
    cbn. rewrite (core_mask _ _ C). reflexivity.
Qed.

Lemma selectTiles_culled_root tree X fs skipT hybridT fuel ts ts1 :
  debugFreezeFrame ts = false ->
  rootVisibility tree X fs (resetFrame ts) = (false, ts1) ->
  selectTiles tree X fs skipT hybridT fuel ts = Some (None, ts1).
Proof.
  intros F V. unfold selectTiles. rewrite F, V. reflexivity.
Qed.

Lemma selectTile_configOf X fs ts t :
  configOf (selectTile X fs ts t) = configOf ts.
Proof.
  unfold selectTile.
  repeat (match goal with |- context [if ?b then _ else _] => destruct b end;
          try reflexivity).
Qed.

Lemma selectTiles_configOf tree X fs skipT hybridT fuel ts d ts' :
  selectTiles tree X fs skipT hybridT fuel ts = Some (d, ts') ->
  configOf ts' = configOf ts.
Proof.
  intros H. destruct (debugFreezeFrame ts) eqn:F.
  - rewrite (selectTiles_frozen _ _ _ _ _ _ _ _ _ F H). reflexivity.
  - apply (selectTiles_inv tree X fs (fun s => configOf s = configOf ts))
      with (skipT := skipT) (hybridT := hybridT) (fuel := fuel) (ts := ts)
           (d := d); [| | | | | | | exact F | exact H | reflexivity].
    + intros s s' C Hs. rewrite (culled_configOf _ _ C). exact Hs.
    + intros s t Hs. rewrite visitTile_configOf. exact Hs.
    + intros s t Hs. rewrite loadAndTouch_configOf. exact Hs.
    + intros s t v Hs. exact Hs.
    + intros s t Hs. exact Hs.
    + intros s t Hs. rewrite selectTile_configOf. exact Hs.
    + intros s Hs. exact Hs.
Qed.

Lemma configOf_root ts ts' : configOf ts' = configOf ts -> _root ts' = _root ts.
Proof. unfold configOf. congruence. Qed.

Lemma configOf_freeze ts ts' :
  configOf ts' = configOf ts -> debugFreezeFrame ts' = debugFreezeFrame ts.
Proof. unfold configOf. congruence. Qed.

Section RootTwice.

Variable tree : TileId -> Tile.
Variable X : Externals.
Variable fs : FrameState.
Hypothesis tree_children : childrenPointBack tree.

(** A visible root has, after [rootVisibility], what [updateTile] gave
    it. *)
Lemma rootVisibility_core s :
  parent (tree (_root s)) = None ->
  fst (rootVisibility tree X fs s) = true ->
  core (heap (snd (rootVisibility tree X fs s)) (_root s))
  = core (heap (snd (updateTile tree X fs s (_root s))) (_root s)).
Proof.
  intros Hr. rewrite rootVisibility_eq.
  destruct (fst (updateTile tree X fs s (_root s))); [|discriminate].
  apply updateVisibility_visible_core.
  intros Hin. rewrite (tree_children _ _ Hin) in Hr. discriminate Hr.
Qed.

(** Two tilesets with the same configuration, and the same content flags
    and touch stamp on the root, find the root visible or not alike. *)
Lemma rootVisibility_fst a b :
  parent (tree (_root a)) = None ->
  configOf b = configOf a ->
  contentFlags (heap b (_root a)) = contentFlags (heap a (_root a)) ->
  _touchedFrame (heap b (_root a)) = _touchedFrame (heap a (_root a)) ->
  fst (rootVisibility tree X fs b) = fst (rootVisibility tree X fs a).
Proof.
  intros Hr Cf Fl T. rewrite !rootVisibility_eq.
  rewrite (configOf_root _ _ Cf), (configOf_maximumScreenSpaceError _ _ Cf).
  assert (Vm : viewedMask tree X b (_root a) = viewedMask tree X a (_root a))
    by (apply viewedMask_parent; rewrite Hr; exact I).
  rewrite !updateTile_visible, Vm.
  destruct (negb (Z.eqb (viewedMask tree X a (_root a)) MASK_OUTSIDE));
    [|reflexivity].
  apply (updateVisibility_fst_root tree X fs (_root a) _ _ _ tree_children Hr).
  - apply updateTile_twice_core; assumption.
  - rewrite !(culled_touched _ _ _ (updateTile_culled tree X fs _ _)).
    exact T.
Qed.

(** On a root that is touched [rootVisibility] is [updateTile]. *)
Lemma rootVisibility_touched s :
  _touchedFrame (heap s (_root s)) = frameNumber fs ->
  rootVisibility tree X fs s
  = (fst (updateTile tree X fs s (_root s)),
     snd (updateTile tree X fs s (_root s))).
Proof.
  intros T. rewrite rootVisibility_eq.
  pose proof (updateTile_visible tree X fs s (_root s)) as V.
  pose proof (updateTile_heap tree X fs s (_root s) (_root s)) as Hh.
  pose proof (culled_touched _ _ (_root s)
                (updateTile_culled tree X fs s (_root s))) as Tu.
  destruct (updateTile tree X fs s (_root s)) as [v su]. cbn [fst snd] in *.
  destruct v; [|reflexivity].
  unfold updateVisibility. rewrite Tu, T, Z.eqb_refl.
  rewrite Hh, Nat.eqb_refl. cbn. rewrite <- V. reflexivity.
Qed.

End RootTwice.

Lemma keepsStable_updateTile_root tree X fs s r :
  core (heap (snd (updateTile tree X fs s r)) r) = core (heap s r) ->
  keepsStable tree fs s (snd (updateTile tree X fs s r)).
Proof.
  intros C. apply keepsStable_same.
  - intros y. rewrite updateTile_heap. destruct (Nat.eqb y r) eqn:E;
      [|reflexivity].
    apply Nat.eqb_eq in E. subst y. rewrite <- C, updateTile_heap, Nat.eqb_refl.
    reflexivity.
  - apply (keepsTouched_culled _ _ _ _ (updateTile_culled tree X fs s r)),
      keepsTouched_refl.
Qed.

(** What the root carries once [rootVisibility] found it visible. *)
Lemma rootVisibility_distance tree X fs s :
  childrenPointBack tree ->
  parent (tree (_root s)) = None ->
  fst (rootVisibility tree X fs s) = true ->
  _distanceToCamera (heap (snd (rootVisibility tree X fs s)) (_root s))
  = distanceToTile X (_root s).
Proof.
  intros Hc Hr V.
  rewrite (core_distanceToCamera _ _ (rootVisibility_core tree X fs Hc s Hr V)).
  rewrite updateTile_heap, Nat.eqb_refl. reflexivity.
Qed.

(** The second call takes the course of the first: it returns the same
    way, selects the same tiles, and past the reset asks for no content
    and tells the cache nothing. *)
Lemma selectTiles_replay
    (tree : TileId -> Tile) (X : Externals) (fs : FrameState)
    (skipT hybridT : Tileset -> TileId -> option Tileset)
    (fuel : nat) (ts ts1 : Tileset) (d : option Strategy) :
  noExpiry X ->
  childrenPointBack tree ->
  parent (tree (_root ts)) = None ->
  selectTiles tree X fs skipT hybridT fuel ts = Some (d, ts1) ->
  exists ts2,
    selectTiles tree X fs skipT hybridT fuel ts1 = Some (d, ts2)
    /\ _selectedTiles ts2 = _selectedTiles ts1
    /\ (debugFreezeFrame ts = false -> quiet (resetFrame ts1) ts2).
Proof.
  intros HX Hc Hr H.
  pose proof (selectTiles_configOf _ _ _ _ _ _ _ _ _ H) as Cf.
  destruct (debugFreezeFrame ts) eqn:F.
  { pose proof (selectTiles_frozen _ _ _ _ _ _ _ _ _ F H) as ->.
    exists ts. split; [exact H|]. split; [reflexivity|].
    intros F'. discriminate F'. }
  assert (F1 : debugFreezeFrame ts1 = false)
    by (rewrite (configOf_freeze _ _ Cf); exact F).
  assert (Er : _root ts1 = _root ts) by exact (configOf_root _ _ Cf).
  assert (Nr : ~ In (_root ts) (children (tree (_root ts)))).
  { intros Hin. rewrite (Hc _ _ Hin) in Hr. discriminate Hr. }
  pose proof (rootVisibility_culled tree X fs (resetFrame ts)) as C1.
  pose proof (rootVisibility_culled tree X fs (resetFrame ts1)) as C2.
  destruct (rootVisibility tree X fs (resetFrame ts)) as [v s1r] eqn:V.
  cbn [snd] in C1.
  assert (Guard : forall s2r,
            ts1 = s1r ->
            rootVisibility tree X fs (resetFrame ts1) = (v, s2r) ->
            _selectedTiles s2r = _selectedTiles ts1).
  { intros s2r -> V2. rewrite V2 in C2. cbn [snd] in C2.
    rewrite (culled_selected _ _ C2), (culled_selected _ _ C1). reflexivity. }
  assert (Same : ts1 = s1r ->
            fst (rootVisibility tree X fs (resetFrame ts1)) = v).
  { intros ->.
    change v with (fst (v, s1r)). rewrite <- V.
    apply (rootVisibility_fst tree X fs Hc (resetFrame ts) (resetFrame s1r)).
    - exact Hr.
    - exact (culled_configOf _ _ C1).
    - exact (culled_contentFlags _ _ (_root ts) C1).
    - exact (culled_touched _ _ (_root ts) C1). }
  destruct v.
  - destruct (Qle_bool
                (getScreenSpaceError X fs s1r (_geometricError s1r) (_root ts))
                (_maximumScreenSpaceError ts)) eqn:G.
    + (* the guard on the error of the tileset *)
      rewrite (selectTiles_guarded _ _ _ _ _ _ _ _ F V G) in H.
      injection H as <- <-.
      specialize (Same eq_refl).
      destruct (rootVisibility tree X fs (resetFrame s1r)) as [v2 s2r] eqn:V2.
      cbn [fst snd] in *. subst v2.
      exists s2r.
      split; [|split; [exact (Guard s2r eq_refl eq_refl)|];
               intros _; apply quiet_culled; exact C2].
      apply (selectTiles_guarded _ _ _ _ _ _ _ _ F1 V2).
      assert (Cf2 : configOf s2r = configOf s1r)
        by exact (culled_configOf _ _ C2).
      rewrite Er, (configOf_geometricError _ _ Cf2),
        (configOf_maximumScreenSpaceError _ _ Cf).
      rewrite <- G. f_equal.
      apply getScreenSpaceError_config; [exact Cf2|].
      pose proof (rootVisibility_distance tree X fs (resetFrame ts) Hc Hr)
        as D1.
      pose proof (rootVisibility_distance tree X fs (resetFrame s1r) Hc) as D2.
      rewrite V in D1. rewrite V2 in D2. cbn [fst snd] in D1, D2.
      change (_root (resetFrame ts)) with (_root ts) in D1.
      change (_root (resetFrame s1r)) with (_root s1r) in D2.
      rewrite Er in D2. rewrite D1, D2; auto.
    + (* through the base traversal *)
      rewrite (selectTiles_base _ _ _ _ _ _ _ _ F V G) in H.
      set (s1l := set_skipLevelOfDetail false
                    (loadAndTouch tree fs s1r (_root ts))) in *.
      destruct (selectBaseTraversal tree X fs fuel s1l (_root ts))
        as [t1|] eqn:B; [|discriminate H].
      cbn in H. injection H as <- <-.
      destruct (selectBaseTraversal_result _ _ _ _ _ _ _ B)
        as (fr & leaves & s1e & E & Sel1 & Co1 & _).
      unfold executeBaseTraversal in E.
      (* the state the first loop starts in *)
      assert (Rl : reached tree fs s1l (_root ts)).
      { split.
        - change (_touchedFrame
                    (heap (loadAndTouch tree fs s1r (_root ts)) (_root ts))
                  = frameNumber fs).
          rewrite loadAndTouch_touched, Nat.eqb_refl. reflexivity.
        - unfold parentTouched. rewrite Hr. exact I. }
      assert (Dl : _desiredTiles s1l = []).
      { change (_desiredTiles (loadAndTouch tree fs s1r (_root ts)) = []).
        rewrite loadAndTouch_desired. apply (culled_desired _ _ C1). }
      assert (Sl : _selectedTiles s1l = []).
      { change (_selectedTiles (loadAndTouch tree fs s1r (_root ts)) = []).
        rewrite loadAndTouch_selected. apply (culled_selected _ _ C1). }
      pose proof (base_loop_keepsStable tree X fs HX Hc _ _ _ _ _ _ _ _ _ E)
        as Fe.
      pose proof (base_loop_selected _ _ _ _ _ _ _ _ _ _ _ _ E) as Se.
      rewrite Sl in Se.
      (* the root after the first call *)
      assert (Ke : keepsStable tree fs s1e t1).
      { intros y Hy.
        assert (Cy : core (heap t1 y) = core (heap s1e y)) by apply Co1.
        apply (keepsStable_same tree fs s1e t1); [exact Co1 | | exact Hy].
        unfold selectBaseTraversal, executeBaseTraversal in B.
        rewrite E in B. injection B as <-.
        intros z Hz.
        apply (fold_selectTile_inv X fs
                 (fun s => _touchedFrame (heap s z) = frameNumber fs));
          [intros s x Hs; rewrite selectTile_touched; exact Hs|].
        apply (fold_selectTile_inv X fs
                 (fun s => _touchedFrame (heap s z) = frameNumber fs));
          [intros s x Hs; rewrite selectTile_touched; exact Hs|].
        exact Hz. }
      destruct (keepsStable_trans _ _ _ _ _ Fe Ke (_root ts)
                  (reached_stable _ _ _ _ Rl)) as (_ & Croot & Troot).
      specialize (Troot (proj1 Rl)).
      assert (Vu : fst (rootVisibility tree X fs (resetFrame ts)) = true)
        by (rewrite V; reflexivity).
      pose proof (rootVisibility_core tree X fs Hc (resetFrame ts) Hr Vu)
        as Cr.
      rewrite V in Cr. cbn [snd] in Cr.
      change (_root (resetFrame ts)) with (_root ts) in Cr.
      assert (Croot' : core (heap t1 (_root ts))
                       = core (heap (snd (updateTile tree X fs (resetFrame ts)
                                            (_root ts))) (_root ts))).
      { rewrite Croot. rewrite <- Cr.
        change (heap s1l (_root ts))
          with (heap (loadAndTouch tree fs s1r (_root ts)) (_root ts)).
        apply loadAndTouch_core. }
      (* the second call, up to the loop *)
      assert (Vm : viewedMask tree X (resetFrame t1) (_root ts)
                   = viewedMask tree X (resetFrame ts) (_root ts))
        by (apply viewedMask_parent; rewrite Hr; exact I).
      assert (Fu : fst (updateTile tree X fs (resetFrame t1) (_root ts))
                   = true).
      { rewrite updateTile_visible, Vm,
          <- (updateTile_visible tree X fs (resetFrame ts) (_root ts)).
        rewrite rootVisibility_eq in Vu.
        change (_root (resetFrame ts)) with (_root ts) in Vu.
        destruct (fst (updateTile tree X fs (resetFrame ts) (_root ts)));
          [reflexivity | discriminate Vu]. }
      set (s2u := snd (updateTile tree X fs (resetFrame t1) (_root ts))).
      assert (V2 : rootVisibility tree X fs (resetFrame t1) = (true, s2u)).
      { rewrite rootVisibility_touched.
        - change (_root (resetFrame t1)) with (_root t1). rewrite Er, Fu.
          reflexivity.
        - change (_touchedFrame (heap t1 (_root t1)) = frameNumber fs).
          rewrite Er. exact Troot. }
      assert (Cu : core (heap s2u (_root ts)) = core (heap t1 (_root ts))).
      { rewrite Croot'. subst s2u. apply updateTile_twice_core.
        - exact Cf.
        - change (contentFlags (heap t1 (_root ts))
                  = contentFlags (heap ts (_root ts))).
          rewrite (core_contentFlags _ _ Croot').
          rewrite updateTile_heap, Nat.eqb_refl. reflexivity.
        - exact Vm. }
      assert (Ku : keepsStable tree fs t1 s2u).
      { apply (keepsStable_trans tree fs t1 (resetFrame t1) s2u).
        - apply keepsStable_same; [reflexivity | intros y Hy; exact Hy].
        - apply keepsStable_updateTile_root. exact Cu. }
      assert (Cf2 : configOf s2u = configOf ts).
      { rewrite <- Cf. subst s2u.
        change (configOf t1) with (configOf (resetFrame t1)).
        apply culled_configOf, updateTile_culled. }
      assert (G2 : Qle_bool
                     (getScreenSpaceError X fs s2u (_geometricError s2u)
                        (_root t1))
                     (_maximumScreenSpaceError t1) = false).
      { assert (Cf1 : configOf s1r = configOf ts)
          by exact (culled_configOf _ _ C1).
        rewrite Er, (configOf_geometricError _ _ Cf2),
          (configOf_maximumScreenSpaceError _ _ Cf).
        rewrite <- G. rewrite (configOf_geometricError _ _ Cf1).
        f_equal. apply getScreenSpaceError_config; [congruence|].
        rewrite (core_distanceToCamera _ _ Cu),
          (core_distanceToCamera _ _ Croot').
        symmetry. exact (core_distanceToCamera _ _ Cr). }
      rewrite (selectTiles_base _ _ _ _ _ _ _ _ F1 V2 G2).
      rewrite Er.
      set (s2l := set_skipLevelOfDetail false
                    (loadAndTouch tree fs s2u (_root ts))).
      assert (Kl : keepsStable tree fs s1e s2l).
      { apply (keepsStable_trans _ _ _ _ _ Ke).
        apply (keepsStable_trans _ _ _ _ _ Ku).
        apply (keepsStable_trans tree fs s2u
                 (loadAndTouch tree fs s2u (_root ts)) s2l).
        - apply keepsStable_loadAndTouch.
        - apply keepsStable_same; [reflexivity | intros y Hy; exact Hy]. }
      assert (Dl2 : _desiredTiles s2l = []).
      { change (_desiredTiles (loadAndTouch tree fs s2u (_root ts)) = []).
        rewrite loadAndTouch_desired. subst s2u.
        rewrite (culled_desired _ _ (updateTile_culled tree X fs _ _)).
        reflexivity. }
      assert (Sl2 : _selectedTiles s2l = []).
      { change (_selectedTiles (loadAndTouch tree fs s2u (_root ts)) = []).
        rewrite loadAndTouch_selected. subst s2u.
        rewrite (culled_selected _ _ (updateTile_culled tree X fs _ _)).
        reflexivity. }
      assert (Em : _maximumScreenSpaceError s2l = _maximumScreenSpaceError s1l).
      { change (_maximumScreenSpaceError (loadAndTouch tree fs s2u (_root ts))
                = _maximumScreenSpaceError
                    (loadAndTouch tree fs s1r (_root ts))).
        rewrite (configOf_maximumScreenSpaceError _ _
                   (loadAndTouch_configOf tree fs s2u (_root ts))).
        rewrite (configOf_maximumScreenSpaceError _ _
                   (loadAndTouch_configOf tree fs s1r (_root ts))).
        rewrite (configOf_maximumScreenSpaceError _ _ Cf2).
        symmetry.
        exact (configOf_maximumScreenSpaceError _ _ (culled_configOf _ _ C1)). }
      (* the loop, again *)
      destruct (base_loop_replay tree X fs HX Hc fuel fuel
                  (_maximumScreenSpaceError s1l) [_root ts] [] true s1l
                  fr leaves s1e s2l E) as (Hl & Hd & s2e & E2 & D2 & Q2).
      { intros t [<- | []]. exact Rl. }
      { intros x []. }
      { rewrite Dl. intros x []. }
      { intros t p [<- | []] Hp. rewrite Hr in Hp. discriminate Hp. }
      { rewrite Dl, Dl2. reflexivity. }
      { exact Kl. }
      pose proof (base_loop_keepsStable tree X fs HX Hc _ _ _ _ _ _ _ _ _ E2)
        as Fe2.
      pose proof (base_loop_selected _ _ _ _ _ _ _ _ _ _ _ _ E2) as Se2.
      rewrite Sl2 in Se2.
      assert (B2 : exists t2,
                selectBaseTraversal tree X fs fuel s2l (_root ts) = Some t2).
      { unfold selectBaseTraversal, executeBaseTraversal. rewrite Em, E2.
        eexists; reflexivity. }
      destruct B2 as [t2 B2]. rewrite B2. exists t2.
      split; [reflexivity|].
      split; cycle 1.
      { intros _.
        apply (quiet_trans _ s2u).
        { apply quiet_culled. subst s2u. apply updateTile_culled. }
        apply (quiet_trans _ (loadAndTouch tree fs s2u (_root ts))).
        { apply quiet_loadAndTouch. subst s2u.
          rewrite (culled_touched _ _ (_root ts)
                     (updateTile_culled tree X fs _ _)).
          exact Troot. }
        apply (quiet_trans _ s2l); [split; reflexivity|].
        apply (quiet_trans _ _ _ Q2).
        unfold selectBaseTraversal, executeBaseTraversal in B2.
        rewrite Em, E2 in B2. injection B2 as <-.
        assert (St : forall s x, quiet s2e s -> quiet s2e (selectTile X fs s x)).
        { intros s x Hs. apply (quiet_trans _ _ _ Hs). split.
          - apply (selectTile_lists X fs s x).
          - apply selectTile_cache. }
        apply (fold_selectTile_inv X fs (quiet s2e) St).
        apply (fold_selectTile_inv X fs (quiet s2e) St).
        apply quiet_refl. }
      destruct (selectBaseTraversal_result _ _ _ _ _ _ _ B2)
        as (fr2 & leaves2 & s2e' & E2' & Sel2 & _).
      unfold executeBaseTraversal in E2'. rewrite Em, E2 in E2'.
      injection E2' as <- <- <-.
      rewrite Sel1, Sel2, Se, Se2, D2. cbn [app].
      assert (Sx : forall x, reached tree fs s1e x ->
                    selectable X s2e x = selectable X s1e x).
      { intros x Rx. apply selectable_core.
        destruct (keepsStable_trans _ _ _ _ _ Kl Fe2 x
                    (reached_stable _ _ _ _ Rx)) as (_ & Cx & _).
        exact Cx. }
      f_equal; apply filter_ext_in; intros x Hx; apply Sx; auto.
  - (* the root is culled *)
    rewrite (selectTiles_culled_root _ _ _ _ _ _ _ _ F V) in H.
    injection H as <- <-.
    specialize (Same eq_refl).
    destruct (rootVisibility tree X fs (resetFrame s1r)) as [v2 s2r] eqn:V2.
    cbn [fst] in Same. subst v2.
    exists s2r.
    split; [|split; [exact (Guard s2r eq_refl eq_refl)|];
             intros _; apply quiet_culled; exact C2].
    exact (selectTiles_culled_root _ _ _ _ _ _ _ _ F1 V2).
Qed.

(** With content that does not expire, on a tree whose children point
    back to their parents and whose root has no parent, a second call in
    the same frame, on the tileset the first call left, returns as the
    first did and with the same [_selectedTiles], in the same order. *)
Theorem selectTiles_twice
    (tree : TileId -> Tile) (X : Externals) (fs : FrameState)
    (skipT hybridT : Tileset -> TileId -> option Tileset)
    (fuel : nat) (ts ts1 : Tileset) (d : option Strategy) :
  noExpiry X ->
  childrenPointBack tree ->
  parent (tree (_root ts)) = None ->
  selectTiles tree X fs skipT hybridT fuel ts = Some (d, ts1) ->
  exists ts2,
    selectTiles tree X fs skipT hybridT fuel ts1 = Some (d, ts2)
    /\ _selectedTiles ts2 = _selectedTiles ts1.
Proof.
  intros HX Hc Hr H.
  destruct (selectTiles_replay tree X fs skipT hybridT fuel ts ts1 d
              HX Hc Hr H) as (ts2 & E & S & _).
  exists ts2. split; [exact E | exact S].
Qed.

(** Under the same conditions and with [debugFreezeFrame] off, the second
    call in the frame asks for no content and touches no tile: it leaves
    [_requestedTiles] empty, and the cache hears of its reset and of
    nothing else. *)
Theorem selectTiles_twice_quiet
    (tree : TileId -> Tile) (X : Externals) (fs : FrameState)
    (skipT hybridT : Tileset -> TileId -> option Tileset)
    (fuel : nat) (ts ts1 : Tileset) (d : option Strategy) :
  noExpiry X ->
  childrenPointBack tree ->
  parent (tree (_root ts)) = None ->
  debugFreezeFrame ts = false ->
  selectTiles tree X fs skipT hybridT fuel ts = Some (d, ts1) ->
  exists ts2,
    selectTiles tree X fs skipT hybridT fuel ts1 = Some (d, ts2)
    /\ _requestedTiles ts2 = []
    /\ _cache ts2 = _cache ts1 ++ [CacheReset].
Proof.
  intros HX Hc Hr F H.
  destruct (selectTiles_replay tree X fs skipT hybridT fuel ts ts1 d
              HX Hc Hr H) as (ts2 & E & _ & Q).
  destruct (Q F) as [Qr Qc].
  exists ts2. split; [exact E|]. split; [exact Qr | exact Qc].
Qed.

Lemma selectTiles_twice_witness :
  exists ts1 ts2,
    selectTiles Examples.twoChildren Examples.inSight Examples.view
      Examples.noSkip Examples.noSkip 3
      (Examples.tileset false 16 10 false false Examples.secondUnloaded)
    = Some (Some BaseTraversal, ts1)
    /\ selectTiles Examples.twoChildren Examples.inSight Examples.view
         Examples.noSkip Examples.noSkip 3 ts1
       = Some (Some BaseTraversal, ts2)
    /\ _selectedTiles ts1 = [0%nat]
    /\ _selectedTiles ts2 = _selectedTiles ts1.
Proof.
  eexists.
  match goal with
  | |- exists ts2, ?e = Some (?d, ?x) /\ _ =>
      assert (E : e = Some (d, x)) by (vm_compute; reflexivity)
  end.
  assert (HX : noExpiry Examples.inSight) by (intros t flags; reflexivity).
  assert (Hc : childrenPointBack Examples.twoChildren).
  { intros [|p] c; cbn; [|intros []].
    intros [<- | [<- | []]]; reflexivity. }
  match type of E with
  | _ = Some (?d, ?x) =>
      destruct (selectTiles_twice Examples.twoChildren Examples.inSight
                  Examples.view Examples.noSkip Examples.noSkip 3
                  (Examples.tileset false 16 10 false false
                     Examples.secondUnloaded) x d HX Hc eq_refl E)
        as (ts2 & E2 & S2)
  end.
  exists ts2. split; [exact E|]. split; [exact E2|].
  split; [reflexivity | exact S2].
Defined.

Lemma selectTiles_twice_quiet_witness :
  exists ts1 ts2,
    selectTiles Examples.twoChildren Examples.inSight Examples.view
      Examples.noSkip Examples.noSkip 3
      (Examples.tileset false 16 10 false false Examples.secondUnloaded)
    = Some (Some BaseTraversal, ts1)
    /\ _requestedTiles ts1 = [2%nat]
    /\ selectTiles Examples.twoChildren Examples.inSight Examples.view
         Examples.noSkip Examples.noSkip 3 ts1
       = Some (Some BaseTraversal, ts2)
    /\ _requestedTiles ts2 = []
    /\ _cache ts2 = _cache ts1 ++ [CacheReset].
Proof.
  eexists.
  match goal with
  | |- exists ts2, ?e = Some (?d, ?x) /\ _ =>
      assert (E : e = Some (d, x)) by (vm_compute; reflexivity)
  end.
  assert (HX : noExpiry Examples.inSight) by (intros t flags; reflexivity).
  assert (Hc : childrenPointBack Examples.twoChildren).
  { intros [|p] c; cbn; [|intros []].
    intros [<- | [<- | []]]; reflexivity. }
  match type of E with
  | _ = Some (?d, ?x) =>
      destruct (selectTiles_twice_quiet Examples.twoChildren Examples.inSight
                  Examples.view Examples.noSkip Examples.noSkip 3
                  (Examples.tileset false 16 10 false false
                     Examples.secondUnloaded) x d HX Hc eq_refl eq_refl E)
        as (ts2 & E2 & R2 & C2)
  end.
  exists ts2. split; [exact E|]. split; [reflexivity|].
  split; [exact E2|]. split; [exact R2 | exact C2].
Defined.

(** ** Selected content is in sight *)

Lemma sameView_refl ts : sameView ts ts.
Proof. intros t. repeat split. Qed.

Lemma sameView_visitTile tree X fs ts t :
  sameView ts (visitTile tree X fs ts t).
Proof.
  intros x. rewrite visitTile_heap.
  destruct (Nat.eqb x t) eqn:E; [|repeat split].
  apply Nat.eqb_eq in E. subst x.
  destruct (Z.eqb _ _); [repeat split|]. cbn zeta.
  destruct (updateExpiration X t _) as [[a u] e].
  destruct (parent (tree t)); repeat split.
Qed.

Lemma sameView_refines ts t v : sameView ts (assign t (set_refines v) ts).
Proof.
  intros x. rewrite heap_assign.
  destruct (Nat.eqb x t) eqn:E; [|repeat split].
  apply Nat.eqb_eq in E. subst x. repeat split.
Qed.

Lemma sameView_selectTile X fs ts t : sameView ts (selectTile X fs ts t).
Proof.
  intros x. rewrite selectTile_heap.
  destruct (Nat.eqb x t) eqn:E; [|repeat split].
  apply Nat.eqb_eq in E. subst x.
  destruct (contentAvailable (heap ts t) && _); [|repeat split].
  destruct (featurePropertiesDirty _); repeat split.
Qed.

Lemma maskTight_mask X s s' t :
  _visibilityPlaneMask (heap s' t) = _visibilityPlaneMask (heap s t) ->
  maskTight X s t -> maskTight X s' t.
Proof. unfold maskTight. intros ->. auto. Qed.

Lemma expanded_view tree X m s s' t :
  _screenSpaceError (heap s' t) = _screenSpaceError (heap s t) ->
  (forall c, maskTight X s c -> maskTight X s' c) ->
  expanded tree X m s t -> expanded tree X m s' t.
Proof.
  unfold expanded. intros -> Hm H G c Hc. apply Hm, (H G c Hc).
Qed.

Lemma walked_sameView tree X fs m s s' :
  sameView s s' -> walked tree X fs m s -> walked tree X fs m s'.
Proof.
  intros V W t Tt.
  destruct (V t) as (Et & Es & Em). rewrite Et in Tt.
  destruct (W t Tt) as [Pt Xt]. split.
  - unfold parentTouched in *. destruct (parent (tree t)) as [p|]; [|exact I].
    destruct (V p) as (Ep & _). rewrite Ep. exact Pt.
  - unfold maskVisible. rewrite Em. intros Vis.
    apply (expanded_view tree X m s s' t Es); [|exact (Xt Vis)].
    intros c. apply maskTight_mask. apply (V c).
Qed.

Lemma admitted_sameView X fs s s' t :
  sameView s s' -> admitted X fs s t -> admitted X fs s' t.
Proof.
  intros V (Tt & Vt & Mt). destruct (V t) as (Et & _ & Em).
  unfold admitted, maskVisible. rewrite Et, Em.
  split; [exact Tt|]. split; [exact Vt|].
  apply (maskTight_mask X s s' t Em Mt).
Qed.

(** What is stable keeps its place on the stack. *)
Lemma admitted_keepsStable tree X fs m s s' t :
  walked tree X fs m s -> keepsStable tree fs s s' ->
  admitted X fs s t -> admitted X fs s' t.
Proof.
  intros W K (Tt & Vt & Mt).
  destruct (K t (conj (proj1 (W t Tt)) (or_introl Tt))) as (_ & C & T).
  unfold admitted, maskVisible. rewrite (core_mask _ _ C).
  split; [exact (T Tt)|]. split; [exact Vt|].
  apply (maskTight_mask X s s' t (core_mask _ _ C) Mt).
Qed.

Section ContentInSight.

Variable tree : TileId -> Tile.
Variable X : Externals.
Variable fs : FrameState.
Hypothesis X_tight : tightContent X.
Hypothesis tree_children : childrenPointBack tree.

Lemma updateTile_maskTight_self s t :
  maskTight X (snd (updateTile tree X fs s t)) t.
Proof.
  unfold maskTight. rewrite updateTile_heap, Nat.eqb_refl.
  cbn [_visibilityPlaneMask set_visibilityPlaneMask]. unfold viewedMask.
  destruct (negb _ && _); intros E; [|discriminate E].
  exact (X_tight _ _ E).
Qed.

Lemma updateTile_maskTight s t y :
  maskTight X s y -> maskTight X (snd (updateTile tree X fs s t)) y.
Proof.
  intros H. destruct (Nat.eqb y t) eqn:E.
  - apply Nat.eqb_eq in E. subst y. apply updateTile_maskTight_self.
  - unfold maskTight. rewrite updateTile_heap, E. exact H.
Qed.

Lemma updateChildren_from_maskTight cs :
  forall any s y,
    maskTight X s y ->
    maskTight X (snd (updateChildren_from tree X fs cs any s)) y.
Proof.
  induction cs as [|c cs IH]; intros any s y H; cbn.
  - exact H.
  - pose proof (updateTile_maskTight s c y H) as H1.
    destruct (updateTile tree X fs s c) as [v s1]. apply IH, H1.
Qed.

(** [updateChildren] leaves every child with a tight mask. *)
Lemma updateChildren_from_tight cs :
  forall any s c, In c cs ->
    maskTight X (snd (updateChildren_from tree X fs cs any s)) c.
Proof.
  induction cs as [|c0 cs IH]; intros any s c Hc; cbn; [destruct Hc|].
  pose proof (updateTile_maskTight_self s c0) as H1.
  destruct (updateTile tree X fs s c0) as [v s1]. cbn [snd] in H1.
  destruct Hc as [<- | Hc].
  - apply updateChildren_from_maskTight, H1.
  - apply IH, Hc.
Qed.

Lemma getVisibility_maskTight s t m y :
  maskTight X s y -> maskTight X (snd (getVisibility tree X fs s t m)) y.
Proof.
  apply (getVisibility_inv tree X fs (fun s => maskTight X s y)).
  - intros s0 t0. apply updateTile_maskTight.
  - intros s0 H. exact H.
Qed.

Lemma updateVisibility_maskTight s t m y :
  maskTight X s y -> maskTight X (snd (updateVisibility tree X fs s t m)) y.
Proof.
  intros H. unfold updateVisibility.
  destruct (Z.eqb _ (frameNumber fs)); [exact H|].
  pose proof (getVisibility_maskTight s t m y H) as H1.
  destruct (getVisibility tree X fs s t m) as [v s1]. cbn [snd] in *.
  unfold maskTight. rewrite heap_assign.
  destruct (Nat.eqb y t) eqn:E; [|exact H1].
  apply Nat.eqb_eq in E. subst y.
  cbn [_visibilityPlaneMask set_visibilityPlaneMask].
  destruct v; [exact H1 | intros E; discriminate E].
Qed.

Lemma loadAndTouch_maskTight s t y :
  maskTight X s y -> maskTight X (loadAndTouch tree fs s t) y.
Proof.
  apply maskTight_mask. apply core_mask, loadAndTouch_core.
Qed.

(** A tight mask stays tight through the loops. *)
Lemma internalBase_loop_maskTight fuel m stack all s r s' y :
  internalBase_loop tree X fs fuel m stack all s = Some (r, s') ->
  maskTight X s y -> maskTight X s' y.
Proof.
  intros H M.
  apply (internalBase_loop_inv tree X fs (fun s => maskTight X s y))
    with (fuel := fuel) (m := m) (stack := stack) (all := all) (ts := s)
         (r := r).
  - intros s0 t0 m0. apply updateVisibility_maskTight.
  - intros s0 t0. apply loadAndTouch_maskTight.
  - exact M.
  - exact H.
Qed.

Lemma base_children_maskTight inner m replace add cs refines stack s r s' y :
  base_children tree X fs inner m replace add cs refines stack s = Some (r, s')
  -> maskTight X s y -> maskTight X s' y.
Proof.
  intros H M.
  apply (base_children_inv tree X fs (fun s => maskTight X s y))
    with (inner := inner) (m := m) (replace := replace) (add := add) (cs := cs)
         (refines := refines) (stack := stack) (ts := s) (r := r).
  - intros s0 t0 m0. apply updateVisibility_maskTight.
  - intros s0 t0. apply loadAndTouch_maskTight.
  - exact M.
  - exact H.
Qed.

Lemma walked_updateVisibility m s c m' :
  walked tree X fs m s ->
  walked tree X fs m (snd (updateVisibility tree X fs s c m')).
Proof.
  intros W t Tt.
  pose proof (updateVisibility_culled tree X fs s c m') as C.
  rewrite (culled_touched _ _ t C) in Tt.
  destruct (W t Tt) as [Pt Xt].
  rewrite (updateVisibility_stable_heap tree X fs s c m' t tree_children
             (conj Pt (or_introl Tt))).
  split.
  - unfold parentTouched in *. destruct (parent (tree t)) as [p|]; [|exact I].
    rewrite (culled_touched _ _ p C). exact Pt.
  - intros Vis G c' Hc'.
    assert (E : _screenSpaceError
                  (heap (snd (updateVisibility tree X fs s c m')) t)
                = _screenSpaceError (heap s t)).
    { rewrite (updateVisibility_stable_heap tree X fs s c m' t tree_children
                 (conj Pt (or_introl Tt))).
      reflexivity. }
    rewrite E in G.
    apply updateVisibility_maskTight, (Xt Vis G c' Hc').
Qed.

(** Where [updateVisibility] leaves a tile visible, the tile is
    expanded. *)
Lemma updateVisibility_expands m s c :
  walked tree X fs m s ->
  maskVisible (heap (snd (updateVisibility tree X fs s c m)) c) = true ->
  expanded tree X m (snd (updateVisibility tree X fs s c m)) c.
Proof.
  intros W. unfold updateVisibility.
  destruct (Z.eqb (_touchedFrame (heap s c)) (frameNumber fs)) eqn:T.
  { cbn [snd]. apply Z.eqb_eq in T. exact (proj2 (W c T)). }
  assert (Out : forall s1,
            maskVisible
              (heap (assign c (fun st => set_visibilityPlaneMask MASK_OUTSIDE st)
                       s1) c) = true ->
            False).
  { intros s1. rewrite heap_assign, Nat.eqb_refl. cbn. discriminate. }
  unfold getVisibility.
  destruct (Z.eqb (_visibilityPlaneMask (heap s c)) MASK_OUTSIDE);
    [cbn [snd]; intros V; destruct (Out _ V)|].
  destruct (hasTilesetContent (tree c) && contentExpired (heap s c));
    [cbn [snd]; intros V; destruct (Out _ V)|].
  destruct (match parent (tree c) with Some _ => _ | None => _ end);
    [cbn [snd]; intros V; destruct (Out _ V)|].
  destruct ((negb (Qle_bool (_screenSpaceError (heap s c)) m)
             || hint_eqb (_optimChildrenWithinParent (tree c)) USE_OPTIMIZATION)
            && negb (Nat.eqb (length (children (tree c))) 0)) eqn:Cd.
  - pose proof (updateChildren_from_tight (children (tree c)) false s) as U.
    fold (updateChildren tree X fs s c) in U.
    destruct (updateChildren tree X fs s c) as [any s2]. cbn [snd] in U.
    destruct (_ && negb any); cbn [snd]; [intros V; destruct (Out _ V)|].
    intros _ _ c' Hc'. unfold maskTight. rewrite heap_assign.
    destruct (Nat.eqb c' c) eqn:E; [|exact (U c' Hc')].
    apply Nat.eqb_eq in E. subst c'.
    cbn [_visibilityPlaneMask set_visibilityPlaneMask]. exact (U c Hc').
  - destruct (_ && negb true); cbn [snd]; [intros V; destruct (Out _ V)|].
    intros _ G c' Hc'. exfalso.
    rewrite heap_assign, Nat.eqb_refl in G.
    cbn [_screenSpaceError set_visibilityPlaneMask] in G.
    unfold Qgtb in G.
    destruct (Nat.eqb (length (children (tree c))) 0) eqn:L.
    + apply Nat.eqb_eq in L.
      destruct (children (tree c)); [destruct Hc' | discriminate L].
    + cbn [negb] in Cd. rewrite andb_true_r in Cd.
      apply orb_false_elim in Cd. destruct Cd as [Cd _].
      rewrite Cd in G. discriminate G.
Qed.

Lemma walked_loadAndTouch m s c :
  walked tree X fs m s ->
  parentTouched tree fs s c ->
  (maskVisible (heap s c) = true -> expanded tree X m s c) ->
  walked tree X fs m (loadAndTouch tree fs s c).
Proof.
  intros W Pc Xc t Tt. rewrite loadAndTouch_touched in Tt.
  assert (B : parentTouched tree fs s t
              /\ (maskVisible (heap s t) = true -> expanded tree X m s t)).
  { destruct (Nat.eqb t c) eqn:E; [|exact (W t Tt)].
    apply Nat.eqb_eq in E. subst t. split; assumption. }
  destruct B as [Pt Xt]. split.
  - apply (parentTouched_keeps tree fs s _ t); [|exact Pt].
    apply keepsTouched_loadAndTouch, keepsTouched_refl.
  - unfold maskVisible.
    rewrite (core_mask _ _ (loadAndTouch_core tree fs s c t)).
    intros Vis.
    apply (expanded_view tree X m s _ t);
      [exact (core_screenSpaceError _ _ (loadAndTouch_core tree fs s c t))
      | intros y; apply loadAndTouch_maskTight
      | exact (Xt Vis)].
Qed.

(** The step both traversals take on a child. *)
Lemma walked_child m s c :
  walked tree X fs m s ->
  parentTouched tree fs s c ->
  walked tree X fs m
    (loadAndTouch tree fs (snd (updateVisibility tree X fs s c m)) c).
Proof.
  intros W Pc.
  pose proof (updateVisibility_culled tree X fs s c m) as C.
  apply walked_loadAndTouch.
  - apply walked_updateVisibility, W.
  - apply (parentTouched_keeps tree fs s _ c); [|exact Pc].
    apply (keepsTouched_culled _ _ _ _ C), keepsTouched_refl.
  - apply updateVisibility_expands, W.
Qed.

Lemma internalBase_children_walked m cs :
  forall stack s,
    walked tree X fs m s ->
    (forall c, In c cs -> parentTouched tree fs s c) ->
    walked tree X fs m (snd (internalBase_children tree X fs m cs stack s)).
Proof.
  induction cs as [|c cs IH]; intros stack s W Hp; cbn.
  - exact W.
  - pose proof (walked_child m s c W (Hp c (or_introl eq_refl))) as W1.
    pose proof (updateVisibility_culled tree X fs s c m) as C.
    destruct (updateVisibility tree X fs s c m) as [v s1]. cbn [snd] in *.
    apply IH; [exact W1|].
    intros c' Hc'. apply (parentTouched_keeps tree fs s _ c').
    + apply keepsTouched_loadAndTouch.
      apply (keepsTouched_culled _ _ _ _ C), keepsTouched_refl.
    + apply Hp. right. exact Hc'.
Qed.

Lemma internalBase_loop_walked fuel m :
  forall stack all s r s',
    internalBase_loop tree X fs fuel m stack all s = Some (r, s') ->
    walked tree X fs m s ->
    (forall x, In x stack -> _touchedFrame (heap s x) = frameNumber fs) ->
    walked tree X fs m s'.
Proof.
  induction fuel as [|fuel IH]; intros stack all s r s' H W Hs;
    destruct stack as [|x stack].
  - cbn in H. injection H as _ <-. exact W.
  - discriminate.
  - cbn in H. injection H as _ <-. exact W.
  - cbn [internalBase_loop] in H.
    destruct ((hasEmptyContent (tree x) || hasTilesetContent (tree x))
              && negb (Nat.eqb (length (children (tree x))) 0)
              && Qgtb (_screenSpaceError (heap s x)) m).
    + assert (Hp : forall c, In c (children (tree x)) ->
                     parentTouched tree fs s c).
      { intros c Hc. unfold parentTouched. rewrite (tree_children x c Hc).
        apply Hs. left. reflexivity. }
      pose proof (internalBase_children_walked m (children (tree x)) stack s
                    W Hp) as W1.
      pose proof (internalBase_children_reached tree X fs m
                    (children (tree x)) stack s Hp) as R1.
      destruct (internalBase_children tree X fs m (children (tree x)) stack s)
        as [stack1 s1]. cbn [fst snd] in *.
      apply (IH _ _ _ _ _ H W1).
      intros y Hy. apply R1; [|exact Hy].
      intros z Hz. split; [|apply W]; apply Hs; right; exact Hz.
    + apply (IH _ _ _ _ _ H W). intros y Hy. apply Hs. right. exact Hy.
Qed.

(** The child loop of the base traversal pushes tiles it may hold. *)
Lemma base_children_walked inner m replace add cs :
  replace || add = true ->
  forall refines stack s r stack' s',
    base_children tree X fs inner m replace add cs refines stack s
      = Some (r, stack', s') ->
    walked tree X fs m s ->
    (forall c, In c cs -> parentTouched tree fs s c /\ maskTight X s c) ->
    (forall t, In t stack -> admitted X fs s t) ->
    walked tree X fs m s' /\ forall t, In t stack' -> admitted X fs s' t.
Proof.
  intros Hra. induction cs as [|c cs IH];
    intros refines stack s r stack' s' H W Hc Hs.
  - cbn in H. injection H as _ <- <-. split; assumption.
  - cbn [base_children] in H.
    pose proof (updateVisibility_culled tree X fs s c m) as C.
    pose proof (walked_updateVisibility m s c m W) as W1.
    pose proof (updateVisibility_expands m s c W) as X1.
    pose proof (updateVisibility_mask tree X fs s c m) as M1.
    pose proof (keepsStable_updateVisibility tree X fs s c m tree_children)
      as F1.
    pose proof (fun y => updateVisibility_maskTight s c m y) as T1.
    destruct (updateVisibility tree X fs s c m) as [v s1].
    cbn [fst snd] in *.
    destruct (Hc c (or_introl eq_refl)) as [Pc Mc].
    assert (K1 : keepsTouched fs s s1)
      by (apply (keepsTouched_culled _ _ _ _ C), keepsTouched_refl).
    set (s2 := if replace || add && v then loadAndTouch tree fs s1 c else s1)
      in *.
    assert (W2 : walked tree X fs m s2).
    { subst s2. destruct (replace || add && v); [|exact W1].
      apply walked_loadAndTouch; [exact W1 | | exact X1].
      exact (parentTouched_keeps _ _ _ _ _ K1 Pc). }
    assert (F2 : keepsStable tree fs s s2).
    { apply (keepsStable_trans _ _ _ _ _ F1). subst s2.
      destruct (replace || add && v);
        [apply keepsStable_loadAndTouch | apply keepsStable_refl]. }
    assert (K2 : keepsTouched fs s s2).
    { subst s2. destruct (replace || add && v); [|exact K1].
      apply keepsTouched_loadAndTouch, K1. }
    assert (T2 : forall y, maskTight X s y -> maskTight X s2 y).
    { intros y My. subst s2. destruct (replace || add && v);
        [apply loadAndTouch_maskTight|]; apply T1, My. }
    assert (B2 : replace || add && v = true ->
                 _touchedFrame (heap s2 c) = frameNumber fs).
    { intros Hb. subst s2. rewrite Hb.
      rewrite loadAndTouch_touched, Nat.eqb_refl. reflexivity. }
    assert (A2 : v = true -> admitted X fs s2 c).
    { intros Hv. split; [|split].
      - apply B2. rewrite Hv, andb_true_r. exact Hra.
      - replace (maskVisible (heap s2 c)) with (maskVisible (heap s1 c)).
        + unfold maskVisible. rewrite <- M1. exact Hv.
        + unfold maskVisible. subst s2.
          destruct (replace || add && v); [|reflexivity].
          rewrite (core_mask _ _ (loadAndTouch_core tree fs s1 c c)).
          reflexivity.
      - apply T2, Mc. }
    assert (Tail : forall r1 s3,
              base_children tree X fs inner m replace add cs r1
                (if v then c :: stack else stack) s3 = Some (r, stack', s') ->
              walked tree X fs m s3 ->
              keepsStable tree fs s2 s3 ->
              keepsTouched fs s2 s3 ->
              (forall y, maskTight X s2 y -> maskTight X s3 y) ->
              walked tree X fs m s'
              /\ forall t, In t stack' -> admitted X fs s' t).
    { intros r1 s3 H3 W3 F3 K3 T3. apply (IH _ _ _ _ _ _ H3 W3).
      - intros c' Hc'. destruct (Hc c' (or_intror Hc')) as [P M]. split.
        + exact (parentTouched_keeps _ _ _ _ _
                   (keepsTouched_trans _ _ _ _ K2 K3) P).
        + apply T3, T2, M.
      - assert (Old : forall t, In t stack -> admitted X fs s3 t).
        { intros t Ht.
          apply (admitted_keepsStable tree X fs m s s3 t W
                   (keepsStable_trans _ _ _ _ _ F2 F3)), Hs, Ht. }
        intros t Ht. destruct v; [|exact (Old t Ht)].
        destruct Ht as [<- | Ht]; [|exact (Old t Ht)].
        exact (admitted_keepsStable tree X fs m s2 s3 c W2 F3 (A2 eq_refl)). }
    destruct (refines && replace) eqn:Err.
    + destruct (hasEmptyContent (tree c) || hasTilesetContent (tree c)).
      * destruct (executeInternalBaseTraversal tree X fs inner s2 c m)
          as [[r1 s3]|] eqn:E3; [|discriminate H].
        unfold executeInternalBaseTraversal in E3.
        apply (Tail _ _ H).
        -- apply (internalBase_loop_walked inner m _ _ _ _ _ E3 W2).
           intros x [<- | []]. apply B2.
           apply andb_prop in Err. destruct Err as [_ ->]. reflexivity.
        -- exact (internalBase_loop_keepsStable tree X fs tree_children
                    _ _ _ _ _ _ _ E3).
        -- exact (internalBase_loop_keepsTouched tree X fs _ _ _ _ _ _ _ E3).
        -- intros y. exact (internalBase_loop_maskTight _ _ _ _ _ _ _ y E3).
      * apply (Tail _ _ H W2);
          [apply keepsStable_refl | apply keepsTouched_refl | auto].
    + apply (Tail _ _ H W2);
        [apply keepsStable_refl | apply keepsTouched_refl | auto].
Qed.

(** The leaves and the desired tiles of the base traversal carry tight
    masks. *)
Lemma base_loop_walked inner fuel m :
  forall stack leaves fr s fr' leaves' s',
    base_loop tree X fs inner fuel m stack leaves fr s
      = Some (fr', leaves', s') ->
    walked tree X fs m s ->
    (forall t, In t stack -> admitted X fs s t) ->
    (forall t, In t leaves -> maskTight X s t) ->
    (forall t, In t (_desiredTiles s) -> maskTight X s t) ->
    (forall t, In t leaves' -> maskTight X s' t)
    /\ (forall t, In t (_desiredTiles s') -> maskTight X s' t).
Proof.
  induction fuel as [|fuel IH];
    intros stack leaves fr s fr' leaves' s' H W Hs Hl Hd;
    destruct stack as [|t stack].
  - cbn in H. injection H as _ <- <-. split; assumption.
  - discriminate.
  - cbn in H. injection H as _ <- <-. split; assumption.
  - rewrite base_loop_cons in H. cbv zeta in H.
    pose proof (sameView_visitTile tree X fs s t) as V.
    assert (Dv := visitTile_desired tree X fs s t).
    set (tsv := visitTile tree X fs s t) in *. clearbody tsv.
    pose proof (walked_sameView tree X fs m s tsv V W) as Wv.
    assert (Tv : forall y, maskTight X s y -> maskTight X tsv y).
    { intros y. apply maskTight_mask. apply (V y). }
    pose proof (admitted_sameView X fs s tsv t V (Hs t (or_introl eq_refl)))
      as (Tt & Vt & Mt).
    set (traverse := negb (Nat.eqb (length (children (tree t))) 0)
                     && Qgtb (_screenSpaceError (heap tsv t)) m) in *.
    set (parentRefines := match parent (tree t) with
                          | Some p => _refines (heap tsv p)
                          | None => true
                          end) in *.
    clearbody parentRefines.
    destruct (if traverse
              then base_children tree X fs inner m
                     (refine_eqb (refine (tree t)) REPLACE)
                     (refine_eqb (refine (tree t)) ADD)
                     (children (tree t)) (traverse && parentRefines) stack tsv
              else Some (traverse && parentRefines, stack, tsv))
      as [[[r1 stack1] s1]|] eqn:E; [|discriminate].
    assert (Step : walked tree X fs m s1
                   /\ (forall x, In x stack1 -> admitted X fs s1 x)
                   /\ (forall y, maskTight X tsv y -> maskTight X s1 y)
                   /\ _desiredTiles s1 = _desiredTiles tsv).
    { destruct traverse eqn:Tr.
      - assert (G : Qgtb (_screenSpaceError (heap tsv t)) m = true)
          by (apply andb_prop in Tr; apply Tr).
        destruct (base_children_walked inner m _ _ (children (tree t))
                    (refine_eqb_total (refine (tree t)))
                    _ _ _ _ _ _ E Wv) as [W1 S1].
        + intros c Hc. split.
          * unfold parentTouched. rewrite (tree_children t c Hc). exact Tt.
          * exact (proj2 (Wv t Tt) Vt G c Hc).
        + intros x Hx.
          apply (admitted_sameView X fs s tsv x V), Hs. right. exact Hx.
        + split; [exact W1|]. split; [exact S1|].
          split; [intros y;
                  exact (base_children_maskTight _ _ _ _ _ _ _ _ _ _ y E)|].
          exact (base_children_desired tree X fs _ _ _ _ _ _ _ _ _ _ E).
      - injection E as _ <- <-. split; [exact Wv|].
        split; [|split; [auto | reflexivity]].
        intros x Hx.
        apply (admitted_sameView X fs s tsv x V), Hs. right. exact Hx. }
    destruct Step as (W1 & S1 & T1 & D1).
    set (s2 := assign t (set_refines r1) s1) in *.
    pose proof (sameView_refines s1 t r1) as V2. fold s2 in V2.
    assert (D2 : _desiredTiles s2 = _desiredTiles s)
      by (change (_desiredTiles s1 = _desiredTiles s); congruence).
    assert (T2 : forall y, maskTight X s y -> maskTight X s2 y).
    { intros y My. apply (maskTight_mask X s1 s2 y); [apply (V2 y)|].
      apply T1, Tv, My. }
    assert (W2 : walked tree X fs m s2)
      by exact (walked_sameView tree X fs m s1 s2 V2 W1).
    assert (S2 : forall x, In x stack1 -> admitted X fs s2 x).
    { intros x Hx. apply (admitted_sameView X fs s1 s2 x V2), S1, Hx. }
    assert (Mt2 : maskTight X s2 t).
    { apply (maskTight_mask X s1 s2 t); [apply (V2 t)|]. apply T1, Mt. }
    clearbody s2.
    set (L := negb r1 && parentRefines
              && (refine_eqb (refine (tree t)) REPLACE
                  && contentAvailable (heap tsv t))) in *.
    set (A := refine_eqb (refine (tree t)) ADD
              && contentAvailable (heap s2 t)) in *.
    set (s3 := if A then set_desiredTiles (push (_desiredTiles s2) t) s2
               else s2) in *.
    assert (Rest : base_loop tree X fs inner fuel m stack1
                     (if L then push leaves t else leaves)
                     (if L then fr && negb traverse else fr) s3
                   = Some (fr', leaves', s'))
      by (destruct L; exact H).
    clear H.
    assert (V3 : sameView s2 s3)
      by (subst s3; destruct A; intros y; repeat split).
    apply (IH _ _ _ _ _ _ _ Rest).
    + exact (walked_sameView tree X fs m s2 s3 V3 W2).
    + intros x Hx. apply (admitted_sameView X fs s2 s3 x V3), S2, Hx.
    + intros x Hx. apply (maskTight_mask X s2 s3 x); [apply (V3 x)|].
      destruct L; [|apply T2, Hl, Hx].
      unfold push in Hx. apply in_app_or in Hx.
      destruct Hx as [Hx | [<- | []]]; [apply T2, Hl, Hx | exact Mt2].
    + intros x Hx. apply (maskTight_mask X s2 s3 x); [apply (V3 x)|].
      subst s3. destruct A; [|rewrite D2 in Hx; apply T2, Hd, Hx].
      cbn in Hx. unfold push in Hx. rewrite D2 in Hx. apply in_app_or in Hx.
      destruct Hx as [Hx | [<- | []]]; [apply T2, Hd, Hx | exact Mt2].
Qed.

End ContentInSight.



(** ** The error metric in double precision *)

Lemma nearestEven_floor (q : Q) :
  (Qfloor q <= Rounded.nearestEven q <= Qfloor q + 1)%Z.
Proof.
  unfold Rounded.nearestEven.
  destruct (q - inject_Z (Qfloor q) ?= 1 # 2); [destruct (Z.even _)| |]; lia.
Qed.

Lemma nearestEven_ge_Z (q : Q) (a : Z) :
  inject_Z a <= q -> (a <= Rounded.nearestEven q)%Z.
Proof.
  intros H. apply Qfloor_resp_le in H. rewrite Qfloor_Z in H.
  pose proof (nearestEven_floor q). lia.
Qed.

Lemma nearestEven_le_Z (q : Q) (b : Z) :
  q <= inject_Z b -> (Rounded.nearestEven q <= b)%Z.
Proof.
  intros H. pose proof (Qfloor_resp_le _ _ H) as F. rewrite Qfloor_Z in F.
  pose proof (nearestEven_floor q) as N.
  destruct (Z.eq_dec (Qfloor q) b) as [E | E]; [|lia].
  unfold Rounded.nearestEven.
  assert (L : q - inject_Z (Qfloor q) < 1 # 2) by (rewrite E; lra).
  destruct (Qcompare_spec (q - inject_Z (Qfloor q)) (1 # 2)) as [A | A | A];
    [exfalso; lra | lia | exfalso; lra].
Qed.

Lemma nearestEven_monotone (q1 q2 : Q) :
  q1 <= q2 -> (Rounded.nearestEven q1 <= Rounded.nearestEven q2)%Z.
Proof.
  intros H. pose proof (Qfloor_resp_le _ _ H) as F.
  pose proof (nearestEven_floor q1) as N1.
  pose proof (nearestEven_floor q2) as N2.
  destruct (Z.eq_dec (Qfloor q1) (Qfloor q2)) as [E | E]; [|lia].
  unfold Rounded.nearestEven. rewrite <- E.
  destruct (Qcompare_spec (q1 - inject_Z (Qfloor q1)) (1 # 2)) as [A | A | A];
    destruct (Qcompare_spec (q2 - inject_Z (Qfloor q1)) (1 # 2))
      as [B | B | B];
    try lia; try (destruct (Z.even (Qfloor q1)); lia); exfalso; lra.
Qed.

Lemma two_power_pos (k : Z) : 0 < 2 ^ k.
Proof. apply Qpower_0_lt. reflexivity. Qed.

Lemma two_power_succ (k : Z) : 2 ^ (k + 1) == 2 * 2 ^ k.
Proof.
  rewrite Qpower_plus by discriminate. change (2 ^ 1) with 2. ring.
Qed.

Lemma two_power_Z (a : Z) : (0 <= a)%Z -> inject_Z (2 ^ a) == 2 ^ a.
Proof. intros H. rewrite (Zpower_Qpower 2 a H). reflexivity. Qed.

(** The binade of a positive number holds it. *)
Lemma binade_spec (q : Q) :
  0 < q -> 2 ^ Rounded.binade q <= q /\ q < 2 ^ (Rounded.binade q + 1).
Proof.
  intros Hq. unfold Rounded.binade.
  set (k := (Z.log2 (Qnum q) - Z.log2 (Z.pos (Qden q)))%Z).
  assert (B : 2 ^ k < 2 * q /\ q < 2 * 2 ^ k).
  { destruct q as [n d]. cbn [Qnum Qden] in *.
    assert (Hn : (0 < n)%Z) by (unfold Qlt in Hq; cbn in Hq; lia).
    destruct (Z.log2_spec n Hn) as [N1 N2].
    destruct (Z.log2_spec (Z.pos d) (Pos2Z.is_pos d)) as [D1 D2].
    pose proof (Z.log2_nonneg n) as Ln.
    pose proof (Z.log2_nonneg (Z.pos d)) as Ld.
    set (ln := Z.log2 n) in *. set (ld := Z.log2 (Z.pos d)) in *.
    rewrite <- Z.add_1_r in N2, D2.
    rewrite Zle_Qle in N1, D1. rewrite Zlt_Qlt in N2, D2.
    rewrite two_power_Z in N1, N2, D1, D2 by lia.
    rewrite two_power_succ in N2, D2.
    assert (Ek : 2 ^ k == 2 ^ ln / 2 ^ ld)
      by (subst k; apply Qpower_minus; discriminate).
    pose proof (two_power_pos ln) as Pn. pose proof (two_power_pos ld) as Pd.
    assert (Dpos : 0 < inject_Z (Z.pos d)) by reflexivity.
    rewrite (Qmake_Qdiv n d), Ek.
    set (N := inject_Z n) in *. set (D := inject_Z (Z.pos d)) in *.
    set (A := 2 ^ ln) in *. set (B := 2 ^ ld) in *.
    split.
    - apply Qlt_shift_div_r; [exact Pd|].
      setoid_replace (2 * (N / D) * B) with ((2 * N * B) / D)
        by (field; intros Z; rewrite Z in Dpos; discriminate Dpos).
      apply Qlt_shift_div_l; [exact Dpos|]. nra.
    - apply Qlt_shift_div_r; [exact Dpos|].
      setoid_replace (2 * (A / B) * D) with ((2 * A * D) / B)
        by (field; intros Z; rewrite Z in Pd; discriminate Pd).
      apply Qlt_shift_div_l; [exact Pd|]. nra. }
  destruct B as [B1 B2].
  destruct (Qle_bool (2 ^ k) q) eqn:E.
  - apply Qle_bool_iff in E. split; [exact E|].
    rewrite two_power_succ. exact B2.
  - assert (L : q < 2 ^ k).
    { apply Qnot_le_lt. intros C. apply Qle_bool_iff in C.
      rewrite C in E. discriminate E. }
    replace (k - 1 + 1)%Z with k by lia. split; [|exact L].
    pose proof (two_power_succ (k - 1)) as S.
    replace (k - 1 + 1)%Z with k in S by lia. lra.
Qed.

Lemma roundPositive_eq (p : Z) (q : Q) :
  Rounded.roundPositive p q
  == inject_Z (Rounded.nearestEven (q / 2 ^ (Rounded.binade q - (p - 1))))
     * 2 ^ (Rounded.binade q - (p - 1)).
Proof. unfold Rounded.roundPositive. apply Qred_correct. Qed.

Lemma ulp_low (p e : Z) :
  (1 <= p)%Z -> inject_Z (2 ^ (p - 1)) * 2 ^ (e - (p - 1)) == 2 ^ e.
Proof.
  intros Hp. rewrite two_power_Z by lia.
  rewrite <- Qpower_plus by discriminate.
  replace (p - 1 + (e - (p - 1)))%Z with e by lia. reflexivity.
Qed.

Lemma ulp_high (p e : Z) :
  (1 <= p)%Z -> inject_Z (2 ^ p) * 2 ^ (e - (p - 1)) == 2 ^ (e + 1).
Proof.
  intros Hp. rewrite two_power_Z by lia.
  rewrite <- Qpower_plus by discriminate.
  replace (p + (e - (p - 1)))%Z with (e + 1)%Z by lia. reflexivity.
Qed.

(** Rounding keeps a number within its binade, upper end included. *)
Lemma roundPositive_bounds (p : Z) (q : Q) :
  (1 <= p)%Z -> 0 < q ->
  2 ^ Rounded.binade q <= Rounded.roundPositive p q
  /\ Rounded.roundPositive p q <= 2 ^ (Rounded.binade q + 1).
Proof.
  intros Hp Hq. destruct (binade_spec q Hq) as [L U].
  rewrite roundPositive_eq.
  set (e := Rounded.binade q) in *.
  pose proof (two_power_pos (e - (p - 1))) as Pu.
  pose proof (ulp_low p e Hp) as El. pose proof (ulp_high p e Hp) as Eh.
  set (u := 2 ^ (e - (p - 1))) in *.
  split.
  - rewrite <- El. apply Qmult_le_compat_r; [|lra].
    rewrite <- Zle_Qle. apply nearestEven_ge_Z.
    apply Qle_shift_div_l; [exact Pu|]. rewrite El. exact L.
  - rewrite <- Eh. apply Qmult_le_compat_r; [|lra].
    rewrite <- Zle_Qle. apply nearestEven_le_Z.
    apply Qle_shift_div_r; [exact Pu|]. rewrite Eh. lra.
Qed.

Lemma roundPositive_monotone (p : Z) (x y : Q) :
  (1 <= p)%Z -> 0 < x -> x <= y ->
  Rounded.roundPositive p x <= Rounded.roundPositive p y.
Proof.
  intros Hp Hx Hxy.
  assert (Hy : 0 < y) by lra.
  destruct (binade_spec x Hx) as [Lx Ux].
  destruct (binade_spec y Hy) as [Ly Uy].
  destruct (roundPositive_bounds p x Hp Hx) as [_ Bx].
  destruct (roundPositive_bounds p y Hp Hy) as [By _].
  destruct (Z.lt_trichotomy (Rounded.binade x) (Rounded.binade y))
    as [Lt | [Eq | Gt]].
  - apply Qle_trans with (2 ^ (Rounded.binade x + 1)); [exact Bx|].
    apply Qle_trans with (2 ^ Rounded.binade y); [|exact By].
    apply Qpower_le_compat_l; [lia | discriminate].
  - rewrite !roundPositive_eq. rewrite Eq.
    pose proof (two_power_pos (Rounded.binade y - (p - 1))) as Pu.
    set (u := 2 ^ (Rounded.binade y - (p - 1))) in *.
    apply Qmult_le_compat_r; [|lra].
    rewrite <- Zle_Qle. apply nearestEven_monotone.
    unfold Qdiv. apply Qmult_le_compat_r; [exact Hxy|].
    apply Qlt_le_weak, Qinv_lt_0_compat, Pu.
  - exfalso.
    assert (C : 2 ^ Rounded.binade x < 2 ^ (Rounded.binade y + 1)) by lra.
    apply Qpower_lt_compat_l_inv in C; [lia | reflexivity].
Qed.

Lemma roundPositive_pos (p : Z) (q : Q) :
  (1 <= p)%Z -> 0 < q -> 0 < Rounded.roundPositive p q.
Proof.
  intros Hp Hq. destruct (roundPositive_bounds p q Hp Hq) as [B _].
  pose proof (two_power_pos (Rounded.binade q)). lra.
Qed.

(** Rounding to nearest keeps the order. *)
Lemma round_monotone (p : Z) (x y : Q) :
  (1 <= p)%Z -> x <= y -> Rounded.round p x <= Rounded.round p y.
Proof.
  intros Hp Hxy. unfold Rounded.round.
  destruct (Qcompare_spec x 0) as [Ex | Lx | Gx];
    destruct (Qcompare_spec y 0) as [Ey | Ly | Gy];
    try (exfalso; lra).
  - apply Qle_refl.
  - apply Qlt_le_weak, roundPositive_pos; assumption.
  - assert (P : 0 < Rounded.roundPositive p (- x))
      by (apply roundPositive_pos; [exact Hp | lra]).
    lra.
  - apply Qopp_le_compat.
    apply roundPositive_monotone; [exact Hp | lra | lra].
  - assert (P : 0 < Rounded.roundPositive p (- x))
      by (apply roundPositive_pos; [exact Hp | lra]).
    pose proof (roundPositive_pos p y Hp Gy). lra.
  - apply roundPositive_monotone; assumption.
Qed.

Lemma round_pos (p : Z) (q : Q) :
  (1 <= p)%Z -> 0 < q -> 0 < Rounded.round p q.
Proof.
  intros Hp Hq. unfold Rounded.round.
  destruct (Qcompare_spec q 0) as [E | L | G]; try (exfalso; lra).
  apply roundPositive_pos; assumption.
Qed.

Lemma binary64_monotone (x y : Q) :
  x <= y -> Rounded.binary64 x <= Rounded.binary64 y.
Proof. apply round_monotone. discriminate. Qed.

Lemma binary64_pos (q : Q) : 0 < q -> 0 < Rounded.binary64 q.
Proof. apply round_pos. discriminate. Qed.

(** With exact arithmetic for rounding, [Rounded.getScreenSpaceError] is
    [getScreenSpaceError]. *)
Lemma getScreenSpaceError_exact X fs ts g t :
  Rounded.getScreenSpaceError (fun q => q) X fs ts g t
  = getScreenSpaceError X fs ts g t.
Proof. reflexivity. Qed.

Lemma Qdiv_le_compat_denominator (a x y : Q) :
  0 <= a -> 0 < x -> x <= y -> a / y <= a / x.
Proof.
  intros Ha Hx Hxy.
  pose proof (Qdiv_le_denominator a 1 x y Ha eq_refl Hx Hxy) as H.
  rewrite !Qmult_1_r in H. exact H.
Qed.

(** C8, as amended.  In the perspective branch, with positive geometric
    error, viewport height and [sseDenominator], a tile at distance [d2]
    has a screen-space error that is not greater than that of a tile at a
    distance [d1 < d2], provided that, when the dynamic error is on, its
    factor is not negative and the fog function does not decrease with
    distance.  This holds of the error as computed with any rounding
    that keeps the order and the sign of positive numbers: with exact
    arithmetic, and with the rounding to nearest of double precision. *)
Theorem getScreenSpaceError_never_grows
    (rnd : Q -> Q) (X : Externals) (fs : FrameState) (ts : Tileset) (g : Q)
    (t1 t2 : TileId) :
  (forall a b, a <= b -> rnd a <= rnd b) ->
  (forall a, 0 < a -> 0 < rnd a) ->
  mode fs <> SCENE2D ->
  isOrthographicFrustum (frustum fs) = false ->
  0 < g -> 0 < drawingBufferHeight fs -> 0 < sseDenominator (frustum fs) ->
  (dynamicScreenSpaceError ts = true ->
     0 <= dynamicScreenSpaceErrorFactor ts /\
     forall a b, a <= b ->
       fog X a (_dynamicScreenSpaceErrorComputedDensity ts)
       <= fog X b (_dynamicScreenSpaceErrorComputedDensity ts)) ->
  _distanceToCamera (heap ts t1) < _distanceToCamera (heap ts t2) ->
  Rounded.getScreenSpaceError rnd X fs ts g t2
  <= Rounded.getScreenSpaceError rnd X fs ts g t1.
Proof.
  intros Hmono Hpos Hmode Hortho Hg Hh Hs Hfog H12.
  unfold Rounded.getScreenSpaceError.
  assert (Eg : Qeq_bool g 0 = false).
  { destruct (Qeq_bool g 0) eqn:E; [|reflexivity].
    apply Qeq_bool_eq in E. rewrite E in Hg. discriminate Hg. }
  rewrite Eg, Hortho.
  assert (Em : mode_eqb (mode fs) SCENE2D = false)
    by (destruct (mode fs); try reflexivity; contradiction Hmode; reflexivity).
  rewrite Em. cbn [orb].
  pose proof (Hpos EPSILON7 EPSILON7_pos) as He.
  set (D1 := Qmax (_distanceToCamera (heap ts t1)) (rnd EPSILON7)).
  set (D2 := Qmax (_distanceToCamera (heap ts t2)) (rnd EPSILON7)).
  assert (HD1 : 0 < D1).
  { eapply Qlt_le_trans; [exact He | apply Q.le_max_r]. }
  assert (HD : D1 <= D2)
    by (apply Q.max_le_compat_r, Qlt_le_weak, H12).
  assert (P1 : 0 < rnd (D1 * sseDenominator (frustum fs)))
    by (apply Hpos, Qmult_lt_0_compat; assumption).
  assert (P12 : rnd (D1 * sseDenominator (frustum fs))
                <= rnd (D2 * sseDenominator (frustum fs))).
  { apply Hmono. apply Qmult_le_compat_r; [exact HD|].
    apply Qlt_le_weak, Hs. }
  assert (Pa : 0 < rnd (g * drawingBufferHeight fs))
    by (apply Hpos, Qmult_lt_0_compat; assumption).
  assert (Herr : rnd (rnd (g * drawingBufferHeight fs)
                      / rnd (D2 * sseDenominator (frustum fs)))
                 <= rnd (rnd (g * drawingBufferHeight fs)
                         / rnd (D1 * sseDenominator (frustum fs)))).
  { apply Hmono. apply Qdiv_le_compat_denominator; [|exact P1 | exact P12].
    apply Qlt_le_weak, Pa. }
  destruct (dynamicScreenSpaceError ts) eqn:Edyn; [|exact Herr].
  destruct (Hfog eq_refl) as [Hfac Hf].
  assert (Hd : rnd (fog X D1 (_dynamicScreenSpaceErrorComputedDensity ts)
                    * dynamicScreenSpaceErrorFactor ts)
               <= rnd (fog X D2 (_dynamicScreenSpaceErrorComputedDensity ts)
                       * dynamicScreenSpaceErrorFactor ts)).
  { apply Hmono. apply Qmult_le_compat_r; [|exact Hfac]. apply Hf, HD. }
  apply Hmono. lra.
Qed.

(** In double precision, at the neighbouring distances of
    [Examples.neighbours]. *)
Lemma getScreenSpaceError_never_grows_witness :
  Rounded.getScreenSpaceError Rounded.binary64 Examples.inSight Examples.view
    (Examples.tileset false 16 10 false false Examples.neighbours) 10 1%nat
  <= Rounded.getScreenSpaceError Rounded.binary64 Examples.inSight
       Examples.view
       (Examples.tileset false 16 10 false false Examples.neighbours)
       10 0%nat.
Proof.
  apply getScreenSpaceError_never_grows.
  - exact binary64_monotone.
  - exact binary64_pos.
  - discriminate.
  - reflexivity.
  - reflexivity.
  - reflexivity.
  - reflexivity.
  - discriminate.
  - reflexivity.
Defined.

(** C8 as stated fails in double precision: the distances
    495435.59165685385 and 495435.5916568539 are doubles, the second the
    next after the first and both far above the floor, and the tiles at
    these distances have the same screen-space error, the double
    0.020184258394835206. *)
Lemma getScreenSpaceError_equal_at_neighbours :
  let ts := Examples.tileset false 16 10 false false Examples.neighbours in
  let d0 := _distanceToCamera (heap ts 0%nat) in
  let d1 := _distanceToCamera (heap ts 1%nat) in
  Rounded.binary64 d0 = d0 /\ Rounded.binary64 d1 = d1
  /\ EPSILON7 < d0 /\ d0 < d1
  /\ Rounded.getScreenSpaceError Rounded.binary64 Examples.inSight
       Examples.view ts 10 0%nat
     = 5817716389486697 # 288230376151711744
  /\ ~ (Rounded.getScreenSpaceError Rounded.binary64 Examples.inSight
          Examples.view ts 10 1%nat
        < Rounded.getScreenSpaceError Rounded.binary64 Examples.inSight
            Examples.view ts 10 0%nat).
Proof.
  cbv zeta.
  split; [vm_compute; reflexivity|]. split; [vm_compute; reflexivity|].
  split; [reflexivity|]. split; [reflexivity|].
  split; [vm_compute; reflexivity|].
  vm_compute. discriminate.
Qed.
